(** * Secondary-index subsystem of acebase: a shallow embedding

    The definitions below follow [src/data-index.js], the in-memory B+ tree
    leaf ([tree-leaf.js]) and the bottom-up tree builder
    ([ts/btree/tree-builder.ts]).  JavaScript arrays of numbers are lists of
    [Z], strings are [string]s of 8-bit characters, objects that are mutated
    in place are threaded through explicitly, and a thrown exception is the
    [Throw] result. *)

From Stdlib Require Import ZArith Lia List Ascii String Bool Permutation Sorted.
From Stdlib Require Import DecimalString.
From Stdlib Require Import Floats.SpecFloat.
From stdpp Require Import base option list gmap strings sorting.

Open Scope string_scope.
Open Scope list_scope.

(** ** Results of code that may throw *)

Inductive result (A : Type) : Type :=
| Ok (a : A)
| Throw (msg : string).
Arguments Ok {A} a.
Arguments Throw {A} msg.

Global Instance result_ret : MRet result := fun A a => Ok a.
Global Instance result_bind : MBind result := fun A B k r =>
  match r with
  | Ok a => k a
  | Throw m => Throw m
  end.

(** ** Record pointers ([_createRecordPointer], [_parseRecordPointer]) *)

Module RecordPointer.

(** [s.charCodeAt(j)] for the 8-bit characters of the model. *)
Definition charCodeAt (c : ascii) : Z := Z.of_N (N_of_ascii c).

(** [String.fromCharCode(x)]; [None] stands for [undefined], which JavaScript
    converts to the code 0.  Codes above 255 do not occur for the 8-bit
    strings of the model and are reduced modulo 256. *)
Definition fromCharCode (code : option Z) : ascii :=
  match code with
  | Some z => ascii_of_N (Z.to_N (z mod 256))
  | None => zero
  end.

(** [for (j ...) recordPointer.push(s.charCodeAt(j))] *)
Fixpoint push_chars (recordPointer : list Z) (s : string) : list Z :=
  match s with
  | EmptyString => recordPointer
  | String c s' => push_chars (recordPointer ++ [charCodeAt c]) s'
  end.

Definition strlen (s : string) : Z := Z.of_nat (String.length s).

Definition _createRecordPointer (wildcards : list string) (key : string) : list Z :=
  let recordPointer := [Z.of_nat (length wildcards)] in
  let recordPointer :=
    fold_left (fun rp wildcard => push_chars (rp ++ [strlen wildcard]) wildcard)
              wildcards recordPointer in
  push_chars (recordPointer ++ [strlen key]) key.

(** [recordPointer[index]]: [None] is [undefined]; an index that is [None]
    is [NaN] (the result of adding [undefined]). *)
Definition at_index (recordPointer : list Z) (index : option Z) : option Z :=
  match index with
  | Some i => if (0 <=? i)%Z then recordPointer !! Z.to_nat i else None
  | None => None
  end.

Definition js_add (a b : option Z) : option Z :=
  match a, b with
  | Some x, Some y => Some (x + y)%Z
  | _, _ => None
  end.

(** Number of iterations of [for (let j = 0; j < bound; j++)]: none when the
    bound is [undefined]. *)
Definition iterations (bound : option Z) : nat :=
  match bound with
  | Some n => Z.to_nat n
  | None => 0%nat
  end.

(** [for (j = ...) s += String.fromCharCode(recordPointer[index+j+1])] *)
Fixpoint read_chars (recordPointer : list Z) (index : option Z) (j : Z) (n : nat) : string :=
  match n with
  | O => ""
  | S n' =>
      String (fromCharCode (at_index recordPointer (js_add index (Some (j + 1)%Z))))
             (read_chars recordPointer index (j + 1)%Z n')
  end.

Fixpoint read_wildcards (recordPointer : list Z) (count : nat) (index : option Z)
    (wildcards : list string) : list string * option Z :=
  match count with
  | O => (wildcards, index)
  | S count' =>
      let length := at_index recordPointer index in
      let wildcard := read_chars recordPointer index 0 (iterations length) in
      read_wildcards recordPointer count' (js_add index (js_add length (Some 1%Z)))
                     (wildcards ++ [wildcard])
  end.

Definition star : ascii := "*"%char.

(** [path.replace(/\*/g, () => { const wildcard = wildcards[i]; i++; return wildcard; })]:
    a binding that is missing is [undefined] and is inserted as that word. *)
Fixpoint replace_stars (wildcards : list string) (i : nat) (path : string) : string :=
  match path with
  | EmptyString => ""
  | String c rest =>
      if Ascii.eqb c star
      then ((match wildcards !! i with Some w => w | None => "undefined" end)
              ++ replace_stars wildcards (S i) rest)%string
      else String c (replace_stars wildcards i rest)
  end.

Record parsed := { key : string; path : string; wildcards : list string }.

Definition _parseRecordPointer (path : string) (recordPointer : list Z) : result parsed :=
  if (length recordPointer =? 0)%nat then Throw "Invalid record pointer length"
  else
    let wildcardsLength := at_index recordPointer (Some 0%Z) in
    let '(wildcards, index) :=
      read_wildcards recordPointer (iterations wildcardsLength) (Some 1%Z) [] in
    let keyLength := at_index recordPointer index in
    let key := read_chars recordPointer index 0 (iterations keyLength) in
    let path :=
      if (0 <? length wildcards)%nat then replace_stars wildcards 0 path else path in
    Ok {| key := key; path := (path ++ "/" ++ key)%string; wildcards := wildcards |}.

(** The substitution as the specification words it: walking the index path,
    every [*] consumes the next binding of the list. *)
Fixpoint substitute (path : string) (bindings : list string) : string :=
  match path with
  | EmptyString => ""
  | String c rest =>
      if Ascii.eqb c star
      then match bindings with
           | w :: ws => (w ++ substitute rest ws)%string
           | [] => String c (substitute rest [])
           end
      else String c (substitute rest bindings)
  end.

Fixpoint count_stars (path : string) : nat :=
  match path with
  | EmptyString => 0
  | String c rest => (if Ascii.eqb c star then 1 else 0) + count_stars rest
  end.

Definition is_ascii (s : string) : Prop :=
  Forall (fun c => (charCodeAt c < 128)%Z) (list_ascii_of_string s).

End RecordPointer.

(** ** The per-index lock ([DataIndex._lock]) *)

Module Lock.

(** A lock request: the object [{ forWriting, comment, release }] built by
    [_lock]; [ticket] tells requests apart. *)
Record request := { ticket : nat; forWriting : bool; comment : string }.

Record lockState := {
  isLocked : bool;
  stateForWriting : option bool;     (* [undefined] is [None] *)
  stateComment : option string
}.

Record state := { _lockQueue : list request; _lockState : lockState }.

(** The [while (true)] loop of [release]: it shifts requests from the queue
    onto [pending]. *)
Fixpoint wake (queue pending : list request) : list request * list request :=
  match queue with
  | [] => (queue, pending)
  | next :: rest =>
      if forWriting next
      then (if (length pending =? 0)%nat then (rest, pending ++ [next])
            else (queue, pending))
      else wake rest (pending ++ [next])
  end.

(** The comment of the lock state after the [for] loop over [pending]. *)
Definition join_comments (pending : list request) : string :=
  fold_left (fun acc lock =>
               ((if (0 <? String.length acc)%nat then acc ++ " && " else acc)
                  ++ comment lock)%string)
            pending "".

(** [lock.release()]: the new state and the requests whose promise is
    resolved, in the order of the calls to [lock.resolve]. *)
Definition release (st : state) : state * list request :=
  let '(queue, pending) := wake (_lockQueue st) [] in
  let lockState :=
    match pending with
    | [] => {| isLocked := false; stateForWriting := None; stateComment := None |}
    | first :: _ =>
        {| isLocked := isLocked (_lockState st);
           stateForWriting := Some (forWriting first);
           stateComment := Some (join_comments pending) |}
    end in
  ({| _lockQueue := queue; _lockState := lockState |}, pending).

(** [_lock(forWriting, comment)]: [Some lock] when the promise is already
    resolved, [None] when the request was queued. *)
Definition _lock (st : state) (lock : request) : state * option request :=
  if isLocked (_lockState st)
  then ({| _lockQueue := _lockQueue st ++ [lock]; _lockState := _lockState st |}, None)
  else ({| _lockQueue := _lockQueue st;
           _lockState := {| isLocked := true;
                            stateForWriting := Some (forWriting lock);
                            stateComment := Some (comment lock) |} |},
        Some lock).

(** The longest run of readers at the head of a queue. *)
Fixpoint readers_prefix (queue : list request) : list request :=
  match queue with
  | [] => []
  | r :: rest => if forWriting r then [] else r :: readers_prefix rest
  end.

(** The index before its first [_lock]: the queue and the state that [_lock]
    makes when they are missing. *)
Definition unlocked : state :=
  {| _lockQueue := [];
     _lockState := {| isLocked := false; stateForWriting := None; stateComment := None |} |}.

(** A use of the lock: a call of [_lock], or the call of [release] by one
    that holds the lock.  Both give the requests whose promise they
    resolve. *)
Inductive use := Request (lock : request) | Release.

Definition step (st : state) (u : use) : state * list request :=
  match u with
  | Request lock => let '(st, granted) := _lock st lock in (st, option_list granted)
  | Release => release st
  end.

(** The uses in turn, with the requests that are resolved, in the order in
    which they are. *)
Fixpoint run (st : state) (uses : list use) : state * list request :=
  match uses with
  | [] => (st, [])
  | u :: rest =>
      let '(st, resolved) := step st u in
      let '(st, later) := run st rest in
      (st, resolved ++ later)
  end.

(** The requests of a list of uses. *)
Definition requests (uses : list use) : list request :=
  omap (fun u => match u with Request lock => Some lock | Release => None end) uses.

End Lock.

(** ** Batch size of the build walk ([DataIndex.build]) *)

Module Build.

Fixpoint contains_star (path : string) : bool :=
  match path with
  | EmptyString => false
  | String c rest => Ascii.eqb c RecordPointer.star || contains_star rest
  end.

(** [/\*/g.exec(path)]: the match array of the first match, or [null].  The
    pattern has no capture group, so the array holds the matched text alone. *)
Definition exec_star (path : string) : option (list string) :=
  if contains_star path then Some ["*"] else None.

(** [hasWildcards ? /\*/g.exec(this.path).length : 0]; [path.indexOf('*') >= 0]
    is [contains_star]. *)
Definition nrOfWildcards (path : string) : result nat :=
  let hasWildcards := contains_star path in
  if hasWildcards
  then match exec_star path with
       | Some m => Ok (length m)
       | None => Throw "TypeError: Cannot read properties of null"
       end
  else Ok 0%nat.

(** [r] is the integer nearest to the real [500 ^ (0.5 ^ w)], that is
    [r - 1/2 <= 500 ^ (1 / 2^w) < r + 1/2], stated on integers by raising
    both sides to the power [2 ^ w]. *)
Definition nearest_root (w : nat) (r : Z) : bool :=
  let e := (2 ^ Z.of_nat w)%Z in
  (((2 * r - 1) ^ e <=? 2 ^ e * 500) && (2 ^ e * 500 <? (2 * r + 1) ^ e))%Z.

(** [Math.round(Math.pow(500, Math.pow(0.5, w)))].  The value lies between 1
    and 500; double arithmetic can differ from the real value only next to a
    tie, which none of the values computed here is. *)
Definition round_pow_500 (w : nat) : Z :=
  match find (nearest_root w) (map Z.of_nat (seq 1 500)) with
  | Some r => r
  | None => 1%Z
  end.

Definition maxBatchSize (path : string) : result Z :=
  w ← nrOfWildcards path; Ok (round_pow_500 w).

End Build.

(** ** Querying an index ([DataIndex.query] and its cache) *)

Fixpoint mapM_result {A B} (f : A -> result B) (l : list A) : result (list B) :=
  match l with
  | [] => Ok []
  | a :: l' => b ← f a; bs ← mapM_result f l'; Ok (b :: bs)
  end.

Module DataIndex.

(** Scalar values that are indexed and queried.  A number is an integer of the
    model. *)
Inductive scalar := SString (s : string) | SNumber (n : Z) | SBool (b : bool).

(** A query value: a scalar, or an array of scalars ([in], [between]).  An
    array is an object: [ref] tells the arrays of the callers apart, and
    [None] is an array that [query] has made itself (the copy with the strings
    in lower case), which no caller holds. *)
Inductive qval := QScalar (x : scalar) | QArray (ref : option nat) (xs : list scalar).

Global Instance scalar_eq_dec : EqDecision scalar.
Proof. solve_decision. Defined.

(** A key of the [Map] of cached values: a scalar counts by its value, an
    array by the object it is. *)
Inductive cacheKey := KScalar (x : scalar) | KArray (ref : option nat).

Global Instance cacheKey_eq_dec : EqDecision cacheKey.
Proof. solve_decision. Defined.

(** A value of the metadata stored with an entry: a scalar, or the array of
    numbers ([None] is [NaN]) that a fulltext phrase check puts in its place. *)
Inductive mdvalue := MScalar (x : scalar) | MNumbers (xs : list (option Z)).

(** What a search reads from the tree for one value and for one entry. *)
Record storedValue := {
  stored_pointer : list Z;
  stored_metadata : list (string * mdvalue)
}.
Record storedEntry := { stored_key : scalar; stored_values : list storedValue }.

(** A value of an entry in memory, an entry, and the results of a query.  The
    [metadata] object of a value is shared by the entry in the cache and by
    every result made from it, so it is a location among the [objects] of the
    state. *)
Definition loc := nat.
Record entryValue := { recordPointer : list Z; metadata : loc }.
Record treeEntry := { entry_key : scalar; values : list entryValue }.
Record IndexQueryResult := {
  key : string; path : string; value : scalar;
  result_metadata : loc
}.
Record IndexQueryResults := {
  items : list IndexQueryResult;
  filterKey : string;
  result_values : option (list entryValue)     (* [results.values], when set *)
}.
Record queryOptions := { filter : option IndexQueryResults }.

Record index := { index_path : string; index_key : string; caseSensitive : bool }.

Record cacheEntry := { results : list treeEntry; reads : nat }.

(** The mutable part of an index that a query touches: the cache
    ([Map<op, Map<val, entry>>], keyed here by the pair), the log of the
    searches made on the tree, and the metadata objects made by these
    searches.  Timers are not part of the model. *)
Record state := {
  _cache : list ((string * cacheKey) * cacheEntry);
  searches : list (string * qval);
  objects : list (list (string * mdvalue))
}.

Definition set_cache (c : list ((string * cacheKey) * cacheEntry)) (st : state) : state :=
  {| _cache := c; searches := searches st; objects := objects st |}.
Definition log_search (op : string) (val : qval) (st : state) : state :=
  {| _cache := _cache st; searches := searches st ++ [(op, val)]; objects := objects st |}.
Definition set_objects (o : list (list (string * mdvalue))) (st : state) : state :=
  {| _cache := _cache st; searches := searches st; objects := o |}.

(** The objects a search makes of what it reads: every value gets a new
    metadata object. *)
Fixpoint load_values (vs : list storedValue) (objs : list (list (string * mdvalue)))
    : list entryValue * list (list (string * mdvalue)) :=
  match vs with
  | [] => ([], objs)
  | v :: rest =>
      let value := {| recordPointer := stored_pointer v; metadata := length objs |} in
      let '(values, objs) := load_values rest (objs ++ [stored_metadata v]) in
      (value :: values, objs)
  end.

Fixpoint load_entries (es : list storedEntry) (objs : list (list (string * mdvalue)))
    : list treeEntry * list (list (string * mdvalue)) :=
  match es with
  | [] => ([], objs)
  | e :: rest =>
      let '(values, objs) := load_values (stored_values e) objs in
      let '(entries, objs) := load_entries rest objs in
      ({| entry_key := stored_key e; values := values |} :: entries, objs)
  end.

Definition validOperators : list string :=
  ["<"; "<="; "=="; "!="; ">="; ">"; "exists"; "!exists"; "between"; "!between";
   "like"; "!like"; "matches"; "!matches"; "in"; "!in"].

(** [validOperators.indexOf(op) < 0] is [negb (is_valid ops op)]. *)
Definition is_valid (ops : list string) (op : string) : bool :=
  existsb (String.eqb op) ops.

Definition lower_char (c : ascii) : ascii :=
  let n := nat_of_ascii c in
  if ((65 <=? n) && (n <=? 90))%nat then ascii_of_nat (n + 32) else c.

(** [s.toLocaleLowerCase(locale)] on the 8-bit strings of the model. *)
Fixpoint toLocaleLowerCase (s : string) : string :=
  match s with
  | EmptyString => EmptyString
  | String c s' => String (lower_char c) (toLocaleLowerCase s')
  end.

Definition lower_scalar (x : scalar) : scalar :=
  match x with
  | SString s => SString (toLocaleLowerCase s)
  | _ => x
  end.

Definition normalize (idx : index) (val : qval) : qval :=
  if caseSensitive idx then val
  else match val with
       | QScalar x => QScalar (lower_scalar x)
       | QArray _ xs => QArray None (map lower_scalar xs)
       end.

Definition cache_key (val : qval) : cacheKey :=
  match val with
  | QScalar x => KScalar x
  | QArray ref _ => KArray ref
  end.

(** The keys of a [Map] are the same: the same scalar, or the same array
    object; an array that a query has made itself is a new object, the same
    as no other key. *)
Definition key_eqb (a b : string * cacheKey) : bool :=
  match snd a with
  | KArray None => false
  | _ => bool_decide (a = b)
  end.

Fixpoint bump_reads (k : string * cacheKey) (c : list ((string * cacheKey) * cacheEntry))
    : list ((string * cacheKey) * cacheEntry) :=
  match c with
  | [] => []
  | (k', e) :: rest =>
      if key_eqb k k'
      then (k', {| results := results e; reads := S (reads e) |}) :: rest
      else (k', e) :: bump_reads k rest
  end.

Fixpoint cache_lookup (k : string * cacheKey) (c : list ((string * cacheKey) * cacheEntry))
    : option cacheEntry :=
  match c with
  | [] => None
  | (k', e) :: rest => if key_eqb k k' then Some e else cache_lookup k rest
  end.

(** [this.cache(op, val)]: a hit counts one more read. *)
Definition cache_get (op : string) (val : qval) (st : state)
    : state * option (list treeEntry) :=
  let k := (op, cache_key val) in
  match cache_lookup k (_cache st) with
  | Some e => (set_cache (bump_reads k (_cache st)) st, Some (results e))
  | None => (st, None)
  end.

(** [this.cache(op, val, results)] *)
Definition cache_set (op : string) (val : qval) (entries : list treeEntry) (st : state)
    : state :=
  let k := (op, cache_key val) in
  set_cache ((k, {| results := entries; reads := 0 |})
               :: List.filter (fun kv => negb (key_eqb k (fst kv))) (_cache st)) st.

(** Digits of [n.toString(36)]. *)
Definition digit36 (d : Z) : ascii :=
  if (d <? 10)%Z then ascii_of_nat (48 + Z.to_nat d) else ascii_of_nat (87 + Z.to_nat d).

Fixpoint toString36_go (fuel : nat) (n : Z) (acc : string) : string :=
  match fuel with
  | O => acc
  | S fuel' =>
      let acc' := String (digit36 (n mod 36)) acc in
      if (n <? 36)%Z then acc' else toString36_go fuel' (n / 36) acc'
  end.

Definition toString36 (n : Z) : string :=
  toString36_go (S (Z.to_nat (Z.log2 n))) n "".

(** The string [val.rp] that [preProcess] attaches to a value. *)
Definition rp_string (v : entryValue) : string :=
  fold_left (fun rp b => (rp ++ toString36 b)%string) (recordPointer v) "".

(** [otherSet.rpTree.find(value.rp)]: the tree is built with unique keys from
    the first value of every [rp], whose record pointer is its position. *)
Fixpoint find_rp (rp : string) (otherSet : list entryValue) (j : nat) : option nat :=
  match otherSet with
  | [] => None
  | v :: rest => if String.eqb (rp_string v) rp then Some j else find_rp rp rest (S j)
  end.

(** [valueEntryIndexes]: the position in [values] of the first value of each
    entry. *)
Fixpoint entry_starts (entries : list treeEntry) (from : nat) : list nat :=
  match entries with
  | [] => []
  | e :: rest => from :: entry_starts rest (from + length (values e))
  end.

(** [valueEntryIndexes.findIndex((entryIndex, i, arr) =>
       i + 1 === arr.length || (entryIndex <= matchIndex && arr[i + 1] > matchIndex))] *)
Fixpoint entry_of_match (starts : list nat) (matchIndex : nat) (i : nat) : option nat :=
  match starts with
  | [] => None
  | entryIndex :: rest =>
      match rest with
      | [] => Some i
      | next :: _ =>
          if ((entryIndex <=? matchIndex) && (matchIndex <? next))%nat then Some i
          else entry_of_match rest matchIndex (S i)
      end
  end.

Definition make_result (idx : index) (entry_key : scalar) (v : entryValue)
    : result IndexQueryResult :=
  rp ← RecordPointer._parseRecordPointer (index_path idx) (recordPointer v);
  Ok {| key := RecordPointer.key rp; path := RecordPointer.path rp;
        value := entry_key; result_metadata := metadata v |}.

(** The loop over the smallest set when a filter is given.  [i] is the
    position of [value] in the smallest set; the values of the filter and of
    the tree are different objects. *)
Fixpoint filter_loop (idx : index) (entries : list treeEntry) (starts : list nat)
    (values_is_smallest : bool) (values otherSet : list entryValue)
    (smallestSet : list entryValue) (i : nat)
    : result (list (IndexQueryResult * entryValue)) :=
  match smallestSet with
  | [] => Ok []
  | value :: rest =>
      here ←
        match find_rp (rp_string value) otherSet 0 with
        | None => Ok []
        | Some j =>
            let mtch := if values_is_smallest then Some value else otherSet !! j in
            let matchIndex := if values_is_smallest then i else j in
            match mtch with
            | None => Throw "TypeError: Cannot read properties of undefined"
            | Some m =>
                match entry_of_match starts matchIndex 0 with
                | None => Throw "TypeError: Cannot read properties of undefined"
                | Some e =>
                    match entries !! e with
                    | None => Throw "TypeError: Cannot read properties of undefined"
                    | Some entry =>
                        r ← make_result idx (entry_key entry) m; Ok [(r, m)]
                    end
                end
            end
        end;
      more ← filter_loop idx entries starts values_is_smallest values otherSet rest (S i);
      Ok (here ++ more)
  end.

(** The callback of [entriesPromise.then] in [query]. *)
Definition build_results (idx : index) (entries : list treeEntry) (options : queryOptions)
    : result IndexQueryResults :=
  match filter options with
  | Some flt =>
      let values := flat_map DataIndex.values entries in
      let starts := entry_starts entries 0 in
      (* [options.filter.values]: results whose [values] were deleted or never
         set give [Array.prototype.values] here, a function, whose [length]
         is 0 and which has no elements *)
      let filterValues := default [] (result_values flt) in
      let filter_is_smallest := (length filterValues <? length values)%nat in
      let smallestSet := if filter_is_smallest then filterValues else values in
      let otherSet := if filter_is_smallest then values else filterValues in
      found ← filter_loop idx entries starts (negb filter_is_smallest) values otherSet
                          smallestSet 0;
      Ok {| items := map fst found; filterKey := index_key idx;
            result_values := Some (map snd found) |}
  | None =>
      found ← mapM_result
                (fun entry =>
                   mapM_result (fun v => r ← make_result idx (entry_key entry) v; Ok (r, v))
                               (values entry))
                entries;
      Ok {| items := map fst (concat found); filterKey := index_key idx;
            result_values := Some (map snd (concat found)) |}
  end.

Section Query.

(** [tree.search(op, val, { entries: true })] of the binary tree on disk, whose
    code is not part of the sources at hand: the entries it returns. *)
Variable tree_search : string -> qval -> list storedEntry.

(** The part of [query] that runs before the first promise: the check of the
    operator, the case folding and the cache probe. *)
Definition query_begin (idx : index) (op : string) (val : qval) (st : state)
    : result (state * qval * option (list treeEntry)) :=
  if negb (is_valid validOperators op)
  then Throw "TypeError: Cannot use operator to query index"
  else
    let val := normalize idx val in
    let '(st, cached) := cache_get op val st in
    Ok (st, val, cached).

(** The promise chain of [query]: the search of the tree when the cache
    missed, the caching of its entries, and the results. *)
Definition query_finish (idx : index) (op : string) (val : qval)
    (cached : option (list treeEntry)) (options : queryOptions) (st : state)
    : state * result IndexQueryResults :=
  let '(st, entries) :=
    match cached with
    | Some entries => (st, entries)
    | None =>
        let '(entries, objs) := load_entries (tree_search op val) (objects st) in
        let st := set_objects objs (log_search op val st) in
        (cache_set op val entries st, entries)
    end in
  (st, build_results idx entries options).

(** [query(op, val, options = { filter: undefined })]; an absent third argument
    is [None]. *)
Definition query (idx : index) (op : string) (val : qval) (options : option queryOptions)
    (st : state) : state * result IndexQueryResults :=
  let options := default {| filter := None |} options in
  match query_begin idx op val st with
  | Throw m => (st, Throw m)
  | Ok (st, val, cached) => query_finish idx op val cached options st
  end.

(** [count(op, val)]: the [valueCount] of a search, without the cache. *)
Definition count (idx : index) (op : string) (val : qval) (st : state) : state * nat :=
  let val := normalize idx val in
  (log_search op val st, length (flat_map stored_values (tree_search op val))).

End Query.

End DataIndex.

(** ** Array indexes ([ArrayIndex.query]) *)

Module ArrayIndex.
Import DataIndex.

Definition validOperators : list string := ["contains"; "!contains"].

Section Query.
Variable tree_search : string -> qval -> list storedEntry.

(** [query(op, val)]: the method declares two parameters, so whatever else a
    caller passes ([extra]) is dropped. *)
Definition query (idx : index) (op : string) (val : qval) (extra : option queryOptions)
    (st : state) : state * result IndexQueryResults :=
  if negb (is_valid validOperators op)
  then (st, Throw "Array indexes can only be queried with operator contains and !contains")
  else
    let searchOp :=
      if String.eqb op "contains" then Some "=="
      else if String.eqb op "!contains" then Some "!="
      else None in
    match searchOp with
    | Some searchOp => DataIndex.query tree_search idx searchOp val None st
    | None => (st, Throw "TypeError: Cannot use operator to query index")
    end.

End Query.
End ArrayIndex.

(** ** Geo indexes ([GeoIndex.query]) *)

Module GeoIndex.
Import DataIndex.

Definition validOperators : list string := ["geo:nearby"].

Section Query.
Variable tree_search : string -> qval -> list storedEntry.

(** The query value [{ lat, long, radius }].  Its numbers are doubles and the
    geometry of [_getGeoRadiusPrecision] and [_hashesInRadius] is floating
    point arithmetic; the query only uses the list of geohashes they give. *)
Variable geoval : Type.
Variable has_numbers : geoval -> bool.
Variable targetHashes : geoval -> list string.

(** The calls of [super.query] made by [targetHashes.map]: each runs up to its
    cache probe before any of them continues. *)
Fixpoint begin_all (idx : index) (hashes : list string) (st : state)
    : result (state * list (qval * option (list treeEntry))) :=
  match hashes with
  | [] => Ok (st, [])
  | hash :: rest =>
      '(st, val, cached) ← query_begin idx "like" (QScalar (SString (hash ++ "*")%string)) st;
      '(st, more) ← begin_all idx rest st;
      Ok (st, (val, cached) :: more)
  end.

Fixpoint finish_all (idx : index) (started : list (qval * option (list treeEntry)))
    (st : state) : state * result (list IndexQueryResults) :=
  match started with
  | [] => (st, Ok [])
  | (val, cached) :: rest =>
      let '(st, r) := query_finish tree_search idx "like" val cached {| filter := None |} st in
      let '(st, rs) := finish_all idx rest st in
      (st, set ← r; sets ← rs; Ok (set :: sets))
  end.

Definition query (idx : index) (op : string) (val : geoval) (extra : option queryOptions)
    (st : state) : state * result IndexQueryResults :=
  if negb (is_valid validOperators op)
  then (st, Throw "Geo indexes can not be queried with this operator")
  else if negb (has_numbers val)
  then (st, Throw "geo:nearby query must supply an object with properties .lat, .long and .radius")
  else
    match begin_all idx (targetHashes val) st with
    | Throw m => (st, Throw m)
    | Ok (st, started) =>
        let '(st, sets) := finish_all idx started st in
        (st, resultSets ← sets;
             Ok {| items := flat_map items resultSets; filterKey := index_key idx;
                   result_values := None |})
    end.

End Query.
End GeoIndex.

(** ** The header of an index file ([DataIndex._writeIndexHeader]) *)

Local Unset Elimination Schemes.

(** The bitwise operators of JavaScript work on 32-bit signed integers. *)
Definition to_int32 (z : Z) : Z := ((z + 2 ^ 31) mod 2 ^ 32 - 2 ^ 31)%Z.
Definition js_shr (a n : Z) : Z := Z.shiftr (to_int32 a) n.
Definition js_and (a b : Z) : Z := to_int32 (Z.land (to_int32 a) (to_int32 b)).
Definition js_or (a b : Z) : Z := to_int32 (Z.lor (to_int32 a) (to_int32 b)).
Definition js_shl (a n : Z) : Z := to_int32 (Z.shiftl (to_int32 a) n).

Module IndexHeader.

(** The values [addValueBytes] tells apart with [typeof] and [instanceof];
    [JObject] is any other value ([null], a plain object, ...). *)
Inductive jsvalue :=
| JUndefined
| JString (s : string)
| JNumber (n : Z)
| JBoolean (b : bool)
| JArray (items : list jsvalue)
| JObject.

Set Elimination Schemes.

Definition DISK_BLOCK_SIZE : Z := 4096%Z.

(** An array holds at most [2^32 - 1] elements; a [push] beyond that throws
    a [RangeError]. *)
Definition MAX_ARRAY_LENGTH : Z := (2 ^ 32 - 1)%Z.

(** [textEncoder.encode(value)]: UTF-8 of the 8-bit characters of the model. *)
Fixpoint encode (s : string) : list Z :=
  match s with
  | EmptyString => []
  | String c rest =>
      let code := RecordPointer.charCodeAt c in
      (if (code <? 128)%Z then [code]
       else [Z.lor 192 (Z.shiftr code 6); Z.lor 128 (Z.land code 63)]) ++ encode rest
  end.

Definition length_bytes (n : nat) : list Z :=
  [js_and (js_shr (Z.of_nat n) 8) 255; js_and (Z.of_nat n) 255].

Definition uint32_bytes (n : Z) : list Z :=
  [js_and (js_shr n 24) 255; js_and (js_shr n 16) 255; js_and (js_shr n 8) 255; js_and n 255].

Section Header.

(** [numberToBytes] of acebase-core, the 8 bytes of a number. *)
Variable numberToBytes : Z -> list Z.

Definition addNameBytes (bytes : list Z) (name : string) : list Z :=
  RecordPointer.push_chars (bytes ++ [RecordPointer.strlen name]) name.

Fixpoint addValueBytes (bytes : list Z) (value : jsvalue) {struct value} : result (list Z) :=
  match value with
  | JUndefined => Ok (bytes ++ [0%Z])
  | JString s =>
      let bytes := bytes ++ [1%Z] in
      let valBytes := encode s in
      Ok ((bytes ++ length_bytes (length valBytes)) ++ valBytes)
  | JNumber n =>
      let bytes := bytes ++ [2%Z] in
      let valBytes := numberToBytes n in
      Ok ((bytes ++ length_bytes (length valBytes)) ++ valBytes)
  | JBoolean b => Ok ((bytes ++ [3%Z]) ++ [if b then 1%Z else 0%Z])
  | JArray items =>
      let bytes := bytes ++ [4%Z] in
      if (65535 <? Z.of_nat (length items))%Z
      then Throw "Array is too large to store. Max length is 0xffff"
      else
        (fix each (items : list jsvalue) (bytes : list Z) {struct items} : result (list Z) :=
           match items with
           | [] => Ok bytes
           | val :: rest =>
               match addValueBytes bytes val with
               | Ok bytes => each rest bytes
               | Throw m => Throw m
               end
           end) items (bytes ++ length_bytes (length items))
  | JObject => Throw "Invalid value type"
  end.

(** An object is the list of its own properties, in the order of
    [Object.keys]. *)
Fixpoint addInfo_each (bytes : list Z) (obj : list (string * jsvalue)) : result (list Z) :=
  match obj with
  | [] => Ok bytes
  | (key, value) :: rest =>
      bytes ← addValueBytes (addNameBytes bytes key) value; addInfo_each bytes rest
  end.

Definition addInfoBytes (bytes : list Z) (obj : list (string * jsvalue)) : result (list Z) :=
  addInfo_each (bytes ++ [Z.of_nat (length obj)]) obj.

(** [while (header.length % DISK_BLOCK_SIZE !== 0) { header.push(0); }] *)
Fixpoint align (fuel : nat) (header : list Z) : result (list Z) :=
  if (Z.of_nat (length header) mod DISK_BLOCK_SIZE =? 0)%Z then Ok header
  else match fuel with
       | O => Throw "alignment loop still running"
       | S fuel' =>
           if (Z.of_nat (length header) <? MAX_ARRAY_LENGTH)%Z
           then align fuel' (header ++ [0%Z])
           else Throw "RangeError: Invalid array length"
       end.

(** The fields of the index and of its default tree that go into the header. *)
Record index := {
  type : jsvalue; path : jsvalue; key : jsvalue; includeKeys : jsvalue;
  caseSensitive : jsvalue; textLocale : jsvalue;
  tree_class : jsvalue; tree_version : jsvalue
}.

Record treeStatistics := { totalEntries : jsvalue; totalValues : jsvalue }.

(** What the call leaves behind: the bytes of [Buffer.from(header)] written
    to the file, the [length] of the resolved object, the position
    [treeRefIndex] that [treeLengthCallback] patches at [+4], and the new
    [treeDetails.fileIndex]. *)
Record written := {
  bytes : list Z;
  headerLength : Z;
  treeRefIndex : nat;
  fileIndex : Z
}.

Definition signature : list Z := [65; 67; 69; 66; 65; 83; 69; 73; 68; 88]%Z.

(** [Buffer.from(array)] keeps the low 8 bits of every element. *)
Definition Buffer_from (l : list Z) : list Z := map (fun x => x mod 256)%Z l.

(** [header[i] = b0; header[i+1] = b1; ...] *)
Definition set_uint32 (header : list Z) (i : nat) (n : Z) : list Z :=
  match uint32_bytes n with
  | [b0; b1; b2; b3] => <[i + 3 := b3]> (<[i + 2 := b2]> (<[i + 1 := b1]> (<[i := b0]> header)))
  | _ => header
  end.

Definition _writeIndexHeader (this : index) (stats : treeStatistics) : result written :=
  let indexEntries := totalEntries stats in
  let indexedValues := totalValues stats in
  let header := signature ++ [1%Z] ++ [0; 0; 0; 0]%Z in
  let indexInfo :=
    [("type", type this); ("version", JNumber 1); ("path", path this); ("key", key this);
     ("include", includeKeys this); ("cs", caseSensitive this);
     ("locale", textLocale this)] in
  header ← addInfoBytes header indexInfo;
  let header := header ++ [1%Z] in
  let treeName := "default" in
  let header := addNameBytes header treeName in
  let treeRefIndex := length header in
  let header := header ++ [0; 0; 0; 0]%Z in
  let header := header ++ [0; 0; 0; 0]%Z in
  let extraTreeInfo :=
    [("class", tree_class this); ("version", tree_version this);
     ("entries", indexEntries); ("values", indexedValues)] in
  header ← addInfoBytes header extraTreeInfo;
  header ← (if (Z.of_nat (length header) <=? MAX_ARRAY_LENGTH)%Z then Ok header
            else Throw "RangeError: Invalid array length");
  header ← align (Z.to_nat DISK_BLOCK_SIZE) header;
  let headerLength := Z.of_nat (length header) in
  let header := set_uint32 header 11 headerLength in
  let header := set_uint32 header treeRefIndex headerLength in
  Ok {| bytes := Buffer_from header; headerLength := headerLength;
        treeRefIndex := treeRefIndex; fileIndex := headerLength |}.

End Header.

(** [reader.getUint32()] at a position: four bytes, big-endian. *)
Definition getUint32 (bytes : list Z) (i : nat) : option Z :=
  b0 ← bytes !! i; b1 ← bytes !! (i + 1)%nat; b2 ← bytes !! (i + 2)%nat;
  b3 ← bytes !! (i + 3)%nat;
  Some (((b0 * 256 + b1) * 256 + b2) * 256 + b3)%Z.

(** [pfs.write(fd, buffer, 0, buffer.length, position)]: the bytes of the
    buffer take their place in the file from [position] on; a file that ends
    before [position] is filled up with zeros. *)
Definition write_at (file : list Z) (position : nat) (buffer : list Z) : list Z :=
  take position (file ++ replicate (position - length file) 0%Z)
  ++ buffer ++ drop (position + length buffer) file.

(** [treeLengthCallback(treeByteLength)] of the object that
    [_writeIndexHeader] resolves with, on the file that holds the header. *)
Definition treeLengthCallback (w : written) (file : list Z) (treeByteLength : Z) : list Z :=
  write_at file (treeRefIndex w + 4) (Buffer_from (uint32_bytes treeByteLength)).

End IndexHeader.

(** ** Reading an index file ([DataIndex.readFromFile]) *)

Local Unset Elimination Schemes.

Module IndexFile.
Import IndexHeader.

(** The values that [readValue] gives. *)
Inductive value :=
| VUndefined
| VString (s : string)
| VNumber (n : Z)
| VBoolean (b : bool)
| VArray (items : list value).

Set Elimination Schemes.

(** [pfs.read(fd, Buffer.alloc(n))] with the file at the position [pos]: the
    [n] bytes from there on, zero where the file has ended.  The reads follow
    one another in the file, and a file holds bytes. *)
Definition read (file : list Z) (pos n : nat) : list Z :=
  let got := take n (drop pos file) in
  got ++ replicate (n - length got) 0%Z.

(** [header[index]]: [None] is [undefined], and an index that is [None] is
    [NaN]. *)
Definition at_ (header : list Z) (index : option nat) : option Z :=
  i ← index; header !! i.

(** A byte in a bitwise operation; [undefined] counts as 0 there. *)
Definition int_of (b : option Z) : Z := default 0%Z b.

(** [index + n] and [index += n]; [undefined] makes it [NaN]. *)
Definition plus (index : option nat) (n : option Z) : option nat :=
  i ← index; k ← n; Some (i + Z.to_nat k)%nat.

(** [header.slice(index, index + length)]; [NaN] counts as 0 for both
    ends. *)
Definition slice_at (header : list Z) (index : option nat) (length : Z) : list Z :=
  match index with
  | Some i => take (Z.to_nat length) (drop i header)
  | None => []
  end.

Definition is_type (valueType : option Z) (n : Z) : bool :=
  match valueType with
  | Some t => (t =? n)%Z
  | None => false
  end.

(** [(header[index] << 24) | (header[index+1] << 16) | (header[index+2] << 8)
     | header[index+3]] *)
Definition int32_at (header : list Z) (index : option nat) : Z :=
  js_or (js_or (js_or (js_shl (int_of (at_ header index)) 24)
                      (js_shl (int_of (at_ header (plus index (Some 1%Z)))) 16))
               (js_shl (int_of (at_ header (plus index (Some 2%Z)))) 8))
        (int_of (at_ header (plus index (Some 3%Z)))).

Section Reader.

(** [textDecoder.decode] and [bytesToNumber] of acebase-core. *)
Variable decode : list Z -> string.
Variable bytesToNumber : list Z -> Z.

(** [for (j ...) keyName += String.fromCharCode(header[index+j])] *)
Fixpoint read_name (header : list Z) (index : option nat) (j : nat) (n : nat) : string :=
  match n with
  | O => ""
  | S n' =>
      String (RecordPointer.fromCharCode (at_ header (plus index (Some (Z.of_nat j)))))
             (read_name header index (S j) n')
  end.

(** [readKey()], with the [index] it leaves. *)
Definition readKey (header : list Z) (index : option nat) : string * option nat :=
  let keyLength := at_ header index in
  let index := plus index (Some 1%Z) in
  let keyName := read_name header index 0 (Z.to_nat (int_of keyLength)) in
  (keyName, plus index keyLength).

(** [readValue()], with the [index] it leaves; [None] when [fuel] nested
    arrays were not enough. *)
Fixpoint readValue (fuel : nat) (header : list Z) (index : option nat)
    : option (value * option nat) :=
  match fuel with
  | O => None
  | S fuel' =>
      let valueType := at_ header index in
      let index := plus index (Some 1%Z) in
      let '(valueLength, index) :=
        if is_type valueType 0 then (0%Z, index)
        else if is_type valueType 3 then (1%Z, index)
        else (js_or (js_shl (int_of (at_ header index)) 8)
                    (int_of (at_ header (plus index (Some 1%Z)))),
              plus index (Some 2%Z)) in
      if is_type valueType 1
      then Some (VString (decode (slice_at header index valueLength)),
                 plus index (Some valueLength))
      else if is_type valueType 2
      then Some (VNumber (bytesToNumber (slice_at header index valueLength)),
                 plus index (Some valueLength))
      else if is_type valueType 3
      then Some (VBoolean (bool_decide (at_ header index = Some 1%Z)),
                 plus index (Some valueLength))
      else if is_type valueType 4
      then (fix each (n : nat) (index : option nat) (arr : list value)
              : option (value * option nat) :=
              match n with
              | O => Some (VArray arr, index)
              | S n' =>
                  match readValue fuel' header index with
                  | Some (v, index) => each n' index (arr ++ [v])
                  | None => None
                  end
              end) (Z.to_nat valueLength) index []
      else Some (VUndefined, plus index (Some valueLength))
  end.

(** The loop of [readInfo]: [info[key] = value] for each of the entries. *)
Fixpoint read_entries (fuel : nat) (header : list Z) (n : nat) (index : option nat)
    (info : gmap string value) : option (gmap string value * option nat) :=
  match n with
  | O => Some (info, index)
  | S n' =>
      let '(key, index) := readKey header index in
      match readValue fuel header index with
      | Some (value, index) => read_entries fuel header n' index (<[key := value]> info)
      | None => None
      end
  end.

Definition readInfo (fuel : nat) (header : list Z) (index : option nat)
    : option (gmap string value * option nat) :=
  let infoCount := at_ header index in
  read_entries fuel header (Z.to_nat (int_of infoCount)) (plus index (Some 1%Z)) ∅.

(** An index as its constructor and [readFromFile] make it; [class] tells
    [DataIndex] ("normal"), [ArrayIndex], [FullTextIndex] and [GeoIndex]
    apart, and a tree is the object of its details. *)
Record dataIndex := {
  class : string;
  path : string;
  key : value;
  caseSensitive : bool;
  textLocale : value;
  includeKeys : value;
  trees : gmap string (gmap string value)
}.

(** A value in a condition. *)
Definition truthy (v : value) : bool :=
  match v with
  | VUndefined => false
  | VString s => negb (String.eqb s "")
  | VNumber n => negb (n =? 0)%Z
  | VBoolean b => b
  | VArray _ => true
  end.

(** [path.replace(/\/\*$/, "")] *)
Definition strip_wildcard (path : string) : string :=
  match rev (list_ascii_of_string path) with
  | "*"%char :: "/"%char :: rest => string_of_list_ascii (rev rest)
  | _ => path
  end.

Definition default_tree : gmap string value :=
  <["values" := VNumber 0]>
    (<["entries" := VNumber 0]>
       (<["version" := VNumber 1]>
          (<["class" := VString "BPlusTree"]>
             (<["byteLength" := VNumber 0]> (<["fileIndex" := VNumber 0]> ∅))))).

(** [new DataIndex(storage, path, key, options)] and the constructors of its
    subclasses, which first refuse the key [{key}]. *)
Definition new_index (class : string) (path key : value) (cs locale include : value)
    : result dataIndex :=
  if negb (String.eqb class "normal")
     && match key with VString k => String.eqb k "{key}" | _ => false end
  then Throw "Cannot create index on node keys"
  else
    include ←
      match include with
      | VString s => Ok (VArray [VString s])
      | VUndefined | VArray _ => Ok include
      | _ => Throw "includeKeys argument must be a string, an Array of strings, or undefined"
      end;
    path ←
      match path with
      | VString p => Ok (strip_wildcard p)
      | VUndefined => Throw "TypeError: Cannot read properties of undefined"
      | _ => Throw "TypeError: path.replace is not a function"
      end;
    Ok {| class := class; path := path; key := key;
          caseSensitive := match cs with VBoolean true => true | _ => false end;
          textLocale := if truthy locale then locale else VString "en";
          includeKeys := if truthy include then include else VArray [];
          trees := {[ "default" := default_tree ]} |}.

(** [Object.assign(treeInfo, info)] *)
Definition assign (treeInfo info : gmap string value) : gmap string value :=
  info ∪ treeInfo.

(** The loop over the trees of the header. *)
Fixpoint read_trees (fuel : nat) (header : list Z) (n : nat) (index : option nat)
    (trees : gmap string (gmap string value)) : option (gmap string (gmap string value)) :=
  match n with
  | O => Some trees
  | S n' =>
      let '(treeName, index) := readKey header index in
      let treeInfo : gmap string value :=
        <["fileIndex" := VNumber (int32_at header index)]> ∅ in
      let index := plus index (Some 4%Z) in
      let treeInfo := <["byteLength" := VNumber (int32_at header index)]> treeInfo in
      let index := plus index (Some 4%Z) in
      match readInfo fuel header index with
      | Some (info, index) =>
          read_trees fuel header n' index (<[treeName := assign treeInfo info]> trees)
      | None => None
      end
  end.

Definition field (info : gmap string value) (name : string) : value :=
  default VUndefined (info !! name).

(** [readFromFile] on the bytes of the file; the depth of the arrays of a
    header is below its length. *)
Definition readFromFile (file : list Z) : option (result dataIndex) :=
  if negb (bool_decide (read file 0 10 = signature))
  then Some (Throw "File is not an AceBase index")
  else if negb (bool_decide (read file 10 1 = [1%Z]))
  then Some (Throw "Index version is not supported by this version of AceBase")
  else
    let headerLength := int32_at (read file 11 4) (Some 0%nat) in
    if (headerLength - 11 <? 0)%Z
    then Some (Throw "RangeError: The value of size is out of range")
    else
      let header := read file 15 (Z.to_nat (headerLength - 11)) in
      let fuel := S (length header) in
      match readInfo fuel header (Some 0%nat) with
      | None => None
      | Some (indexInfo, index) =>
          match field indexInfo "type" with
          | VString class =>
              if existsb (String.eqb class) ["normal"; "array"; "fulltext"; "geo"]
              then
                match new_index class (field indexInfo "path") (field indexInfo "key")
                        (field indexInfo "cs") (field indexInfo "locale")
                        (field indexInfo "include") with
                | Throw m => Some (Throw m)
                | Ok dataIndex =>
                    let treesCount := at_ header index in
                    match read_trees fuel header (Z.to_nat (int_of treesCount))
                            (plus index (Some 1%Z)) (trees dataIndex) with
                    | None => None
                    | Some trees =>
                        Some (Ok {| class := class; path := path dataIndex;
                                    key := key dataIndex;
                                    caseSensitive := caseSensitive dataIndex;
                                    textLocale := textLocale dataIndex;
                                    includeKeys := includeKeys dataIndex;
                                    trees := trees |})
                    end
                end
              else Some (Throw "Unknown index type")
          | _ => Some (Throw "Unknown index type")
          end
      end.

End Reader.

(** The value that is read back for a value that was written. *)
Fixpoint of_written (v : jsvalue) : value :=
  match v with
  | JUndefined => VUndefined
  | JString s => VString s
  | JNumber n => VNumber n
  | JBoolean b => VBoolean b
  | JArray items => VArray (List.map of_written items)
  | JObject => VUndefined
  end.

End IndexFile.

(** ** Stage B of the build: batches of the build file ([nextBatch], [nextEntry]) *)

Module BuildBatches.

Definition maxValues : Z := 100000%Z.

(** [quickSort] of the end of [data-index.js]: the array is sorted in place
    around the last element of every range. *)
Section QuickSort.
Context {A : Type}.
Variable comparator : A -> A -> Z.

Definition swap (arr : list A) (i j : nat) : list A :=
  match arr !! i, arr !! j with
  | Some x, Some y => <[j := x]> (<[i := y]> arr)
  | _, _ => arr
  end.

(** One round of [for (let i = start; i < end; i++)]. *)
Definition partition_step (pivotValue : A) (st : list A * nat) (i : nat) : list A * nat :=
  let '(sortedArray, splitIndex) := st in
  match sortedArray !! i with
  | Some x =>
      if (comparator x pivotValue =? -1)%Z
      then ((if (splitIndex =? i)%nat then sortedArray else swap sortedArray splitIndex i),
            S splitIndex)
      else st
  | None => st
  end.

Fixpoint recursiveSort (fuel : nat) (sortedArray : list A) (start end_ : Z) : list A :=
  match fuel with
  | O => sortedArray
  | S fuel' =>
      if (end_ - start <? 1)%Z then sortedArray
      else
        match sortedArray !! Z.to_nat end_ with
        | None => sortedArray
        | Some pivotValue =>
            let '(sortedArray, splitIndex) :=
              fold_left (partition_step pivotValue)
                        (seq (Z.to_nat start) (Z.to_nat (end_ - start)))
                        (sortedArray, Z.to_nat start) in
            let sortedArray :=
              match sortedArray !! splitIndex with
              | Some x => <[Z.to_nat end_ := x]> sortedArray
              | None => sortedArray
              end in
            let sortedArray := <[splitIndex := pivotValue]> sortedArray in
            let sortedArray :=
              recursiveSort fuel' sortedArray start (Z.of_nat splitIndex - 1) in
            recursiveSort fuel' sortedArray (Z.of_nat splitIndex + 1) end_
        end
  end.

(** Every call works on a shorter range, so the length of the array bounds
    the depth of the recursion. *)
Definition quickSort (unsortedArray : list A) : list A :=
  recursiveSort (length unsortedArray) unsortedArray 0 (Z.of_nat (length unsortedArray) - 1).

End QuickSort.

Section Batches.

(** The keys of the build file, told apart the way the [Map] of a batch does;
    the values are the bytes kept with a key. *)
Context {K : Type} `{EqDecision K}.

(** [isLess] and [isMore] of [BPlusTree.typeSafeComparison], which is not
    part of the sources at hand. *)
Variable isLess isMore : K -> K -> bool.

(** One entry of the build file; [processed] is its flag byte. *)
Record record := { key : K; value : list Z; processed : bool }.

(** [map.get(key)] *)
Fixpoint map_get (map : list (K * list (list Z))) (k : K) : option (list (list Z)) :=
  match map with
  | [] => None
  | (k', values) :: rest => if decide (k = k') then Some values else map_get rest k
  end.

(** [map.get(key).push(value)] *)
Fixpoint map_push (map : list (K * list (list Z))) (k : K) (v : list Z)
    : list (K * list (list Z)) :=
  match map with
  | [] => []
  | (k', values) :: rest =>
      if decide (k = k') then (k', values ++ [v]) :: rest
      else (k', values) :: map_push rest k v
  end.

(** [map.set(key, [value])] for a key that is not in the map. *)
Definition map_set (map : list (K * list (list Z))) (k : K) (v : list Z)
    : list (K * list (list Z)) :=
  map ++ [(k, [v])].

(** [entry.flagProcessed()]: the flag byte of the entry at [index] becomes 1. *)
Definition flagProcessed (index : nat) (file : list record) : list record :=
  match file !! index with
  | Some r => <[index := {| key := key r; value := value r; processed := true |}]> file
  | None => file
  end.

(** The variables a batch works on: the locals of [nextBatch], the
    [nextBatchStartEntry] around it, and the build file. *)
Record batch := {
  map : list (K * list (list Z));
  more : bool;
  processedValues : Z;
  nextBatchStartEntry : option nat;
  file : list record
}.

(** [nextEntry]: [pending] is what [readNext] has still to read, from the
    entry at position [index] on; [readNext] skips the entries that are
    flagged and resolves [null] at the end of the file. *)
Fixpoint nextEntry (pending : list record) (index : nat) (b : batch) : batch :=
  match pending with
  | [] => b
  | next :: rest =>
      if processed next then nextEntry rest (S index) b
      else
        let processedValues := (processedValues b + 1)%Z in
        match map_get (map b) (key next) with
        | Some _ =>
            nextEntry rest (S index)
              {| map := map_push (map b) (key next) (value next);
                 more := more b; processedValues := processedValues;
                 nextBatchStartEntry := nextBatchStartEntry b;
                 file := flagProcessed index (file b) |}
        | None =>
            if (processedValues <? maxValues)%Z
            then nextEntry rest (S index)
                   {| map := map_set (map b) (key next) (value next);
                      more := more b; processedValues := processedValues;
                      nextBatchStartEntry := nextBatchStartEntry b;
                      file := flagProcessed index (file b) |}
            else {| map := map b; more := true; processedValues := processedValues;
                    nextBatchStartEntry := Some index; file := file b |}
        end
  end.

(** [getBatchEntries] of a batch: reading resumes at [nextBatchStartEntry]
    when the batch before left one, else where the reader stands. *)
Definition nextBatch (file : list record) (position : nat) (startEntry : option nat)
    : batch :=
  let start := default position startEntry in
  nextEntry (drop start file) start
            {| map := []; more := false; processedValues := 0;
               nextBatchStartEntry := None; file := file |}.

Definition compareKeys (a b : K) : Z :=
  if isLess a b then (-1)%Z else if isMore a b then 1%Z else 0%Z.

(** The entries written to the run file [build.<n>]: one for each of the
    sorted keys, with the values of [map.get(key)]. *)
Definition run_entries (b : batch) : list (K * list (list Z)) :=
  let sortedKeys := quickSort compareKeys (List.map fst (map b)) in
  List.map (fun key => (key, default [] (map_get (map b) key))) sortedKeys.

(** The values of the entries with key [k] that a scan of [scanned] reads. *)
Definition values_of (k : K) (scanned : list record) : list (list Z) :=
  List.map value
    (List.filter (fun r => negb (processed r) && bool_decide (key r = k)) scanned).

(** Where a batch stopped reading: at the entry it left for the next batch,
    or at the end of the file. *)
Definition stop_index (b : batch) : nat :=
  default (length (file b)) (nextBatchStartEntry b).

End Batches.

End BuildBatches.

(** ** Fulltext indexes ([TextInfo], [FullTextIndex.query]) *)

Module FullTextIndex.
Import DataIndex.

(** *** Strings *)

Definition is_upper (n : nat) : bool := ((65 <=? n) && (n <=? 90))%nat.
Definition is_lower (n : nat) : bool := ((97 <=? n) && (n <=? 122))%nat.
Definition is_digit (n : nat) : bool := ((48 <=? n) && (n <=? 57))%nat.

(** The class [[\w']] of [_wordsRegex]. *)
Definition is_word_char (c : ascii) : bool :=
  let n := nat_of_ascii c in
  is_upper n || is_lower n || is_digit n || (n =? 95)%nat || (n =? 39)%nat.

(** The class [[\w'?*]] of [searchWordRegex]. *)
Definition is_search_char (c : ascii) : bool :=
  let n := nat_of_ascii c in
  is_word_char c || (n =? 63)%nat || (n =? 42)%nat.

Definition snoc (s : string) (c : ascii) : string := (s ++ String c "")%string.

Definition is_empty (s : string) : bool :=
  match s with EmptyString => true | _ => false end.

(** The matches of [/[class]+/g] with the position each starts at: the maximal
    runs of characters of the class. *)
Fixpoint runs (class : ascii -> bool) (s : string) (pos : nat) (cur : string)
    : list (string * nat) :=
  match s with
  | EmptyString => if is_empty cur then [] else [(cur, (pos - String.length cur)%nat)]
  | String c rest =>
      if class c then runs class rest (S pos) (snoc cur c)
      else (if is_empty cur then [] else [(cur, (pos - String.length cur)%nat)])
             ++ runs class rest (S pos) ""
  end.

(** [s.match(/[class]+/g)]; the empty list is [null]. *)
Definition match_all (class : ascii -> bool) (s : string) : list string :=
  List.map fst (runs class s 0 "").

(** [s.indexOf(needle)], [None] for [-1]. *)
Definition indexOf (s needle : string) : option nat := String.index 0 needle s.

Definition slice_from (s : string) (i : nat) : string :=
  String.substring i (String.length s - i) s.

(** [s.split(sep)] for a separator that is not empty. *)
Fixpoint split_go (fuel : nat) (sep s : string) : list string :=
  match fuel with
  | O => [s]
  | S fuel' =>
      match indexOf s sep with
      | None => [s]
      | Some i =>
          String.substring 0 i s :: split_go fuel' sep (slice_from s (i + String.length sep))
      end
  end.

Definition split (sep s : string) : list string := split_go (String.length s) sep s.

Fixpoint join (sep : string) (l : list string) : string :=
  match l with
  | [] => ""
  | [x] => x
  | x :: rest => (x ++ sep ++ join sep rest)%string
  end.

(** [String(n)] of a position. *)
Definition nat_to_string (n : nat) : string :=
  DecimalString.NilZero.string_of_uint (Nat.to_uint n).

(** *** [TextInfo]: the words of a text and where they occur *)

Record WordInfo := { word : string; indexes : list nat; sourceIndexes : list nat }.

(** The loop over the matches of [_wordsRegex]: [wordIndex] counts them. *)
Fixpoint collect_words (locale_lower : string -> string) (found : list (string * nat))
    (wordIndex : nat) (words : list WordInfo) : list WordInfo :=
  match found with
  | [] => words
  | (w, at_) :: rest =>
      let w := locale_lower w in
      let words :=
        if existsb (fun wi => String.eqb (word wi) w) words
        then List.map (fun wi =>
                         if String.eqb (word wi) w
                         then {| word := w; indexes := indexes wi ++ [wordIndex];
                                 sourceIndexes := sourceIndexes wi ++ [at_] |}
                         else wi) words
        else words ++ [{| word := w; indexes := [wordIndex]; sourceIndexes := [at_] |}] in
      collect_words locale_lower rest (S wordIndex) words
  end.

(** [new TextInfo(text, locale).words] *)
Definition TextInfo (text : string) : list WordInfo :=
  collect_words toLocaleLowerCase (runs is_word_char text 0 "") 0 [].

(** The getters [occurs] of a word, and [uniqueWordCount] and [wordCount] of
    a text. *)
Definition occurs (wi : WordInfo) : nat := length (indexes wi).

Definition uniqueWordCount (words : list WordInfo) : nat := length words.


(** The metadata [{ _occurs_: wordInfo.indexes.join(',') }] that the
    [addCallback] of [build] and [handleRecordUpdate] make for a word. *)
Definition wordMetadata (wi : WordInfo) : list (string * mdvalue) :=
  [("_occurs_", MScalar (SString (join "," (List.map nat_to_string (indexes wi)))))].

(** *** [parseInt] *)

Definition is_space (c : ascii) : bool :=
  let n := nat_of_ascii c in
  (n =? 32)%nat || ((9 <=? n) && (n <=? 13))%nat || (n =? 160)%nat.

Fixpoint trim_start (s : string) : string :=
  match s with
  | String c rest => if is_space c then trim_start rest else s
  | EmptyString => s
  end.

Definition digit_value (c : ascii) : option Z :=
  let n := nat_of_ascii c in
  if is_digit n then Some (Z.of_nat (n - 48))
  else if is_lower n then Some (Z.of_nat (n - 87))
  else if is_upper n then Some (Z.of_nat (n - 55))
  else None.

(** The longest prefix of digits of the radix, as a number; [None] when there
    is no digit. *)
Fixpoint parse_digits (R : Z) (s : string) (acc : option Z) : option Z :=
  match s with
  | EmptyString => acc
  | String c rest =>
      match digit_value c with
      | Some d =>
          if (d <? R)%Z then parse_digits R rest (Some (default 0 acc * R + d))%Z else acc
      | None => acc
      end
  end.

Definition strip_hex (s : string) : option string :=
  match s with
  | String "0" (String "x" rest) => Some rest
  | String "0" (String "X" rest) => Some rest
  | _ => None
  end.

(** [parseInt(string, radix)]; [None] is [NaN]. *)
Definition parseInt (s : string) (radix : Z) : option Z :=
  let inputString := trim_start s in
  let '(sign, inputString) :=
    match inputString with
    | String "-" rest => ((-1)%Z, rest)
    | String "+" rest => (1%Z, rest)
    | _ => (1%Z, inputString)
    end in
  let R := to_int32 radix in
  if ((R =? 0) || (R =? 16))%Z
  then match strip_hex inputString with
       | Some rest => (fun n => sign * n)%Z <$> parse_digits 16 rest None
       | None =>
           (fun n => sign * n)%Z
             <$> parse_digits (if (R =? 0)%Z then 10 else 16) inputString None
       end
  else if ((R <? 2) || (36 <? R))%Z then None
  else (fun n => sign * n)%Z <$> parse_digits R inputString None.

(** [array.map(parseInt)]: the callback of [map] is given the element and its
    position, which [parseInt] takes for the radix. *)
Fixpoint map_parseInt (l : list string) (i : Z) : list (option Z) :=
  match l with
  | [] => []
  | s :: rest => parseInt s i :: map_parseInt rest (i + 1)
  end.

(** *** The check of a phrase *)

(** [sourceIndexes.indexOf(x)] is not [-1]; [NaN] is never found. *)
Definition includes (sourceIndexes : list (option Z)) (x : option Z) : bool :=
  match x with
  | Some n => existsb (fun y => match y with Some m => (m =? n)%Z | None => false end)
                      sourceIndexes
  | None => false
  end.

(** [check(wordMatchIndex, prevWordIndex)] on the second and later words;
    [later] holds the occurrences of the words from [wordMatchIndex] on. *)
Fixpoint check_after (later : list (list (option Z))) (prevWordIndex : option Z) : bool :=
  match later with
  | [] => false
  | sourceIndexes :: rest =>
      let next := (fun n => n + 1)%Z <$> prevWordIndex in
      if includes sourceIndexes next
      then match rest with
           | [] => true
           | _ => check_after rest next
           end
      else false
  end.

(** [check(0)]: every occurrence of the first word is tried. *)
Definition check (occurs : list (list (option Z))) : bool :=
  match occurs with
  | [] => false
  | first :: later => existsb (fun sourceIndex => check_after later sourceIndex) first
  end.

(** *** [FullTextIndex.query] *)

Definition validOperators : list string := ["fulltext:contains"; "fulltext:!contains"].

(** The state of a fulltext index: the state of the base index and the
    entries that [query] itself puts into the same cache under its own
    operators, which hold results. *)
Record state := {
  base : DataIndex.state;
  ft_cache : list ((string * string) * IndexQueryResults)
}.

(** The results of a call, and the key under which this very array sits in the
    cache, when it does. *)
Record outcome := { set : IndexQueryResults; cached_as : option (string * string) }.

Definition ft_key_eqb (a b : string * string) : bool :=
  String.eqb (fst a) (fst b) && String.eqb (snd a) (snd b).

Definition ft_cache_get (k : string * string) (st : state) : option IndexQueryResults :=
  snd <$> List.find (fun kv => ft_key_eqb k (fst kv)) (ft_cache st).

Definition ft_cache_set (k : string * string) (r : IndexQueryResults) (st : state) : state :=
  {| base := base st;
     ft_cache := (k, r) :: List.filter (fun kv => negb (ft_key_eqb k (fst kv))) (ft_cache st) |}.

(** The array cached under [k] has become [r] (elements were pushed to it). *)
Definition ft_cache_update (k : string * string) (r : IndexQueryResults) (st : state) : state :=
  {| base := base st;
     ft_cache := List.map (fun kv => if ft_key_eqb k (fst kv) then (fst kv, r) else kv)
                          (ft_cache st) |}.

Definition has_wildcard (w : string) : bool :=
  match indexOf w "*", indexOf w "?" with
  | None, None => false
  | _, _ => true
  end.

(** [wordOp] of [countPromises] and of [queryWord]; [None] is [undefined]. *)
Definition wordOp (op word : string) : option string :=
  if String.eqb op "fulltext:contains"
  then Some (if has_wildcard word then "like" else "==")
  else if String.eqb op "fulltext:!contains"
  then Some (if has_wildcard word then "!like" else "!=")
  else None.

(** [words.reduce((words, word) => { if (words.indexOf(word) < 0) words.push(word) })] *)
Definition remove_doubles (words : list string) : list string :=
  fold_left (fun acc w => if existsb (String.eqb w) acc then acc else acc ++ [w]) words [].

(** A stable sort, as [Array.prototype.sort] with a comparator that tells
    [less] apart from the rest. *)
Fixpoint insert_sorted {A} (less : A -> A -> bool) (x : A) (l : list A) : list A :=
  match l with
  | [] => [x]
  | y :: rest => if less x y then x :: y :: rest else y :: insert_sorted less x rest
  end.

Definition sort_stable {A} (less : A -> A -> bool) (l : list A) : list A :=
  fold_left (fun acc x => insert_sorted less x acc) l [].

Fixpoint position (w : string) (words : list string) : nat :=
  match words with
  | [] => 0
  | x :: rest => if String.eqb x w then 0 else S (position w rest)
  end.

Definition is_line_end (c : ascii) : bool :=
  let n := nat_of_ascii c in (n =? 10)%nat || (n =? 13)%nat.

Definition quote : ascii := ascii_of_nat 34.

(** After an opening quote and one character: the rest of a lazy [.+?] up to
    the next quote; the length of what was read, the quote included. *)
Fixpoint lazy_phrase (s : string) (acc : string) : option (string * nat) :=
  match s with
  | EmptyString => None
  | String c rest =>
      if Ascii.eqb c quote then Some (acc, S (String.length acc))
      else if is_line_end c then None
      else lazy_phrase rest (snoc acc c)
  end.

(** [/"(.+?)"/g.exec(val)] from the start of [val]: the position of the match,
    its group and its length. *)
Fixpoint exec_phrase (s : string) (pos : nat) : option (nat * string * nat) :=
  match s with
  | EmptyString => None
  | String c rest =>
      let here :=
        if Ascii.eqb c quote
        then match rest with
             | String c1 rest1 =>
                 if is_line_end c1 then None
                 else match lazy_phrase rest1 (String c1 "") with
                      | Some (phrase, len) => Some (pos, phrase, S len)
                      | None => None
                      end
             | EmptyString => None
             end
        else None in
      match here with
      | Some m => Some m
      | None => exec_phrase rest (S pos)
      end
  end.

(** The [while (true)] loop that takes the phrases out of [val]. *)
Fixpoint extract_phrases (fuel : nat) (val : string) (phrases : list string)
    : list string * string :=
  match fuel with
  | O => (phrases, val)
  | S fuel' =>
      match exec_phrase val 0 with
      | None => (phrases, val)
      | Some (index, phrase, len) =>
          extract_phrases fuel'
            (String.substring 0 index val ++ slice_from val (index + len))%string
            (phrases ++ [phrase])
      end
  end.

Definition lookup_key (k : string) (obj : list (string * mdvalue)) : option mdvalue :=
  snd <$> List.find (fun kv => String.eqb (fst kv) k) obj.

(** [match.metadata._occurs_ = match.metadata._occurs_.split(',').map(parseInt)]
    on the metadata object at [l]. *)
Definition convert_occurs (l : loc) (objs : list (list (string * mdvalue)))
    : result (list (list (string * mdvalue))) :=
  match objs !! l with
  | None => Throw "TypeError: Cannot read properties of undefined"
  | Some obj =>
      match lookup_key "_occurs_" obj with
      | Some (MScalar (SString s)) =>
          let parsed := MNumbers (map_parseInt (split "," s) 0) in
          Ok (<[l := List.map (fun kv => if String.eqb (fst kv) "_occurs_"
                                          then (fst kv, parsed) else kv) obj]> objs)
      | Some _ => Throw "TypeError: match.metadata._occurs_.split is not a function"
      | None => Throw "TypeError: Cannot read properties of undefined (reading 'split')"
      end
  end.

Fixpoint convert_all (ls : list loc) (objs : list (list (string * mdvalue)))
    : result (list (list (string * mdvalue))) :=
  match ls with
  | [] => Ok objs
  | l :: rest => objs ← convert_occurs l objs; convert_all rest objs
  end.

Definition occurs_at (objs : list (list (string * mdvalue))) (l : loc)
    : result (list (option Z)) :=
  match objs !! l with
  | Some obj =>
      match lookup_key "_occurs_" obj with
      | Some (MNumbers xs) => Ok xs
      | _ => Throw "TypeError: sourceIndexes is not an array of numbers"
      end
  | None => Throw "TypeError: Cannot read properties of undefined"
  end.

(** The [results.reduce] that keeps the results whose words stand in the order
    of the phrase. *)
Fixpoint phrase_reduce (todo : list IndexQueryResult)
    (resultsPerWord : list (option IndexQueryResults))
    (objs : list (list (string * mdvalue))) (matches : list IndexQueryResult)
    : list (list (string * mdvalue)) * result (list IndexQueryResult) :=
  match todo with
  | [] => (objs, Ok matches)
  | mtch :: rest =>
      let wordMatches :=
        mapM_result
          (fun results =>
             match results with
             | None => Throw "TypeError: Cannot read properties of undefined"
             | Some rs =>
                 match List.find (fun r => String.eqb (path r) (path mtch)) (items rs) with
                 | Some r => Ok r
                 | None => Throw "TypeError: Cannot read properties of undefined"
                 end
             end) resultsPerWord in
      match wordMatches with
      | Throw m => (objs, Throw m)
      | Ok wordMatches =>
          match convert_all (List.map result_metadata wordMatches) objs with
          | Throw m => (objs, Throw m)
          | Ok objs =>
              match mapM_result (occurs_at objs) (List.map result_metadata wordMatches) with
              | Throw m => (objs, Throw m)
              | Ok occurs =>
                  phrase_reduce rest resultsPerWord objs
                                (if check occurs then matches ++ [mtch] else matches)
              end
          end
      end
  end.

(** [merged.push(result)] for the results whose path is not in [merged] yet. *)
Definition merge_results (merged : list IndexQueryResult) (results : list IndexQueryResult)
    : list IndexQueryResult :=
  fold_left (fun merged r =>
               if existsb (fun x => String.eqb (path x) (path r)) merged then merged
               else merged ++ [r]) results merged.

Section Query.

Variable tree_search : string -> qval -> list storedEntry.

Definition super_query (idx : index) (op : string) (val : qval) (options : queryOptions)
    (st : state) : state * result IndexQueryResults :=
  let '(b, r) := DataIndex.query tree_search idx op val (Some options) (base st) in
  ({| base := b; ft_cache := ft_cache st |}, r).

Definition super_count (idx : index) (op : string) (val : qval) (st : state)
    : state * nat :=
  let '(b, n) := DataIndex.count tree_search idx op val (base st) in
  ({| base := b; ft_cache := ft_cache st |}, n).

(** [countPromises]: the number of values of every word. *)
Fixpoint count_words (idx : index) (op : string) (words : list string) (st : state)
    : state * result (list (string * nat)) :=
  match words with
  | [] => (st, Ok [])
  | w :: rest =>
      match wordOp op w with
      | None => (st, Throw "TypeError: operator is undefined")
      | Some wop =>
          let '(st, n) := super_count idx wop (QScalar (SString w)) st in
          let '(st, r) := count_words idx op rest st in
          (st, counts ← r; Ok ((w, n) :: counts))
      end
  end.

(** [nextWord]: the words are queried one after the other, each within the
    results of the one before. *)
Fixpoint nextWord (idx : index) (op : string) (words : list string)
    (w : string) (rest : list string) (results : option IndexQueryResults)
    (resultsPerWord : list (option IndexQueryResults)) (st : state)
    : state * result (IndexQueryResults * list (option IndexQueryResults)) :=
  match wordOp op w with
  | None => (st, Throw "TypeError: operator is undefined")
  | Some wop =>
      let '(st, r) := super_query idx wop (QScalar (SString w)) {| filter := results |} st in
      match r with
      | Throw m => (st, Throw m)
      | Ok fr =>
          let resultsPerWord := <[position w words := Some fr]> resultsPerWord in
          if (length (items fr) =? 0)%nat then (st, Ok (fr, resultsPerWord))
          else match rest with
               | [] => (st, Ok (fr, resultsPerWord))
               | w' :: rest' => nextWord idx op words w' rest' (Some fr) resultsPerWord st
               end
      end
  end.

(** The end of [query]: a value without [ OR ] and without quotes. *)
Definition query_words (idx : index) (op val : string) (phrase : bool) (st : state)
    : state * result outcome :=
  match match_all is_search_char val with
  | [] => (st, Ok {| set := {| items := []; filterKey := index_key idx;
                               result_values := None |};
                     cached_as := None |})
  | found =>
      let words := remove_doubles found in
      let '(st, counts) := count_words idx op words st in
      match counts with
      | Throw m => (st, Throw m)
      | Ok counts =>
          let counts := sort_stable (fun a b => (snd a <? snd b)%nat) counts in
          let allWords := List.map fst counts in
          match allWords with
          | [] => (st, Throw "TypeError: word is undefined")
          | w :: rest =>
              let '(st, r) :=
                nextWord idx op words w rest None (repeat None (length words)) st in
              match r with
              | Throw m => (st, Throw m)
              | Ok (results, resultsPerWord) =>
                  let '(st, kept) :=
                    if phrase && (1 <? length allWords)%nat
                    then
                      let '(objs, kept) :=
                        phrase_reduce (items results) resultsPerWord
                                      (objects (base st)) [] in
                      ({| base := set_objects objs (base st); ft_cache := ft_cache st |},
                       kept)
                    else (st, Ok (items results)) in
                  match kept with
                  | Throw m => (st, Throw m)
                  | Ok kept =>
                      let results := {| items := kept; filterKey := index_key idx;
                                        result_values := None |} in
                      (ft_cache_set (op, val) results st,
                       Ok {| set := results; cached_as := Some (op, val) |})
                  end
              end
          end
      end
  end.

(** [query(op, val, options = {})]; [phrase] is [options.phrase === true].
    The method calls itself for the parts of a value with [ OR ] and for
    phrases, directly, so that a recursion that does not end overflows the
    stack; the calls for the parts of one value are run one after the other. *)
Fixpoint query_rec (fuel : nat) (idx : index) (op val : string) (phrase : bool)
    (st : state) {struct fuel} : state * result outcome :=
  match fuel with
  | O => (st, Throw "RangeError: Maximum call stack size exceeded")
  | S fuel' =>
      if negb (is_valid validOperators op)
      then (st, Throw "Fulltext indexes can only be queried with operator fulltext:contains and fulltext:!contains")
      else
        match ft_cache_get (op, val) st with
        | Some cached => (st, Ok {| set := cached; cached_as := Some (op, val) |})
        | None =>
            let all :=
              fix all (queries : list (string * bool)) (st : state)
                  : state * result (list outcome) :=
                match queries with
                | [] => (st, Ok [])
                | (q, ph) :: rest =>
                    let '(st, r) := query_rec fuel' idx op q ph st in
                    match r with
                    | Throw m => (st, Throw m)
                    | Ok o =>
                        let '(st, rs) := all rest st in
                        (st, os ← rs; Ok (o :: os))
                    end
                end in
            match indexOf val " OR " with
            | Some _ =>
                let queries := split " OR " val in
                let '(st, resultSets) := all (List.map (fun q => (q, false)) queries) st in
                match resultSets with
                | Throw m => (st, Throw m)
                | Ok [] => (st, Throw "TypeError: Cannot read properties of undefined")
                | Ok (first :: others) =>
                    let merged :=
                      fold_left (fun merged o => merge_results merged (items (set o)))
                                others (items (set first)) in
                    let st :=
                      match cached_as first with
                      | Some k =>
                          ft_cache_update k {| items := merged;
                                               filterKey := filterKey (set first);
                                               result_values := result_values (set first) |}
                                          st
                      | None => st
                      end in
                    (st, Ok {| set := {| items := merged; filterKey := index_key idx;
                                         result_values := None |};
                               cached_as := None |})
                end
            | None =>
                match indexOf val (String quote "") with
                | Some _ =>
                    let '(phrases, val) := extract_phrases (String.length val) val [] in
                    let queries :=
                      List.map (fun p => (p, true)) phrases
                      ++ (if (0 <? length (match_all is_search_char val))%nat
                          then [(val, false)] else []) in
                    let '(st, resultSets) := all queries st in
                    match resultSets with
                    | Throw m => (st, Throw m)
                    | Ok resultSets =>
                        let sorted :=
                          sort_stable (fun a b => (length (items (set a))
                                                   <? length (items (set b)))%nat)
                                      resultSets in
                        match sorted with
                        | [] => (st, Throw "TypeError: Cannot read properties of undefined (reading 'reduce')")
                        | shortestSet :: otherSets =>
                            let matches :=
                              List.filter
                                (fun m =>
                                   forallb (fun o =>
                                              existsb (fun x => String.eqb (path x) (path m))
                                                      (items (set o)))
                                           otherSets)
                                (items (set shortestSet)) in
                            (st, Ok {| set := {| items := matches;
                                                 filterKey := index_key idx;
                                                 result_values := None |};
                                       cached_as := None |})
                        end
                    end
                | None => query_words idx op val phrase st
                end
            end
        end
  end.

End Query.

(** *** The entries of a fulltext index *)

(** Modelled from the spec: the glob of [like] on the keys of the tree, with
    [*] for any run of characters and [?] for one character; the search of
    the binary tree is not part of the sources at hand. *)
Fixpoint glob (pattern : list ascii) (s : list ascii) {struct pattern} : bool :=
  match pattern with
  | [] => match s with [] => true | _ => false end
  | p :: pattern' =>
      if Ascii.eqb p "*"
      then (fix star (s : list ascii) : bool :=
              glob pattern' s || match s with [] => false | _ :: s' => star s' end) s
      else match s with
           | [] => false
           | c :: s' => (Ascii.eqb p "?" || Ascii.eqb p c) && glob pattern' s'
           end
  end.

(** Modelled from the spec: [tree.search(op, val)] for the four operators a
    fulltext query uses, on the entries of the tree in the order of its
    leaves. *)
Definition word_search (tree : list storedEntry) (op : string) (val : qval)
    : list storedEntry :=
  match val with
  | QScalar (SString w) =>
      let like e :=
        match stored_key e with
        | SString k => glob (list_ascii_of_string w) (list_ascii_of_string k)
        | _ => false
        end in
      let equal e := bool_decide (stored_key e = SString w) in
      if String.eqb op "==" then List.filter equal tree
      else if String.eqb op "!=" then List.filter (fun e => negb (equal e)) tree
      else if String.eqb op "like" then List.filter like tree
      else if String.eqb op "!like" then List.filter (fun e => negb (like e)) tree
      else []
  | _ => []
  end.

(** The tree that [build] makes of the values it is given: one entry for
    each key with the values of that key, in the order of the keys (the
    batches are sorted and merged, and [createFromEntryStream], which is not
    part of the sources at hand, writes them as they come).  The keys of a
    fulltext index are words, which compare as strings do; an entry with a
    key of another type is passed over. *)
Fixpoint tree_add (tree : list storedEntry) (w : string) (v : storedValue)
    : list storedEntry :=
  match tree with
  | [] => [{| stored_key := SString w; stored_values := [v] |}]
  | e :: rest =>
      match stored_key e with
      | SString k =>
          if String.eqb k w
          then {| stored_key := stored_key e; stored_values := stored_values e ++ [v] |} :: rest
          else if String.ltb w k
          then {| stored_key := SString w; stored_values := [v] |} :: e :: rest
          else e :: tree_add rest w v
      | _ => e :: tree_add rest w v
      end
  end.

(** [Object.assign(wordMetadata, metadata)] at the key [k]: [metadata] is the
    object that [build] makes for a record, with a property for each of
    [includeKeys] ([None] is [undefined], for a key that the record has
    not). *)
Definition assigned (wi : WordInfo) (includeKeys : list string)
    (metadata : string -> option mdvalue) (k : string) : option mdvalue :=
  if existsb (String.eqb k) includeKeys then metadata k
  else lookup_key k (wordMetadata wi).

(** What [addIndexValue] writes of the metadata it is given, and
    [createFromEntryStream] stores under [metadataKeys: this.includeKeys]: the
    values of [includeKeys]; a value that is [undefined] is read back as
    [undefined]. *)
Definition written_metadata (wi : WordInfo) (includeKeys : list string)
    (metadata : string -> option mdvalue) : list (string * mdvalue) :=
  omap (fun k => (fun v => (k, v)) <$> assigned wi includeKeys metadata k) includeKeys.

(** The entries that [build] adds for the record at [wildcards], [key] with
    the text [text] and the included values [metadata]:
    [add(wordInfo.word, recordPointer, wordMetadata)] for every word. *)
Definition index_text (tree : list storedEntry) (includeKeys : list string)
    (metadata : string -> option mdvalue) (wildcards : list string)
    (key text : string) : list storedEntry :=
  fold_left (fun tree wi =>
               tree_add tree (word wi)
                        {| stored_pointer := RecordPointer._createRecordPointer wildcards key;
                           stored_metadata := written_metadata wi includeKeys metadata |})
            (TextInfo text) tree.

End FullTextIndex.

(** ** The leaf of the in-memory B+ tree ([BPlusTreeLeaf.add]) *)

Module TreeLeaf.

Section Leaf.

(** Keys and the metadata of a value. *)
Context {K M : Type}.

(** [_isEqual] and [_isMore] of [typesafe-compare], and [_checkNewEntryArgs]
    of [utils] ([None] when the arguments are accepted), none of which is part
    of the sources at hand. *)
Variable _isEqual _isMore : K -> K -> bool.
Variable _checkNewEntryArgs : K -> list Z -> M -> option string.

Record BPlusTreeLeafEntryValue := { recordPointer : list Z; metadata : M }.
Record BPlusTreeLeafEntry := { key : K; values : list BPlusTreeLeafEntryValue }.

(** A leaf without its [parent]: its entries and its place in the chain of
    leaves.  Leaves and nodes are objects; a number names each. *)
Record BPlusTreeLeaf := {
  entries : list BPlusTreeLeafEntry;
  prevLeaf : option nat;
  nextLeaf : option nat
}.

Inductive child := ChildLeaf (l : nat) | ChildNode (n : nat).
Inductive parentRef := ParentTree | ParentNode (n : nat).

Record BPlusTreeNodeEntry := { node_key : K; ltChild : child }.
Record BPlusTreeNode := {
  node_parent : option nat;
  node_entries : list BPlusTreeNodeEntry;
  gtChild : option child
}.

(** What lies above the leaves: the tree with its settings, its nodes, and
    the [parent] of every leaf. *)
Record upper := {
  maxEntriesPerNode : nat;
  uniqueKeys : bool;
  root : child;
  depth : nat;
  nodes : gmap nat BPlusTreeNode;
  leaf_parent : gmap nat parentRef
}.

Record BPlusTree := { above : upper; leaves : gmap nat BPlusTreeLeaf }.

(** [BPlusTreeNode.insertKey(newKey, fromLeaf, newLeaf)] of the node [n]; the
    code of the node is not part of the sources at hand.  It works on the
    nodes and on the parents of their children, not on the entries or the
    chain of the leaves. *)
Variable insertKey : upper -> nat -> K -> nat -> nat -> result upper.

(** [array.findIndex(p)], [None] for [-1]. *)
Fixpoint findIndex {A} (p : A -> bool) (l : list A) : option nat :=
  match l with
  | [] => None
  | x :: rest => if p x then Some 0%nat else S <$> findIndex p rest
  end.

(** The record pointer as a caller may give it: a byte array, or (deprecated)
    a string that is converted to one. *)
Inductive pointerArg := PointerBytes (b : list Z) | PointerString (s : string).

Definition pointer_bytes (p : pointerArg) : list Z :=
  match p with
  | PointerBytes b => b
  | PointerString s => RecordPointer.push_chars [] s
  end.

Definition set_entries (l : BPlusTreeLeaf) (es : list BPlusTreeLeafEntry) : BPlusTreeLeaf :=
  {| entries := es; prevLeaf := prevLeaf l; nextLeaf := nextLeaf l |}.

(** "Update linked list pointers": the new leaf [newLeaf] with the entries
    [moveEntries] comes into the chain right after [this]. *)
Definition link_after (ls : gmap nat BPlusTreeLeaf) (this newLeaf : nat)
    (thisLeaf : BPlusTreeLeaf) (moveEntries : list BPlusTreeLeafEntry)
    : gmap nat BPlusTreeLeaf :=
  let new := {| entries := moveEntries; prevLeaf := Some this;
                nextLeaf := nextLeaf thisLeaf |} in
  let ls := <[newLeaf := new]> ls in
  let ls :=
    match nextLeaf thisLeaf with
    | Some next =>
        match ls !! next with
        | Some nl => <[next := {| entries := entries nl; prevLeaf := Some newLeaf;
                                  nextLeaf := nextLeaf nl |}]> ls
        | None => ls
        end
    | None => ls
    end in
  <[this := {| entries := entries thisLeaf; prevLeaf := prevLeaf thisLeaf;
               nextLeaf := Some newLeaf |}]> ls.

(** [leaf.add(key, recordPointer, metadata)] on the leaf [this] of the tree. *)
Definition add (t : BPlusTree) (this : nat) (k : K) (recordPointer : pointerArg)
    (md : M) : result BPlusTree :=
  let recordPointer := pointer_bytes recordPointer in
  match _checkNewEntryArgs k recordPointer md with
  | Some err => Throw err
  | None =>
    match leaves t !! this, leaf_parent (above t) !! this with
    | Some leaf, Some parent =>
      let entryValue := {| recordPointer := recordPointer; metadata := md |} in
      match findIndex (fun entry => _isEqual (key entry) k) (entries leaf) with
      | Some entryIndex =>
          if uniqueKeys (above t) then Throw "duplicate-node-key"
          else
            let es :=
              match entries leaf !! entryIndex with
              | Some entry =>
                  <[entryIndex := {| key := key entry;
                                     values := values entry ++ [entryValue] |}]>
                    (entries leaf)
              | None => entries leaf
              end in
            Ok {| above := above t; leaves := <[this := set_entries leaf es]> (leaves t) |}
      | None =>
          let entry := {| key := k; values := [entryValue] |} in
          if (length (entries leaf) =? 0)%nat
          then Ok {| above := above t;
                     leaves := <[this := set_entries leaf [entry]]> (leaves t) |}
          else
            let es :=
              match findIndex (fun otherEntry => _isMore (key otherEntry) k)
                              (entries leaf) with
              | None => entries leaf ++ [entry]
              | Some insertIndex =>
                  take insertIndex (entries leaf) ++ entry :: drop insertIndex (entries leaf)
              end in
            if (maxEntriesPerNode (above t) <? length es)%nat
            then
              let splitIndex := ((maxEntriesPerNode (above t) + 1) / 2)%nat in
              let moveEntries := drop splitIndex es in
              let es := take splitIndex es in
              match moveEntries with
              | [] => Throw "TypeError: Cannot read properties of undefined (reading 'key')"
              | first :: _ =>
                  let copyUpKey := key first in
                  let newLeaf := fresh (dom (leaves t)) in
                  match parent with
                  | ParentTree =>
                      let u := above t in
                      let n := fresh (dom (nodes u)) in
                      let node := {| node_parent := None;
                                     node_entries := [{| node_key := copyUpKey;
                                                         ltChild := ChildLeaf this |}];
                                     gtChild := Some (ChildLeaf newLeaf) |} in
                      let u := {| maxEntriesPerNode := maxEntriesPerNode u;
                                  uniqueKeys := uniqueKeys u;
                                  root := ChildNode n; depth := 2;
                                  nodes := <[n := node]> (nodes u);
                                  leaf_parent := <[newLeaf := ParentNode n]>
                                                   (<[this := ParentNode n]> (leaf_parent u)) |} in
                      Ok {| above := u;
                            leaves := link_after (leaves t) this newLeaf
                                                 (set_entries leaf es) moveEntries |}
                  | ParentNode p =>
                      let u := above t in
                      let u := {| maxEntriesPerNode := maxEntriesPerNode u;
                                  uniqueKeys := uniqueKeys u;
                                  root := root u; depth := depth u; nodes := nodes u;
                                  leaf_parent := <[newLeaf := ParentNode p]> (leaf_parent u) |} in
                      match insertKey u p copyUpKey this newLeaf with
                      | Throw m => Throw m
                      | Ok u =>
                          Ok {| above := u;
                                leaves := link_after (leaves t) this newLeaf
                                                     (set_entries leaf es) moveEntries |}
                      end
                  end
              end
            else Ok {| above := above t;
                       leaves := <[this := set_entries leaf es]> (leaves t) |}
      end
    | _, _ => Throw "TypeError: not a leaf of this tree"
    end
  end.

(** One call of [add]: the leaf and the arguments. *)
Record call := { on_leaf : nat; with_key : K; with_pointer : pointerArg; with_metadata : M }.

Fixpoint add_all (t : BPlusTree) (calls : list call) : result BPlusTree :=
  match calls with
  | [] => Ok t
  | c :: rest =>
      t ← add t (on_leaf c) (with_key c) (with_pointer c) (with_metadata c);
      add_all t rest
  end.

(** A new tree: its root is an empty leaf. *)
Definition empty_tree (maxEntries : nat) (unique : bool) : BPlusTree :=
  {| above := {| maxEntriesPerNode := maxEntries; uniqueKeys := unique;
                 root := ChildLeaf 0; depth := 1; nodes := ∅;
                 leaf_parent := {[ 0%nat := ParentTree ]} |};
     leaves := {[ 0%nat := {| entries := []; prevLeaf := None; nextLeaf := None |} ]} |}.

(** *** The order of the leaves *)

(** The order of the keys. *)
Variable lt : K -> K -> Prop.

Definition keys_of (l : BPlusTreeLeaf) : list K := List.map key (entries l).

(** Every leaf is strictly ascending, and the last key of a leaf is below the
    first key of the next leaf of the chain. *)
Definition leaves_ordered (ls : gmap nat BPlusTreeLeaf) : Prop :=
  (forall l d, ls !! l = Some d -> StronglySorted lt (keys_of d)) /\
  (forall l d l' d' a b,
     ls !! l = Some d -> nextLeaf d = Some l' -> ls !! l' = Some d' ->
     last (keys_of d) = Some a -> head (keys_of d') = Some b -> lt a b).

(** The keys of the leaves from [l] on along [nextLeaf], and of the leaves up
    to [l] along [prevLeaf]; the number of leaves bounds the walk. *)
Fixpoint keys_after (ls : gmap nat BPlusTreeLeaf) (fuel : nat) (l : option nat) : list K :=
  match fuel, l with
  | S fuel', Some x =>
      match ls !! x with
      | Some d => keys_of d ++ keys_after ls fuel' (nextLeaf d)
      | None => []
      end
  | _, _ => []
  end.

Fixpoint keys_before (ls : gmap nat BPlusTreeLeaf) (fuel : nat) (l : option nat) : list K :=
  match fuel, l with
  | S fuel', Some x =>
      match ls !! x with
      | Some d => keys_before ls fuel' (prevLeaf d) ++ keys_of d
      | None => []
      end
  | _, _ => []
  end.

(** The key [k] belongs to the leaf [this]: the keys of the leaves before it
    in the chain are below [k] and those of the leaves after it are above,
    as for the leaf that the tree finds for [k]. *)
Definition routed (ls : gmap nat BPlusTreeLeaf) (this : nat) (k : K) : Prop :=
  exists d, ls !! this = Some d /\
    Forall (fun a => lt a k) (keys_before ls (size ls) (prevLeaf d)) /\
    Forall (fun b => lt k b) (keys_after ls (size ls) (nextLeaf d)).

(** Every call of a sequence is made on the leaf its key belongs to. *)
Fixpoint routed_calls (t : BPlusTree) (calls : list call) : Prop :=
  match calls with
  | [] => True
  | c :: rest =>
      routed (leaves t) (on_leaf c) (with_key c) /\
      match add t (on_leaf c) (with_key c) (with_pointer c) (with_metadata c) with
      | Ok t1 => routed_calls t1 rest
      | Throw _ => True
      end
  end.

End Leaf.

End TreeLeaf.

(** ** The bottom-up builder of the in-memory B+ tree ([BPlusTreeBuilder]) *)

(** The numbers of JavaScript are doubles (IEEE 754 binary64, results rounded
    to the nearest double, ties to even). *)
Module Double.

Definition prec : Z := 53.
Definition emax : Z := 1024.

(** The double of an integer; exact for the integers between [-2^53] and
    [2^53]. *)
Definition of_Z (z : Z) : spec_float := binary_normalize prec emax z 0 false.

Definition mul (x y : spec_float) : spec_float := SFmul prec emax x y.
Definition div (x y : spec_float) : spec_float := SFdiv prec emax x y.

(** [Math.floor(x)] of a finite [x]: [S754_finite s m e] is [m * 2^e], with
    the sign [s]. *)
Definition floor (x : spec_float) : option Z :=
  match x with
  | S754_zero _ => Some 0%Z
  | S754_finite s m e =>
      let n := if s then Zneg m else Zpos m in
      Some (if (0 <=? e)%Z then n * 2 ^ e else n / 2 ^ (- e))%Z
  | S754_infinity _ | S754_nan => None
  end.

(** [Math.floor(n * (fillFactor / 100))]: the quotient is rounded to a double
    and then the product is.  A result that is not finite is no count of
    entries; it only comes up beyond the integers that a double holds, and
    is given as 0 here. *)
Definition floor_percent (n : nat) (fillFactor : Z) : Z :=
  default 0%Z (floor (mul (of_Z (Z.of_nat n)) (div (of_Z fillFactor) (of_Z 100)))).

End Double.

Module TreeBuilder.

(** [Math.ceil(a / b)] for counts [a] and [b > 0]. *)
Definition ceil_div (a b : nat) : nat := (a + b - 1) / b.

(** [list.slice(from, to)]. *)
Definition slice {A} (l : list A) (from to : nat) : list A :=
  take (to - from) (drop from l).

(** [array.pop()]: what is left and the last item, [None] for [undefined]. *)
Definition pop {A} (l : list A) : option (list A * A) :=
  match last l with
  | Some x => Some (removelast l, x)
  | None => None
  end.

(** A [for] loop over the indices [ixs] that stops at the first exception. *)
Fixpoint for_each {S} (body : nat -> S -> result S) (ixs : list nat) (s : S) : result S :=
  match ixs with
  | [] => Ok s
  | i :: rest => s' ← body i s; for_each body rest s'
  end.

Definition TypeError : string := "TypeError".

Section Builder.

(** Keys (which the [Map] of the builder tells apart as values, here with the
    decidable equality) and the metadata of a value. *)
Context {K M : Type} `{EqDecision K}.

(** [_sortCompare] of [typesafe-compare] and [_checkNewEntryArgs] of [utils]
    ([None] when the arguments are accepted), neither of which is part of the
    sources at hand; and [Math.floor(n * (fillFactor / 100))], which the code
    computes in floating point. *)
Variable _sortCompare : K -> K -> Z.
Variable _checkNewEntryArgs : K -> list Z -> list string -> option M -> option string.
Variable floor_percent : nat -> Z -> Z.

Record BPlusTreeLeafEntryValue := { recordPointer : list Z; metadata : option M }.

(** What the [Map] of the builder holds for a key: one value when the keys are
    unique, an array of values otherwise. *)
Inductive listed :=
| Single (v : BPlusTreeLeafEntryValue)
| Several (vs : list BPlusTreeLeafEntryValue).

(** The builder; [list_] is its [Map] [list], in the order of insertion. *)
Record BPlusTreeBuilder := {
  uniqueKeys : bool;
  fillFactor : Z;
  metadataKeys : list string;
  list_ : list (K * listed);
  indexedValues : nat
}.

Definition new_builder (uniqueKeys : bool) (fillFactor : Z) (metadataKeys : list string)
    : BPlusTreeBuilder :=
  {| uniqueKeys := uniqueKeys; fillFactor := fillFactor; metadataKeys := metadataKeys;
     list_ := []; indexedValues := 0 |}.

Fixpoint map_get (l : list (K * listed)) (k : K) : option listed :=
  match l with
  | [] => None
  | (k', v) :: rest => if decide (k' = k) then Some v else map_get rest k
  end.

(** The list with [f] applied to what it holds for [k]. *)
Fixpoint map_alter (f : listed -> listed) (l : list (K * listed)) (k : K) : list (K * listed) :=
  match l with
  | [] => []
  | (k', v) :: rest =>
      if decide (k' = k) then (k', f v) :: rest else (k', v) :: map_alter f rest k
  end.

Definition set_list (b : BPlusTreeBuilder) (l : list (K * listed)) : BPlusTreeBuilder :=
  {| uniqueKeys := uniqueKeys b; fillFactor := fillFactor b; metadataKeys := metadataKeys b;
     list_ := l; indexedValues := S (indexedValues b) |}.

Definition add (b : BPlusTreeBuilder) (key : K) (recordPointer : list Z)
    (metadata : option M) : result BPlusTreeBuilder :=
  match _checkNewEntryArgs key recordPointer (metadataKeys b) metadata with
  | Some err => Throw err
  | None =>
      let entryValue := {| recordPointer := recordPointer; metadata := metadata |} in
      match map_get (list_ b) key with
      | Some existing =>
          if uniqueKeys b then Throw "unique-key-violation"
          else
            match existing with
            | Several vs =>
                Ok (set_list b (map_alter (fun _ => Several (vs ++ [entryValue])) (list_ b) key))
            | Single _ => Throw TypeError
            end
      | None =>
          Ok (set_list b
                (list_ b ++ [(key, if uniqueKeys b then Single entryValue
                                  else Several [entryValue])]))
      end
  end.

(** An [add] call with its arguments, and a sequence of them on one builder. *)
Record call := { with_key : K; with_pointer : list Z; with_metadata : option M }.

Fixpoint add_all (b : BPlusTreeBuilder) (calls : list call) : result BPlusTreeBuilder :=
  match calls with
  | [] => Ok b
  | c :: rest =>
      b' ← add b (with_key c) (with_pointer c) (with_metadata c); add_all b' rest
  end.

(** [isEqual(entryValue.recordPointer, recordPointer)] of [remove]: both are
    arrays and every element of the stored pointer is found at its position
    in the other ([val1.every((v, i) => val2[i] === v)]); a pointer that is
    not given is [undefined], which no stored pointer equals. *)
Fixpoint every_at (val1 val2 : list Z) : bool :=
  match val1 with
  | [] => true
  | v :: rest1 =>
      match val2 with
      | v2 :: rest2 => bool_decide (v2 = v) && every_at rest1 rest2
      | [] => false
      end
  end.

Definition isEqual (val1 : list Z) (val2 : option (list Z)) : bool :=
  match val2 with
  | Some val2 => every_at val1 val2
  | None => false
  end.

(** [array.findIndex(p)], [None] for [-1]. *)
Fixpoint findIndex {A} (p : A -> bool) (l : list A) : option nat :=
  match l with
  | [] => None
  | x :: rest => if p x then Some 0%nat else S <$> findIndex p rest
  end.

(** [this.list.delete(key)] *)
Fixpoint map_delete (l : list (K * listed)) (k : K) : list (K * listed) :=
  match l with
  | [] => []
  | (k', v) :: rest => if decide (k' = k) then rest else (k', v) :: map_delete rest k
  end.

Definition with_list (b : BPlusTreeBuilder) (l : list (K * listed)) : BPlusTreeBuilder :=
  {| uniqueKeys := uniqueKeys b; fillFactor := fillFactor b; metadataKeys := metadataKeys b;
     list_ := l; indexedValues := indexedValues b |}.

(** [entryValue.recordPointer] *)
Definition pointer_of (entryValue : BPlusTreeLeafEntryValue) : list Z :=
  recordPointer entryValue.

(** [remove(key, recordPointer)]; [indexedValues] stays as it is. *)
Definition remove (b : BPlusTreeBuilder) (key : K) (recordPointer : option (list Z))
    : result BPlusTreeBuilder :=
  if uniqueKeys b then Ok (with_list b (map_delete (list_ b) key))
  else
    match map_get (list_ b) key with
    | Some (Several entryValues) =>
        match findIndex (fun entryValue =>
                           isEqual (pointer_of entryValue) recordPointer)
                        entryValues with
        | Some valIndex =>
            if (length entryValues =? 1)%nat
            then Ok (with_list b (map_delete (list_ b) key))
            else Ok (with_list b
                       (map_alter (fun _ => Several (delete valIndex entryValues))
                                  (list_ b) key))
        | None => Ok b
        end
    | _ => Throw TypeError
    end.

(** [list.sort((a, b) => _sortCompare(a.key, b.key))]: the sort of an array is
    stable, so that with a comparator that orders the keys it gives what the
    insertion of each item before the first one that is not below it gives. *)
Fixpoint sort_insert (x : K * listed) (l : list (K * listed)) : list (K * listed) :=
  match l with
  | [] => [x]
  | y :: rest =>
      if (_sortCompare x.1 y.1 <=? 0)%Z then x :: y :: rest else y :: sort_insert x rest
  end.

Fixpoint sort (l : list (K * listed)) : list (K * listed) :=
  match l with
  | [] => []
  | x :: rest => sort_insert x (sort rest)
  end.

Record BPlusTreeLeafEntry := { key : K; values : list BPlusTreeLeafEntryValue }.

(** Leaves and nodes.  The builder changes a node only while it is one of
    the [parentNodes] of the level it works on; from the next level on the
    node is a child and only its [parent] is set, which is left out here, as
    are [prevLeaf] and [nextLeaf] of the leaves.  A child is therefore held
    as a value.  An entry of a node is its key with its [ltChild]. *)
Inductive node :=
| BPlusTreeLeaf (entries : list BPlusTreeLeafEntry)
| BPlusTreeNode (entries : list (K * node)) (gtChild : option node).

(** One of the [parentNodes]: a node in the making.  [new BPlusTreeNode(tree,
    null)] has no entries and no [gtChild] yet. *)
Record parentNode := { p_entries : list (K * node); p_gtChild : option node }.

Definition new_node : parentNode := {| p_entries := []; p_gtChild := None |}.

Definition to_node (p : parentNode) : node := BPlusTreeNode (p_entries p) (p_gtChild p).

(** [n.entries[0].key] and [n.entries[0].ltChild], of a leaf or of a node; a
    leaf entry has no [ltChild], and the code goes on to read [entries] of
    that [undefined]. *)
Definition first_key (n : node) : result K :=
  match n with
  | BPlusTreeLeaf (e :: _) => Ok (key e)
  | BPlusTreeNode ((k, _) :: _) _ => Ok k
  | _ => Throw TypeError
  end.

Definition first_ltChild (n : node) : result node :=
  match n with
  | BPlusTreeNode ((_, c) :: _) _ => Ok c
  | _ => Throw TypeError
  end.

(** [while (!(ltChild instanceof BPlusTreeLeaf)) ltChild = ltChild.entries[0].ltChild]
    followed by [ltChild.entries[0].key]. *)
Fixpoint descend (n : node) : result (list BPlusTreeLeafEntry) :=
  match n with
  | BPlusTreeLeaf es => Ok es
  | BPlusTreeNode ((_, c) :: _) _ => descend c
  | BPlusTreeNode [] _ => Throw TypeError
  end.

Definition descend_key (n : node) : result K :=
  es ← descend n;
  match es with
  | e :: _ => Ok (key e)
  | [] => Throw TypeError
  end.

(** The tree as far as [create] sets it.  [new BPlusTree(...)] is not part of
    the sources at hand; its [depth] is taken to start at 1, the depth of a
    tree of one leaf (the leaf sets it to 2 when it makes the first node). *)
Record BPlusTree := {
  maxEntriesPerNode : nat;
  tree_uniqueKeys : bool;
  tree_metadataKeys : list string;
  tree_fillFactor : Z;
  root : option node;
  depth : nat
}.

Section Create.

(** The sorted list and the constants of one [create]. *)
Variable sorted_list : list (K * listed).
Variable entriesPerNode entriesPerLeaf : nat.

Definition minParentEntries : nat := Nat.max 1 (entriesPerNode / 2).
Definition nrOfLeafs : nat := Nat.max 1 (ceil_div (length sorted_list) entriesPerLeaf).
Definition parentConnections : nat := entriesPerNode + 1.

(** "Create leaf entries" for the leaf [i]. *)
Definition leaf_entry (kvp : K * listed) : BPlusTreeLeafEntry :=
  {| key := kvp.1;
     values := match kvp.2 with Single v => [v] | Several vs => vs end |}.

Definition new_leaf (i : nat) : node :=
  let fromIndex := i * entriesPerLeaf in
  BPlusTreeLeaf (leaf_entry <$> slice sorted_list fromIndex (fromIndex + entriesPerLeaf)).

(** One round of the loop that moves an entry of the previous parent to the
    last parent; [child] is the last leaf or node, [j] counts the rounds that
    are left. *)
Fixpoint move_entries (creatingLeafs : bool) (child : node) (j : nat)
    (prevParent : option parentNode) (parent : parentNode)
    : result (option parentNode * parentNode) :=
  match j with
  | O => Ok (prevParent, parent)
  | S j' =>
      let firstChild :=
        match p_entries parent with
        | [] => child
        | (_, c) :: _ => c
        end in
      match prevParent with
      | None => Throw TypeError
      | Some prev =>
          match pop (p_entries prev) with
          | None => Throw TypeError
          | Some (rest, (_, move_ltChild)) =>
              let moveNode := p_gtChild prev in
              k ← (if creatingLeafs then first_key firstChild
                   else ltChild ← first_ltChild firstChild; descend_key ltChild);
              match moveNode with
              | None => Throw TypeError
              | Some moveNode =>
                  move_entries creatingLeafs child j'
                    (Some {| p_entries := rest; p_gtChild := Some move_ltChild |})
                    {| p_entries := (k, moveNode) :: p_entries parent;
                       p_gtChild := p_gtChild parent |}
              end
          end
      end
  end.

(** [parentNodes[i] = p], for an index within the array. *)
Definition store (parentNodes : list parentNode) (i : nat) (p : parentNode) : list parentNode :=
  <[i := p]> parentNodes.

(** The body of the loop over the leaves or nodes of a level.  [prevNode] of
    the parent [parentNodes[i]] is [parentNodes[i-1]], and [nextNode] of the
    node [nodesAtLevel[i]] is [nodesAtLevel[i+1]]: the links are set when the
    parents of a level are made, and these are the nodes of the next. *)
Definition place (creatingLeafs : bool) (nrOfNodesAtLevel : nat) (i : nat)
    (st : list parentNode * list node) : result (list parentNode * list node) :=
  let '(parentNodes, nodesAtLevel) := st in
  let parentIndex := i / parentConnections in
  '(child, nodesAtLevel) ←
    (if creatingLeafs then Ok (new_leaf i, nodesAtLevel ++ [new_leaf i])
     else match nodesAtLevel !! i with
          | Some n => Ok (n, nodesAtLevel)
          | None => Throw TypeError
          end);
  match parentNodes !! parentIndex with
  | None => Throw TypeError
  | Some parent =>
      let isLast := ((parentIndex <? (i + 1) / parentConnections)
                     || (i =? nrOfNodesAtLevel - 1))%nat in
      if isLast then
        let parent := {| p_entries := p_entries parent; p_gtChild := Some child |} in
        if ((1 <? length parentNodes) && (length (p_entries parent) <? minParentEntries))%nat
        then
          let nrOfParentEntries2Move := minParentEntries - length (p_entries parent) in
          let prevParent :=
            match parentIndex with
            | O => None
            | S p => parentNodes !! p
            end in
          '(prevParent, parent) ←
            move_entries creatingLeafs child nrOfParentEntries2Move prevParent parent;
          let parentNodes :=
            match prevParent with
            | Some prev => store parentNodes (parentIndex - 1) prev
            | None => parentNodes
            end in
          Ok (store parentNodes parentIndex parent, nodesAtLevel)
        else Ok (store parentNodes parentIndex parent, nodesAtLevel)
      else
        ltChildKey ←
          (if creatingLeafs then
             match sorted_list !! (i * entriesPerLeaf + entriesPerLeaf) with
             | Some kvp => Ok kvp.1
             | None => Throw TypeError
             end
           else
             match nodesAtLevel !! (i + 1) with
             | Some nextNode => descend_key nextNode
             | None => Throw TypeError
             end);
        let parent := {| p_entries := p_entries parent ++ [(ltChildKey, child)];
                         p_gtChild := p_gtChild parent |} in
        Ok (store parentNodes parentIndex parent, nodesAtLevel)
  end.

(** One level: the parents are made, then the leaves or nodes are placed. *)
Definition level (creatingLeafs : bool) (nrOfNodesAtLevel nrOfParentNodes : nat)
    (nodesAtLevel : list node) : result (list parentNode * list node) :=
  for_each (place creatingLeafs nrOfNodesAtLevel) (seq 0 nrOfNodesAtLevel)
    (replicate nrOfParentNodes new_node, nodesAtLevel).

(** The [while (true)] loop over the levels; it gives the root and the depth
    of the tree, or [None] when [fuel] levels were not enough. *)
Fixpoint levels (fuel : nat) (currentLevel nrOfNodesAtLevel nrOfParentNodes : nat)
    (nodesAtLevel : list node) (depth : nat) : option (result (option node * nat)) :=
  match fuel with
  | O => None
  | S fuel' =>
      let creatingLeafs := (currentLevel =? 1)%nat in
      match level creatingLeafs nrOfNodesAtLevel nrOfParentNodes nodesAtLevel with
      | Throw e => Some (Throw e)
      | Ok (parentNodes, nodesAtLevel) =>
          if (nrOfLeafs =? 1)%nat then
            match nodesAtLevel with
            | leaf :: _ => Some (Ok (Some leaf, depth))
            | [] => Some (Throw TypeError)
            end
          else if (nrOfParentNodes =? 1)%nat then
            Some (Ok (to_node <$> parentNodes !! 0, depth))
          else
            let nodesAtLevel := to_node <$> parentNodes in
            let nrOfNodesAtLevel := length nodesAtLevel in
            levels fuel' (currentLevel + 1) nrOfNodesAtLevel
              (ceil_div nrOfNodesAtLevel parentConnections) nodesAtLevel (depth + 1)
      end
  end.

End Create.

(** [create(maxEntries)], with [None] for a call without the argument; a
    [maxEntries] that is given is a count of entries.  The number of leaves
    bounds the number of levels ([create_ends]). *)
Definition create (b : BPlusTreeBuilder) (maxEntries : option nat) : option (result BPlusTree) :=
  let sorted_list := sort (list_ b) in
  let minNodeSize := 3 in
  let maxNodeSize := 255 in
  let entriesPerNode :=
    match maxEntries with
    | Some m => m
    | None => Nat.min maxNodeSize (Nat.max minNodeSize (ceil_div (length sorted_list) 10))
    end in
  let entriesPerLeaf :=
    Z.to_nat (Z.max (Z.of_nat minNodeSize) (floor_percent entriesPerNode (fillFactor b))) in
  let nrOfLeafs := nrOfLeafs sorted_list entriesPerLeaf in
  let parentConnections := parentConnections entriesPerNode in
  match levels sorted_list entriesPerNode entriesPerLeaf nrOfLeafs 1 nrOfLeafs
          (ceil_div nrOfLeafs parentConnections) [] 1 with
  | None => None
  | Some (Throw e) => Some (Throw e)
  | Some (Ok (root, depth)) =>
      Some (Ok {| maxEntriesPerNode := entriesPerNode; tree_uniqueKeys := uniqueKeys b;
                  tree_metadataKeys := metadataKeys b; tree_fillFactor := fillFactor b;
                  root := root; depth := depth |})
  end.

(** *** The routing keys of a tree *)

(** The leftmost leaf of a subtree: the leaf itself, or the leftmost leaf of
    the first child of the node, which is the [ltChild] of its first entry,
    or its [gtChild] if it has no entry. *)
Fixpoint leftmost (n : node) : option (list BPlusTreeLeafEntry) :=
  match n with
  | BPlusTreeLeaf es => Some es
  | BPlusTreeNode ((_, c) :: _) _ => leftmost c
  | BPlusTreeNode [] (Some g) => leftmost g
  | BPlusTreeNode [] None => None
  end.

(** [k] is the smallest key of the leaf entries [es]. *)
Definition smallest (k : K) (es : list BPlusTreeLeafEntry) : Prop :=
  k ∈ key <$> es /\ Forall (fun e => (_sortCompare k (key e) <= 0)%Z) es.

(** [k] is the smallest key of the leftmost leaf of the subtree [c]. *)
Definition routes (k : K) (c : node) : Prop :=
  exists es, leftmost c = Some es /\ smallest k es.

(** The child on the greater-than-or-equal side of the first of the entries
    [es] of a node: the [ltChild] of the next entry, or the [gtChild] of the
    node after the last entry. *)
Definition ge_child (es : list (K * node)) (gtChild : option node) : option node :=
  match es with
  | _ :: (_, c) :: _ => Some c
  | _ => gtChild
  end.

Fixpoint keys_ok (es : list (K * node)) (gtChild : option node) : Prop :=
  match es with
  | [] => True
  | (k, _) :: rest =>
      (exists next, ge_child es gtChild = Some next /\ routes k next) /\ keys_ok rest gtChild
  end.

(** Every routing key of every node of a tree is the smallest key of the
    leftmost leaf of the subtree on its greater-than-or-equal side. *)
Inductive routing_ok : node -> Prop :=
| leaf_ok es : routing_ok (BPlusTreeLeaf es)
| node_ok es gt :
    keys_ok es gt ->
    Forall (fun e => routing_ok e.2) es ->
    (forall g, gt = Some g -> routing_ok g) ->
    routing_ok (BPlusTreeNode es gt).

(** *** The leaves and the shape of a tree *)

(** The entries of the leaves of a subtree, leaf by leaf from left to right:
    under a node, the leaves under the [ltChild] of each entry in turn, then
    those under the [gtChild]. *)
Fixpoint leaves_of (n : node) : list (list BPlusTreeLeafEntry) :=
  match n with
  | BPlusTreeLeaf es => [es]
  | BPlusTreeNode es gt =>
      (fix each (es : list (K * node)) : list (list BPlusTreeLeafEntry) :=
         match es with
         | [] => []
         | (_, c) :: rest => leaves_of c ++ each rest
         end) es
      ++ match gt with
         | Some g => leaves_of g
         | None => []
         end
  end.

(** A subtree of height [h] whose leaves are all [h - 1] nodes below its top,
    and whose nodes have a [gtChild] and between [least] and [most]
    entries. *)
Inductive balanced (least most : nat) : nat -> node -> Prop :=
| balanced_leaf es : balanced least most 1 (BPlusTreeLeaf es)
| balanced_node h es g :
    least <= length es <= most ->
    Forall (fun e => balanced least most h e.2) es ->
    balanced least most h g ->
    balanced least most (S h) (BPlusTreeNode es (Some g)).

(** A tree of height [h]: a leaf, or a root node with an entry or more over
    balanced subtrees. *)
Definition balanced_root (least most : nat) (h : nat) (r : node) : Prop :=
  match r with
  | BPlusTreeLeaf _ => h = 1
  | BPlusTreeNode es gt =>
      1 <= length es <= most /\
      exists h' g, h = S h' /\ gt = Some g /\ balanced least most h' g /\
                   Forall (fun e => balanced least most h' e.2) es
  end.

End Builder.

End TreeBuilder.

(** * Theorems *)

Lemma Ok_inj {A} (a b : A) : Ok a = Ok b -> a = b.
Proof. congruence. Qed.

Section RecordPointerFacts.
Import RecordPointer.

Lemma push_chars_app rp s :
  push_chars rp s = rp ++ map charCodeAt (list_ascii_of_string s).
Proof.
  revert rp; induction s as [|c s IH]; intros rp; simpl.
  - by rewrite app_nil_r.
  - rewrite IH. by rewrite <- app_assoc.
Qed.

(** One length-prefixed string of the pointer. *)
Definition block (s : string) : list Z :=
  strlen s :: map charCodeAt (list_ascii_of_string s).
Local Arguments block : simpl never.

Lemma create_blocks ws k :
  _createRecordPointer ws k =
  Z.of_nat (length ws) :: concat (map block ws) ++ block k.
Proof.
  unfold _createRecordPointer.
  assert (H : forall rp,
    fold_left (fun rp w => push_chars (rp ++ [strlen w]) w) ws rp
    = rp ++ concat (map block ws)).
  { induction ws as [|w ws IH]; intros rp; simpl.
    - by rewrite app_nil_r.
    - rewrite IH, push_chars_app. unfold block.
      rewrite <- !app_assoc. reflexivity. }
  rewrite H, push_chars_app. unfold block. simpl.
  rewrite <- !app_assoc. reflexivity.
Qed.

Lemma fromCharCode_charCodeAt c : fromCharCode (Some (charCodeAt c)) = c.
Proof.
  unfold fromCharCode, charCodeAt.
  pose proof (N_ascii_bounded c) as Hb.
  rewrite Z.mod_small by lia.
  rewrite N2Z.id. apply ascii_N_embedding.
Qed.

Lemma length_list_ascii s : length (list_ascii_of_string s) = String.length s.
Proof. induction s; simpl; congruence. Qed.

Lemma read_chars_block pre s post (j : nat) :
  read_chars (pre ++ block s ++ post) (Some (Z.of_nat (length pre)))
             (Z.of_nat j) (String.length s - j)
  = string_of_list_ascii (drop j (list_ascii_of_string s)).
Proof.
  remember (String.length s - j)%nat as n eqn:Hn.
  revert j Hn; induction n as [|n IH]; intros j Hn; cbn [read_chars].
  - rewrite drop_ge; [done | rewrite length_list_ascii; lia].
  - assert (Hj : (j < length (list_ascii_of_string s))%nat)
      by (rewrite length_list_ascii; lia).
    destruct (lookup_lt_is_Some_2 _ _ Hj) as [c Hc].
    rewrite (drop_S _ c j Hc). cbn [string_of_list_ascii].
    replace (Z.of_nat j + 1)%Z with (Z.of_nat (S j)) by lia.
    rewrite (IH (S j)) by lia. f_equal.
    cbn [js_add at_index].
    rewrite (proj2 (Z.leb_le _ _)) by lia.
    replace (Z.to_nat (Z.of_nat (length pre) + Z.of_nat (S j)))
      with (length pre + S j)%nat by lia.
    rewrite lookup_app_r by lia.
    replace (length pre + S j - length pre)%nat with (S j) by lia.
    replace ((block s ++ post) !! S j)
      with ((map charCodeAt (list_ascii_of_string s) ++ post) !! j) by reflexivity.
    rewrite lookup_app_l by (rewrite length_map; lia).
    rewrite list_lookup_fmap, Hc. apply fromCharCode_charCodeAt.
Qed.

Lemma at_index_block pre s post :
  at_index (pre ++ block s ++ post) (Some (Z.of_nat (length pre))) = Some (strlen s).
Proof.
  unfold at_index. rewrite (proj2 (Z.leb_le _ _)) by lia.
  rewrite Nat2Z.id. rewrite lookup_app_r by lia.
  by rewrite Nat.sub_diag.
Qed.

Lemma length_block s : length (block s) = S (String.length s).
Proof. unfold block. simpl. by rewrite length_map, length_list_ascii. Qed.

Lemma read_block pre s post :
  read_chars (pre ++ block s ++ post) (Some (Z.of_nat (length pre))) 0
             (iterations (Some (strlen s))) = s.
Proof.
  unfold iterations, strlen. rewrite Nat2Z.id.
  pose proof (read_chars_block pre s post 0) as H.
  rewrite Nat.sub_0_r in H. change (Z.of_nat 0) with 0%Z in H. rewrite H.
  rewrite drop_0. apply string_of_list_ascii_of_string.
Qed.

Lemma read_wildcards_blocks pre ws post acc :
  read_wildcards (pre ++ concat (map block ws) ++ post) (length ws)
                 (Some (Z.of_nat (length pre))) acc
  = (acc ++ ws, Some (Z.of_nat (length pre + length (concat (map block ws))))).
Proof.
  revert pre acc; induction ws as [|w ws IH]; intros pre acc;
    cbn [read_wildcards map concat length].
  - rewrite app_nil_r, Nat.add_0_r. reflexivity.
  - rewrite <- (app_assoc (block w)).
    rewrite at_index_block, read_block. cbn [js_add].
    specialize (IH (pre ++ block w) (acc ++ [w])).
    rewrite <- !app_assoc in IH.
    replace (Z.of_nat (length pre) + (strlen w + 1))%Z
      with (Z.of_nat (length (pre ++ block w))).
    2:{ rewrite length_app, length_block. unfold strlen. lia. }
    rewrite IH. f_equal.
    f_equal. rewrite !length_app, length_block. f_equal. lia.
Qed.

Lemma replace_stars_substitute pre ws p :
  count_stars p = length ws ->
  replace_stars (pre ++ ws) (length pre) p = substitute p ws.
Proof.
  revert pre ws; induction p as [|c p IH]; intros pre ws Hc; simpl in *.
  - reflexivity.
  - destruct (Ascii.eqb c star) eqn:E.
    + destruct ws as [|w ws]; [discriminate|]. simpl in Hc.
      rewrite lookup_app_r by lia. rewrite Nat.sub_diag. simpl.
      f_equal. specialize (IH (pre ++ [w]) ws).
      rewrite <- app_assoc, length_app in IH. simpl in IH.
      rewrite Nat.add_1_r in IH. apply IH. lia.
    + f_equal. apply IH. lia.
Qed.

Lemma substitute_no_star p : count_stars p = 0%nat -> substitute p [] = p.
Proof.
  induction p as [|c p IH]; simpl; [done|].
  destruct (Ascii.eqb c star); [discriminate|].
  intros H. f_equal. auto.
Qed.

(** The codec round trip without any bound on the strings. *)
Lemma parse_create ws k p :
  count_stars p = length ws ->
  _parseRecordPointer p (_createRecordPointer ws k)
  = Ok {| key := k; path := (substitute p ws ++ "/" ++ k)%string; wildcards := ws |}.
Proof.
  intros Hc. rewrite create_blocks. unfold _parseRecordPointer.
  set (pre := [Z.of_nat (length ws)] ++ concat (map block ws)).
  change (Z.of_nat (length ws) :: concat (map block ws) ++ block k)
    with (pre ++ block k).
  assert (Hlen : (length (pre ++ block k) =? 0)%nat = false) by reflexivity.
  rewrite Hlen.
  assert (H0 : at_index (pre ++ block k) (Some 0%Z) = Some (Z.of_nat (length ws)))
    by reflexivity.
  rewrite H0. cbn [iterations]. rewrite Nat2Z.id.
  pose proof (read_wildcards_blocks [Z.of_nat (length ws)] ws (block k) []) as Hw.
  change ([Z.of_nat (length ws)] ++ concat (map block ws) ++ block k)
    with (pre ++ block k) in Hw.
  change (Z.of_nat (length [Z.of_nat (length ws)])) with 1%Z in Hw.
  rewrite Hw. clear Hw.
  change (length [Z.of_nat (length ws)] + length (concat (map block ws)))%nat
    with (length pre).
  pose proof (at_index_block pre k []) as Ha.
  pose proof (read_block pre k []) as Hr.
  rewrite app_nil_r in Ha, Hr.
  rewrite Ha, Hr. cbn [app]. f_equal. f_equal.
  destruct ws as [|w ws].
  - cbn [length Nat.ltb Nat.leb]. by rewrite substitute_no_star.
  - change (0 <? length (w :: ws))%nat with true. cbv iota.
    f_equal. apply (replace_stars_substitute [] (w :: ws) p Hc).
Qed.

End RecordPointerFacts.

Section RecordPointerClaim.
Import RecordPointer.

(** C3: for wildcard bindings and a child key that are ASCII strings of at
    most 255 characters, and an index path with one [*] per binding, parsing
    the pointer made by [_createRecordPointer] gives back the key, the
    bindings, and the index path with every [*] replaced by its binding in
    order, followed by [/key]. *)
Theorem C3_record_pointer_roundtrip (bindings : list string) (k indexPath : string) :
  Forall (fun w => (String.length w <= 255)%nat /\ is_ascii w) bindings ->
  (String.length k <= 255)%nat -> is_ascii k ->
  count_stars indexPath = length bindings ->
  _parseRecordPointer indexPath (_createRecordPointer bindings k)
  = Ok {| key := k;
          path := (substitute indexPath bindings ++ "/" ++ k)%string;
          wildcards := bindings |}.
Proof. intros _ _ _ Hc. by apply parse_create. Qed.

Example create_u1_p1 :
  _createRecordPointer ["u1"] "p1" = [1; 2; 117; 49; 2; 112; 49]%Z.
Proof. reflexivity. Qed.

Example parse_u1_p1 :
  _parseRecordPointer "users/*/posts" [1; 2; 117; 49; 2; 112; 49]%Z
  = Ok {| key := "p1"; path := "users/u1/posts/p1"; wildcards := ["u1"] |}.
Proof. reflexivity. Qed.

Lemma C3_record_pointer_roundtrip_witness :
  Forall (fun w => (String.length w <= 255)%nat /\ is_ascii w) ["u1"; "c7"] /\
  (String.length "p1" <= 255)%nat /\ is_ascii "p1" /\
  count_stars "users/*/posts/*/comments" = length ["u1"; "c7"] /\
  _parseRecordPointer "users/*/posts/*/comments" (_createRecordPointer ["u1"; "c7"] "p1")
  = Ok {| key := "p1"; path := "users/u1/posts/c7/comments/p1";
          wildcards := ["u1"; "c7"] |}.
Proof.
  assert (H1 : Forall (fun w => (String.length w <= 255)%nat /\ is_ascii w) ["u1"; "c7"]).
  { repeat constructor; simpl; lia. }
  assert (H2 : (String.length "p1" <= 255)%nat) by (simpl; lia).
  assert (H3 : is_ascii "p1") by (repeat constructor).
  assert (H4 : count_stars "users/*/posts/*/comments" = length ["u1"; "c7"])
    by reflexivity.
  refine (conj H1 (conj H2 (conj H3 (conj H4 _)))).
  exact (C3_record_pointer_roundtrip ["u1"; "c7"] "p1" "users/*/posts/*/comments"
           H1 H2 H3 H4).
Defined.

End RecordPointerClaim.

Section LockFacts.
Import Lock.

Lemma wake_spec queue pending :
  wake queue pending =
  match pending, queue with
  | [], w :: rest =>
      if forWriting w then (rest, [w])
      else (drop (length (readers_prefix queue)) queue, readers_prefix queue)
  | _, _ => (drop (length (readers_prefix queue)) queue, pending ++ readers_prefix queue)
  end.
Proof.
  revert pending; induction queue as [|r rest IH]; intros pending.
  - destruct pending; simpl; by rewrite ?app_nil_r.
  - cbn [wake readers_prefix]. destruct (forWriting r) eqn:Hr.
    + destruct pending as [|p ps]; simpl; [done|]. by rewrite app_nil_r.
    + rewrite IH. cbn [length drop].
      destruct pending as [|p ps]; simpl; [done|].
      by rewrite <- app_assoc.
Qed.

Lemma readers_prefix_app queue :
  readers_prefix queue ++ drop (length (readers_prefix queue)) queue = queue.
Proof.
  induction queue as [|r rest IH]; simpl; [done|].
  destruct (forWriting r); simpl; [done|]. by rewrite IH.
Qed.

Lemma readers_prefix_readers queue :
  Forall (fun r => forWriting r = false) (readers_prefix queue).
Proof.
  induction queue as [|r rest IH]; simpl; [constructor|].
  destruct (forWriting r) eqn:E; constructor; auto.
Qed.

Lemma readers_prefix_maximal queue :
  match drop (length (readers_prefix queue)) queue with
  | [] => True
  | r :: _ => forWriting r = true
  end.
Proof.
  induction queue as [|r rest IH]; simpl; [done|].
  destruct (forWriting r) eqn:E; simpl; done.
Qed.

(** C8: releasing the lock takes the woken requests from the head of the
    queue, in order.  When the head is a writer exactly that writer is woken;
    when the head is a reader the longest run of readers at the head is
    woken (what is left starts with a writer or is empty); and a woken writer
    is always woken alone. *)
Theorem C8_release_wakes_head (st : state) :
  let '(st', woken) := release st in
  _lockQueue st = woken ++ _lockQueue st' /\
  (forall w rest, _lockQueue st = w :: rest -> forWriting w = true ->
     woken = [w] /\ _lockQueue st' = rest) /\
  (forall r rest, _lockQueue st = r :: rest -> forWriting r = false ->
     woken = readers_prefix (_lockQueue st) /\
     Forall (fun x => forWriting x = false) woken /\
     match _lockQueue st' with [] => True | x :: _ => forWriting x = true end) /\
  (forall w, In w woken -> forWriting w = true -> woken = [w]) /\
  (_lockQueue st = [] -> woken = [] /\ isLocked (_lockState st') = false).
Proof.
  destruct st as [queue ls]. unfold release. cbn [_lockQueue _lockState].
  rewrite wake_spec.
  destruct queue as [|h rest].
  - cbn. repeat split; try done. all: intros w [].
  - destruct (forWriting h) eqn:Hh.
    + cbn [_lockQueue]. repeat split; try congruence; try done.
      all: try (intros w r [= <- <-]; congruence).
      all: try (intros w r [= <- <-] _; done).
      all: try (intros w [<-|[]] _; done).
    + pose proof (readers_prefix_app (h :: rest)) as Happ.
      pose proof (readers_prefix_readers (h :: rest)) as Hall.
      pose proof (readers_prefix_maximal (h :: rest)) as Hmax.
      remember (readers_prefix (h :: rest)) as pre eqn:Hpre.
      destruct pre as [|p ps].
      { cbn in Hpre. rewrite Hh in Hpre. discriminate. }
      cbn [_lockQueue]. repeat split; try congruence; try done.
      intros w Hin Hw. rewrite Forall_forall in Hall.
      rewrite (Hall w) in Hw; [discriminate|]. by apply list_elem_of_In.
Qed.

End LockFacts.

Section BuildFacts.
Import Build.

Lemma contains_star_count path :
  contains_star path = (0 <? RecordPointer.count_stars path)%nat.
Proof.
  induction path as [|c rest IH]; simpl; [done|].
  destruct (Ascii.eqb c RecordPointer.star); simpl; [done|]. exact IH.
Qed.

(** What the code takes for the number of wildcards: 1 as soon as the path
    has a wildcard. *)
Lemma nrOfWildcards_min path :
  nrOfWildcards path = Ok (Nat.min 1 (RecordPointer.count_stars path)).
Proof.
  unfold nrOfWildcards, exec_star. rewrite contains_star_count.
  destruct (RecordPointer.count_stars path) as [|n]; simpl; [done|].
  by destruct n.
Qed.

Example round_pow_500_values :
  round_pow_500 0 = 500%Z /\ round_pow_500 1 = 22%Z /\ round_pow_500 2 = 5%Z.
Proof. by vm_compute. Qed.

(** With at most one wildcard the batch size is the documented one. *)
Lemma maxBatchSize_le_1 path :
  (RecordPointer.count_stars path <= 1)%nat ->
  maxBatchSize path = Ok (round_pow_500 (RecordPointer.count_stars path)).
Proof.
  intros H. unfold maxBatchSize. rewrite nrOfWildcards_min.
  rewrite Nat.min_r by done. reflexivity.
Qed.

(** C5 (fails on the code): an index path with two wildcards is walked with
    batches of 22 children, the size for one wildcard, where the documented
    size [round(500 ^ (0.5 ^ 2))] is 5. *)
Theorem C5_two_wildcards_batch_size :
  RecordPointer.count_stars "users/*/posts/*/comments" = 2%nat /\
  nrOfWildcards "users/*/posts/*/comments" = Ok 1%nat /\
  maxBatchSize "users/*/posts/*/comments" = Ok 22%Z /\
  round_pow_500 2 = 5%Z.
Proof. by vm_compute. Qed.

End BuildFacts.

Section ArrayGeoFacts.
Import DataIndex.

Variable tree_search : string -> qval -> list storedEntry.

Lemma cache_get_searches op val st :
  searches (fst (cache_get op val st)) = searches st.
Proof.
  unfold cache_get. by destruct (cache_lookup _ (_cache st)).
Qed.

Lemma cache_set_searches op val entries st :
  searches (cache_set op val entries st) = searches st.
Proof. done. Qed.

(** The searches a base query makes on the tree: none when the cache holds
    the entries, and otherwise the one search with the operator it was given
    and the case-folded value. *)
Lemma query_searches idx op val options st :
  is_valid validOperators op = true ->
  searches (fst (DataIndex.query tree_search idx op val options st)) =
  searches st ++
    match snd (cache_get op (normalize idx val) st) with
    | Some _ => []
    | None => [(op, normalize idx val)]
    end.
Proof.
  intros Hop. unfold DataIndex.query, query_begin. rewrite Hop. cbn [negb].
  pose proof (cache_get_searches op (normalize idx val) st) as Hs.
  destruct (cache_get op (normalize idx val) st) as [st1 cached].
  cbn [fst snd] in *. unfold query_finish.
  destruct cached as [entries|]; cbn [fst].
  - by rewrite app_nil_r.
  - destruct (load_entries _ _) as [entries objs]. cbn [fst].
    rewrite cache_set_searches. cbn [searches set_objects log_search]. by rewrite Hs.
Qed.

Lemma array_query_invalid idx op val extra st :
  op <> "contains" -> op <> "!contains" ->
  ArrayIndex.query tree_search idx op val extra st =
  (st, Throw "Array indexes can only be queried with operator contains and !contains").
Proof.
  intros H1 H2. unfold ArrayIndex.query, ArrayIndex.validOperators, is_valid.
  cbn [existsb].
  destruct (String.eqb_spec op "contains"); [done|].
  destruct (String.eqb_spec op "!contains"); [done|]. reflexivity.
Qed.

(** C9: on an array index [contains] is the base query with [==] and
    [!contains] the base query with [!=], so the only search they can make on
    the tree is the one with that operator (none when the cache answers);
    every other operator throws and leaves the index, and with it the log of
    searches, as it was. *)
Theorem C9_array_query_operators (idx : index) (val : qval) (extra : option queryOptions)
    (st : state) :
  ArrayIndex.query tree_search idx "contains" val extra st
    = DataIndex.query tree_search idx "==" val None st /\
  ArrayIndex.query tree_search idx "!contains" val extra st
    = DataIndex.query tree_search idx "!=" val None st /\
  (exists made,
     searches (fst (ArrayIndex.query tree_search idx "contains" val extra st))
       = searches st ++ made /\
     (made = [] \/ made = [("==", normalize idx val)]) /\
     (snd (cache_get "==" (normalize idx val) st) = None ->
      made = [("==", normalize idx val)])) /\
  (exists made,
     searches (fst (ArrayIndex.query tree_search idx "!contains" val extra st))
       = searches st ++ made /\
     (made = [] \/ made = [("!=", normalize idx val)]) /\
     (snd (cache_get "!=" (normalize idx val) st) = None ->
      made = [("!=", normalize idx val)])) /\
  (forall op, op <> "contains" -> op <> "!contains" ->
     exists msg, ArrayIndex.query tree_search idx op val extra st = (st, Throw msg)).
Proof.
  assert (Hc : ArrayIndex.query tree_search idx "contains" val extra st
               = DataIndex.query tree_search idx "==" val None st) by reflexivity.
  assert (Hn : ArrayIndex.query tree_search idx "!contains" val extra st
               = DataIndex.query tree_search idx "!=" val None st) by reflexivity.
  split; [exact Hc|]. split; [exact Hn|]. split; [|split].
  - rewrite Hc, query_searches by reflexivity.
    destruct (snd (cache_get "==" (normalize idx val) st)); eexists; split;
      try reflexivity; split; auto; discriminate.
  - rewrite Hn, query_searches by reflexivity.
    destruct (snd (cache_get "!=" (normalize idx val) st)); eexists; split;
      try reflexivity; split; auto; discriminate.
  - intros op H1 H2. eexists. by apply array_query_invalid.
Qed.

Variable geoval : Type.
Variable has_numbers : geoval -> bool.
Variable targetHashes : geoval -> list string.

(** C10: the array and geo queries do not depend on the options a caller
    passes: with any filter set they return what they return without one. *)
Theorem C10_options_not_forwarded (idx : index) (op : string) (val : qval) (gval : geoval)
    (f : IndexQueryResults) (st : state) :
  ArrayIndex.query tree_search idx op val (Some {| filter := Some f |}) st
    = ArrayIndex.query tree_search idx op val None st /\
  GeoIndex.query tree_search geoval has_numbers targetHashes idx "geo:nearby" gval
                 (Some {| filter := Some f |}) st
    = GeoIndex.query tree_search geoval has_numbers targetHashes idx "geo:nearby" gval
                     None st.
Proof. split; reflexivity. Qed.

End ArrayGeoFacts.

Section HeaderFacts.
Import IndexHeader.

Variable numberToBytes : Z -> list Z.

Lemma addNameBytes_app bs name :
  exists suffix, addNameBytes bs name = bs ++ suffix.
Proof.
  unfold addNameBytes. rewrite push_chars_app, <- app_assoc. eauto.
Qed.

(** Everything that writes into the header only appends to it. *)
Fixpoint addValueBytes_app (value : jsvalue) :
  forall bs bs', addValueBytes numberToBytes bs value = Ok bs' ->
                 exists suffix, bs' = bs ++ suffix.
Proof.
  destruct value as [|s|n|b|items|]; intros bs bs' H; cbn [addValueBytes] in H.
  - injection H as <-. eauto.
  - injection H as <-. rewrite <- !app_assoc. eauto.
  - injection H as <-. rewrite <- !app_assoc. eauto.
  - injection H as <-. rewrite <- !app_assoc. eauto.
  - destruct (65535 <? Z.of_nat (length items))%Z; [discriminate|].
    revert H. generalize (length_bytes (length items)). intros lb.
    rewrite <- app_assoc.
    generalize ([4%Z] ++ lb). clear lb. intros pre.
    revert pre. induction items as [|val rest IH]; intros pre H.
    + injection H as <-. eauto.
    + destruct (addValueBytes numberToBytes (bs ++ pre) val) as [bs1|] eqn:E;
        [|discriminate].
      destruct (addValueBytes_app val _ _ E) as [s1 ->].
      rewrite <- app_assoc in H. exact (IH _ H).
  - discriminate.
Qed.

Lemma addInfo_each_app obj :
  forall bs bs', addInfo_each numberToBytes bs obj = Ok bs' ->
                 exists suffix, bs' = bs ++ suffix.
Proof.
  induction obj as [|[k v] rest IH]; intros bs bs' H; cbn [addInfo_each] in H.
  - injection H as <-. exists []. by rewrite app_nil_r.
  - destruct (addNameBytes_app bs k) as [s1 Hs1]. rewrite Hs1 in H.
    destruct (addValueBytes numberToBytes (bs ++ s1) v) as [bs1|] eqn:E;
      [|discriminate].
    destruct (addValueBytes_app v _ _ E) as [s2 ->].
    cbn in H. destruct (IH _ _ H) as [s3 ->].
    rewrite <- !app_assoc. eauto.
Qed.

Lemma addInfoBytes_app obj bs bs' :
  addInfoBytes numberToBytes bs obj = Ok bs' -> exists suffix, bs' = bs ++ suffix.
Proof.
  unfold addInfoBytes. intros H. destruct (addInfo_each_app _ _ _ H) as [s ->].
  rewrite <- app_assoc. eauto.
Qed.

Lemma to_int32_small z : (- 2 ^ 31 <= z < 2 ^ 31)%Z -> to_int32 z = z.
Proof.
  intros H. unfold to_int32.
  rewrite Z.mod_small by lia. lia.
Qed.

Lemma low_byte z : js_and z 255 = (to_int32 z mod 256)%Z.
Proof.
  unfold js_and. rewrite (to_int32_small 255) by lia.
  change 255%Z with (Z.ones 8). rewrite Z.land_ones by lia.
  apply to_int32_small.
  pose proof (Z.mod_pos_bound (to_int32 z) 256). lia.
Qed.

Lemma to_int32_range z : (- 2 ^ 31 <= to_int32 z < 2 ^ 31)%Z.
Proof.
  unfold to_int32. pose proof (Z.mod_pos_bound (z + 2 ^ 31) (2 ^ 32)). lia.
Qed.

Lemma to_int32_shr z n : (0 <= n)%Z -> to_int32 (js_shr z n) = js_shr z n.
Proof.
  intros Hn. apply to_int32_small. unfold js_shr.
  rewrite Z.shiftr_div_pow2 by lia.
  pose proof (to_int32_range z) as Hr.
  assert (Hp : (0 < 2 ^ n)%Z) by (apply Z.pow_pos_nonneg; lia).
  split.
  - apply Z.div_le_lower_bound; [lia|]. nia.
  - apply Z.div_lt_upper_bound; [lia|]. nia.
Qed.

(** The four bytes stored for a length are its big-endian digits. *)
Lemma uint32_bytes_value n :
  (0 <= n < 2 ^ 32)%Z ->
  exists b0 b1 b2 b3,
    uint32_bytes n = [b0; b1; b2; b3] /\
    (0 <= b0 < 256 /\ 0 <= b1 < 256 /\ 0 <= b2 < 256 /\ 0 <= b3 < 256)%Z /\
    (((b0 * 256 + b1) * 256 + b2) * 256 + b3 = n)%Z.
Proof.
  intros Hn. unfold uint32_bytes. do 4 eexists. split; [reflexivity|].
  rewrite !low_byte, !to_int32_shr by lia.
  unfold js_shr. rewrite !Z.shiftr_div_pow2 by lia.
  assert (Hi : to_int32 n = n \/ to_int32 n = (n - 2 ^ 32)%Z).
  { unfold to_int32.
    destruct (Z_lt_le_dec n (2 ^ 31)).
    - left. rewrite Z.mod_small by lia. lia.
    - right. replace (n + 2 ^ 31)%Z with ((n - 2 ^ 31) + 1 * 2 ^ 32)%Z by lia.
      rewrite Z.mod_add by lia. rewrite Z.mod_small by lia. lia. }
  change (2 ^ 24)%Z with 16777216%Z. change (2 ^ 16)%Z with 65536%Z.
  change (2 ^ 8)%Z with 256%Z. change (2 ^ 32)%Z with 4294967296%Z in *.
  destruct Hi as [-> | ->]; split; try lia.
  all: try (repeat split;
            match goal with |- (_ <= _ mod 256)%Z => apply Z.mod_pos_bound; lia
                          | |- (_ mod 256 < _)%Z => apply Z.mod_pos_bound; lia end).
  all: Z.to_euclidean_division_equations; lia.
Qed.

Lemma length_set_uint32 h i n : length (set_uint32 h i n) = length h.
Proof. unfold set_uint32, uint32_bytes. by rewrite !length_insert. Qed.

Lemma set_uint32_other h i n j :
  (j < i \/ i + 4 <= j)%nat -> set_uint32 h i n !! j = h !! j.
Proof.
  intros H. unfold set_uint32, uint32_bytes.
  rewrite !list_lookup_insert_ne by lia. done.
Qed.

Lemma getUint32_lookups bs i b0 b1 b2 b3 :
  bs !! i = Some b0 -> bs !! (i + 1)%nat = Some b1 ->
  bs !! (i + 2)%nat = Some b2 -> bs !! (i + 3)%nat = Some b3 ->
  getUint32 bs i = Some (((b0 * 256 + b1) * 256 + b2) * 256 + b3)%Z.
Proof. unfold getUint32. by intros -> -> -> ->. Qed.

Lemma getUint32_other h i n j :
  (j + 4 <= i \/ i + 4 <= j)%nat ->
  getUint32 (Buffer_from (set_uint32 h i n)) j = getUint32 (Buffer_from h) j.
Proof.
  intros H. unfold getUint32, Buffer_from.
  assert (E : forall k, (k < 4)%nat ->
    (fun x => x mod 256)%Z <$> set_uint32 h i n !! (j + k)%nat
    = (fun x => x mod 256)%Z <$> h !! (j + k)%nat).
  { intros k Hk. by rewrite set_uint32_other by lia. }
  rewrite !list_lookup_fmap.
  pose proof (E 0%nat ltac:(lia)) as E0. rewrite Nat.add_0_r in E0.
  rewrite E0, (E 1%nat), (E 2%nat), (E 3%nat) by lia. done.
Qed.

Lemma getUint32_set h i n :
  (i + 4 <= length h)%nat -> (0 <= n < 2 ^ 32)%Z ->
  getUint32 (Buffer_from (set_uint32 h i n)) i = Some n.
Proof.
  intros Hi Hn. destruct (uint32_bytes_value n Hn) as (b0 & b1 & b2 & b3 & Hb & Hr & Hv).
  rewrite <- Hv at 2.
  apply getUint32_lookups; unfold Buffer_from, set_uint32; rewrite Hb;
    rewrite list_lookup_fmap.
  - rewrite !list_lookup_insert_ne by lia.
    rewrite list_lookup_insert_eq by lia. cbn. by rewrite Z.mod_small by lia.
  - rewrite !list_lookup_insert_ne by lia.
    rewrite list_lookup_insert_eq by (rewrite !length_insert; lia).
    cbn. by rewrite Z.mod_small by lia.
  - rewrite !list_lookup_insert_ne by lia.
    rewrite list_lookup_insert_eq by (rewrite !length_insert; lia).
    cbn. by rewrite Z.mod_small by lia.
  - rewrite list_lookup_insert_eq by (rewrite !length_insert; lia).
    cbn. by rewrite Z.mod_small by lia.
Qed.

Local Ltac Zify.zify_post_hook ::= Z.to_euclidean_division_equations.

Lemma align_spec fuel : forall h h',
  align fuel h = Ok h' ->
  (exists k, h' = h ++ repeat 0%Z k) /\
  (Z.of_nat (length h') mod DISK_BLOCK_SIZE = 0)%Z /\
  (Z.of_nat (length h) <= MAX_ARRAY_LENGTH -> Z.of_nat (length h') <= MAX_ARRAY_LENGTH)%Z.
Proof.
  induction fuel as [|fuel IH]; intros h h' H; cbn [align] in H.
  - destruct (Z.of_nat (length h) mod DISK_BLOCK_SIZE =? 0)%Z eqn:E; [|discriminate].
    injection H as <-. apply Z.eqb_eq in E.
    split; [exists 0%nat; by rewrite app_nil_r|]. split; auto.
  - destruct (Z.of_nat (length h) mod DISK_BLOCK_SIZE =? 0)%Z eqn:E.
    + injection H as <-. apply Z.eqb_eq in E.
      split; [exists 0%nat; by rewrite app_nil_r|]. split; auto.
    + destruct (Z.of_nat (length h) <? MAX_ARRAY_LENGTH)%Z eqn:E2; [|discriminate].
      apply Z.ltb_lt in E2.
      destruct (IH _ _ H) as ([k ->] & Hm & Hb).
      split; [exists (S k); by rewrite <- app_assoc|]. split; [done|].
      intros _. apply Hb. rewrite length_app. cbn [length]. lia.
Qed.

(** The loop needs fewer rounds than the fuel it is given: a header that
    leaves room for the padding is always aligned. *)
Lemma align_total h :
  (Z.of_nat (length h) + 4096 <= MAX_ARRAY_LENGTH)%Z ->
  exists h', align (Z.to_nat DISK_BLOCK_SIZE) h = Ok h'.
Proof.
  intros Hlen.
  assert (G : forall fuel h,
    (Z.of_nat (length h) + Z.of_nat fuel <= MAX_ARRAY_LENGTH)%Z ->
    ((4096 - Z.of_nat (length h) mod 4096) mod 4096 <= Z.of_nat fuel)%Z ->
    exists h', align fuel h = Ok h').
  { clear Hlen. induction fuel as [|fuel IH]; intros h0 Hl Hf; cbn [align];
      unfold DISK_BLOCK_SIZE.
    - destruct (Z.of_nat (length h0) mod 4096 =? 0)%Z eqn:E; [eauto|].
      apply Z.eqb_neq in E. lia.
    - destruct (Z.of_nat (length h0) mod 4096 =? 0)%Z eqn:E; [eauto|].
      apply Z.eqb_neq in E.
      rewrite (proj2 (Z.ltb_lt _ _)) by (unfold MAX_ARRAY_LENGTH in *; lia).
      apply IH.
      + rewrite length_app. cbn [length]. lia.
      + rewrite length_app. cbn [length]. lia. }
  apply G; unfold DISK_BLOCK_SIZE; lia.
Qed.

Definition default_tree_name : list Z := [1; 7; 100; 101; 102; 97; 117; 108; 116]%Z.

(** C7: the header that [_writeIndexHeader] writes starts with the signature
    and the layout version 1, its length is a multiple of 4096, the
    big-endian number at offset 11 is that length, and so is the
    [file_index] of the default tree (the four bytes after [trees_count] and
    the name of the tree), which is also the new [fileIndex] of the tree. *)
Theorem C7_header_layout (this : index) (stats : treeStatistics) (w : written) :
  _writeIndexHeader numberToBytes this stats = Ok w ->
  take 10 (bytes w) = signature /\
  bytes w !! 10%nat = Some 1%Z /\
  Z.of_nat (length (bytes w)) = headerLength w /\
  (headerLength w mod 4096 = 0)%Z /\
  getUint32 (bytes w) 11 = Some (headerLength w) /\
  take 9 (drop (treeRefIndex w - 9) (bytes w)) = default_tree_name /\
  getUint32 (bytes w) (treeRefIndex w) = Some (headerLength w) /\
  fileIndex w = headerLength w.
Proof.
  unfold _writeIndexHeader. intros H.
  set (h0 := signature ++ [1%Z] ++ [0; 0; 0; 0]%Z) in H.
  destruct (addInfoBytes numberToBytes h0 _) as [h1|] eqn:E1; [|discriminate].
  destruct (addInfoBytes_app _ _ _ E1) as [s1 ->]. clear E1.
  cbn [mbind result_bind] in H.
  unfold addNameBytes in H. rewrite push_chars_app in H.
  change (map RecordPointer.charCodeAt (list_ascii_of_string "default"))
    with [100; 101; 102; 97; 117; 108; 116]%Z in H.
  change (RecordPointer.strlen "default") with 7%Z in H.
  set (h2 := (((h0 ++ s1) ++ [1%Z]) ++ [7%Z]) ++ [100; 101; 102; 97; 117; 108; 116]%Z) in H.
  destruct (addInfoBytes numberToBytes _ _) as [h4|] eqn:E4; [|discriminate].
  destruct (addInfoBytes_app _ _ _ E4) as [s2 ->]. clear E4.
  cbn [mbind result_bind] in H.
  set (h4 := ((h2 ++ [0; 0; 0; 0]%Z) ++ [0; 0; 0; 0]%Z) ++ s2) in H.
  destruct (Z.of_nat (length h4) <=? MAX_ARRAY_LENGTH)%Z eqn:Emax; [|discriminate].
  apply Z.leb_le in Emax. cbn [mbind result_bind] in H.
  destruct (align _ h4) as [h5|] eqn:E5; [|discriminate].
  destruct (align_spec _ _ _ E5) as ([k ->] & Hmod & Hmax). clear E5.
  specialize (Hmax Emax). cbn [mbind result_bind] in H.
  apply Ok_inj in H. subst w. cbn [bytes headerLength treeRefIndex fileIndex].
  set (L := Z.of_nat (length (h4 ++ repeat 0%Z k))) in *.
  assert (HL : (0 <= L < 2 ^ 32)%Z) by (unfold MAX_ARRAY_LENGTH in Hmax; lia).
  assert (Hlen2 : (length h2 = 24 + length s1)%nat).
  { unfold h2, h0. rewrite !length_app. cbn [length signature]. lia. }
  assert (Hlen4 : (length h2 + 8 <= length (h4 ++ repeat 0%Z k))%nat).
  { unfold h4. rewrite !length_app. cbn [length]. lia. }
  set (full := h4 ++ repeat 0%Z k) in *.
  assert (Hpre : forall i, (i < 11)%nat ->
            Buffer_from (set_uint32 (set_uint32 full 11 L) (length h2) L) !! i
            = (signature ++ [1%Z]) !! i).
  { intros i Hi. unfold Buffer_from. rewrite list_lookup_fmap.
    rewrite !set_uint32_other by lia.
    unfold full, h4, h2, h0. rewrite <- !app_assoc.
    rewrite (app_assoc signature [1%Z]).
    rewrite lookup_app_l by (cbn [length signature app]; lia).
    do 11 (destruct i as [|i]; [reflexivity|]). lia. }
  split; [|split; [|split; [|split; [|split; [|split; [|split; [|reflexivity]]]]]]].
  - apply list_eq. intros i. destruct (decide (i < 10)%nat) as [Hi|Hi].
    + rewrite lookup_take_lt by lia. rewrite Hpre by lia.
      by rewrite lookup_app_l by (cbn; lia).
    + rewrite lookup_take_ge by lia. symmetry. apply lookup_ge_None. cbn. lia.
  - by rewrite Hpre by lia.
  - unfold Buffer_from. by rewrite length_fmap, !length_set_uint32.
  - exact Hmod.
  - rewrite getUint32_other by lia. apply getUint32_set; [lia|exact HL].
  - unfold default_tree_name. apply list_eq. intros i.
    destruct (decide (i < 9)%nat) as [Hi|Hi].
    + rewrite lookup_take_lt by lia. rewrite lookup_drop.
      unfold Buffer_from. rewrite list_lookup_fmap.
      rewrite !set_uint32_other by lia.
      unfold full, h4. rewrite <- !app_assoc.
      rewrite lookup_app_l by lia.
      replace (length h2 - 9 + i)%nat with (length (h0 ++ s1) + i)%nat
        by (rewrite Hlen2, length_app; unfold h0; cbn [length signature app]; lia).
      unfold h2. rewrite <- !app_assoc. rewrite (app_assoc h0 s1).
      rewrite lookup_app_r by lia.
      replace (length (h0 ++ s1) + i - length (h0 ++ s1))%nat with i by lia.
      do 9 (destruct i as [|i]; [reflexivity|]). lia.
    + rewrite lookup_take_ge by lia. symmetry. apply lookup_ge_None. cbn. lia.
  - apply getUint32_set; [rewrite length_set_uint32; lia|exact HL].
Qed.

End HeaderFacts.

(** The header of a fulltext index on [messages], key [text], with 3 entries
    and 7 values.  The bytes of a number are filled in big-endian here; the
    theorem does not depend on them. *)
Definition sample_numberToBytes (n : Z) : list Z :=
  [0; 0; 0; 0]%Z ++ IndexHeader.uint32_bytes n.

Definition sample_index : IndexHeader.index :=
  {| IndexHeader.type := IndexHeader.JString "fulltext";
     IndexHeader.path := IndexHeader.JString "messages";
     IndexHeader.key := IndexHeader.JString "text";
     IndexHeader.includeKeys := IndexHeader.JArray [IndexHeader.JString "title"];
     IndexHeader.caseSensitive := IndexHeader.JBoolean false;
     IndexHeader.textLocale := IndexHeader.JString "en";
     IndexHeader.tree_class := IndexHeader.JString "BPlusTree";
     IndexHeader.tree_version := IndexHeader.JNumber 1 |}.

Definition sample_statistics : IndexHeader.treeStatistics :=
  {| IndexHeader.totalEntries := IndexHeader.JNumber 3;
     IndexHeader.totalValues := IndexHeader.JNumber 7 |}.

Example sample_header_start :
  match IndexHeader._writeIndexHeader sample_numberToBytes sample_index sample_statistics with
  | Ok w =>
      IndexHeader.headerLength w = 4096%Z /\
      take 24 (IndexHeader.bytes w)
      = [65; 67; 69; 66; 65; 83; 69; 73; 68; 88; 1; 0; 0; 16; 0;
         7; 4; 116; 121; 112; 101; 1; 0; 8]%Z /\
      IndexHeader.treeRefIndex w = 123%nat /\
      take 8 (drop 123 (IndexHeader.bytes w)) = [0; 0; 16; 0; 0; 0; 0; 0]%Z
  | Throw _ => False
  end.
Proof. vm_compute. by repeat split. Qed.

Lemma C7_header_layout_witness :
  exists w,
    IndexHeader._writeIndexHeader sample_numberToBytes sample_index sample_statistics = Ok w /\
    take 10 (IndexHeader.bytes w) = IndexHeader.signature /\
    IndexHeader.bytes w !! 10%nat = Some 1%Z /\
    Z.of_nat (length (IndexHeader.bytes w)) = IndexHeader.headerLength w /\
    (IndexHeader.headerLength w mod 4096 = 0)%Z /\
    IndexHeader.getUint32 (IndexHeader.bytes w) 11 = Some (IndexHeader.headerLength w) /\
    take 9 (drop (IndexHeader.treeRefIndex w - 9) (IndexHeader.bytes w)) = default_tree_name /\
    IndexHeader.getUint32 (IndexHeader.bytes w) (IndexHeader.treeRefIndex w)
    = Some (IndexHeader.headerLength w) /\
    IndexHeader.fileIndex w = IndexHeader.headerLength w.
Proof.
  assert (H : exists w, IndexHeader._writeIndexHeader sample_numberToBytes sample_index
                          sample_statistics = Ok w).
  { eexists. vm_compute. reflexivity. }
  destruct H as [w Hw]. exists w. split; [exact Hw|].
  exact (C7_header_layout sample_numberToBytes sample_index sample_statistics w Hw).
Defined.

Section QuickSortFacts.
Import BuildBatches.
Context {A : Type}.
Variable comparator : A -> A -> Z.

Lemma swap_perm (arr : list A) i j : swap arr i j ≡ₚ arr.
Proof.
  unfold swap. destruct (arr !! i) as [x|] eqn:Hi; [|done].
  destruct (arr !! j) as [y|] eqn:Hj; [|done].
  by apply Permutation_insert_swap.
Qed.

Lemma swap_lookup_other (arr : list A) i j k :
  k <> i -> k <> j -> swap arr i j !! k = arr !! k.
Proof.
  intros Hi Hj. unfold swap. destruct (arr !! i); [|done].
  destruct (arr !! j); [|done].
  by rewrite !list_lookup_insert_ne by done.
Qed.

(** The partition loop permutes the range below [e], leaves the pivot at [e]
    and ends with the split inside the range. *)
Lemma partition_fold (pivot : A) (e n : nat) : forall start arr split,
  (split <= start)%nat -> (start + n <= e)%nat -> arr !! e = Some pivot ->
  let '(arr', split') :=
    fold_left (partition_step comparator pivot) (seq start n) (arr, split) in
  arr' ≡ₚ arr /\ arr' !! e = Some pivot /\ (split <= split' <= start + n)%nat.
Proof.
  induction n as [|n IH]; intros start arr split Hs He Hp; cbn [seq fold_left].
  - split; [done|]. split; [done|]. lia.
  - assert (Hstep : exists arr1 split1,
      partition_step comparator pivot (arr, split) start = (arr1, split1) /\
      arr1 ≡ₚ arr /\ arr1 !! e = Some pivot /\ (split <= split1 <= S start)%nat).
    { unfold partition_step. destruct (arr !! start) as [x|].
      - destruct (comparator x pivot =? -1)%Z.
        + destruct (split =? start)%nat eqn:E.
          * do 2 eexists. split; [reflexivity|]. split; [done|]. split; [done|]. lia.
          * do 2 eexists. split; [reflexivity|]. split; [apply swap_perm|].
            split; [|lia]. rewrite swap_lookup_other by lia. done.
        + do 2 eexists. split; [reflexivity|]. split; [done|]. split; [done|]. lia.
      - do 2 eexists. split; [reflexivity|]. split; [done|]. split; [done|]. lia. }
    destruct Hstep as (arr1 & split1 & -> & Hperm & Hp1 & Hb).
    specialize (IH (S start) arr1 split1 ltac:(lia) ltac:(lia) Hp1).
    destruct (fold_left _ _ _) as [arr' split'].
    destruct IH as (Hperm' & Hp' & Hb').
    split; [by rewrite Hperm'|]. split; [done|]. lia.
Qed.

Lemma recursiveSort_perm fuel : forall (arr : list A) s e,
  (0 <= s)%Z -> recursiveSort comparator fuel arr s e ≡ₚ arr.
Proof.
  induction fuel as [|fuel IH]; intros arr s e Hs; cbn [recursiveSort]; [done|].
  destruct (e - s <? 1)%Z eqn:Hlt; [done|]. apply Z.ltb_ge in Hlt.
  destruct (arr !! Z.to_nat e) as [pivot|] eqn:Hp; [|done].
  pose proof (partition_fold pivot (Z.to_nat e) (Z.to_nat (e - s)) (Z.to_nat s) arr
                (Z.to_nat s) ltac:(lia) ltac:(lia) Hp) as Hfold.
  destruct (fold_left _ _ _) as [arr' split'].
  destruct Hfold as (Hperm & Hp' & Hb).
  rewrite !IH by lia. rewrite <- Hperm.
  destruct (arr' !! split') as [x|] eqn:Hx.
  - by apply Permutation_insert_swap.
  - rewrite list_insert_ge; [done|]. by apply lookup_ge_None.
Qed.

(** The keys come out of the sort as they went in, in another order. *)
Lemma quickSort_perm (l : list A) : quickSort comparator l ≡ₚ l.
Proof. by apply recursiveSort_perm. Qed.

(** More fuel than the length of the range changes nothing: the recursion
    of [recursiveSort] ends by itself. *)
Lemma recursiveSort_fuel fuel1 : forall fuel2 (arr : list A) s e,
  (0 <= s)%Z ->
  (e - s + 1 <= Z.of_nat fuel1)%Z -> (e - s + 1 <= Z.of_nat fuel2)%Z ->
  recursiveSort comparator fuel1 arr s e = recursiveSort comparator fuel2 arr s e.
Proof.
  induction fuel1 as [|fuel1 IH]; intros fuel2 arr s e Hs H1 H2.
  - destruct fuel2 as [|fuel2]; cbn [recursiveSort]; [done|].
    by rewrite (proj2 (Z.ltb_lt _ _)) by lia.
  - destruct fuel2 as [|fuel2]; cbn [recursiveSort].
    { by rewrite (proj2 (Z.ltb_lt _ _)) by lia. }
    destruct (e - s <? 1)%Z eqn:Hlt; [done|]. apply Z.ltb_ge in Hlt.
    destruct (arr !! Z.to_nat e) as [pivot|] eqn:Hp; [|done].
    pose proof (partition_fold pivot (Z.to_nat e) (Z.to_nat (e - s)) (Z.to_nat s) arr
                  (Z.to_nat s) ltac:(lia) ltac:(lia) Hp) as Hfold.
    destruct (fold_left _ _ _) as [arr' split'].
    destruct Hfold as (_ & _ & Hb).
    rewrite (IH fuel2 _ s (Z.of_nat split' - 1)%Z) by lia.
    apply IH; lia.
Qed.

End QuickSortFacts.

Section BatchFacts.
Import BuildBatches.
Context {K : Type} `{EqDecision K}.
Variable isLess isMore : K -> K -> bool.

Local Abbreviation record := (@record K).
Local Abbreviation batch := (@batch K).

(** The entry with its flag byte set. *)
Definition flagged (r : record) : record :=
  {| key := key r; value := value r; processed := true |}.

(** The values of a key after a scan: what the map held, then what was read. *)
Definition merge_values (old : option (list (list Z))) (vs : list (list Z))
    : option (list (list Z)) :=
  match old with
  | Some l => Some (l ++ vs)
  | None => match vs with [] => None | _ => Some vs end
  end.

Lemma map_get_push (m : list (K * list (list Z))) k v l k' :
  map_get m k = Some l ->
  map_get (map_push m k v) k' = if decide (k' = k) then Some (l ++ [v]) else map_get m k'.
Proof.
  induction m as [|[k0 vs] m IH]; cbn [map_get map_push]; [done|].
  destruct (decide (k = k0)) as [->|Hne].
  - intros [= ->]. cbn [map_get]. destruct (decide (k' = k0)); done.
  - intros Hm. cbn [map_get]. destruct (decide (k' = k0)) as [->|Hne'].
    + destruct (decide (k0 = k)); congruence.
    + by apply IH.
Qed.

Lemma map_get_set (m : list (K * list (list Z))) k v k' :
  map_get m k = None ->
  map_get (map_set m k v) k' = if decide (k' = k) then Some [v] else map_get m k'.
Proof.
  unfold map_set. induction m as [|[k0 vs] m IH]; cbn [map_get app].
  - intros _. destruct (decide (k' = k)); done.
  - destruct (decide (k = k0)) as [->|Hne]; [done|]. intros Hm.
    destruct (decide (k' = k0)) as [->|Hne'].
    + destruct (decide (k0 = k)); congruence.
    + by apply IH.
Qed.

Lemma map_push_keys (m : list (K * list (list Z))) k v :
  List.map fst (map_push m k v) = List.map fst m.
Proof.
  induction m as [|[k0 vs] m IH]; cbn [map_push List.map]; [done|].
  destruct (decide (k = k0)); cbn [List.map fst]; congruence.
Qed.

Lemma map_get_None (m : list (K * list (list Z))) k :
  map_get m k = None <-> k ∉ List.map fst m.
Proof.
  induction m as [|[k0 vs] m IH]; cbn [map_get List.map fst].
  - split; [intros _; apply not_elem_of_nil|done].
  - rewrite not_elem_of_cons. destruct (decide (k = k0)); [|tauto].
    split; [done|]. intros [? _]. done.
Qed.

Lemma values_of_cons k (r : record) rs :
  values_of k (r :: rs) =
  (if negb (processed r) && bool_decide (key r = k) then [value r] else [])
    ++ values_of k rs.
Proof.
  unfold values_of. cbn [List.filter].
  destruct (negb (processed r) && bool_decide (key r = k)); reflexivity.
Qed.

Lemma merge_values_nil o : merge_values o [] = o.
Proof. destruct o; cbn; by rewrite ?app_nil_r. Qed.

Lemma flagged_processed (r : record) : processed r = true -> flagged r = r.
Proof. destruct r as [k v p]. cbn. by intros ->. Qed.

(** What a scan does, from any state of a batch that has not stopped:
    it reads [n] entries; the map gains the values of the unflagged ones, key
    by key and in the order of the file; these entries get their flag; and it
    ends at the end of the file, or on an unflagged entry whose key is not in
    the map, which it leaves untouched, once [maxValues] entries are read. *)
Lemma nextEntry_scan (pending : list record) : forall index (b : batch),
  drop index (file b) = pending ->
  NoDup (List.map fst (map b)) ->
  exists n, (n <= length pending)%nat /\
    let b' := nextEntry pending index b in
    (forall k, map_get (map b') k
               = merge_values (map_get (map b) k) (values_of k (take n pending))) /\
    NoDup (List.map fst (map b')) /\
    (forall j, file b' !! j
               = if decide (index <= j < index + n)%nat
                 then flagged <$> file b !! j else file b !! j) /\
    ((nextBatchStartEntry b' = nextBatchStartEntry b /\ more b' = more b /\
      n = length pending) \/
     (nextBatchStartEntry b' = Some (index + n)%nat /\ more b' = true /\
      exists r, pending !! n = Some r /\ processed r = false /\
                map_get (map b') (key r) = None /\
                (maxValues <= processedValues b')%Z)).
Proof.
  induction pending as [|next rest IH]; intros index b Hfile Hnd.
  - exists 0%nat. cbn [nextEntry length take]. split; [lia|].
    split; [intros k; by rewrite merge_values_nil|]. split; [done|].
    split; [|by left]. intros j. destruct (decide _); [lia|done].
  - assert (Hnext : file b !! index = Some next).
    { rewrite <- (Nat.add_0_r index), <- lookup_drop, Hfile. done. }
    assert (Hrest : drop (S index) (file b) = rest).
    { replace (S index) with (index + 1)%nat by lia.
      rewrite <- drop_drop, Hfile. done. }
    cbn [nextEntry]. destruct (processed next) eqn:Hproc.
    + destruct (IH (S index) b Hrest Hnd) as (n & Hn & Hmap & Hnd' & Hflag & Hend).
      exists (S n). cbn [length take]. split; [lia|].
      split; [|split; [done|split]].
      * intros k. rewrite Hmap, values_of_cons, Hproc. done.
      * intros j. rewrite Hflag.
        destruct (decide (S index <= j < S index + n)%nat);
          destruct (decide (index <= j < index + S n)%nat); try lia; try done.
        assert (j = index) as -> by lia. rewrite Hnext. cbn.
        by rewrite flagged_processed.
      * destruct Hend as [(Hs & Hm & Hl)|(Hs & Hm & Hr)]; [left|right].
        -- split; [exact Hs|]. split; [exact Hm|]. lia.
        -- split; [rewrite Hs; f_equal; lia|]. split; [exact Hm|exact Hr].
    + assert (Hflagfile : forall fb, fb = flagProcessed index (file b) ->
                drop (S index) fb = rest /\
                forall j, fb !! j = if decide (j = index) then Some (flagged next)
                                    else file b !! j).
      { intros fb ->. unfold flagProcessed. rewrite Hnext.
        split; [by rewrite drop_insert_lt by lia|].
        intros j. destruct (decide (j = index)) as [->|Hne].
        - apply list_lookup_insert_eq. by eapply lookup_lt_Some.
        - by rewrite list_lookup_insert_ne by done. }
      destruct (map_get (map b) (key next)) as [vs|] eqn:Hget.
      * set (b1 := {| map := map_push (map b) (key next) (value next);
                      more := more b; processedValues := (processedValues b + 1)%Z;
                      nextBatchStartEntry := nextBatchStartEntry b;
                      file := flagProcessed index (file b) |}).
        destruct (Hflagfile _ eq_refl) as [Hdrop Hlook].
        destruct (IH (S index) b1 Hdrop) as (n & Hn & Hmap & Hnd' & Hflag & Hend).
        { cbn [map b1]. by rewrite map_push_keys. }
        exists (S n). cbn [length take]. split; [lia|].
        split; [|split; [done|split]].
        -- intros k. rewrite Hmap. cbn [map b1].
           rewrite (map_get_push _ _ _ vs) by done.
           rewrite values_of_cons, Hproc. cbn [negb andb].
           destruct (decide (k = key next)) as [->|Hne].
           ++ rewrite bool_decide_eq_true_2 by done. rewrite Hget. cbn.
              by rewrite <- app_assoc.
           ++ rewrite bool_decide_eq_false_2 by congruence. done.
        -- intros j. rewrite Hflag. cbn [file b1]. rewrite Hlook.
           destruct (decide (S index <= j < S index + n)%nat);
             destruct (decide (index <= j < index + S n)%nat); try lia;
             destruct (decide (j = index)) as [->|]; try lia; try done.
           by rewrite Hnext.
        -- destruct Hend as [(Hs & Hm & Hl)|(Hs & Hm & Hr)]; [left|right].
           ++ split; [exact Hs|]. split; [exact Hm|]. lia.
           ++ split; [rewrite Hs; f_equal; lia|]. split; [exact Hm|exact Hr].
      * destruct (processedValues b + 1 <? maxValues)%Z eqn:Hcap.
        -- set (b1 := {| map := map_set (map b) (key next) (value next);
                         more := more b; processedValues := (processedValues b + 1)%Z;
                         nextBatchStartEntry := nextBatchStartEntry b;
                         file := flagProcessed index (file b) |}).
           destruct (Hflagfile _ eq_refl) as [Hdrop Hlook].
           destruct (IH (S index) b1 Hdrop) as (n & Hn & Hmap & Hnd' & Hflag & Hend).
           { cbn [map b1]. unfold map_set. rewrite map_app. cbn [List.map fst].
             apply NoDup_app. split; [done|]. split; [|apply NoDup_singleton].
             intros k Hk ->%list_elem_of_singleton. by apply map_get_None in Hget. }
           exists (S n). cbn [length take]. split; [lia|].
           split; [|split; [done|split]].
           ++ intros k. rewrite Hmap. cbn [map b1].
              rewrite map_get_set by done.
              rewrite values_of_cons, Hproc. cbn [negb andb].
              destruct (decide (k = key next)) as [->|Hne].
              ** rewrite bool_decide_eq_true_2 by done. rewrite Hget. done.
              ** rewrite bool_decide_eq_false_2 by congruence. done.
           ++ intros j. rewrite Hflag. cbn [file b1]. rewrite Hlook.
              destruct (decide (S index <= j < S index + n)%nat);
                destruct (decide (index <= j < index + S n)%nat); try lia;
                destruct (decide (j = index)) as [->|]; try lia; try done.
              by rewrite Hnext.
           ++ destruct Hend as [(Hs & Hm & Hl)|(Hs & Hm & Hr)]; [left|right].
              ** split; [exact Hs|]. split; [exact Hm|]. lia.
              ** split; [rewrite Hs; f_equal; lia|]. split; [exact Hm|exact Hr].
        -- apply Z.ltb_ge in Hcap. exists 0%nat. cbn [take length map file].
           split; [lia|]. split; [intros k; by rewrite merge_values_nil|].
           split; [done|]. split.
           ++ intros j. destruct (decide _); [lia|done].
           ++ right. cbn. rewrite Nat.add_0_r. split; [done|]. split; [done|].
              exists next. done.
Qed.

(** The number of unflagged entries among the entries read: those that
    [readNext] hands over. *)
Definition unflagged (scanned : list record) : Z :=
  Z.of_nat (length (List.filter (fun r => negb (processed r)) scanned)).

Lemma unflagged_cons (r : record) rs :
  unflagged (r :: rs) = ((if processed r then 0 else 1) + unflagged rs)%Z.
Proof.
  unfold unflagged. cbn [List.filter]. destruct (processed r); cbn [negb length]; lia.
Qed.

(** Where the cap comes in: [processedValues] counts the unflagged entries
    that were read, the one that stopped the batch included; and an unflagged
    entry with a key that is neither in the map nor among the entries read
    before it is only taken while that count is below [maxValues]. *)
Lemma nextEntry_cap (pending : list record) : forall index (b : batch),
  exists n, (n <= length pending)%nat /\
    let b' := nextEntry pending index b in
    ((nextBatchStartEntry b' = nextBatchStartEntry b /\ n = length pending /\
      processedValues b' = (processedValues b + unflagged (take n pending))%Z) \/
     (nextBatchStartEntry b' = Some (index + n)%nat /\
      processedValues b' = (processedValues b + unflagged (take n pending) + 1)%Z)) /\
    (forall i r, (i < n)%nat -> pending !! i = Some r -> processed r = false ->
       map_get (map b) (key r) = None -> values_of (key r) (take i pending) = [] ->
       (processedValues b + unflagged (take (S i) pending) < maxValues)%Z).
Proof.
  induction pending as [|next rest IH]; intros index b.
  - exists 0%nat. cbn [nextEntry length take]. split; [lia|]. split.
    + left. split; [done|]. split; [done|]. unfold unflagged. cbn. lia.
    + intros i r Hi. lia.
  - cbn [nextEntry]. destruct (processed next) eqn:Hproc.
    + destruct (IH (S index) b) as (n & Hn & Hend & Hcap).
      exists (S n). cbn [length take]. split; [lia|]. split.
      * rewrite unflagged_cons, Hproc.
        destruct Hend as [(Hs & Hl & Hp)|(Hs & Hp)]; [left|right].
        -- split; [exact Hs|]. split; [lia|]. rewrite Hp. lia.
        -- split; [rewrite Hs; f_equal; lia|]. rewrite Hp. lia.
      * intros [|i] r Hi Hr Hpr Hget Hnew.
        -- injection Hr as <-. congruence.
        -- cbn [lookup list_lookup] in Hr. cbn [take] in Hnew |- *.
           rewrite values_of_cons, Hproc in Hnew. cbn [negb andb app] in Hnew.
           rewrite unflagged_cons, Hproc.
           specialize (Hcap i r ltac:(lia) Hr Hpr Hget Hnew). cbn [take] in Hcap. lia.
    + destruct (map_get (map b) (key next)) as [vs|] eqn:Hget.
      * set (b1 := {| map := map_push (map b) (key next) (value next);
                      more := more b; processedValues := (processedValues b + 1)%Z;
                      nextBatchStartEntry := nextBatchStartEntry b;
                      file := flagProcessed index (file b) |}).
        destruct (IH (S index) b1) as (n & Hn & Hend & Hcap).
        exists (S n). cbn [length take]. split; [lia|]. split.
        -- rewrite unflagged_cons, Hproc. cbn [processedValues nextBatchStartEntry b1] in Hend.
           destruct Hend as [(Hs & Hl & Hp)|(Hs & Hp)]; [left|right].
           ++ split; [exact Hs|]. split; [lia|]. rewrite Hp. lia.
           ++ split; [rewrite Hs; f_equal; lia|]. rewrite Hp. lia.
        -- intros [|i] r Hi Hr Hpr Hgetr Hnew.
           ++ injection Hr as <-. congruence.
           ++ cbn [lookup list_lookup] in Hr. cbn [take] in Hnew |- *.
              rewrite values_of_cons, Hproc in Hnew. cbn [negb andb] in Hnew.
              destruct (bool_decide (key next = key r)) eqn:Hk; [discriminate|].
              apply bool_decide_eq_false in Hk. cbn [app] in Hnew.
              rewrite unflagged_cons, Hproc.
              assert (Hg1 : map_get (map b1) (key r) = None).
              { cbn [map b1]. rewrite (map_get_push _ _ _ vs) by done.
                rewrite decide_False by congruence. done. }
              specialize (Hcap i r ltac:(lia) Hr Hpr Hg1 Hnew).
              cbn [processedValues b1 take] in Hcap. lia.
      * destruct (processedValues b + 1 <? maxValues)%Z eqn:Hlt.
        -- apply Z.ltb_lt in Hlt.
           set (b1 := {| map := map_set (map b) (key next) (value next);
                         more := more b; processedValues := (processedValues b + 1)%Z;
                         nextBatchStartEntry := nextBatchStartEntry b;
                         file := flagProcessed index (file b) |}).
           destruct (IH (S index) b1) as (n & Hn & Hend & Hcap).
           exists (S n). cbn [length take]. split; [lia|]. split.
           ++ rewrite unflagged_cons, Hproc.
              cbn [processedValues nextBatchStartEntry b1] in Hend.
              destruct Hend as [(Hs & Hl & Hp)|(Hs & Hp)]; [left|right].
              ** split; [exact Hs|]. split; [lia|]. rewrite Hp. lia.
              ** split; [rewrite Hs; f_equal; lia|]. rewrite Hp. lia.
           ++ intros [|i] r Hi Hr Hpr Hgetr Hnew.
              ** injection Hr as <-. cbn [take]. rewrite unflagged_cons, Hproc.
                 rewrite take_0. unfold unflagged. cbn. lia.
              ** cbn [lookup list_lookup] in Hr. cbn [take] in Hnew |- *.
                 rewrite values_of_cons, Hproc in Hnew. cbn [negb andb] in Hnew.
                 destruct (bool_decide (key next = key r)) eqn:Hk; [discriminate|].
                 apply bool_decide_eq_false in Hk. cbn [app] in Hnew.
                 rewrite unflagged_cons, Hproc.
                 assert (Hg1 : map_get (map b1) (key r) = None).
                 { cbn [map b1]. rewrite map_get_set by done.
                   rewrite decide_False by congruence. done. }
                 specialize (Hcap i r ltac:(lia) Hr Hpr Hg1 Hnew).
                 cbn [processedValues b1 take] in Hcap. lia.
        -- exists 0%nat. cbn [take length]. split; [lia|]. split.
           ++ right. cbn [nextBatchStartEntry processedValues]. rewrite Nat.add_0_r.
              split; [done|]. unfold unflagged. cbn. lia.
           ++ intros i r Hi. lia.
Qed.

Lemma run_entries_elem (b : batch) k vs :
  (k, vs) ∈ run_entries isLess isMore b <-> map_get (map b) k = Some vs.
Proof.
  unfold run_entries. rewrite list_elem_of_fmap. split.
  - intros (k' & [= <- ->] & Hin).
    rewrite quickSort_perm in Hin.
    destruct (map_get (map b) k) eqn:E; [done|].
    apply map_get_None in E. done.
  - intros Hget. exists k. rewrite Hget. split; [done|].
    rewrite quickSort_perm.
    destruct (decide (k ∈ List.map fst (map b))) as [|Hn]; [done|].
    apply map_get_None in Hn. congruence.
Qed.

Lemma run_entries_keys (b : batch) :
  List.map fst (run_entries isLess isMore b) ≡ₚ List.map fst (map b).
Proof.
  unfold run_entries. rewrite List.map_map. cbn [fst].
  rewrite List.map_id. apply quickSort_perm.
Qed.

(** C4: in a batch of stage B an entry whose key is already in the map is
    appended to the values of that key and flagged whatever the number of
    entries read so far; the scan stops only on an unflagged entry whose key
    is not in the map, once [maxValues] entries are read, and leaves it for
    the next batch; so the map, and with it the one run-file entry of a key,
    holds every value of that key that the batch has read.  The cap of
    100000 is kept:
    [processedValues] is the number of unflagged entries read, the one that
    stopped the batch included; an unflagged entry with a key that no
    unflagged entry before it has, and with which that number reaches
    [maxValues], is not taken: the batch stops there at the latest; and the
    batch that follows starts with the entry that was left and takes it. *)
Theorem C4_batch_keeps_keys_together (file0 : list record) (position : nat)
    (startEntry : option nat) :
  let start := default position startEntry in
  let b := nextBatch file0 position startEntry in
  let scanned := take (stop_index b - start) (drop start file0) in
  (forall (next : record) rest index (b0 : batch) vs,
     processed next = false -> map_get (map b0) (key next) = Some vs ->
     nextEntry (next :: rest) index b0
     = nextEntry rest (S index)
         {| map := map_push (map b0) (key next) (value next);
            more := more b0; processedValues := (processedValues b0 + 1)%Z;
            nextBatchStartEntry := nextBatchStartEntry b0;
            file := flagProcessed index (file b0) |} /\
     map_get (map_push (map b0) (key next) (value next)) (key next)
     = Some (vs ++ [value next]) /\
     (file b0 !! index = Some next ->
      flagProcessed index (file b0) !! index = Some (flagged next))) /\
  (forall k, map_get (map b) k = merge_values None (values_of k scanned)) /\
  (forall j, file b !! j
             = if decide (start <= j < stop_index b)%nat
               then flagged <$> file0 !! j else file0 !! j) /\
  (more b = true ->
   exists s r, nextBatchStartEntry b = Some s /\ file0 !! s = Some r /\
               file b !! s = Some r /\ processed r = false /\
               map_get (map b) (key r) = None /\
               (maxValues <= processedValues b)%Z) /\
  (more b = false -> nextBatchStartEntry b = None /\ scanned = drop start file0) /\
  (forall k vs, (k, vs) ∈ run_entries isLess isMore b
                <-> vs <> [] /\ vs = values_of k scanned) /\
  NoDup (List.map fst (run_entries isLess isMore b)) /\
  processedValues b = (unflagged scanned + (if more b then 1 else 0))%Z /\
  (forall i r, drop start file0 !! i = Some r -> processed r = false ->
     values_of (key r) (take i (drop start file0)) = [] ->
     (maxValues <= unflagged (take (S i) (drop start file0)))%Z ->
     more b = true /\ (stop_index b <= start + i)%nat) /\
  (more b = true ->
   forall position', exists s r vs,
     nextBatchStartEntry b = Some s /\ file b !! s = Some r /\
     map_get (map (nextBatch (file b) position' (nextBatchStartEntry b))) (key r)
     = Some (value r :: vs)) /\
  maxValues = 100000%Z.
Proof.
  intros start b scanned.
  set (b0 := {| map := []; more := false; processedValues := 0%Z;
                nextBatchStartEntry := None; file := file0 |} : batch).
  destruct (nextEntry_scan (drop start file0) start b0 eq_refl (NoDup_nil_2))
    as (n & Hn & Hmap & Hnd & Hflag & Hend).
  fold start in Hmap, Hnd, Hflag, Hend.
  change (nextEntry (drop start file0) start b0) with b in Hmap, Hnd, Hflag, Hend.
  cbn [map file more nextBatchStartEntry b0 map_get] in Hmap, Hflag, Hend.
  assert (Hlenfile : length (file b) = length file0).
  { apply Nat.le_antisymm; apply Nat.nlt_ge; intros Hlt.
    - pose proof (Hflag (length file0)) as Hj.
      destruct (decide _) in Hj;
        rewrite (lookup_ge_None_2 file0) in Hj by lia;
        apply lookup_ge_None in Hj; lia.
    - pose proof (Hflag (length (file b))) as Hj.
      rewrite (lookup_ge_None_2 (file b)) in Hj by lia.
      destruct (lookup_lt_is_Some_2 file0 (length (file b)) Hlt) as [r Hr].
      rewrite Hr in Hj. destruct (decide _) in Hj; discriminate. }
  assert (Hstop : (stop_index b - start = n)%nat /\
                  (n = 0%nat \/ stop_index b = start + n)%nat).
  { unfold stop_index. rewrite length_drop in Hn.
    destruct Hend as [(-> & _ & ->)|(-> & _)]; unfold default, from_option, id.
    - rewrite Hlenfile, length_drop. lia.
    - lia. }
  destruct Hstop as [Hstop Hstop'].
  assert (Hscanned : scanned = take n (drop start file0)).
  { unfold scanned. by rewrite Hstop. }
  destruct (nextEntry_cap (drop start file0) start b0) as (n2 & Hn2 & Hend2 & Hcap).
  fold start in Hend2, Hcap.
  change (nextEntry (drop start file0) start b0) with b in Hend2.
  cbn [map processedValues nextBatchStartEntry b0 map_get] in Hend2, Hcap.
  assert (Hn2n : n2 = n).
  { destruct Hend as [(Hs & _ & Hl)|(Hs & _)];
      destruct Hend2 as [(Hs2 & Hl2 & _)|(Hs2 & _)]; try congruence.
    rewrite Hs in Hs2. injection Hs2 as Hs2. lia. }
  subst n2.
  split; [|split; [|split; [|split; [|split; [|split; [|split; [|split; [|split;
    [|split; [|reflexivity]]]]]]]]]].
  - intros next rest index b1 vs Hproc Hget. cbn [nextEntry]. rewrite Hproc, Hget.
    split; [reflexivity|]. split.
    + rewrite (map_get_push _ _ _ vs) by done. by rewrite decide_True.
    + intros Hfile. unfold flagProcessed. rewrite Hfile.
      apply list_lookup_insert_eq. by eapply lookup_lt_Some.
  - intros k. by rewrite Hmap, Hscanned.
  - intros j. rewrite Hflag.
    destruct (decide (start <= j < start + n)%nat);
      destruct (decide (start <= j < stop_index b)%nat); try done; lia.
  - intros Hmore. destruct Hend as [(_ & Hm & _)|(Hs & _ & r & Hr & Hp & Hg & Hc)].
    { rewrite Hmore in Hm. discriminate. }
    exists (start + n)%nat, r. rewrite lookup_drop in Hr.
    split; [done|]. split; [done|]. split; [|done].
    rewrite Hflag. rewrite decide_False by lia. done.
  - intros Hmore. destruct Hend as [(Hs & _ & Hl)|(_ & Hm & _)].
    + split; [done|]. rewrite Hscanned, Hl. apply firstn_all.
    + rewrite Hmore in Hm. discriminate.
  - intros k vs. rewrite run_entries_elem, Hmap, <- Hscanned. cbn [merge_values].
    destruct (values_of k scanned) as [|v vs'].
    + split; [done|]. intros [? ->]. done.
    + split; [intros [= <-]; done|]. intros [_ ->]. done.
  - rewrite run_entries_keys. exact Hnd.
  - rewrite Hscanned.
    destruct Hend as [(Hs & Hm & _)|(Hs & Hm & _)];
      destruct Hend2 as [(Hs2 & _ & Hp)|(Hs2 & Hp)]; try congruence;
      rewrite Hm, Hp; lia.
  - intros i r Hr Hpr Hnew Hmax.
    destruct (decide (i < n)%nat) as [Hi|Hi].
    { specialize (Hcap i r Hi Hr Hpr eq_refl Hnew). lia. }
    destruct Hend as [(_ & _ & Hl)|(Hs & Hm & _)].
    + apply lookup_lt_Some in Hr. lia.
    + split; [exact Hm|]. unfold stop_index. rewrite Hs. cbn. lia.
  - intros Hmore position'.
    destruct Hend as [(_ & Hm & _)|(Hs & _ & r & Hr & Hp & _)].
    { rewrite Hmore in Hm. discriminate. }
    rewrite lookup_drop in Hr.
    assert (Hfr : file b !! (start + n)%nat = Some r).
    { rewrite Hflag. rewrite decide_False by lia. done. }
    exists (start + n)%nat, r. rewrite Hs. unfold nextBatch. cbn [default from_option id].
    rewrite (drop_S _ _ _ Hfr). cbn [nextEntry]. rewrite Hp. cbn [map map_get].
    change (0 + 1 <? maxValues)%Z with true. cbn iota.
    set (b1 := {| map := map_set [] (key r) (value r); more := false;
                  processedValues := (0 + 1)%Z; nextBatchStartEntry := None;
                  file := flagProcessed (start + n) (file b) |} : batch).
    destruct (nextEntry_scan (drop (S (start + n)) (file b)) (S (start + n)) b1)
      as (m & _ & Hmap2 & _).
    { cbn [file b1]. unfold flagProcessed. rewrite Hfr. by rewrite drop_insert_lt by lia. }
    { cbn [map b1]. apply NoDup_singleton. }
    cbn zeta in Hmap2. eexists. split; [done|]. split; [done|].
    rewrite Hmap2. cbn [map b1 map_set app map_get]. rewrite decide_True by done.
    cbn [merge_values app]. reflexivity.
Qed.

End BatchFacts.

(** A batch that has read 99,999 entries and holds the key 1: the next
    entry with key 1 is still taken, the entry with the new key 2 stops the
    batch, and the entry behind it waits for the next batch. *)
Example batch_at_the_cap :
  let r k v := {| BuildBatches.key := k; BuildBatches.value := [v];
                  BuildBatches.processed := false |} in
  let build := [r 1%Z 10%Z; r 1%Z 11%Z; r 2%Z 20%Z; r 1%Z 12%Z] in
  let b := BuildBatches.nextEntry (drop 1 build) 1
             {| BuildBatches.map := [(1%Z, [[10%Z]])]; BuildBatches.more := false;
                BuildBatches.processedValues := 99999;
                BuildBatches.nextBatchStartEntry := None;
                BuildBatches.file := BuildBatches.flagProcessed 0 build |} in
  BuildBatches.map b = [(1%Z, [[10%Z]; [11%Z]])] /\
  BuildBatches.more b = true /\
  BuildBatches.nextBatchStartEntry b = Some 2%nat /\
  List.map BuildBatches.processed (BuildBatches.file b) = [true; true; false; false].
Proof. by vm_compute. Qed.

Section FullTextFacts.
Import DataIndex FullTextIndex.

(** The phrase as the specification words it: the words stand in the text one
    after the other, that is, there is a position [p] of the first word such
    that the word number [i] of the phrase occurs at [p + i]. *)
Fixpoint run_from (p : Z) (occurs : list (list Z)) : bool :=
  match occurs with
  | [] => true
  | o :: rest => existsb (Z.eqb p) o && run_from (p + 1) rest
  end.

Definition has_run (occurs : list (list Z)) : bool :=
  match occurs with
  | [] => false
  | first :: rest => existsb (fun p => run_from (p + 1) rest) first
  end.

(** The positions of the words of a phrase in a text, from [TextInfo]. *)
Definition positions (text : string) (phrase : list string) : option (list (list Z)) :=
  mapM (fun w => (fun wi => List.map Z.of_nat (indexes wi))
                   <$> List.find (fun wi => String.eqb (word wi) w) (TextInfo text))
       phrase.

Definition phrase_in_text (text : string) (phrase : list string) : bool :=
  match positions text phrase with
  | Some occurs => has_run occurs
  | None => false
  end.

Lemma includes_Some (o : list Z) (p : Z) :
  includes (List.map Some o) (Some p) = existsb (Z.eqb p) o.
Proof.
  unfold includes. induction o as [|x o IH]; cbn [List.map existsb]; [done|].
  rewrite IH. by rewrite (Z.eqb_sym x p).
Qed.

Lemma check_after_run (later : list (list Z)) : forall p,
  later <> [] ->
  check_after (List.map (List.map Some) later) (Some p) = run_from (p + 1) later.
Proof.
  induction later as [|o rest IH]; intros p Hne; [done|].
  cbn [List.map check_after run_from fmap option_fmap option_map].
  rewrite includes_Some. destruct (existsb (Z.eqb (p + 1)) o); cbn [andb]; [|done].
  destruct rest as [|o' rest']; [done|]. by apply IH.
Qed.

(** On positions that are numbers the check of the code is the check of the
    specification. *)
Lemma check_has_run (first : list Z) (later : list (list Z)) :
  later <> [] ->
  check (List.map (List.map Some) (first :: later)) = has_run (first :: later).
Proof.
  intros Hne. cbn [List.map check has_run].
  induction first as [|p first IH]; cbn [List.map existsb]; [done|].
  by rewrite check_after_run, IH.
Qed.

(** Only the first position of a word survives [split(',').map(parseInt)]:
    the second one is read with radix 1. *)
Example occurs_0_2 :
  map_parseInt (FullTextIndex.split "," "0,2") 0 = [Some 0%Z; None].
Proof. reflexivity. Qed.

Definition messages : index :=
  {| index_path := "messages"; index_key := "text"; caseSensitive := false |}.

Definition fresh_index : FullTextIndex.state :=
  {| base := {| _cache := []; searches := []; objects := [] |}; ft_cache := [] |}.

Definition hello_dear : string := String quote ("hello dear" ++ String quote "").

(** The paths a query returns. *)
Definition paths (r : FullTextIndex.state * result outcome) : result (list string) :=
  o ← snd r; Ok (List.map path (items (set o))).

(** The tree that [build] makes of the one record [m1] with the text
    [hello dear world], on an index without included keys. *)
Definition built_m1 : list storedEntry :=
  index_text [] [] (fun _ => None) [] "m1" "hello dear world".

(** C6 (fails on the code): the text [hello dear world] of the record [m1]
    holds the phrase [hello dear] at the positions 0 and 1, and on the index
    that [build] makes of this record the phrase query throws a [TypeError],
    for any depth of stack: the entries of the tree hold the metadata of
    [includeKeys] only, so the results have no [_occurs_] to split.  The same
    words without the quotes find the record. *)
Theorem C6_phrase_query_on_built_index (stack : nat) :
  built_m1
  = List.map (fun w => {| stored_key := SString w;
                          stored_values :=
                            [{| stored_pointer := RecordPointer._createRecordPointer [] "m1";
                                stored_metadata := [] |}] |})
             ["dear"; "hello"; "world"] /\
  positions "hello dear world" ["hello"; "dear"] = Some [[0]; [1]]%Z /\
  phrase_in_text "hello dear world" ["hello"; "dear"] = true /\
  paths (query_rec (word_search built_m1) (3 + stack) messages "fulltext:contains"
                   hello_dear false fresh_index)
  = Throw "TypeError: Cannot read properties of undefined (reading 'split')" /\
  paths (query_rec (word_search built_m1) (3 + stack) messages "fulltext:contains"
                   "hello dear" false fresh_index) = Ok ["messages/m1"].
Proof. by vm_compute. Qed.

(** An entry that holds the [_occurs_] of its word for one record, which
    [build] does not write. *)
Definition occurs_entry (w key occurs : string) : storedEntry :=
  {| stored_key := SString w;
     stored_values :=
       [{| stored_pointer := RecordPointer._createRecordPointer [] key;
           stored_metadata := [("_occurs_", MScalar (SString occurs))] |}] |}.

(** On entries that hold [_occurs_] the check runs: the phrase [hello dear] is
    found in [hello dear world], and it is not found in [dear hello dear],
    whose positions [0,2] of [dear] are read back as [0, NaN]. *)
Example phrase_on_stored_positions (stack : nat) :
  paths (query_rec (word_search [occurs_entry "dear" "m1" "1"; occurs_entry "hello" "m1" "0";
                                 occurs_entry "world" "m1" "2"])
                   (3 + stack) messages "fulltext:contains" hello_dear false fresh_index)
  = Ok ["messages/m1"] /\
  paths (query_rec (word_search [occurs_entry "dear" "m3" "0,2"; occurs_entry "hello" "m3" "1"])
                   (3 + stack) messages "fulltext:contains" hello_dear false fresh_index)
  = Ok [].
Proof. by vm_compute. Qed.

End FullTextFacts.

Section LeafFacts.
Import TreeLeaf.
Context {K M : Type}.
Variable _isEqual _isMore : K -> K -> bool.
Variable _checkNewEntryArgs : K -> list Z -> M -> option string.
Variable insertKey : @upper K -> nat -> K -> nat -> nat -> result (@upper K).
Variable lt : K -> K -> Prop.

Hypothesis lt_irrefl : forall a, ~ lt a a.
Hypothesis lt_trans : forall a b c, lt a b -> lt b c -> lt a c.
Hypothesis lt_total : forall a b, lt a b \/ a = b \/ lt b a.
Hypothesis isEqual_spec : forall a b, _isEqual a b = true <-> a = b.
Hypothesis isMore_spec : forall a b, _isMore a b = true <-> lt b a.

Local Abbreviation leaf := (@BPlusTreeLeaf K M).
Local Abbreviation sorted := (StronglySorted lt).

Lemma sorted_app (a b : list K) :
  sorted (a ++ b) <-> sorted a /\ sorted b /\ (forall x y, x ∈ a -> y ∈ b -> lt x y).
Proof.
  induction a as [|x a IH]; cbn [app].
  - split.
    + intros H. split; [constructor|]. split; [done|]. intros x y Hx. by apply elem_of_nil in Hx.
    + tauto.
  - split.
    + intros H. apply StronglySorted_inv in H as [Hs Hall].
      apply IH in Hs as (Ha & Hb & Hab). rewrite Forall_app in Hall.
      destruct Hall as [Hxa Hxb]. split; [by constructor|]. split; [done|].
      intros u v [->|Hu]%elem_of_cons Hv.
      * rewrite Forall_forall in Hxb. by apply Hxb.
      * by apply Hab.
    + intros (Hs & Hb & Hab). apply StronglySorted_inv in Hs as [Ha Hxa].
      constructor.
      * apply IH. split; [done|]. split; [done|]. intros u v Hu Hv.
        apply Hab; [by apply elem_of_cons; right|done].
      * rewrite Forall_app. split; [done|]. rewrite Forall_forall.
        intros v Hv. apply Hab; [by apply elem_of_cons; left|done].
Qed.

Lemma sorted_singleton (k : K) : sorted [k].
Proof. repeat constructor. Qed.

Lemma findIndex_None {A} (p : A -> bool) (l : list A) :
  findIndex p l = None <-> Forall (fun x => p x = false) l.
Proof.
  induction l as [|x l IH]; cbn [findIndex].
  - split; [constructor|done].
  - destruct (p x) eqn:E.
    + split; [done|]. intros H. apply Forall_inv in H. congruence.
    + destruct (findIndex p l); cbn.
      * split; [done|]. intros H. apply Forall_inv_tail, IH in H. done.
      * split; [|done]. intros _. constructor; [done|]. by apply IH.
Qed.

Lemma findIndex_Some {A} (p : A -> bool) (l : list A) i :
  findIndex p l = Some i ->
  Forall (fun x => p x = false) (take i l) /\
  exists x, l !! i = Some x /\ p x = true.
Proof.
  revert i. induction l as [|x l IH]; intros i; cbn [findIndex]; [done|].
  destruct (p x) eqn:E.
  - intros [= <-]. split; [constructor|]. eauto.
  - destruct (findIndex p l) as [j|] eqn:Ej; [|done]. cbn. intros [= <-].
    destruct (IH j eq_refl) as [Hall Hx]. split; [by constructor|]. done.
Qed.

(** The place [add] finds for a new key keeps a sorted list of keys sorted. *)
Lemma insert_sorted_keys (es : list (@BPlusTreeLeafEntry K M)) (e : BPlusTreeLeafEntry) :
  sorted (List.map key es) ->
  findIndex (fun entry => _isEqual (key entry) (key e)) es = None ->
  let es' :=
    match findIndex (fun otherEntry => _isMore (key otherEntry) (key e)) es with
    | None => es ++ [e]
    | Some insertIndex => take insertIndex es ++ e :: drop insertIndex es
    end in
  sorted (List.map key es') /\
  (forall x, x ∈ List.map key es' <-> x = key e \/ x ∈ List.map key es).
Proof.
  intros Hs Hne. apply findIndex_None in Hne. rewrite Forall_forall in Hne.
  assert (Hcmp : forall x, x ∈ es -> _isMore (key x) (key e) = false -> lt (key x) (key e)).
  { intros x Hx Hm. destruct (lt_total (key x) (key e)) as [?|[Heq|Hgt]]; [done| |].
    - apply isEqual_spec in Heq. rewrite Hne in Heq by done. discriminate.
    - apply isMore_spec in Hgt. congruence. }
  destruct (findIndex _ es) as [i|] eqn:Hi; cbn zeta.
  - apply findIndex_Some in Hi as (Hbefore & x & Hx & Hmore).
    rewrite Forall_forall in Hbefore. apply isMore_spec in Hmore.
    rewrite <- (take_drop i es) in Hs at 1. rewrite map_app in Hs.
    apply sorted_app in Hs as (Hs1 & Hs2 & Hs12).
    assert (Hdrop : drop i es = x :: drop (S i) es) by (by apply drop_S).
    split.
    + rewrite map_app. cbn [List.map]. apply sorted_app. split; [done|]. split.
      * constructor; [done|]. rewrite Forall_forall. intros y Hy.
        rewrite Hdrop in Hy, Hs2. cbn [List.map] in Hy, Hs2.
        apply StronglySorted_inv in Hs2 as [_ Hall]. rewrite Forall_forall in Hall.
        apply elem_of_cons in Hy as [->|Hy]; [done|].
        eapply lt_trans; [exact Hmore|]. by apply Hall.
      * intros u v Hu Hv. apply elem_of_cons in Hv as [->|Hv].
        -- apply list_elem_of_fmap in Hu as (eu & -> & Hu).
           apply Hcmp; [|by apply Hbefore].
           rewrite <- (take_drop i es). apply elem_of_app. by left.
        -- by apply Hs12.
    + intros y. rewrite map_app. cbn [List.map]. rewrite elem_of_app, elem_of_cons.
      assert (Hy : y ∈ List.map key es
                   <-> y ∈ List.map key (take i es) \/ y ∈ List.map key (drop i es)).
      { rewrite <- (take_drop i es) at 1. by rewrite map_app, elem_of_app. }
      tauto.
  - apply findIndex_None in Hi. rewrite Forall_forall in Hi. split.
    + rewrite map_app. apply sorted_app. split; [done|].
      split; [apply sorted_singleton|].
      intros u v Hu ->%list_elem_of_singleton.
      apply list_elem_of_fmap in Hu as (eu & -> & Hu). apply Hcmp; [done|]. by apply Hi.
    + intros y. rewrite map_app, elem_of_app. cbn [List.map].
      rewrite list_elem_of_singleton. tauto.
Qed.

(** The chain of leaves as a list: the leaves of [ids] are linked one to the
    next, the first has [prev] before it and the last has [next] after it. *)
Fixpoint seg (ls : gmap nat leaf) (prev : option nat) (ids : list nat)
    (next : option nat) : Prop :=
  match ids with
  | [] => True
  | l :: rest =>
      exists d, ls !! l = Some d /\ prevLeaf d = prev /\
                nextLeaf d = match rest with [] => next | l' :: _ => Some l' end /\
                seg ls (Some l) rest next
  end.

Definition leaf_keys (ls : gmap nat leaf) (l : nat) : list K :=
  match ls !! l with Some d => keys_of d | None => [] end.

Definition flat (ls : gmap nat leaf) (ids : list nat) : list K :=
  concat (List.map (leaf_keys ls) ids).

(** The invariant of the leaves: they form one chain, and their keys, read
    along the chain, are strictly ascending. *)
Definition chain_inv (ls : gmap nat leaf) (ids : list nat) : Prop :=
  NoDup ids /\ (forall l, is_Some (ls !! l) -> l ∈ ids) /\
  seg ls None ids None /\ sorted (flat ls ids).

Definition last_or (p : option nat) (xs : list nat) : option nat :=
  match last xs with Some x => Some x | None => p end.

Definition head_or (n : option nat) (ys : list nat) : option nat :=
  match ys with [] => n | y :: _ => Some y end.

Lemma seg_frame (ls ls' : gmap nat leaf) ids : forall p n,
  (forall l, l ∈ ids -> ls' !! l = ls !! l) -> seg ls p ids n -> seg ls' p ids n.
Proof.
  induction ids as [|l rest IH]; intros p n Hsame; cbn [seg]; [done|].
  intros (d & Hd & Hp & Hn & Hrest). exists d.
  rewrite Hsame by (by apply elem_of_cons; left).
  split; [done|]. split; [done|]. split; [done|].
  apply IH; [|done]. intros l' Hl'. apply Hsame. by apply elem_of_cons; right.
Qed.

Lemma seg_app (ls : gmap nat leaf) xs : forall p ys n,
  seg ls p (xs ++ ys) n <-> seg ls p xs (head_or n ys) /\ seg ls (last_or p xs) ys n.
Proof.
  induction xs as [|x xs IH]; intros p ys n; cbn [app seg].
  - unfold last_or. cbn. tauto.
  - assert (Hlast : last_or p (x :: xs) = last_or (Some x) xs).
    { unfold last_or. destruct xs as [|x' xs']; [done|].
      change (last (x :: x' :: xs')) with (last (x' :: xs')).
      destruct (last (x' :: xs')) eqn:E; [done|].
      by apply last_None in E. }
    rewrite Hlast. setoid_rewrite IH.
    assert (Hhead : match xs ++ ys with [] => n | l' :: _ => Some l' end
                    = match xs with [] => head_or n ys | l' :: _ => Some l' end).
    { by destruct xs. }
    rewrite Hhead. split.
    + intros (d & ? & ? & ? & ? & ?). split; [|done]. by exists d.
    + intros [(d & ? & ? & ? & ?) ?]. by exists d.
Qed.

Lemma seg_lookup (ls : gmap nat leaf) ids : forall p n l,
  seg ls p ids n -> l ∈ ids -> is_Some (ls !! l).
Proof.
  induction ids as [|x rest IH]; intros p n l; cbn [seg].
  - intros _ H. by apply elem_of_nil in H.
  - intros (d & Hd & _ & _ & Hrest) [->|Hl]%elem_of_cons; [by eexists|].
    by eapply IH.
Qed.

Lemma flat_app (ls : gmap nat leaf) xs ys : flat ls (xs ++ ys) = flat ls xs ++ flat ls ys.
Proof. unfold flat. by rewrite map_app, concat_app. Qed.

Lemma flat_cons (ls : gmap nat leaf) x ys : flat ls (x :: ys) = leaf_keys ls x ++ flat ls ys.
Proof. reflexivity. Qed.

Lemma flat_frame (ls ls' : gmap nat leaf) ids :
  (forall l, l ∈ ids -> leaf_keys ls' l = leaf_keys ls l) -> flat ls' ids = flat ls ids.
Proof.
  induction ids as [|l rest IH]; intros Hsame; [done|].
  rewrite !flat_cons, Hsame by (by apply elem_of_cons; left).
  f_equal. apply IH. intros l' Hl'. apply Hsame. by apply elem_of_cons; right.
Qed.

(** A leaf of the chain and its neighbours. *)
Lemma seg_middle (ls : gmap nat leaf) pre this post :
  seg ls None (pre ++ this :: post) None ->
  exists d, ls !! this = Some d /\ prevLeaf d = last_or None pre /\
            nextLeaf d = head_or None post /\
            seg ls None pre (Some this) /\ seg ls (Some this) post None.
Proof.
  intros H. apply seg_app in H as [Hpre Hrest]. cbn [head_or] in Hpre.
  cbn [seg] in Hrest. destruct Hrest as (d & Hd & Hp & Hn & Hpost).
  exists d. split; [done|]. split; [done|]. split; [|done].
  rewrite Hn. by destruct post.
Qed.

(** Replacing the keys of one leaf by keys that, besides [k], were there
    before, keeps the keys of the chain ascending when [k] belongs there. *)
Lemma sorted_replace_middle (a m m' b : list K) (k : K) :
  sorted (a ++ m ++ b) -> sorted m' ->
  (forall x, x ∈ m' -> x = k \/ x ∈ m) ->
  Forall (fun x => lt x k) a -> Forall (fun y => lt k y) b ->
  sorted (a ++ m' ++ b).
Proof.
  intros Hs Hm' Hin Ha Hb. rewrite Forall_forall in Ha, Hb.
  apply sorted_app in Hs as (Hsa & Hsmb & Hcross).
  apply sorted_app in Hsmb as (Hsm & Hsb & Hmb).
  apply sorted_app. split; [done|]. split.
  - apply sorted_app. split; [done|]. split; [done|].
    intros x y Hx Hy. destruct (Hin x Hx) as [->|Hxm]; [by apply Hb|by apply Hmb].
  - intros x y Hx [Hy|Hy]%elem_of_app.
    + destruct (Hin y Hy) as [->|Hym]; [by apply Ha|].
      apply Hcross; [done|]. apply elem_of_app. by left.
    + apply Hcross; [done|]. apply elem_of_app. by right.
Qed.

Lemma NoDup_middle (pre post : list nat) (this : nat) :
  NoDup (pre ++ this :: post) ->
  (this ∉ pre) /\ (this ∉ post) /\ (forall x, x ∈ pre -> x ∉ post).
Proof.
  intros H. apply NoDup_app in H as (_ & Hdisj & Hpost).
  apply NoDup_cons in Hpost as [Hthis _]. split.
  - intros Hin. apply (Hdisj this Hin). by apply elem_of_cons; left.
  - split; [done|]. intros x Hx Hx'. apply (Hdisj x Hx). by apply elem_of_cons; right.
Qed.

Lemma leaf_keys_insert_eq (ls : gmap nat leaf) l d :
  leaf_keys (<[l := d]> ls) l = keys_of d.
Proof. unfold leaf_keys. by rewrite lookup_insert_eq. Qed.

Lemma leaf_keys_insert_ne (ls : gmap nat leaf) l l' d :
  l <> l' -> leaf_keys (<[l := d]> ls) l' = leaf_keys ls l'.
Proof. intros H. unfold leaf_keys. by rewrite lookup_insert_ne. Qed.

Lemma seg_set_entries (ls : gmap nat leaf) this d es ids : forall p n,
  ls !! this = Some d ->
  seg ls p ids n -> seg (<[this := set_entries d es]> ls) p ids n.
Proof.
  induction ids as [|l rest IH]; intros p n Hthis; cbn [seg]; [done|].
  intros (d' & Hd' & Hp & Hn & Hrest).
  destruct (decide (l = this)) as [->|Hne].
  - exists (set_entries d es). rewrite lookup_insert_eq.
    assert (d' = d) as -> by congruence.
    split; [done|]. split; [done|]. split; [done|]. by apply IH.
  - exists d'. rewrite lookup_insert_ne by done.
    split; [done|]. split; [done|]. split; [done|]. by apply IH.
Qed.

(** The entries of one leaf change, its place in the chain does not. *)
Lemma update_entries_inv (ls : gmap nat leaf) pre this post d es (k : K) :
  chain_inv ls (pre ++ this :: post) ->
  ls !! this = Some d ->
  sorted (List.map key es) ->
  (forall x, x ∈ List.map key es -> x = k \/ x ∈ keys_of d) ->
  Forall (fun a => lt a k) (flat ls pre) -> Forall (fun b => lt k b) (flat ls post) ->
  chain_inv (<[this := set_entries d es]> ls) (pre ++ this :: post).
Proof.
  intros (Hnd & Hdom & Hseg & Hsorted) Hthis Hes Hin Hpre Hpost.
  destruct (NoDup_middle _ _ _ Hnd) as (Hnpre & Hnpost & _).
  split; [done|]. split; [|split].
  - intros l [x Hl]. destruct (decide (l = this)) as [->|Hne].
    + apply elem_of_app. right. by apply elem_of_cons; left.
    + rewrite lookup_insert_ne in Hl by done. apply Hdom. by eexists.
  - by apply seg_set_entries.
  - rewrite flat_app, flat_cons in Hsorted |- *.
    rewrite leaf_keys_insert_eq.
    rewrite (flat_frame ls _ pre), (flat_frame ls _ post).
    + eapply (sorted_replace_middle _ (leaf_keys ls this)); try done.
      unfold leaf_keys. by rewrite Hthis.
    + intros l Hl. apply leaf_keys_insert_ne. by intros ->.
    + intros l Hl. apply leaf_keys_insert_ne. by intros ->.
Qed.

(** What the leaves are after [link_after], for a new leaf that was not there
    and a next leaf that is neither [this] nor the new one. *)
Lemma link_after_lookup (ls : gmap nat leaf) this new (T : leaf) moved l :
  this <> new -> nextLeaf T <> Some this -> nextLeaf T <> Some new ->
  link_after ls this new T moved !! l =
  if decide (l = this)
  then Some {| entries := entries T; prevLeaf := prevLeaf T; nextLeaf := Some new |}
  else if decide (l = new)
  then Some {| entries := moved; prevLeaf := Some this; nextLeaf := nextLeaf T |}
  else if decide (nextLeaf T = Some l)
  then (fun nl => {| entries := entries nl; prevLeaf := Some new; nextLeaf := nextLeaf nl |})
         <$> ls !! l
  else ls !! l.
Proof.
  intros Hne Hnt Hnn. unfold link_after.
  destruct (decide (l = this)) as [->|Hlt]; [by rewrite lookup_insert_eq|].
  rewrite lookup_insert_ne by done.
  destruct (nextLeaf T) as [nx|] eqn:Hnx.
  - assert (nx <> new) by congruence. assert (nx <> this) by congruence.
    rewrite (lookup_insert_ne _ new nx) by done.
    destruct (decide (l = new)) as [->|Hln].
    + destruct (ls !! nx); [rewrite lookup_insert_ne by done|];
        by rewrite lookup_insert_eq.
    + destruct (decide (Some nx = Some l)) as [[= ->]|Hnl].
      * destruct (ls !! l) as [nl|] eqn:El; cbn.
        -- by rewrite lookup_insert_eq.
        -- rewrite lookup_insert_ne by done. done.
      * assert (nx <> l) by congruence.
        destruct (ls !! nx); [rewrite lookup_insert_ne by done|];
          by rewrite lookup_insert_ne by done.
  - destruct (decide (l = new)) as [->|Hln]; [by rewrite lookup_insert_eq|].
    rewrite lookup_insert_ne by done. by rewrite decide_False by done.
Qed.

(** A leaf is split: the new leaf takes the place after it in the chain. *)
Lemma split_inv (ls : gmap nat leaf) pre this post d es new (k : K) (s : nat) :
  chain_inv ls (pre ++ this :: post) ->
  ls !! this = Some d -> ls !! new = None ->
  sorted (List.map key es) ->
  (forall x, x ∈ List.map key es -> x = k \/ x ∈ keys_of d) ->
  Forall (fun a => lt a k) (flat ls pre) -> Forall (fun b => lt k b) (flat ls post) ->
  chain_inv (link_after ls this new (set_entries d (take s es)) (drop s es))
            (pre ++ this :: new :: post).
Proof.
  intros (Hnd & Hdom & Hseg & Hsorted) Hthis Hnew Hes Hin Hpre Hpost.
  destruct (NoDup_middle _ _ _ Hnd) as (Hnpre & Hnpost & Hdisj).
  destruct (seg_middle _ _ _ _ Hseg) as (d' & Hd' & Hprev & Hnext & Hsegpre & Hsegpost).
  assert (d' = d) as -> by congruence.
  assert (Hfresh : new ∉ pre ++ this :: post).
  { intros Hin'. destruct (seg_lookup _ _ _ _ _ Hseg Hin') as [x Hx]. congruence. }
  assert (Hnt : this <> new).
  { intros ->. apply Hfresh, elem_of_app. right. by apply elem_of_cons; left. }
  assert (Hnewpre : new ∉ pre).
  { intros H. apply Hfresh, elem_of_app. by left. }
  assert (Hnewpost : new ∉ post).
  { intros H. apply Hfresh, elem_of_app. right. by apply elem_of_cons; right. }
  set (T := set_entries d (take s es)).
  assert (HnT : nextLeaf T = head_or None post) by (by cbn).
  assert (Hn1 : nextLeaf T <> Some this).
  { rewrite HnT. destruct post as [|nx post']; [done|]. cbn. intros [= ->].
    apply Hnpost. by apply elem_of_cons; left. }
  assert (Hn2 : nextLeaf T <> Some new).
  { rewrite HnT. destruct post as [|nx post']; [done|]. cbn. intros [= ->].
    apply Hnewpost. by apply elem_of_cons; left. }
  pose proof (fun l => link_after_lookup ls this new T (drop s es) l Hnt Hn1 Hn2) as Hlook.
  set (ls' := link_after ls this new T (drop s es)) in *.
  assert (Hsame : forall l, l <> this -> l <> new -> nextLeaf T <> Some l ->
                            ls' !! l = ls !! l).
  { intros l H1 H2 H3. rewrite Hlook.
    by rewrite !decide_False by done. }
  assert (Hkeys : forall l, l <> this -> l <> new -> leaf_keys ls' l = leaf_keys ls l).
  { intros l H1 H2. unfold leaf_keys. rewrite Hlook.
    rewrite decide_False by done. rewrite decide_False by done.
    destruct (decide (nextLeaf T = Some l)); [|done]. by destruct (ls !! l). }
  split; [|split; [|split]].
  - apply NoDup_app in Hnd as (Hnd1 & Hd12 & Hnd2).
    apply NoDup_cons in Hnd2 as [Hthis2 Hnd2].
    apply NoDup_app. split; [done|]. split.
    + intros x Hx [->|[->|Hx']%elem_of_cons]%elem_of_cons; [done|done|].
      by apply (Hdisj x Hx).
    + apply NoDup_cons. split.
      * intros [->|Hx]%elem_of_cons; done.
      * apply NoDup_cons. done.
  - intros l [x Hl]. rewrite Hlook in Hl.
    destruct (decide (l = this)) as [->|H1].
    { apply elem_of_app. right. by apply elem_of_cons; left. }
    destruct (decide (l = new)) as [->|H2].
    { apply elem_of_app. right. apply elem_of_cons; right. by apply elem_of_cons; left. }
    assert (Hl' : is_Some (ls !! l)).
    { destruct (decide (nextLeaf T = Some l)); [|by eexists].
      destruct (ls !! l); [by eexists|]. discriminate. }
    apply Hdom, elem_of_app in Hl' as [?|[->|?]%elem_of_cons]; [| done |].
    + apply elem_of_app. by left.
    + apply elem_of_app. right. apply elem_of_cons; right. by apply elem_of_cons; right.
  - apply seg_app. split.
    + cbn [head_or]. eapply seg_frame; [|exact Hsegpre].
      intros l Hl. apply Hsame.
      * by intros ->.
      * by intros ->.
      * rewrite HnT. destruct post as [|nx post']; [done|]. cbn. intros [= ->].
        apply (Hdisj _ Hl). by apply elem_of_cons; left.
    + cbn [seg]. eexists. rewrite Hlook, decide_True by done.
      split; [reflexivity|]. cbn [prevLeaf nextLeaf T set_entries].
      split; [done|]. split; [done|].
      eexists. rewrite Hlook, decide_False, decide_True by done.
      split; [reflexivity|]. cbn [prevLeaf nextLeaf T set_entries].
      split; [done|]. split; [by rewrite Hnext; destruct post|].
      destruct post as [|nx post']; [done|].
      cbn [seg] in Hsegpost |- *.
      destruct Hsegpost as (dn & Hdn & Hpn & Hnn & Hrest).
      assert (nx <> this) by (intros ->; apply Hnpost; by apply elem_of_cons; left).
      assert (nx <> new) by (intros ->; apply Hnewpost; by apply elem_of_cons; left).
      eexists. rewrite Hlook. rewrite decide_False by done.
      rewrite decide_False by done. rewrite decide_True by (by rewrite HnT).
      rewrite Hdn. cbn. split; [reflexivity|]. cbn.
      split; [done|]. split; [done|].
      eapply seg_frame; [|exact Hrest].
      intros l Hl. apply Hsame.
      * intros ->. apply Hnpost. by apply elem_of_cons; right.
      * intros ->. apply Hnewpost. by apply elem_of_cons; right.
      * rewrite HnT. cbn. intros [= ->].
        apply NoDup_app in Hnd as (_ & _ & Hnd2).
        apply NoDup_cons in Hnd2 as [_ Hnd2]. apply NoDup_cons in Hnd2 as [Hnx _].
        done.
  - rewrite flat_app, flat_cons in Hsorted. rewrite flat_app, 2!flat_cons.
    rewrite (flat_frame ls ls' pre), (flat_frame ls ls' post).
    + assert (Hk1 : leaf_keys ls' this = List.map key (take s es)).
      { unfold leaf_keys. by rewrite Hlook, decide_True by done. }
      assert (Hk2 : leaf_keys ls' new = List.map key (drop s es)).
      { unfold leaf_keys. rewrite Hlook, decide_False, decide_True by done. done. }
      rewrite Hk1, Hk2. rewrite (app_assoc (List.map key (take s es))).
      rewrite <- map_app, take_drop.
      eapply (sorted_replace_middle _ (leaf_keys ls this)); try done.
      unfold leaf_keys. by rewrite Hthis.
    + intros l Hl. apply Hkeys; by intros ->.
    + intros l Hl. apply Hkeys; by intros ->.
Qed.

(** The key [k] belongs to the leaf [this] of the chain [ids]. *)
Definition routed_in (ls : gmap nat leaf) (ids : list nat) (this : nat) (k : K) : Prop :=
  exists pre post, ids = pre ++ this :: post /\
    Forall (fun a => lt a k) (flat ls pre) /\ Forall (fun b => lt k b) (flat ls post).

Local Abbreviation add_leaf := (add _isEqual _isMore _checkNewEntryArgs insertKey).

(** [add] keeps the invariant of the leaves when the key belongs to the leaf
    it is added to. *)
Lemma add_preserves (t t' : BPlusTree) this k rp md ids :
  chain_inv (leaves t) ids -> routed_in (leaves t) ids this k ->
  add_leaf t this k rp md = Ok t' ->
  exists ids', chain_inv (leaves t') ids'.
Proof.
  intros Hinv (pre & post & -> & Hpre & Hpost) Hadd. unfold add in Hadd.
  destruct (_checkNewEntryArgs k (pointer_bytes rp) md); [discriminate|].
  destruct (leaves t !! this) as [d|] eqn:Hthis; [|discriminate].
  destruct (leaf_parent (above t) !! this) as [parent|]; [|discriminate].
  assert (Hsd : sorted (keys_of d)).
  { destruct Hinv as (_ & _ & _ & Hs). rewrite flat_app, flat_cons in Hs.
    apply sorted_app in Hs as (_ & Hs & _). apply sorted_app in Hs as (Hs & _ & _).
    unfold leaf_keys in Hs. by rewrite Hthis in Hs. }
  set (entryValue := {| recordPointer := pointer_bytes rp; metadata := md |}) in *.
  destruct (findIndex (fun entry => _isEqual (key entry) k) (entries d))
    as [entryIndex|] eqn:Hfind.
  - destruct (uniqueKeys (above t)); [discriminate|].
    apply Ok_inj in Hadd. subst t'. cbn [leaves].
    exists (pre ++ this :: post). eapply update_entries_inv; try done.
    + destruct (entries d !! entryIndex) as [entry|] eqn:He; [|done].
      rewrite list_fmap_insert. cbn [key]. rewrite list_insert_id; [done|].
      by rewrite list_lookup_fmap, He.
    + intros x Hx. right.
      destruct (entries d !! entryIndex) as [entry|] eqn:He; [|done].
      rewrite list_fmap_insert in Hx. cbn [key] in Hx.
      rewrite list_insert_id in Hx; [done|]. by rewrite list_lookup_fmap, He.
  - set (entry := {| key := k; values := [entryValue] |}) in *.
    destruct (length (entries d) =? 0)%nat eqn:Hlen.
    + apply Ok_inj in Hadd. subst t'. cbn [leaves].
      exists (pre ++ this :: post). eapply update_entries_inv; try done.
      * apply sorted_singleton.
      * intros x ->%list_elem_of_singleton. by left.
    + pose proof (insert_sorted_keys (entries d) entry Hsd Hfind) as [Hs' Hin'].
      cbn zeta in Hs', Hin'. cbn [key entry] in Hs', Hin'.
      set (es := match findIndex (fun otherEntry => _isMore (key otherEntry) k) (entries d)
                 with
                 | Some insertIndex =>
                     take insertIndex (entries d) ++ entry :: drop insertIndex (entries d)
                 | None => entries d ++ [entry]
                 end) in *.
      assert (Hin : forall x, x ∈ List.map key es -> x = k \/ x ∈ keys_of d).
      { intros x Hx. by apply Hin'. }
      destruct (maxEntriesPerNode (above t) <? length es)%nat.
      * destruct (drop _ es) as [|first moved] eqn:Hmove; [discriminate|].
        assert (Hnew : leaves t !! fresh (dom (leaves t)) = None).
        { apply not_elem_of_dom, is_fresh. }
        destruct parent as [|p].
        -- apply Ok_inj in Hadd. subst t'. cbn [leaves]. rewrite <- Hmove.
           eexists. eapply split_inv; done.
        -- destruct (insertKey _ p (key first) this _) as [u|]; [|discriminate].
           apply Ok_inj in Hadd. subst t'. cbn [leaves]. rewrite <- Hmove.
           eexists. eapply split_inv; done.
      * apply Ok_inj in Hadd. subst t'. cbn [leaves].
        exists (pre ++ this :: post). eapply update_entries_inv; done.
Qed.

Lemma keys_after_seg (ls : gmap nat leaf) ids : forall p fuel,
  seg ls p ids None -> (length ids <= fuel)%nat ->
  keys_after ls fuel (head_or None ids) = flat ls ids.
Proof.
  induction ids as [|l rest IH]; intros p fuel Hseg Hfuel.
  - by destruct fuel.
  - destruct fuel as [|fuel]; [cbn in Hfuel; lia|].
    cbn [seg] in Hseg. destruct Hseg as (d & Hd & _ & Hn & Hrest).
    cbn [head_or keys_after]. rewrite Hd, flat_cons. unfold leaf_keys at 1. rewrite Hd.
    f_equal. rewrite <- (IH (Some l) fuel Hrest) by (cbn in Hfuel; lia).
    f_equal. rewrite Hn. by destruct rest.
Qed.

Lemma keys_before_seg (ls : gmap nat leaf) ids : forall n fuel,
  seg ls None ids n -> (length ids <= fuel)%nat ->
  keys_before ls fuel (last_or None ids) = flat ls ids.
Proof.
  induction ids as [|l xs IH] using rev_ind; intros n fuel Hseg Hfuel.
  - by destruct fuel.
  - rewrite length_app in Hfuel. cbn [length] in Hfuel.
    destruct fuel as [|fuel]; [lia|].
    apply seg_app in Hseg as [Hxs Hl]. cbn [head_or seg] in Hxs, Hl.
    destruct Hl as (d & Hd & Hp & _ & _).
    assert (Hlast : last_or None (xs ++ [l]) = Some l).
    { unfold last_or. by rewrite last_snoc. }
    rewrite Hlast. cbn [keys_before]. rewrite Hd, flat_app, flat_cons.
    unfold leaf_keys. rewrite Hd. cbn [flat List.map concat]. rewrite app_nil_r.
    f_equal. rewrite Hp. apply (IH (Some l)); [done|lia].
Qed.

Lemma chain_length (ls : gmap nat leaf) ids :
  NoDup ids -> seg ls None ids None -> (length ids <= size ls)%nat.
Proof.
  intros Hnd Hseg. rewrite <- size_dom.
  rewrite <- (size_list_to_set (C := gset nat) ids Hnd).
  apply subseteq_size. intros l Hl. apply elem_of_list_to_set in Hl.
  apply elem_of_dom. by eapply seg_lookup.
Qed.

(** On a chain that satisfies the invariant, a key that is routed to a leaf
    by the walks along the chain belongs to that leaf of the list. *)
Lemma routed_routed_in (ls : gmap nat leaf) ids this k :
  chain_inv ls ids -> routed lt ls this k -> routed_in ls ids this k.
Proof.
  intros (Hnd & Hdom & Hseg & _) (d & Hd & Hb & Ha).
  assert (Hin : this ∈ ids) by (apply Hdom; by eexists).
  apply list_elem_of_split in Hin as (pre & post & ->).
  pose proof (chain_length _ _ Hnd Hseg) as Hlen.
  rewrite length_app in Hlen. cbn [length] in Hlen.
  destruct (seg_middle _ _ _ _ Hseg) as (d' & Hd' & Hp & Hn & Hpre & Hpost).
  assert (d' = d) as -> by congruence.
  exists pre, post. split; [done|].
  rewrite Hp, (keys_before_seg _ _ _ _ Hpre) in Hb by lia.
  rewrite Hn, (keys_after_seg _ _ _ _ Hpost) in Ha by lia. done.
Qed.

Local Abbreviation add_all_leaf := (add_all _isEqual _isMore _checkNewEntryArgs insertKey).
Local Abbreviation routed_calls_leaf :=
  (routed_calls _isEqual _isMore _checkNewEntryArgs insertKey lt).

Lemma add_all_preserves calls : forall (t t' : BPlusTree) ids,
  chain_inv (leaves t) ids -> routed_calls_leaf t calls ->
  add_all_leaf t calls = Ok t' ->
  exists ids', chain_inv (leaves t') ids'.
Proof.
  induction calls as [|c rest IH]; intros t t' ids Hinv Hrouted Hall.
  - apply Ok_inj in Hall. subst. eauto.
  - cbn [add_all routed_calls] in Hall, Hrouted. destruct Hrouted as [Hr Hrest].
    destruct (add _ _ _ _ t _ _ _ _) as [t1|] eqn:Hadd; [|discriminate].
    cbn in Hall.
    destruct (add_preserves t t1 _ _ _ _ ids Hinv (routed_routed_in _ _ _ _ Hinv Hr) Hadd)
      as [ids1 Hinv1].
    by eapply IH.
Qed.

(** The invariant gives the order of the leaves as the specification states
    it. *)
Lemma chain_inv_ordered (ls : gmap nat leaf) ids :
  chain_inv ls ids -> leaves_ordered lt ls.
Proof.
  intros (Hnd & Hdom & Hseg & Hs). split.
  - intros l d Hd.
    assert (Hin : l ∈ ids) by (apply Hdom; by eexists).
    apply list_elem_of_split in Hin as (pre & post & ->).
    rewrite flat_app, flat_cons in Hs.
    apply sorted_app in Hs as (_ & Hs & _). apply sorted_app in Hs as (Hs & _ & _).
    unfold leaf_keys in Hs. by rewrite Hd in Hs.
  - intros l d l' d' a b Hd Hn Hd' Ha Hb.
    assert (Hin : l ∈ ids) by (apply Hdom; by eexists).
    apply list_elem_of_split in Hin as (pre & post & ->).
    destruct (seg_middle _ _ _ _ Hseg) as (d0 & Hd0 & _ & Hn0 & _ & _).
    assert (d0 = d) as -> by congruence.
    rewrite Hn in Hn0. destruct post as [|x post]; [discriminate|].
    cbn in Hn0. injection Hn0 as <-.
    rewrite flat_app, !flat_cons in Hs.
    apply sorted_app in Hs as (_ & Hs & _).
    rewrite app_assoc in Hs. apply sorted_app in Hs as (Hs & _ & _).
    apply sorted_app in Hs as (_ & _ & Hcross).
    unfold leaf_keys in Hcross. rewrite Hd, Hd' in Hcross.
    apply Hcross.
    + apply last_Some in Ha as [l0 ->]. apply elem_of_app. right. by apply elem_of_cons; left.
    + destruct (keys_of d') as [|b0 ?]; [done|]. cbn in Hb. injection Hb as ->.
      by apply elem_of_cons; left.
Qed.

Lemma empty_tree_inv maxEntries unique :
  chain_inv (leaves (@empty_tree K M maxEntries unique)) [0%nat].
Proof.
  split; [apply NoDup_singleton|]. split; [|split].
  - intros l [x Hl]. cbn in Hl. apply lookup_singleton_Some in Hl as [<- _].
    by apply elem_of_cons; left.
  - cbn. eexists. rewrite lookup_singleton_eq. done.
  - cbn. unfold flat, leaf_keys. cbn. rewrite lookup_singleton_eq. cbn. constructor.
Qed.

(** C2, as amended: starting from a new tree, every sequence of [add] calls
    in which each key is added to the leaf it belongs to (the keys of the
    leaves before it are smaller, those of the leaves after it greater) leaves
    every leaf strictly ascending and the last key of each leaf below the
    first key of the next leaf of the chain. *)
Theorem C2_routed_adds_keep_leaves_ordered (maxEntries : nat) (unique : bool)
    (calls : list call) (t' : BPlusTree) :
  routed_calls_leaf (empty_tree maxEntries unique) calls ->
  add_all_leaf (empty_tree maxEntries unique) calls = Ok t' ->
  leaves_ordered lt (leaves t').
Proof.
  intros Hrouted Hall.
  destruct (add_all_preserves calls _ _ _ (empty_tree_inv maxEntries unique) Hrouted Hall)
    as [ids Hinv].
  by eapply chain_inv_ordered.
Qed.

End LeafFacts.

(** *** A tree with integer keys *)

Definition z_isEqual (a b : Z) : bool := (a =? b)%Z.
Definition z_isMore (a b : Z) : bool := (b <? a)%Z.
Definition z_check (k : Z) (rp : list Z) (md : unit) : option string := None.

(** A parent node that takes the key of a new leaf without splitting. *)
Definition z_insertKey (u : @TreeLeaf.upper Z) (n : nat) (k : Z) (fromLeaf newLeaf : nat)
    : result (@TreeLeaf.upper Z) := Ok u.

Definition z_call (l : nat) (k : Z) : @TreeLeaf.call Z unit :=
  {| TreeLeaf.on_leaf := l; TreeLeaf.with_key := k;
     TreeLeaf.with_pointer := TreeLeaf.PointerBytes [0%Z]; TreeLeaf.with_metadata := tt |}.

Definition z_add_all :=
  TreeLeaf.add_all z_isEqual z_isMore z_check z_insertKey.

(** The keys of a leaf and the leaf after it. *)
Definition z_leaf (t : @TreeLeaf.BPlusTree Z unit) (l : nat) : option (list Z * option nat) :=
  (fun d => (TreeLeaf.keys_of d, TreeLeaf.nextLeaf d)) <$> TreeLeaf.leaves t !! l.

(** C2 as it is stated fails: with at most 2 entries per node, the keys 1, 2
    and 3 added to the first leaf split it into [1] and [2, 3]; the key 9
    added to the first leaf then makes it [1, 9], whose last key is above the
    first key of the next leaf. *)
Lemma C2_add_to_another_leaf :
  exists t',
    z_add_all (TreeLeaf.empty_tree 2 false) [z_call 0 1; z_call 0 2; z_call 0 3; z_call 0 9]
    = Ok t' /\
    z_leaf t' 0 = Some ([1; 9]%Z, Some 1%nat) /\
    z_leaf t' 1 = Some ([2; 3]%Z, None) /\
    ~ TreeLeaf.leaves_ordered Z.lt (TreeLeaf.leaves t').
Proof.
  eexists. split; [vm_compute; reflexivity|].
  split; [by vm_compute|]. split; [by vm_compute|].
  intros [_ Hchain].
  set (t' := {| TreeLeaf.above := _; TreeLeaf.leaves := _ |}) in Hchain.
  destruct (TreeLeaf.leaves t' !! 0%nat) as [d0|] eqn:E0; [|by vm_compute in E0].
  destruct (TreeLeaf.leaves t' !! 1%nat) as [d1|] eqn:E1; [|by vm_compute in E1].
  vm_compute in E0, E1. injection E0 as <-. injection E1 as <-.
  assert (H : (9 < 2)%Z); [|lia].
  eapply (Hchain 0%nat _ 1%nat _ 9%Z 2%Z); try reflexivity.
Qed.

(** The same keys with 9 added to the second leaf, where it belongs; the
    second leaf then splits in turn. *)
Definition z_routed_sample : list (@TreeLeaf.call Z unit) :=
  [z_call 0 1; z_call 0 2; z_call 0 3; z_call 1 9].

Lemma z_routed_sample_routed :
  TreeLeaf.routed_calls z_isEqual z_isMore z_check z_insertKey Z.lt
    (TreeLeaf.empty_tree 2 false) z_routed_sample.
Proof.
  unfold z_routed_sample.
  repeat match goal with
  | |- TreeLeaf.routed_calls _ _ _ _ _ _ (_ :: _) =>
      split; [eexists; split; [vm_compute; reflexivity|];
              split; vm_compute; repeat constructor |]
  | |- match ?a with Ok _ => _ | Throw _ => _ end =>
      let r := eval vm_compute in a in change a with r; cbv iota beta
  | |- TreeLeaf.routed_calls _ _ _ _ _ _ [] => exact I
  end.
Qed.

Lemma z_lt_total (a b : Z) : (a < b \/ a = b \/ b < a)%Z.
Proof. lia. Qed.

Lemma C2_routed_adds_keep_leaves_ordered_witness :
  exists t',
    z_add_all (TreeLeaf.empty_tree 2 false) z_routed_sample = Ok t' /\
    z_leaf t' 0 = Some ([1]%Z, Some 1%nat) /\
    z_leaf t' 1 = Some ([2]%Z, Some 2%nat) /\
    z_leaf t' 2 = Some ([3; 9]%Z, None) /\
    TreeLeaf.leaves_ordered Z.lt (TreeLeaf.leaves t').
Proof.
  eexists. split; [vm_compute; reflexivity|].
  split; [by vm_compute|]. split; [by vm_compute|]. split; [by vm_compute|].
  apply (C2_routed_adds_keep_leaves_ordered z_isEqual z_isMore z_check z_insertKey Z.lt
           Z.lt_trans
           z_lt_total
           (fun a b => Z.eqb_eq a b)
           (fun a b => Z.ltb_lt b a)
           2%nat false z_routed_sample _ z_routed_sample_routed).
  vm_compute; reflexivity.
Defined.

(** ** The builder: the routing keys of the tree that [create] returns *)

Section BuilderFacts.
Import TreeBuilder.
Context {K M : Type} `{EqDecision K}.
Variable _sortCompare : K -> K -> Z.

(** [a] is not above [b]. *)
Definition below (a b : K) : Prop := (_sortCompare a b <= 0)%Z.

(** The comparator orders the keys. *)
Hypothesis compare_total : forall a b, below a b \/ below b a.
Hypothesis compare_trans : forall a b c, below a b -> below b c -> below a c.

Local Abbreviation node := (@node K M).
Local Abbreviation parentNode := (@parentNode K M).
Local Abbreviation kvp := (K * @listed M)%type.
Local Abbreviation leafEntry := (@BPlusTreeLeafEntry K M).

Definition by_key (x y : kvp) : Prop := below x.1 y.1.
Definition entries_sorted (es : list leafEntry) : Prop :=
  StronglySorted (fun a b => below (key a) (key b)) es.

Lemma below_refl a : below a a.
Proof. by destruct (compare_total a a). Qed.

(** *** The sort *)

Lemma sort_insert_Forall (P : kvp -> Prop) x l :
  Forall P (sort_insert _sortCompare x l) <-> P x /\ Forall P l.
Proof.
  induction l as [|y l IH]; cbn [sort_insert].
  - rewrite Forall_singleton. rewrite Forall_nil. tauto.
  - destruct (_ <=? _)%Z.
    + by rewrite Forall_cons.
    + rewrite !Forall_cons, IH. tauto.
Qed.

Lemma sort_insert_sorted x l :
  StronglySorted by_key l -> StronglySorted by_key (sort_insert _sortCompare x l).
Proof.
  induction 1 as [|y l Hs IH Hy]; cbn [sort_insert].
  - repeat constructor.
  - destruct (_ <=? _)%Z eqn:E.
    + apply Z.leb_le in E.
      constructor; [by constructor|].
      constructor; [exact E|].
      eapply Forall_impl; [exact Hy|].
      intros z Hz. exact (compare_trans _ _ _ E Hz).
    + apply Z.leb_gt in E.
      constructor; [exact IH|].
      apply sort_insert_Forall. split; [|exact Hy].
      destruct (compare_total y.1 x.1) as [Hb|Hb]; [exact Hb|].
      unfold below in Hb. lia.
Qed.

Lemma sort_sorted l : StronglySorted by_key (sort _sortCompare l).
Proof.
  induction l as [|x l IH]; cbn [sort]; [constructor|].
  by apply sort_insert_sorted.
Qed.

Lemma sort_insert_Permutation x (l : list kvp) : sort_insert _sortCompare x l ≡ₚ x :: l.
Proof.
  induction l as [|y l IH]; cbn [sort_insert]; [done|].
  destruct (_ <=? _)%Z; [done|].
  rewrite IH. apply Permutation_swap.
Qed.

(** The sorted list holds the items of the list, each as often. *)
Lemma sort_Permutation (l : list kvp) : sort _sortCompare l ≡ₚ l.
Proof.
  induction l as [|x l IH]; cbn [sort]; [done|].
  by rewrite sort_insert_Permutation, IH.
Qed.

(** *** The leaves *)

Lemma slice_sorted {A} (R : relation A) (l : list A) a b :
  StronglySorted R l -> StronglySorted R (slice l a b).
Proof.
  intros Hs. unfold slice.
  rewrite <- (take_drop a l) in Hs. apply StronglySorted_app_1_r in Hs.
  rewrite <- (take_drop (b - a) (drop a l)) in Hs.
  by apply StronglySorted_app_1_l in Hs.
Qed.

Lemma new_leaf_sorted sl epl i :
  StronglySorted by_key sl ->
  entries_sorted (leaf_entry <$> slice sl (i * epl) (i * epl + epl)).
Proof.
  intros Hs. unfold entries_sorted.
  eapply StronglySorted_fmap; [|by apply slice_sorted].
  intros x y Hxy. exact Hxy.
Qed.

Lemma head_smallest (e : leafEntry) es :
  entries_sorted (e :: es) -> smallest _sortCompare (key e) (e :: es).
Proof.
  intros Hs. apply StronglySorted_inv in Hs as [_ Hall].
  split.
  - rewrite fmap_cons. apply elem_of_cons. by left.
  - constructor; [apply below_refl|exact Hall].
Qed.

(** *** The descent *)

(** The descent of the code ends in the leftmost leaf. *)
Fixpoint descend_leftmost (c : node) :
  forall es, descend c = Ok es -> leftmost c = Some es.
Proof.
  destruct c as [es'|[|[k c'] rest] gt]; cbn [descend leftmost]; intros es Hd.
  - congruence.
  - discriminate.
  - exact (descend_leftmost c' es Hd).
Qed.

(** The leftmost leaf of a subtree is sorted. *)
Definition lm_sorted (c : node) : Prop :=
  forall es, leftmost c = Some es -> entries_sorted es.

Lemma descend_key_routes c k :
  lm_sorted c -> descend_key c = Ok k -> routes _sortCompare k c.
Proof.
  intros Hlm Hk. unfold descend_key in Hk.
  destruct (descend c) as [es|] eqn:Hd; [|discriminate].
  cbn in Hk. destruct es as [|e es]; [discriminate|].
  apply Ok_inj in Hk. subst k.
  apply descend_leftmost in Hd.
  exists (e :: es). split; [exact Hd|].
  apply head_smallest. by apply Hlm.
Qed.

(** *** The parents of a level *)

(** A leaf or node that has been built: its routing keys are right and its
    leftmost leaf is sorted; on the level of the leaves it is a leaf. *)
Definition good (leafs : bool) (c : node) : Prop :=
  routing_ok _sortCompare c /\ lm_sorted c /\
  (leafs = true -> exists es, c = BPlusTreeLeaf es).

(** A parent that has got its last child. *)
Definition done (leafs : bool) (p : parentNode) : Prop :=
  exists g, p_gtChild p = Some g /\
    keys_ok _sortCompare (p_entries p) (Some g) /\
    Forall (fun e => good leafs e.2) (p_entries p) /\ good leafs g.

Definition opt_done (leafs : bool) (p : option parentNode) : Prop :=
  match p with
  | Some p => done leafs p
  | None => True
  end.

Lemma keys_ok_snoc (es : list (K * node)) k c g :
  keys_ok _sortCompare (es ++ [(k, c)]) g <->
  keys_ok _sortCompare es (Some c) /\ exists next, g = Some next /\ routes _sortCompare k next.
Proof.
  induction es as [|[k0 c0] es IH].
  - cbn. tauto.
  - change (((k0, c0) :: es) ++ [(k, c)]) with ((k0, c0) :: (es ++ [(k, c)])).
    cbn [keys_ok]. rewrite IH.
    assert (Hge : ge_child ((k0, c0) :: es ++ [(k, c)]) g
                  = ge_child ((k0, c0) :: es) (Some c)).
    { destruct es as [|[k1 c1] es]; reflexivity. }
    rewrite Hge. tauto.
Qed.

Lemma pop_Some {A} (l rest : list A) x : pop l = Some (rest, x) -> l = rest ++ [x].
Proof.
  unfold pop. destruct (last l) as [y|] eqn:Hl; [|discriminate].
  intros Hp. injection Hp as <- <-.
  apply last_Some in Hl as [l' ->]. by rewrite removelast_last.
Qed.

(** The key that the move of an entry computes routes to [firstChild]. *)
Lemma move_key_routes leafs (firstChild : node) k :
  good leafs firstChild ->
  (if leafs then first_key firstChild
   else ltChild ← first_ltChild firstChild; descend_key ltChild) = Ok k ->
  routes _sortCompare k firstChild.
Proof.
  intros (Hok & Hlm & Hleaf) Hk. destruct leafs.
  - destruct (Hleaf eq_refl) as [es ->].
    destruct es as [|e es]; [discriminate|].
    cbn in Hk. apply Ok_inj in Hk. subst k.
    exists (e :: es). split; [reflexivity|].
    apply head_smallest. by apply Hlm.
  - destruct firstChild as [es|[|[k0 c] es] gt]; try discriminate.
    cbn in Hk.
    assert (Hlmc : lm_sorted c).
    { intros es' Hes'. apply Hlm. exact Hes'. }
    destruct (descend_key_routes c k Hlmc Hk) as (es' & Hes' & Hsm).
    exists es'. split; [exact Hes'|exact Hsm].
Qed.

(** Moving entries from the previous parent keeps both parents right. *)
Lemma move_entries_done leafs child j :
  forall prevParent parent prevParent' parent',
  good leafs child -> p_gtChild parent = Some child ->
  opt_done leafs prevParent -> done leafs parent ->
  move_entries leafs child j prevParent parent = Ok (prevParent', parent') ->
  opt_done leafs prevParent' /\ done leafs parent'.
Proof.
  induction j as [|j IH]; intros prevParent parent prevParent' parent' Hchild Hgt Hprev Hpar Hm.
  - cbn in Hm. apply Ok_inj in Hm. injection Hm as <- <-. by split.
  - cbn [move_entries] in Hm.
    destruct prevParent as [prev|]; [|discriminate].
    destruct (pop (p_entries prev)) as [[rest [mk mlt]]|] eqn:Hpop; [|discriminate].
    apply pop_Some in Hpop.
    set (firstChild := match p_entries parent with [] => child | (_, c) :: _ => c end) in Hm.
    destruct (if leafs then first_key firstChild
              else ltChild ← first_ltChild firstChild; descend_key ltChild)
      as [k|] eqn:Hk; [|discriminate].
    cbn [mbind result_bind] in Hm.
    destruct (p_gtChild prev) as [moveNode|] eqn:Hmove; [|discriminate].
    destruct Hprev as (g & Hg & Hkeys & Hall & Hgood).
    rewrite Hmove in Hg. apply (inj Some) in Hg. subst g.
    rewrite Hpop in Hkeys, Hall.
    apply keys_ok_snoc in Hkeys as [Hkeys _].
    apply Forall_app in Hall as [Hall Hlast].
    rewrite Forall_singleton in Hlast. cbn in Hlast.
    destruct Hpar as (g & Hg' & Hpkeys & Hpall & Hpgood).
    rewrite Hgt in Hg'. apply (inj Some) in Hg'. subst g.
    assert (Hfirst : good leafs firstChild).
    { subst firstChild. destruct (p_entries parent) as [|[k0 c0] es]; [exact Hchild|].
      apply Forall_cons in Hpall as [Hc0 _]. exact Hc0. }
    apply (IH _ _ _ _ Hchild) in Hm; [exact Hm|exact Hgt| |].
    + exists mlt. cbn [p_entries p_gtChild].
      split; [reflexivity|]. split; [exact Hkeys|]. split; [exact Hall|exact Hlast].
    + exists child. cbn [p_entries p_gtChild].
      split; [exact Hgt|]. split; [|split; [|exact Hchild]].
      * cbn [keys_ok]. split; [|exact Hpkeys].
        exists firstChild. split.
        -- subst firstChild. by destruct (p_entries parent) as [|[k0 c0] es].
        -- by apply (move_key_routes leafs).
      * constructor; [exact Hgood|exact Hpall].
Qed.

(** A loop over the indices from [start] on keeps an invariant that every
    round keeps. *)
Lemma for_each_inv {S} (body : nat -> S -> result S) (J : nat -> S -> Prop) len :
  forall start s s',
  (forall i s s', start <= i < start + len -> J i s -> body i s = Ok s' -> J (Datatypes.S i) s') ->
  J start s -> for_each body (seq start len) s = Ok s' -> J (start + len) s'.
Proof.
  induction len as [|len IH]; intros start s s' Hstep Hs Hf.
  - cbn in Hf. apply Ok_inj in Hf. subst s'. by rewrite Nat.add_0_r.
  - cbn [seq for_each] in Hf.
    destruct (body start s) as [s1|] eqn:Hb; [|discriminate].
    cbn [mbind result_bind] in Hf.
    replace (start + Datatypes.S len) with (Datatypes.S start + len) by lia.
    apply (IH (Datatypes.S start) s1); [|by apply (Hstep start s); [lia| |]|done].
    intros i x x' Hi. apply Hstep. lia.
Qed.

Lemma for_each_total {S} (body : nat -> S -> result S) (J : nat -> S -> Prop) len :
  forall start s,
  (forall i s, start <= i < start + len -> J i s ->
     exists s', body i s = Ok s' /\ J (Datatypes.S i) s') ->
  J start s ->
  exists s', for_each body (seq start len) s = Ok s' /\ J (start + len) s'.
Proof.
  induction len as [|len IH]; intros start s Hstep Hs.
  - exists s. cbn. by rewrite Nat.add_0_r.
  - cbn [seq for_each].
    destruct (Hstep start s) as (s1 & Hb & Hs1); [lia|done|].
    rewrite Hb. cbn [mbind result_bind].
    replace (start + Datatypes.S len) with (Datatypes.S start + len) by lia.
    apply IH; [|done]. intros i x Hi. apply Hstep. lia.
Qed.

(** *** One level *)

Section Level.
Variable sorted_list : list kvp.
Variable entriesPerNode entriesPerLeaf : nat.
Hypothesis list_sorted : StronglySorted by_key sorted_list.
Hypothesis leaf_size : 0 < entriesPerLeaf.

Local Abbreviation pc := (parentConnections entriesPerNode).
Local Abbreviation new_leaf_at := (new_leaf sorted_list entriesPerLeaf).

Lemma div_next_le i : (i + 1) / pc <= i / pc + 1.
Proof.
  transitivity ((i + 1 * pc) / pc).
  - apply Nat.Div0.div_le_mono. unfold parentConnections. lia.
  - rewrite Nat.div_add; [lia|]. unfold parentConnections. lia.
Qed.

Lemma div_next_ge i : i / pc <= (i + 1) / pc.
Proof. apply Nat.Div0.div_le_mono. lia. Qed.

Lemma ceil_div_pred n : 0 < n -> ceil_div n pc = (n - 1) / pc + 1.
Proof.
  intros Hn. unfold ceil_div.
  replace (n + pc - 1) with (n - 1 + 1 * pc) by lia.
  apply Nat.div_add. unfold parentConnections. lia.
Qed.

Lemma new_leaf_good leafs i : good leafs (new_leaf_at i).
Proof.
  split; [constructor|]. split.
  - intros es Hes. cbn in Hes. apply (inj Some) in Hes. subst es.
    by apply new_leaf_sorted.
  - intros _. by eexists.
Qed.

(** The key after the entries of a leaf is the smallest key of the next
    leaf. *)
Lemma next_leaf_routes i (x : kvp) :
  sorted_list !! (i * entriesPerLeaf + entriesPerLeaf) = Some x ->
  routes _sortCompare x.1 (new_leaf_at (i + 1)).
Proof.
  intros Hx.
  pose proof (new_leaf_sorted sorted_list entriesPerLeaf (i + 1) list_sorted) as Hs.
  unfold new_leaf. cbn zeta.
  replace ((i + 1) * entriesPerLeaf) with (i * entriesPerLeaf + entriesPerLeaf) in * by lia.
  unfold slice in *.
  rewrite (drop_S _ _ _ Hx) in *.
  replace (i * entriesPerLeaf + entriesPerLeaf + entriesPerLeaf
           - (i * entriesPerLeaf + entriesPerLeaf)) with (S (entriesPerLeaf - 1)) in * by lia.
  cbn [take fmap list_fmap] in *.
  eexists. split; [reflexivity|].
  exact (head_smallest (leaf_entry x) _ Hs).
Qed.

Section OneLevel.

(** The level of the leaves or a level of nodes, the number of leaves or
    nodes of the level, and the nodes of a level of nodes. *)
Variable leafs : bool.
Variable n : nat.
Variable nodes : list node.
Hypothesis n_pos : 0 < n.

Definition child_at (i : nat) : option node :=
  if leafs then Some (new_leaf_at i) else nodes !! i.

(** The number of parents that have got their last child before the leaf or
    node [i] is placed. *)
Definition completed (i : nat) : nat :=
  if decide (i < n) then i / pc else ceil_div n pc.

Definition level_inv (i : nat) (st : list parentNode * list node) : Prop :=
  length st.1 = ceil_div n pc /\
  Forall (good false) st.2 /\
  (leafs = false -> st.2 = nodes) /\
  (forall p b, p < completed i -> st.1 !! p = Some b -> done leafs b) /\
  (forall p b, completed i < p -> st.1 !! p = Some b -> b = new_node) /\
  (forall b, i < n -> st.1 !! completed i = Some b ->
     p_gtChild b = None /\ Forall (fun e => good leafs e.2) (p_entries b) /\
     forall c, child_at i = Some c -> keys_ok _sortCompare (p_entries b) (Some c)).

Definition isLast (i : nat) : bool :=
  ((i / pc <? (i + 1) / pc) || (i =? n - 1))%nat.

Lemma completed_last i : i < n -> isLast i = true -> completed (S i) = i / pc + 1.
Proof.
  intros Hi Hlast. unfold completed, isLast in *.
  pose proof (div_next_le i). pose proof (div_next_ge i).
  destruct (decide (S i < n)) as [Hlt|Hge].
  - apply orb_true_iff in Hlast as [Hl|Hl].
    + apply Nat.ltb_lt in Hl. replace (S i) with (i + 1) by lia. lia.
    + apply Nat.eqb_eq in Hl. lia.
  - rewrite ceil_div_pred by done. by replace (n - 1) with i by lia.
Qed.

Lemma completed_not_last i :
  i < n -> isLast i = false -> S i < n /\ completed (S i) = i / pc.
Proof.
  intros Hi Hlast. unfold completed, isLast in *.
  pose proof (div_next_ge i).
  apply orb_false_iff in Hlast as [Hl Hr].
  apply Nat.ltb_ge in Hl. apply Nat.eqb_neq in Hr.
  assert (Hlt : S i < n) by lia. split; [exact Hlt|].
  rewrite decide_True by done. replace (S i) with (i + 1) by lia. lia.
Qed.

Lemma good_weaken c : good leafs c -> good false c.
Proof. intros (? & ? & _). by split; [|split]. Qed.

(** The leaf or node that is placed. *)
Lemma child_spec i (nl nl' : list node) c :
  Forall (good false) nl -> (leafs = false -> nl = nodes) ->
  (if leafs then Ok (new_leaf_at i, nl ++ [new_leaf_at i])
   else match nl !! i with
        | Some x => Ok (x, nl)
        | None => Throw TypeError
        end) = Ok (c, nl') ->
  child_at i = Some c /\ good leafs c /\ Forall (good false) nl' /\
  (leafs = false -> nl' = nodes).
Proof.
  intros Hnl Hfix Hc. unfold child_at. destruct leafs.
  - apply Ok_inj in Hc. injection Hc as <- <-.
    split; [done|]. split; [apply new_leaf_good|]. split; [|done].
    apply Forall_app. split; [done|]. apply Forall_singleton. apply new_leaf_good.
  - destruct (nl !! i) as [x|] eqn:Hx; [|discriminate].
    apply Ok_inj in Hc. injection Hc as <- <-.
    rewrite <- (Hfix eq_refl). split; [done|]. split; [|by split].
    rewrite Forall_lookup in Hnl. by eapply Hnl.
Qed.

(** The key of the entry of a leaf or node that is not the last one of its
    parent routes to the next leaf or node. *)
Lemma next_key_spec i (nl : list node) k :
  Forall (good false) nl -> (leafs = false -> nl = nodes) ->
  (if leafs then
     match sorted_list !! (i * entriesPerLeaf + entriesPerLeaf) with
     | Some x => Ok x.1
     | None => Throw TypeError
     end
   else
     match nl !! (i + 1) with
     | Some nextNode => descend_key nextNode
     | None => Throw TypeError
     end) = Ok k ->
  exists c', child_at (S i) = Some c' /\ routes _sortCompare k c'.
Proof.
  intros Hnl Hfix Hk. unfold child_at. replace (S i) with (i + 1) by lia.
  destruct leafs.
  - destruct (sorted_list !! _) as [x|] eqn:Hx; [|discriminate].
    apply Ok_inj in Hk. subst k.
    eexists. split; [reflexivity|]. by apply next_leaf_routes.
  - rewrite <- (Hfix eq_refl).
    destruct (nl !! (i + 1)) as [c'|] eqn:Hc'; [|discriminate].
    exists c'. split; [done|].
    rewrite Forall_lookup in Hnl. destruct (Hnl _ _ Hc') as (_ & Hlm & _).
    by apply descend_key_routes.
Qed.

(** The state after a parent has got its last child. *)
Lemma after_last i (ps ps' : list parentNode) (nl' : list node) :
  i < n -> isLast i = true ->
  length ps = ceil_div n pc -> length ps' = length ps ->
  Forall (good false) nl' -> (leafs = false -> nl' = nodes) ->
  (forall p b, p <= i / pc -> ps' !! p = Some b -> done leafs b) ->
  (forall p b, i / pc < p -> ps !! p = Some b -> b = new_node) ->
  (forall p, i / pc < p -> ps' !! p = ps !! p) ->
  level_inv (S i) (ps', nl').
Proof.
  intros Hi Hlast Hlen Hlen' Hnl Hfix Hdone Hnew Hsame.
  unfold level_inv. cbn [fst snd]. rewrite (completed_last i Hi Hlast).
  split; [congruence|]. split; [done|]. split; [done|]. split; [|split].
  - intros p b Hp. apply Hdone. lia.
  - intros p b Hp Hb. rewrite Hsame in Hb by lia. apply (Hnew p); [lia|done].
  - intros b _ Hb. rewrite Hsame in Hb by lia.
    apply Hnew in Hb; [|lia]. subst b. cbn. split; [done|]. split; [constructor|done].
Qed.

(** Placing the leaf or node [i] keeps the invariant of the level. *)
Lemma place_inv i st st' :
  i < n -> level_inv i st ->
  place sorted_list entriesPerNode entriesPerLeaf leafs n i st = Ok st' ->
  level_inv (S i) st'.
Proof.
  destruct st as [ps nl]. intros Hi (Hlen & Hnl & Hfix & Hdone & Hnew & Hopen) Hp.
  cbn [fst snd] in *.
  unfold place in Hp. cbv beta iota zeta in Hp.
  match type of Hp with
  | (?x ≫= _) = _ => destruct x as [[c nl']|] eqn:Hchild; [|discriminate]
  end.
  apply child_spec in Hchild as (Hc & Hcgood & Hnl' & Hfix'); [|done|done].
  cbn [mbind result_bind] in Hp. cbv beta iota in Hp.
  assert (Hcomp : completed i = i / pc).
  { unfold completed. by rewrite decide_True. }
  rewrite Hcomp in *.
  destruct (ps !! (i / pc)) as [b|] eqn:Hb; [|discriminate].
  destruct (Hopen b Hi eq_refl) as (Hgt & Hchildren & Hkeys).
  specialize (Hkeys c Hc).
  assert (Hcur : i / pc < length ps) by (by eapply lookup_lt_Some).
  change ((i / pc <? (i + 1) / pc) || (i =? n - 1))%nat with (isLast i) in Hp.
  destruct (isLast i) eqn:Hlast.
  - (* the last leaf or node of its parent *)
    set (b1 := {| p_entries := p_entries b; p_gtChild := Some c |}) in Hp.
    assert (Hb1 : done leafs b1).
    { exists c. by split; [|split; [|split]]. }
    destruct (_ && _).
    + destruct (move_entries _ _ _ _ _) as [[pp' par']|] eqn:Hmove; [|discriminate].
      cbn [mbind result_bind] in Hp. apply Ok_inj in Hp. subst st'.
      apply move_entries_done in Hmove as [Hpp' Hpar']; [|done|done| |done].
      2:{ destruct (i / pc) as [|q] eqn:Hq; [done|].
          destruct (ps !! q) as [x|] eqn:Hx; [|done].
          apply (Hdone q); [lia|done]. }
      unfold store.
      apply (after_last i ps); try done.
      * rewrite length_insert. destruct pp'; [by rewrite length_insert|done].
      * intros p x Hp Hx.
        apply list_lookup_insert_Some in Hx as [(_ & <- & _)|[Hne Hx]]; [done|].
        destruct pp' as [prev|].
        -- apply list_lookup_insert_Some in Hx as [(_ & <- & _)|[_ Hx]]; [done|].
           apply (Hdone p); [lia|done].
        -- apply (Hdone p); [lia|done].
      * intros p Hp. rewrite list_lookup_insert_ne by lia.
        destruct pp'; [|done]. by rewrite list_lookup_insert_ne by lia.
    + apply Ok_inj in Hp. subst st'. unfold store.
      apply (after_last i ps); try done.
      * by rewrite length_insert.
      * intros p x Hp Hx.
        apply list_lookup_insert_Some in Hx as [(_ & <- & _)|[Hne Hx]]; [done|].
        apply (Hdone p); [lia|done].
      * intros p Hp. by rewrite list_lookup_insert_ne by lia.
  - (* a leaf or node with a next one under the same parent *)
    match type of Hp with
    | (?x ≫= _) = _ => destruct x as [k|] eqn:Hk; [|discriminate]
    end.
    apply next_key_spec in Hk as (c' & Hc' & Hroutes); [|done|done].
    cbn [mbind result_bind] in Hp. apply Ok_inj in Hp. subst st'. unfold store.
    destruct (completed_not_last i Hi Hlast) as [Hlt Hcomp'].
    unfold level_inv. cbn [fst snd]. rewrite Hcomp'.
    split; [by rewrite length_insert|]. split; [done|]. split; [done|]. split; [|split].
    + intros p x Hp Hx. rewrite list_lookup_insert_ne in Hx by lia. by apply (Hdone p).
    + intros p x Hp Hx. rewrite list_lookup_insert_ne in Hx by lia. by apply (Hnew p).
    + intros x _ Hx. rewrite list_lookup_insert_eq in Hx by done.
      apply (inj Some) in Hx. subst x. cbn [p_entries p_gtChild].
      split; [done|]. split.
      * apply Forall_app. split; [done|]. by apply Forall_singleton.
      * intros c0 Hc0. rewrite Hc' in Hc0. apply (inj Some) in Hc0. subst c0.
        apply keys_ok_snoc. split; [done|]. by exists c'.
Qed.

Lemma done_good (b : parentNode) : done leafs b -> good false (to_node b).
Proof.
  intros (g & Hg & Hkeys & Hall & Hgood). unfold to_node. rewrite Hg.
  split; [|split; [|done]].
  - constructor; [exact Hkeys| |].
    + eapply Forall_impl; [exact Hall|]. by intros e (He & _).
    + intros g' Hg'. apply (inj Some) in Hg'. subst g'. by destruct Hgood.
  - intros es Hes. destruct (p_entries b) as [|[k c] rest].
    + cbn in Hes. destruct Hgood as (_ & Hlm & _). by apply Hlm.
    + cbn in Hes. apply Forall_cons in Hall as [(_ & Hlm & _) _]. by apply Hlm.
Qed.

(** When the leaves or nodes of a level have been placed, every parent has
    got its last child and its routing keys are right. *)
Lemma level_done (ps : list parentNode) (nl' : list node) :
  Forall (good false) nodes ->
  level sorted_list entriesPerNode entriesPerLeaf leafs n (ceil_div n pc) nodes
  = Ok (ps, nl') ->
  Forall (done leafs) ps /\ Forall (good false) nl' /\ length ps = ceil_div n pc.
Proof.
  intros Hnodes Hl. unfold level in Hl.
  apply (for_each_inv _ level_inv) in Hl.
  - destruct Hl as (Hlen & Hnl & _ & Hdone & _). cbn [fst snd] in *.
    split; [|by split].
    apply Forall_lookup. intros p b Hb. apply (Hdone p); [|done].
    unfold completed. rewrite decide_False by lia.
    rewrite <- Hlen. by eapply lookup_lt_Some.
  - intros i s s' Hi. apply place_inv. lia.
  - unfold level_inv. cbn [fst snd].
    assert (Hc0 : completed 0 = 0).
    { unfold completed. rewrite decide_True by done. apply Nat.Div0.div_0_l. }
    rewrite Hc0.
    split; [by rewrite length_replicate|]. split; [done|]. split; [done|].
    split; [|split].
    + intros p b Hp. lia.
    + intros p b _ Hb. by apply lookup_replicate in Hb as [-> _].
    + intros b _ Hb. apply lookup_replicate in Hb as [-> _]. cbn.
      split; [done|]. split; [constructor|done].
Qed.

End OneLevel.

(** The root that the loop over the levels gives has the right routing keys
    throughout. *)
Lemma levels_routing fuel :
  forall currentLevel n (nodes : list node) depth r d,
  0 < n -> Forall (good false) nodes ->
  levels sorted_list entriesPerNode entriesPerLeaf fuel currentLevel n (ceil_div n pc)
    nodes depth = Some (Ok (Some r, d)) ->
  routing_ok _sortCompare r.
Proof.
  induction fuel as [|fuel IH]; intros currentLevel n nodes depth r d Hn Hnodes Hl;
    [discriminate|].
  cbn [levels] in Hl.
  set (leafs := (currentLevel =? 1)%nat) in Hl. clearbody leafs.
  destruct (level _ _ _ _ _ _ _) as [[ps nl']|] eqn:Hlevel; [|discriminate].
  apply level_done in Hlevel as (Hdone & Hnl' & Hlen); [|done|done].
  destruct (nrOfLeafs _ _ =? 1)%nat.
  - destruct nl' as [|leaf rest]; [discriminate|].
    injection Hl as <- _. apply Forall_cons in Hnl' as [(Hok & _) _]. exact Hok.
  - destruct (ceil_div _ _ =? 1)%nat.
    + injection Hl as Hr _.
      destruct (ps !! 0) as [b|] eqn:Hb; [|discriminate].
      cbn in Hr. apply (inj Some) in Hr. subst r.
      rewrite Forall_lookup in Hdone.
      by destruct (done_good _ b (Hdone _ _ Hb)).
    + apply IH in Hl; [done| |].
      * rewrite length_fmap, Hlen, ceil_div_pred by done. lia.
      * apply Forall_fmap. eapply Forall_impl; [exact Hdone|].
        intros b Hb. by apply (done_good leafs b).
Qed.

(** *** The levels do not fail *)

(** A leaf with an entry, or a node with an entry under whose [ltChild] the
    descent finds a key. *)
Definition ready (leafs : bool) (c : node) : Prop :=
  if leafs then exists e es, c = BPlusTreeLeaf (e :: es)
  else exists k c0 es gt k',
         c = BPlusTreeNode ((k, c0) :: es) gt /\ descend_key c0 = Ok k'.

Lemma ready_descend leafs c : ready leafs c -> exists k, descend_key c = Ok k.
Proof.
  destruct leafs.
  - intros (e & es & ->). by eexists.
  - intros (k & c0 & es & gt & k' & -> & Hk). exists k'. exact Hk.
Qed.

Lemma ready_move leafs c :
  ready leafs c ->
  exists k, (if leafs then first_key c
             else ltChild ← first_ltChild c; descend_key ltChild) = Ok k.
Proof.
  destruct leafs.
  - intros (e & es & ->). by eexists.
  - intros (k & c0 & es & gt & k' & -> & Hk). exists k'. exact Hk.
Qed.

Lemma pop_snoc {A} (l : list A) x : pop (l ++ [x]) = Some (l, x).
Proof. unfold pop. by rewrite last_snoc, removelast_last. Qed.

Definition children_ready (leafs : bool) (es : list (K * node)) : Prop :=
  Forall (fun e => ready leafs e.2) es.

(** The previous parent has the entries that are moved. *)
Lemma move_entries_total leafs child j :
  forall (prev parent : parentNode),
  ready leafs child ->
  children_ready leafs (p_entries parent) ->
  children_ready leafs (p_entries prev) ->
  (exists g, p_gtChild prev = Some g /\ ready leafs g) ->
  j <= length (p_entries prev) ->
  exists prev' parent',
    move_entries leafs child j (Some prev) parent = Ok (Some prev', parent') /\
    length (p_entries prev') + j = length (p_entries prev) /\
    length (p_entries parent') = length (p_entries parent) + j /\
    children_ready leafs (p_entries prev') /\ children_ready leafs (p_entries parent').
Proof.
  induction j as [|j IH]; intros prev parent Hchild Hpar Hprev (g & Hg & Hgr) Hj.
  - exists prev, parent. cbn. split; [done|]. split; [lia|]. split; [lia|done].
  - cbn [move_entries].
    set (firstChild := match p_entries parent with [] => child | (_, c) :: _ => c end).
    assert (Hfirst : ready leafs firstChild).
    { subst firstChild. destruct (p_entries parent) as [|[k0 c0] es]; [done|].
      by apply Forall_cons in Hpar as [? _]. }
    destruct (p_entries prev) as [|x rest _] eqn:Hes using rev_ind; [cbn in Hj; lia|].
    destruct x as [mk mlt]. rewrite pop_snoc.
    destruct (ready_move leafs firstChild Hfirst) as [k Hk]. rewrite Hk.
    cbn [mbind result_bind]. rewrite Hg.
    apply Forall_app in Hprev as [Hrest Hlast]. rewrite Forall_singleton in Hlast.
    destruct (IH {| p_entries := rest; p_gtChild := Some mlt |}
                 {| p_entries := (k, g) :: p_entries parent; p_gtChild := p_gtChild parent |})
      as (prev' & parent' & Hm & Hl1 & Hl2 & Hr1 & Hr2); cbn [p_entries p_gtChild].
    + done.
    + by constructor.
    + done.
    + by exists mlt.
    + rewrite length_app in Hj. cbn in Hj. lia.
    + exists prev', parent'. split; [done|]. cbn [p_entries length] in *.
      rewrite length_app. cbn [length]. split; [lia|]. split; [lia|done].
Qed.

Section LevelTotal.

Variable leafs : bool.
Variable n : nat.
Variable nodes : list node.
Hypothesis node_size : 2 <= entriesPerNode.
Hypothesis n_ge_2 : 2 <= n.
Hypothesis children :
  forall i, i < n -> exists c, child_at leafs nodes i = Some c /\ ready leafs c.
Hypothesis next_keys :
  leafs = true -> forall i, S i < n ->
  is_Some (sorted_list !! (i * entriesPerLeaf + entriesPerLeaf)).

(** A parent with all its entries, and a parent at the end of the level. *)
Definition full (b : parentNode) : Prop :=
  length (p_entries b) = entriesPerNode /\
  (exists g, p_gtChild b = Some g /\ ready leafs g) /\
  children_ready leafs (p_entries b).

Definition finished (b : parentNode) : Prop :=
  0 < length (p_entries b) /\ children_ready leafs (p_entries b).

Definition total_inv (i : nat) (st : list parentNode * list node) : Prop :=
  length st.1 = ceil_div n pc /\
  (leafs = false -> st.2 = nodes) /\
  if decide (i < n) then
    (forall p b, p < i / pc -> st.1 !! p = Some b -> full b) /\
    (forall b, st.1 !! (i / pc) = Some b ->
       length (p_entries b) + i / pc * pc = i /\ p_gtChild b = None /\
       children_ready leafs (p_entries b)) /\
    (forall p b, i / pc < p -> st.1 !! p = Some b -> b = new_node)
  else Forall finished st.1.

Lemma minParentEntries_bounds :
  1 <= minParentEntries entriesPerNode <= entriesPerNode - 1.
Proof.
  unfold minParentEntries.
  assert (entriesPerNode / 2 < entriesPerNode) by (apply Nat.div_lt; lia).
  lia.
Qed.

Lemma full_finished b : full b -> finished b.
Proof. intros (Hl & _ & Hc). split; [lia|done]. Qed.

(** The leaf or node [i] is placed without an exception. *)
Lemma place_total i st :
  i < n -> total_inv i st ->
  exists st', place sorted_list entriesPerNode entriesPerLeaf leafs n i st = Ok st' /\
              total_inv (S i) st'.
Proof.
  destruct st as [ps nl]. intros Hi (Hlen & Hfix & Hinv). cbn [fst snd] in *.
  rewrite decide_True in Hinv by done. destruct Hinv as (Hfull & Hopen & Hnew).
  destruct (children i Hi) as (c & Hc & Hcr).
  pose proof minParentEntries_bounds as Hmin.
  pose proof (Nat.Div0.mul_div_le i pc) as Hcur1.
  pose proof (Nat.mul_succ_div_gt i pc) as Hcur2.
  pose proof (Nat.Div0.mul_div_le (i + 1) pc) as Hnext1.
  pose proof (Nat.mul_succ_div_gt (i + 1) pc) as Hnext2.
  pose proof (div_next_le i) as Hle. pose proof (div_next_ge i) as Hge.
  pose proof (ceil_div_pred n) as HP.
  pose proof (Nat.Div0.div_le_mono i (n - 1) pc) as Hmono.
  assert (Hpc : pc = entriesPerNode + 1) by reflexivity.
  destruct (ps !! (i / pc)) as [b|] eqn:Hb; [|apply lookup_ge_None in Hb; lia].
  destruct (Hopen b eq_refl) as (Hcount & Hgt & Hchildren).
  unfold place. cbv beta iota zeta.
  assert (Hchild :
    (if leafs then Ok (new_leaf_at i, nl ++ [new_leaf_at i])
     else match nl !! i with
          | Some x => Ok (x, nl)
          | None => Throw TypeError
          end) = Ok (c, if leafs then nl ++ [new_leaf_at i] else nl)).
  { unfold child_at in Hc. destruct leafs.
    - by injection Hc as <-.
    - by rewrite (Hfix eq_refl), Hc. }
  rewrite Hchild. cbn [mbind result_bind]. cbv beta iota. rewrite Hb.
  assert (Hfix' : leafs = false -> (if leafs then nl ++ [new_leaf_at i] else nl) = nodes).
  { intros ->. by apply Hfix. }
  set (nl' := if leafs then nl ++ [new_leaf_at i] else nl) in *. clearbody nl'.
  change ((i / pc <? (i + 1) / pc) || (i =? n - 1))%nat with (isLast n i).
  assert (Hstep : (i + 1) / pc = i / pc \/
                  ((i + 1) / pc = i / pc + 1 /\ i + 1 = (i / pc + 1) * pc)).
  { destruct (decide ((i + 1) / pc = i / pc)) as [|Hne]; [by left|right].
    assert (E : (i + 1) / pc = i / pc + 1) by lia.
    split; [done|]. rewrite E in Hnext1. lia. }
  clear Hnext1 Hnext2 Hle Hge.
  assert (Hlast' : isLast n i = true ->
            ((i + 1) / pc = i / pc + 1 /\ i + 1 = (i / pc + 1) * pc) \/ i = n - 1).
  { unfold isLast. intros [Hl|Hl]%orb_true_iff.
    - left. apply Nat.ltb_lt in Hl. lia.
    - right. by apply Nat.eqb_eq. }
  assert (Hnot : isLast n i = false -> (i + 1) / pc = i / pc /\ i <> n - 1).
  { unfold isLast. intros [Hl Hr]%orb_false_iff.
    apply Nat.ltb_ge in Hl. apply Nat.eqb_neq in Hr. lia. }
  assert (Hfix0 : forall x, total_inv (S i) (x, nl') <->
            length x = ceil_div n pc /\
            if decide (S i < n) then
              (forall p b, p < (i + 1) / pc -> x !! p = Some b -> full b) /\
              (forall b, x !! ((i + 1) / pc) = Some b ->
                 length (p_entries b) + (i + 1) / pc * pc = i + 1 /\ p_gtChild b = None /\
                 children_ready leafs (p_entries b)) /\
              (forall p b, (i + 1) / pc < p -> x !! p = Some b -> b = new_node)
            else Forall finished x).
  { intros x. unfold total_inv. cbn [fst snd]. replace (S i) with (i + 1) by lia. tauto. }
  destruct (isLast n i) eqn:Hlast.
  - (* the last leaf or node of its parent *)
    specialize (Hlast' eq_refl). clear Hnot.
    set (b1 := {| p_entries := p_entries b; p_gtChild := Some c |}).
    assert (Hb1 : length (p_entries b1) = length (p_entries b)) by reflexivity.
    destruct (_ && _) eqn:Hcond.
    + (* entries are moved from the previous parent *)
      apply andb_true_iff in Hcond as [HlenP Hfew].
      apply Nat.ltb_lt in HlenP, Hfew. rewrite Hb1 in *.
      assert (Hend : i = n - 1) by lia.
      assert (Hq0 : i / pc = (n - 1) / pc) by (by rewrite <- Hend).
      destruct (i / pc) as [|q] eqn:Hq; [lia|].
      destruct (ps !! q) as [prev|] eqn:Hprev; [|apply lookup_ge_None in Hprev; lia].
      destruct (Hfull q prev) as (Hplen & Hpgt & Hpch); [lia|done|].
      destruct (move_entries_total leafs c
                  (minParentEntries entriesPerNode - length (p_entries b)) prev b1)
        as (prev' & par' & Hm & Hl1 & Hl2 & Hr1 & Hr2); [done|done|done|done|lia|].
      rewrite Hm. cbn [mbind result_bind]. eexists. split; [reflexivity|].
      apply Hfix0. unfold store. rewrite !length_insert. split; [done|].
      rewrite decide_False by lia.
      apply Forall_lookup. intros p x Hx.
      apply list_lookup_insert_Some in Hx as [(_ & <- & _)|[Hne Hx]].
      { split; [|done]. rewrite Hl2, Hb1. lia. }
      apply list_lookup_insert_Some in Hx as [(_ & <- & _)|[Hne' Hx]].
      { split; [lia|done]. }
      apply full_finished. apply (Hfull p); [|done].
      apply lookup_lt_Some in Hx. lia.
    + (* the parent has its entries *)
      apply andb_false_iff in Hcond.
      eexists. split; [reflexivity|].
      apply Hfix0. unfold store. rewrite length_insert. split; [done|].
      destruct (decide (S i < n)) as [Hlt|Hge'].
      * assert (Hdiv : (i + 1) / pc = i / pc + 1) by lia.
        rewrite Hdiv. split; [|split].
        -- intros p x Hp Hx.
           apply list_lookup_insert_Some in Hx as [(_ & <- & _)|[Hne Hx]].
           ++ split; [rewrite Hb1; lia|]. split; [by exists c|done].
           ++ apply (Hfull p); [lia|done].
        -- intros x Hx. rewrite list_lookup_insert_ne in Hx by lia.
           apply Hnew in Hx; [|lia]. subst x. cbn. split; [lia|]. split; [done|constructor].
        -- intros p x Hp Hx. rewrite list_lookup_insert_ne in Hx by lia.
           apply (Hnew p); [lia|done].
      * assert (Hq0 : i / pc = (n - 1) / pc) by (f_equal; lia).
        apply Forall_lookup. intros p x Hx.
        apply list_lookup_insert_Some in Hx as [(_ & <- & _)|[Hne Hx]].
        -- split; [|done]. rewrite Hb1.
           destruct Hcond as [Hc1|Hc2].
           ++ apply Nat.ltb_ge in Hc1.
              assert (Hq : i / pc = 0) by lia.
              rewrite Hq in Hcount. lia.
           ++ apply Nat.ltb_ge in Hc2. rewrite Hb1 in Hc2. lia.
        -- apply full_finished. apply (Hfull p); [|done].
           apply lookup_lt_Some in Hx. lia.
  - (* a leaf or node with a next one under the same parent *)
    specialize (Hnot eq_refl). clear Hlast'. destruct Hnot as [Hsame Hne].
    assert (Hlt : S i < n) by lia. clear Hstep.
    assert (Hkey : exists k,
      (if leafs then
         match sorted_list !! (i * entriesPerLeaf + entriesPerLeaf) with
         | Some kvp => Ok kvp.1
         | None => Throw TypeError
         end
       else
         match nl' !! (i + 1) with
         | Some nextNode => descend_key nextNode
         | None => Throw TypeError
         end) = Ok k).
    { destruct leafs eqn:Hleafs.
      - destruct (next_keys eq_refl i Hlt) as [x ->]. by eexists.
      - destruct (children (S i) Hlt) as (c' & Hc' & Hcr').
        unfold child_at in Hc'. rewrite (Hfix' eq_refl).
        replace (i + 1) with (S i) by lia. rewrite Hc'.
        by apply (ready_descend false). }
    destruct Hkey as [k ->]. cbn [mbind result_bind].
    eexists. split; [reflexivity|].
    apply Hfix0. unfold store. rewrite length_insert. split; [done|].
    rewrite decide_True by done.
    rewrite Hsame. split; [|split].
    + intros p x Hp Hx. rewrite list_lookup_insert_ne in Hx by lia. by apply (Hfull p).
    + intros x Hx. rewrite list_lookup_insert_eq in Hx by (by eapply lookup_lt_Some).
      apply (inj Some) in Hx. subst x. cbn [p_entries p_gtChild].
      rewrite length_app. cbn [length]. split; [lia|]. split; [done|].
      apply Forall_app. split; [done|]. by apply Forall_singleton.
    + intros p x Hp Hx. rewrite list_lookup_insert_ne in Hx by lia. by apply (Hnew p).
Qed.

(** The level is built without an exception, and every parent ends up with
    an entry. *)
Lemma level_total :
  exists ps nl',
    level sorted_list entriesPerNode entriesPerLeaf leafs n (ceil_div n pc) nodes
    = Ok (ps, nl') /\
    length ps = ceil_div n pc /\ Forall finished ps.
Proof.
  unfold level.
  destruct (for_each_total
              (place sorted_list entriesPerNode entriesPerLeaf leafs n) total_inv n 0
              (replicate (ceil_div n pc) new_node, nodes))
    as ([ps nl'] & Hf & Hinv).
  - intros i s Hi. apply place_total. lia.
  - unfold total_inv. cbn [fst snd]. split; [by rewrite length_replicate|].
    split; [done|]. rewrite decide_True by lia. rewrite Nat.Div0.div_0_l.
    split; [|split].
    + intros p b Hp. lia.
    + intros b Hb. apply lookup_replicate in Hb as [-> _]. cbn.
      split; [lia|]. split; [done|constructor].
    + intros p b _ Hb. by apply lookup_replicate in Hb as [-> _].
  - exists ps, nl'. split; [exact Hf|].
    destruct Hinv as (Hlen & _ & Hfin). cbn [fst snd] in *.
    rewrite decide_False in Hfin by lia. by split.
Qed.

Lemma finished_ready b : finished b -> ready false (to_node b).
Proof using Type.
  intros [Hl Hc]. unfold to_node.
  destruct (p_entries b) as [|[k c0] es]; [by apply Nat.lt_irrefl in Hl|].
  apply Forall_cons in Hc as [Hc0 _].
  destruct (ready_descend leafs c0 Hc0) as [k' Hk'].
  by exists k, c0, es, (p_gtChild b), k'.
Qed.

End LevelTotal.

(** With two or more leaves, every leaf has an entry, and the list has the
    entry after the entries of every leaf but the last. *)
Lemma leaves_cover i :
  2 <= nrOfLeafs sorted_list entriesPerLeaf ->
  i < nrOfLeafs sorted_list entriesPerLeaf ->
  i * entriesPerLeaf < length sorted_list.
Proof.
  unfold nrOfLeafs, ceil_div. intros H2 Hi.
  pose proof (Nat.Div0.mul_div_le (length sorted_list + entriesPerLeaf - 1) entriesPerLeaf)
    as Hdiv.
  destruct ((length sorted_list + entriesPerLeaf - 1) / entriesPerLeaf) as [|L] eqn:HL;
    [lia|].
  assert (i * entriesPerLeaf <= L * entriesPerLeaf) by (apply Nat.mul_le_mono_r; lia).
  lia.
Qed.

Lemma new_leaf_ready i :
  i * entriesPerLeaf < length sorted_list -> ready true (new_leaf_at i).
Proof.
  intros Hi. apply lookup_lt_is_Some_2 in Hi as [x Hx].
  unfold new_leaf, slice. cbn zeta. rewrite (drop_S _ _ _ Hx).
  replace (i * entriesPerLeaf + entriesPerLeaf - i * entriesPerLeaf)
    with (S (entriesPerLeaf - 1)) by lia.
  cbn. by eexists _, _.
Qed.

(** With one leaf, the leaf is the root. *)
Lemma levels_single fuel depth :
  nrOfLeafs sorted_list entriesPerLeaf = 1 ->
  levels sorted_list entriesPerNode entriesPerLeaf (S fuel) 1 1 (ceil_div 1 pc) [] depth
  = Some (Ok (Some (new_leaf_at 0), depth)).
Proof.
  intros Hone. cbn [levels]. rewrite Hone.
  assert (Hc : ceil_div 1 pc = 1).
  { unfold ceil_div. replace (1 + pc - 1) with pc by lia.
    apply Nat.div_same. unfold parentConnections. lia. }
  rewrite Hc. unfold level. cbn [seq for_each replicate].
  unfold place. cbv beta iota zeta. cbn [Nat.eqb mbind result_bind].
  rewrite Nat.Div0.div_0_l. cbn [lookup list_lookup length Nat.ltb Nat.leb andb].
  by rewrite orb_true_r.
Qed.

(** With two or more leaves and two or more entries in a node, the loop over
    the levels gives a root. *)
Lemma levels_total fuel :
  forall currentLevel n (nodes : list node) depth,
  2 <= entriesPerNode -> 1 <= currentLevel -> 2 <= n -> n <= fuel ->
  nrOfLeafs sorted_list entriesPerLeaf <> 1 ->
  (forall i, i < n ->
     exists c, child_at (currentLevel =? 1)%nat nodes i = Some c /\
               ready (currentLevel =? 1)%nat c) ->
  ((currentLevel =? 1)%nat = true -> forall i, S i < n ->
     is_Some (sorted_list !! (i * entriesPerLeaf + entriesPerLeaf))) ->
  exists r d,
    levels sorted_list entriesPerNode entriesPerLeaf fuel currentLevel n (ceil_div n pc)
      nodes depth = Some (Ok (Some r, d)).
Proof.
  induction fuel as [|fuel IH];
    intros currentLevel n nodes depth Hepn Hlevel Hn Hfuel Hleafs Hchildren Hkeys; [lia|].
  cbn [levels].
  destruct (level_total (currentLevel =? 1)%nat n nodes Hepn Hn Hchildren Hkeys)
    as (ps & nl' & -> & Hlen & Hfin).
  apply Nat.eqb_neq in Hleafs. rewrite Hleafs.
  pose proof (ceil_div_pred n) as HP.
  destruct (ceil_div n pc =? 1)%nat eqn:Hone.
  - apply Nat.eqb_eq in Hone.
    destruct (ps !! 0) as [b|] eqn:Hb; [|apply lookup_ge_None in Hb; lia].
    by eexists _, _.
  - apply Nat.eqb_neq in Hone.
    assert (Hlt : (n - 1) / pc < n - 1).
    { apply Nat.div_lt; [lia|]. unfold parentConnections. lia. }
    assert (Hnext : (currentLevel + 1 =? 1)%nat = false) by (apply Nat.eqb_neq; lia).
    apply IH; try done.
    + lia.
    + rewrite length_fmap. lia.
    + rewrite length_fmap. lia.
    + by apply Nat.eqb_neq.
    + intros i Hi. rewrite Hnext. unfold child_at. rewrite length_fmap in Hi.
      apply lookup_lt_is_Some_2 in Hi as [b Hb].
      exists (to_node b). rewrite list_lookup_fmap, Hb. split; [done|].
      rewrite Forall_lookup in Hfin.
      by apply (finished_ready (currentLevel =? 1)%nat), (Hfin i).
    + rewrite Hnext. discriminate.
Qed.


(** *** The number of levels *)

(** With no entry in a node every leaf or node is the last one of its parent,
    and the first parent has no previous one to take an entry from. *)
Lemma level_throws leafs n (nodes : list node) :
  entriesPerNode = 0 -> 2 <= n ->
  exists e, level sorted_list entriesPerNode entriesPerLeaf leafs n (ceil_div n pc) nodes
            = Throw e.
Proof.
  intros Hepn Hn.
  assert (HP : ceil_div n pc = S (S (n - 2))).
  { rewrite ceil_div_pred by lia. rewrite Hepn. unfold parentConnections.
    cbn [Nat.add]. rewrite Nat.div_1_r. lia. }
  rewrite HP. destruct n as [|n']; [lia|].
  unfold level. cbn [seq for_each replicate].
  assert (Hplace : forall st, exists e,
    place sorted_list entriesPerNode entriesPerLeaf leafs (S n') 0
      (new_node :: new_node :: replicate (S n' - 2) new_node, st) = Throw e).
  { intros st. unfold place. cbv beta iota zeta.
    destruct (if leafs then _ else _) as [[c nl']|]; [|by eexists].
    cbn [mbind result_bind]. cbv beta iota.
    rewrite Hepn. unfold parentConnections, minParentEntries. cbn [Nat.add].
    rewrite !Nat.div_1_r. cbn. by eexists. }
  destruct (Hplace nodes) as [e ->]. by eexists.
Qed.

(** The number of leaves or nodes of a level is above that of the next, so
    that the loop over the levels ends within as many rounds. *)
Lemma levels_fuel fuel :
  forall currentLevel n (nodes : list node) depth,
  1 <= n -> n <= fuel -> Forall (good false) nodes ->
  levels sorted_list entriesPerNode entriesPerLeaf fuel currentLevel n (ceil_div n pc)
    nodes depth <> None.
Proof.
  induction fuel as [|fuel IH]; intros currentLevel n nodes depth Hn Hfuel Hnodes; [lia|].
  cbn [levels].
  set (leafs := (currentLevel =? 1)%nat). clearbody leafs.
  destruct (level _ _ _ _ _ _ _) as [[ps nl']|] eqn:Hlevel; [|done].
  pose proof Hlevel as Hlevel'.
  apply level_done in Hlevel as (Hdone & Hnl' & Hlen); [|lia|done].
  destruct (nrOfLeafs _ _ =? 1)%nat; [by destruct nl'|].
  destruct (ceil_div _ _ =? 1)%nat eqn:Hone; [done|].
  apply Nat.eqb_neq in Hone. rewrite ceil_div_pred in Hone, Hlen by lia.
  assert (Hn2 : 2 <= n).
  { destruct (decide (n = 1)) as [->|]; [|lia].
    cbn in Hone. rewrite Nat.Div0.div_0_l in Hone. lia. }
  destruct (decide (entriesPerNode = 0)) as [Hzero|Hpos].
  { destruct (level_throws leafs n nodes Hzero Hn2) as [e He]. congruence. }
  assert (Hlt : (n - 1) / pc < n - 1).
  { apply Nat.div_lt; [lia|]. unfold parentConnections. lia. }
  apply IH.
  - rewrite length_fmap. lia.
  - rewrite length_fmap. lia.
  - apply Forall_fmap. eapply Forall_impl; [exact Hdone|].
    intros b Hb. by apply (done_good leafs b).
Qed.

End Level.

Variable floor_percent : nat -> Z -> Z.

(** In the tree that [create] returns, every routing key of every node is
    the smallest key of the leftmost leaf of the subtree on its
    greater-than-or-equal side. *)
Lemma create_routing (b : BPlusTreeBuilder) (maxEntries : option nat)
    (t : @BPlusTree K M) (r : node) :
  create _sortCompare floor_percent b maxEntries = Some (Ok t) ->
  root t = Some r ->
  routing_ok _sortCompare r.
Proof.
  unfold create. intros Hc Hr.
  destruct (levels _ _ _ _ _ _ _ _ _) as [[[root d]|]|] eqn:Hl; try discriminate.
  injection Hc as <-. cbn in Hr. subst root.
  eapply levels_routing in Hl; [exact Hl| | | |].
  - apply sort_sorted.
  - lia.
  - unfold nrOfLeafs. lia.
  - constructor.
Qed.

(** [create] returns a tree when it is called without [maxEntries] or with
    two or more entries in a node. *)
Lemma create_total (b : BPlusTreeBuilder) (maxEntries : option nat) :
  (forall m, maxEntries = Some m -> 2 <= m) ->
  exists (t : @BPlusTree K M) r,
    create _sortCompare floor_percent b maxEntries = Some (Ok t) /\ root t = Some r.
Proof.
  intros Hvalid. unfold create.
  set (sl := sort _sortCompare (list_ b)).
  set (epn := match maxEntries with
              | Some m => m
              | None => Nat.min 255 (Nat.max 3 (ceil_div (length sl) 10))
              end).
  set (epl := Z.to_nat (Z.max (Z.of_nat 3) (floor_percent epn (fillFactor b)))).
  assert (Hepn : 2 <= epn).
  { subst epn. destruct maxEntries as [m|]; [by apply Hvalid|lia]. }
  assert (Hepl : 0 < epl) by (subst epl; lia).
  destruct (decide (nrOfLeafs sl epl = 1)) as [Hone|Hmany].
  - rewrite Hone. rewrite levels_single by done. by eexists _, _.
  - assert (Hn : 2 <= nrOfLeafs sl epl) by (unfold nrOfLeafs in *; lia).
    destruct (levels_total sl epn epl Hepl (nrOfLeafs sl epl) 1 (nrOfLeafs sl epl) [] 1)
      as (r & d & ->); try done.
    + intros i Hi. eexists. split; [reflexivity|].
      apply new_leaf_ready; [done|]. by apply leaves_cover.
    + intros _ i Hi. apply lookup_lt_is_Some_2.
      pose proof (leaves_cover sl epl Hepl (S i) Hn Hi). lia.
    + by eexists _, _.
Qed.

(** The number of leaves is enough for the loop over the levels of
    [create]: it ends with a tree or with an exception. *)
Lemma create_ends (b : @BPlusTreeBuilder K M) (maxEntries : option nat) :
  create _sortCompare floor_percent b maxEntries <> None.
Proof.
  unfold create.
  destruct (levels _ _ _ _ _ _ _ _ _) as [[[root d]|]|] eqn:Hl; [done|done|].
  apply levels_fuel in Hl; [done| | | |done| ].
  - apply sort_sorted.
  - lia.
  - unfold nrOfLeafs. lia.
  - constructor.
Qed.

Variable _checkNewEntryArgs : K -> list Z -> list string -> option M -> option string.

(** C1: for every sequence of entries added to a builder and every
    [maxEntries], [create] ends, and in the tree that it returns every
    routing key of every node is the smallest key of the leftmost leaf of
    the subtree on the greater-than-or-equal side of the key, whether or not
    entries were moved from the previous parent to the last one of a level.
    [create] returns a tree when [maxEntries] is left out or is 2 or more
    (with 0 or 1 it may end with an exception instead). *)
Theorem C1_routing_keys_of_created_tree (unique : bool) (fill : Z) (mdKeys : list string)
    (calls : list call) (b : @BPlusTreeBuilder K M) (maxEntries : option nat) :
  add_all _checkNewEntryArgs (new_builder unique fill mdKeys) calls = Ok b ->
  create _sortCompare floor_percent b maxEntries <> None /\
  (forall t r, create _sortCompare floor_percent b maxEntries = Some (Ok t) ->
               root t = Some r -> routing_ok _sortCompare r) /\
  ((forall m, maxEntries = Some m -> 2 <= m) ->
   exists t r, create _sortCompare floor_percent b maxEntries = Some (Ok t) /\
               root t = Some r /\ routing_ok _sortCompare r).
Proof.
  intros _. split; [apply create_ends|]. split.
  - intros t r. apply create_routing.
  - intros Hvalid. destruct (create_total b maxEntries Hvalid) as (t & r & Hc & Hr).
    exists t, r. split; [done|]. split; [done|]. by apply (create_routing b maxEntries t).
Qed.

End BuilderFacts.

(** *** Trees with integer keys *)

Definition z_sortCompare (a b : Z) : Z :=
  match (a ?= b)%Z with
  | Lt => -1
  | Eq => 0
  | Gt => 1
  end.

Definition z_checkNewEntryArgs (k : Z) (rp : list Z) (mdKeys : list string)
    (md : option unit) : option string := None.

(** The share for the fill factors that divide 100 times the number. *)
Definition z_floor_percent (n : nat) (f : Z) : Z := (Z.of_nat n * f / 100)%Z.

(** The keys [n - 1] down to 0, each with a record pointer. *)
Definition z_entries (n : nat) : list (@TreeBuilder.call Z unit) :=
  (fun i => {| TreeBuilder.with_key := Z.of_nat i;
               TreeBuilder.with_pointer := [Z.of_nat i];
               TreeBuilder.with_metadata := None |}) <$> rev (seq 0 n).

Definition z_create (n : nat) (maxEntries : option nat)
    : option (result (@TreeBuilder.BPlusTree Z unit)) :=
  match TreeBuilder.add_all z_checkNewEntryArgs (TreeBuilder.new_builder true 100 [])
          (z_entries n) with
  | Ok b => TreeBuilder.create z_sortCompare z_floor_percent b maxEntries
  | Throw e => Some (Throw e)
  end.

(** The routing keys of a node and the first keys of the leftmost leaves of
    its children. *)
Definition z_keys (n : @TreeBuilder.node Z unit) : list Z :=
  match n with
  | TreeBuilder.BPlusTreeLeaf _ => []
  | TreeBuilder.BPlusTreeNode es _ => fst <$> es
  end.

Definition z_children (n : @TreeBuilder.node Z unit) : list (@TreeBuilder.node Z unit) :=
  match n with
  | TreeBuilder.BPlusTreeLeaf _ => []
  | TreeBuilder.BPlusTreeNode es gt => (snd <$> es) ++ option_list gt
  end.

Definition z_first (n : @TreeBuilder.node Z unit) : option Z :=
  es ← TreeBuilder.leftmost n; TreeBuilder.key <$> head es.

Lemma z_compare_total (a b : Z) :
  (z_sortCompare a b <= 0 \/ z_sortCompare b a <= 0)%Z.
Proof. unfold z_sortCompare. rewrite (Z.compare_antisym a b). destruct (a ?= b)%Z; cbn; lia. Qed.

Lemma z_compare_le (a b : Z) : (z_sortCompare a b <= 0 <-> a <= b)%Z.
Proof.
  unfold z_sortCompare. destruct (Z.compare_spec a b); lia.
Qed.

Lemma z_compare_trans (a b c : Z) :
  (z_sortCompare a b <= 0 -> z_sortCompare b c <= 0 -> z_sortCompare a c <= 0)%Z.
Proof. rewrite !z_compare_le. lia. Qed.

(** The builder after the entries [z_entries n] have been added. *)
Definition z_builder (n : nat) : @TreeBuilder.BPlusTreeBuilder Z unit :=
  {| TreeBuilder.uniqueKeys := true; TreeBuilder.fillFactor := 100;
     TreeBuilder.metadataKeys := [];
     TreeBuilder.list_ :=
       (fun i => (Z.of_nat i,
                  TreeBuilder.Single {| TreeBuilder.recordPointer := [Z.of_nat i];
                                        TreeBuilder.metadata := None |}))
       <$> rev (seq 0 n);
     TreeBuilder.indexedValues := n |}.

(** Thirty keys with two entries in a node: ten leaves of three keys under
    four nodes, under two nodes, under the root; on both levels of nodes an
    entry is moved to the last node. *)
Lemma C1_routing_keys_of_created_tree_witness :
  exists t r,
    TreeBuilder.add_all z_checkNewEntryArgs (TreeBuilder.new_builder true 100 [])
      (z_entries 30) = Ok (z_builder 30) /\
    TreeBuilder.create z_sortCompare z_floor_percent (z_builder 30) (Some 2)
    = Some (Ok t) /\
    TreeBuilder.root t = Some r /\
    z_keys r = [18%Z] /\
    (z_keys <$> z_children r) = [[9%Z]; [24%Z]] /\
    (z_first <$> z_children r) = [Some 0%Z; Some 18%Z] /\
    TreeBuilder.routing_ok z_sortCompare r.
Proof.
  assert (Hb : TreeBuilder.add_all z_checkNewEntryArgs (TreeBuilder.new_builder true 100 [])
                 (z_entries 30) = Ok (z_builder 30)) by (vm_compute; reflexivity).
  eexists _, _.
  split; [exact Hb|].
  split; [vm_compute; reflexivity|].
  split; [reflexivity|].
  split; [reflexivity|]. split; [reflexivity|]. split; [reflexivity|].
  eapply (proj1 (proj2 (C1_routing_keys_of_created_tree z_sortCompare
                          z_compare_total z_compare_trans z_floor_percent
                          z_checkNewEntryArgs true 100 [] (z_entries 30) (z_builder 30)
                          (Some 2) Hb))).
  - vm_compute; reflexivity.
  - reflexivity.
Defined.

(** With one entry in a node and fifteen keys, a node of the first level of
    nodes is left without an entry, and the descent from it fails; with no
    entry in a node and two leaves, the first parent has no previous one. *)
Example create_with_small_nodes :
  z_create 15 (Some 1) = Some (Throw TreeBuilder.TypeError) /\
  z_create 4 (Some 0) = Some (Throw TreeBuilder.TypeError) /\
  (exists t, z_create 9 (Some 1) = Some (Ok t)).
Proof.
  split; [by vm_compute|]. split; [by vm_compute|].
  eexists. vm_compute. reflexivity.
Qed.

(** ** The builder: what [add] and [remove] keep in the list *)

Section BuilderListFacts.
Import TreeBuilder.
Context {K M : Type} `{EqDecision K}.
Variable _checkNewEntryArgs : K -> list Z -> list string -> option M -> option string.

Local Abbreviation builder := (@BPlusTreeBuilder K M).
Local Abbreviation entryValue := (@BPlusTreeLeafEntryValue M).
Local Abbreviation add_entry := (add _checkNewEntryArgs).
Local Abbreviation add_entries := (add_all _checkNewEntryArgs).

(** The values that the list holds for a key. *)
Definition held (l : list (K * @listed M)) (k : K) : list entryValue :=
  match map_get l k with
  | Some (Single v) => [v]
  | Some (Several vs) => vs
  | None => []
  end.

(** The value that a call adds. *)
Definition value_of (c : @call K M) : entryValue :=
  {| recordPointer := with_pointer c; metadata := with_metadata c |}.

(** A list as [add] makes it: every key once; one value for a key when the
    keys are unique, an array with a value otherwise. *)
Definition well_formed (b : builder) : Prop :=
  NoDup (fst <$> list_ b) /\
  forall k x, map_get (list_ b) k = Some x ->
    if uniqueKeys b then exists v, x = Single v
    else exists v vs, x = Several (v :: vs).

Lemma list_get_None (l : list (K * @listed M)) k :
  map_get l k = None <-> k ∉ fst <$> l.
Proof.
  induction l as [|[k' v] l IH]; cbn [map_get fmap list_fmap].
  - split; [intros _; apply not_elem_of_nil|done].
  - rewrite not_elem_of_cons. cbn. destruct (decide (k' = k)) as [->|Hne].
    + split; [discriminate|]. by intros [? _].
    + rewrite IH. split; [by split|by intros [_ ?]].
Qed.

Lemma list_get_snoc (l : list (K * @listed M)) k v k' :
  map_get l k = None ->
  map_get (l ++ [(k, v)]) k' = if decide (k' = k) then Some v else map_get l k'.
Proof.
  induction l as [|[k0 v0] l IH]; cbn [map_get app]; intros Hk.
  - destruct (decide (k = k')) as [->|Hne].
    + by rewrite decide_True.
    + by rewrite decide_False by congruence.
  - destruct (decide (k0 = k)) as [->|Hne0]; [discriminate|].
    destruct (decide (k0 = k')) as [->|Hne1].
    + by rewrite decide_False by congruence.
    + by apply IH.
Qed.

Lemma list_get_alter f (l : list (K * @listed M)) k k' :
  map_get (map_alter f l k) k' = if decide (k' = k) then f <$> map_get l k else map_get l k'.
Proof.
  induction l as [|[k0 v0] l IH]; cbn [map_get map_alter].
  - by destruct (decide (k' = k)).
  - destruct (decide (k0 = k)) as [->|Hne0]; cbn [map_get].
    + destruct (decide (k = k')) as [->|Hne].
      * by rewrite decide_True.
      * by rewrite decide_False by congruence.
    + destruct (decide (k0 = k')) as [->|Hne1].
      * by rewrite decide_False by congruence.
      * apply IH.
Qed.

Lemma list_alter_keys f (l : list (K * @listed M)) k :
  fst <$> map_alter f l k = fst <$> l.
Proof.
  induction l as [|[k0 v0] l IH]; cbn [map_alter fmap list_fmap]; [done|].
  destruct (decide (k0 = k)); cbn; [done|]. f_equal. apply IH.
Qed.

Lemma list_delete_absent (l : list (K * @listed M)) k :
  map_get l k = None -> map_delete l k = l.
Proof.
  induction l as [|[k0 v0] l IH]; cbn [map_get map_delete]; [done|].
  destruct (decide (k0 = k)); [discriminate|]. intros Hk. f_equal. by apply IH.
Qed.


(** One [add] that returns: the list stays well formed, and the value comes
    last under its key. *)
Lemma add_held (b b' : builder) k rp md :
  well_formed b -> add_entry b k rp md = Ok b' ->
  well_formed b' /\ uniqueKeys b' = uniqueKeys b /\ metadataKeys b' = metadataKeys b /\
  indexedValues b' = S (indexedValues b) /\
  (uniqueKeys b = true -> map_get (list_ b) k = None) /\
  forall k', held (list_ b') k' =
             held (list_ b) k' ++
             (if decide (k' = k) then [{| recordPointer := rp; metadata := md |}] else []).
Proof.
  intros [Hnd Hwf] Hadd. unfold add in Hadd.
  destruct (_checkNewEntryArgs _ _ _ _); [discriminate|].
  destruct (map_get (list_ b) k) as [existing|] eqn:Hk.
  - destruct (uniqueKeys b) eqn:Hu; [discriminate|].
    destruct existing as [v|vs]; [discriminate|].
    apply Ok_inj in Hadd. subst b'. unfold well_formed.
    cbn [list_ uniqueKeys metadataKeys indexedValues set_list].
    split; [|split; [done|split; [done|split; [done|split; [done|]]]]].
    + split; [by rewrite list_alter_keys|].
      intros k0 x. rewrite list_get_alter. rewrite Hu.
      destruct (decide (k0 = k)) as [->|Hne]; [|by apply Hwf].
      rewrite Hk. cbn. intros [= <-].
      destruct (Hwf k _ Hk) as (v & vs' & [= ->]).
      by exists v, (vs' ++ [{| recordPointer := rp; metadata := md |}]).
    + intros k'. unfold held. rewrite list_get_alter.
      destruct (decide (k' = k)) as [->|Hne]; [|by rewrite app_nil_r].
      by rewrite Hk.
  - apply Ok_inj in Hadd. subst b'. unfold well_formed.
    cbn [list_ uniqueKeys metadataKeys indexedValues set_list].
    split; [|split; [done|split; [done|split; [done|split; [done|]]]]].
    + split.
      * rewrite fmap_app. cbn. apply NoDup_app. split; [done|]. split.
        -- intros x Hx Hx'. apply list_elem_of_singleton in Hx'. subst x.
           by apply list_get_None in Hk.
        -- apply NoDup_singleton.
      * intros k0 x. rewrite list_get_snoc by done.
        destruct (decide (k0 = k)) as [->|Hne]; [|apply Hwf].
        intros [= <-]. destruct (uniqueKeys b); [by eexists|by eexists _, _].
    + intros k'. unfold held. rewrite list_get_snoc by done.
      destruct (decide (k' = k)) as [->|Hne]; [|by rewrite app_nil_r].
      rewrite Hk. by destruct (uniqueKeys b).
Qed.

Lemma new_builder_well_formed u f m : well_formed (@new_builder K M u f m).
Proof. split; [constructor|]. intros k x. discriminate. Qed.

Lemma add_all_held calls : forall (b b' : builder),
  well_formed b -> add_entries b calls = Ok b' ->
  well_formed b' /\ uniqueKeys b' = uniqueKeys b /\
  indexedValues b' = length calls + indexedValues b /\
  forall k, held (list_ b') k =
            held (list_ b) k ++ (value_of <$> List.filter (fun c => bool_decide (with_key c = k)) calls).
Proof.
  induction calls as [|c rest IH]; intros b b' Hwf Hall.
  - apply Ok_inj in Hall. subst b'. split; [done|]. split; [done|]. split; [done|].
    intros k. by rewrite app_nil_r.
  - cbn [add_all] in Hall.
    destruct (add _ b _ _ _) as [b1|] eqn:Hadd; [|discriminate].
    cbn [mbind result_bind] in Hall.
    destruct (add_held _ _ _ _ _ Hwf Hadd) as (Hwf1 & Hu1 & _ & Hn1 & _ & Hheld1).
    destruct (IH _ _ Hwf1 Hall) as (Hwf' & Hu' & Hn' & Hheld').
    split; [done|]. split; [congruence|]. split; [cbn [length]; lia|].
    intros k. rewrite Hheld', Hheld1. rewrite <- app_assoc. f_equal.
    cbn [List.filter]. destruct (decide (k = with_key c)) as [->|Hne].
    + by rewrite bool_decide_true.
    + by rewrite bool_decide_false by congruence.
Qed.

(** X1: after a sequence of [add] calls that all return, the builder holds
    under every key exactly the values that were added with that key, in the
    order of the calls; every key stands once in its list, and
    [indexedValues] counts the calls. *)
Theorem X1_builder_holds_what_was_added (unique : bool) (fill : Z) (mdKeys : list string)
    (calls : list call) (b : builder) :
  add_entries (new_builder unique fill mdKeys) calls = Ok b ->
  NoDup (fst <$> list_ b) /\
  indexedValues b = length calls /\
  forall k, held (list_ b) k =
            value_of <$> List.filter (fun c => bool_decide (with_key c = k)) calls.
Proof.
  intros Hall.
  destruct (add_all_held calls _ _ (new_builder_well_formed unique fill mdKeys) Hall)
    as ((Hnd & _) & _ & Hn & Hheld).
  split; [done|]. split; [cbn in Hn; lia|]. intros k. by rewrite Hheld.
Qed.

Lemma well_formed_held (b : builder) k :
  well_formed b -> (held (list_ b) k = [] <-> map_get (list_ b) k = None).
Proof.
  intros [_ Hwf]. unfold held.
  destruct (map_get (list_ b) k) as [x|] eqn:Hk; [|done].
  specialize (Hwf k x Hk).
  destruct (uniqueKeys b).
  - destruct Hwf as [v ->]. split; discriminate.
  - destruct Hwf as (v & vs & ->). split; discriminate.
Qed.

(** The calls of a builder with unique keys: they go through while the keys
    are new. *)
Lemma add_all_unique calls : forall (b : builder),
  well_formed b -> uniqueKeys b = true ->
  Forall (fun c => _checkNewEntryArgs (with_key c) (with_pointer c) (metadataKeys b)
                     (with_metadata c) = None) calls ->
  match add_entries b calls with
  | Ok _ => NoDup (with_key <$> calls) /\
            forall c, c ∈ calls -> map_get (list_ b) (with_key c) = None
  | Throw e => e = "unique-key-violation" /\
               ~ (NoDup (with_key <$> calls) /\
                  forall c, c ∈ calls -> map_get (list_ b) (with_key c) = None)
  end.
Proof.
  induction calls as [|c rest IH]; intros b Hwf Hu Hcheck; cbn [add_all].
  - split; [constructor|]. intros c Hc. by apply elem_of_nil in Hc.
  - apply Forall_cons in Hcheck as [Hc Hrest].
    destruct (add _ b _ _ _) as [b1|e] eqn:Hadd; cbn [mbind result_bind].
    + destruct (add_held _ _ _ _ _ Hwf Hadd) as (Hwf1 & Hu1 & Hmd1 & _ & Hnew & Hheld1).
      specialize (Hnew Hu).
      assert (Hget : forall k', map_get (list_ b1) k' = None <->
                                map_get (list_ b) k' = None /\ k' <> with_key c).
      { intros k'. rewrite <- !well_formed_held by done. rewrite Hheld1.
        destruct (decide (k' = with_key c)) as [->|Hne].
        - split; [by intros ?%app_eq_nil; destruct_and!|by intros [_ ?]].
        - rewrite app_nil_r. by split; [|intros [? _]]. }
      specialize (IH b1 Hwf1 ltac:(congruence)). rewrite Hmd1 in IH. specialize (IH Hrest).
      destruct (add_all _ b1 rest) as [b2|e2].
      * destruct IH as [Hnd Habs]. split.
        -- cbn. constructor; [|done]. intros Hin.
           apply list_elem_of_fmap in Hin as (c' & Heq & Hc').
           apply Habs, Hget in Hc' as [_ Hne]. congruence.
        -- intros c' [->|Hc']%elem_of_cons; [done|]. by apply Habs, Hget in Hc' as [? _].
      * destruct IH as [-> Hnot]. split; [done|]. intros [Hnd Habs]. apply Hnot.
        cbn in Hnd. apply NoDup_cons in Hnd as [Hnin Hnd]. split; [done|].
        intros c' Hc'. apply Hget. split; [apply Habs; by apply elem_of_cons; right|].
        intros Heq. apply Hnin. rewrite <- Heq. by apply list_elem_of_fmap_2.
    + unfold add in Hadd. rewrite Hc in Hadd.
      destruct (map_get (list_ b) (with_key c)) as [x|] eqn:Hk; [|discriminate].
      rewrite Hu in Hadd. injection Hadd as <-. split; [done|].
      intros [_ Habs]. rewrite Habs in Hk; [discriminate|]. by apply elem_of_cons; left.
Qed.

(** X2: a builder with unique keys takes a sequence of calls whose arguments
    are accepted exactly when their keys differ from one another; otherwise
    it throws the unique-key violation. *)
Theorem X2_builder_unique_keys (fill : Z) (mdKeys : list string) (calls : list call) :
  Forall (fun c => _checkNewEntryArgs (with_key c) (with_pointer c) mdKeys
                     (with_metadata c) = None) calls ->
  match add_entries (new_builder true fill mdKeys) calls with
  | Ok _ => NoDup (with_key <$> calls)
  | Throw e => e = "unique-key-violation" /\ ~ NoDup (with_key <$> calls)
  end.
Proof.
  intros Hcheck.
  pose proof (add_all_unique calls _ (new_builder_well_formed true fill mdKeys) eq_refl Hcheck)
    as Hall.
  destruct (add_all _ _ calls) as [b|e].
  - by destruct Hall.
  - destruct Hall as [-> Hnot]. split; [done|]. intros Hnd. apply Hnot. by split.
Qed.




(** X4: [remove] of a key that no call added leaves a builder with unique
    keys as it is, and throws a [TypeError] in a builder whose keys are not
    unique, where the array of the key is [undefined]. *)
Theorem X4_builder_remove_missing_key (unique : bool) (fill : Z) (mdKeys : list string)
    (calls : list call) (b : builder) (k : K) (rp : option (list Z)) :
  add_entries (new_builder unique fill mdKeys) calls = Ok b ->
  k ∉ with_key <$> calls ->
  remove b k rp = if unique then Ok b else Throw TypeError.
Proof.
  intros Hall Hk.
  destruct (add_all_held calls _ _ (new_builder_well_formed unique fill mdKeys) Hall)
    as (Hwf & Hu & _ & Hheld).
  assert (Hget : map_get (list_ b) k = None).
  { apply well_formed_held; [done|]. rewrite Hheld. cbn [held map_get new_builder list_ app].
    replace (List.filter (fun c => bool_decide (with_key c = k)) calls) with (@nil (@call K M));
      [done|].
    symmetry. clear -Hk. induction calls as [|c rest IH]; cbn [List.filter]; [done|].
    cbn in Hk. apply not_elem_of_cons in Hk as [Hne Hk].
    rewrite bool_decide_false by congruence. by apply IH. }
  unfold remove. rewrite Hget, Hu. cbn [uniqueKeys new_builder].
  destruct unique; [|done]. rewrite list_delete_absent by done. by destruct b.
Qed.

End BuilderListFacts.

(** Two values under the key 5 and one under the key 3. *)
Definition z_repeated : list (@TreeBuilder.call Z unit) :=
  [ {| TreeBuilder.with_key := 5%Z; TreeBuilder.with_pointer := [1; 1]%Z;
       TreeBuilder.with_metadata := None |};
    {| TreeBuilder.with_key := 3%Z; TreeBuilder.with_pointer := [1; 2]%Z;
       TreeBuilder.with_metadata := None |};
    {| TreeBuilder.with_key := 5%Z; TreeBuilder.with_pointer := [1; 3]%Z;
       TreeBuilder.with_metadata := None |} ].

Definition z_repeated_builder : @TreeBuilder.BPlusTreeBuilder Z unit :=
  Eval vm_compute in
    match TreeBuilder.add_all z_checkNewEntryArgs (TreeBuilder.new_builder false 50 [])
            z_repeated with
    | Ok b => b
    | Throw _ => TreeBuilder.new_builder false 50 []
    end.

Lemma z_repeated_added :
  TreeBuilder.add_all z_checkNewEntryArgs (TreeBuilder.new_builder false 50 []) z_repeated
  = Ok z_repeated_builder.
Proof. reflexivity. Qed.

Lemma X1_builder_holds_what_was_added_witness :
  TreeBuilder.add_all z_checkNewEntryArgs (TreeBuilder.new_builder false 50 []) z_repeated
  = Ok z_repeated_builder /\
  NoDup (fst <$> TreeBuilder.list_ z_repeated_builder) /\
  TreeBuilder.indexedValues z_repeated_builder = 3%nat /\
  held (TreeBuilder.list_ z_repeated_builder) 5%Z =
    [ {| TreeBuilder.recordPointer := [1; 1]%Z; TreeBuilder.metadata := None |};
      {| TreeBuilder.recordPointer := [1; 3]%Z; TreeBuilder.metadata := None |} ].
Proof.
  split; [exact z_repeated_added|].
  destruct (X1_builder_holds_what_was_added z_checkNewEntryArgs false 50 [] z_repeated
              z_repeated_builder z_repeated_added) as (Hnd & Hn & Hheld).
  split; [exact Hnd|]. split; [exact Hn|]. exact (Hheld 5%Z).
Defined.

Lemma z_accepted (calls : list (@TreeBuilder.call Z unit)) (mdKeys : list string) :
  Forall (fun c => z_checkNewEntryArgs (TreeBuilder.with_key c) (TreeBuilder.with_pointer c)
                     mdKeys (TreeBuilder.with_metadata c) = None) calls.
Proof. by apply Forall_forall. Qed.

Lemma X2_builder_unique_keys_witness :
  TreeBuilder.add_all z_checkNewEntryArgs (TreeBuilder.new_builder true 50 []) z_repeated
  = Throw "unique-key-violation" /\
  ~ NoDup (TreeBuilder.with_key <$> z_repeated).
Proof.
  pose proof (X2_builder_unique_keys z_checkNewEntryArgs 50 [] z_repeated
                (z_accepted z_repeated [])) as H.
  change (TreeBuilder.add_all z_checkNewEntryArgs (TreeBuilder.new_builder true 50 [])
            z_repeated) with (@Throw (@TreeBuilder.BPlusTreeBuilder Z unit) "unique-key-violation")
    in H.
  split; [reflexivity|]. exact (proj2 H).
Defined.



Lemma X4_builder_remove_missing_key_witness :
  TreeBuilder.remove z_repeated_builder 7%Z (Some [1; 1]%Z) = Throw TreeBuilder.TypeError.
Proof.
  apply (X4_builder_remove_missing_key z_checkNewEntryArgs false 50 [] z_repeated
           z_repeated_builder 7%Z (Some [1; 1]%Z) z_repeated_added).
  vm_compute. intros H. by repeat (apply elem_of_cons in H as [H|H]; [discriminate|]);
    apply elem_of_nil in H.
Defined.

(** ** The builder: the leaves and the shape of the tree that [create] returns *)

Section TreeShape.
Import TreeBuilder.
Context {K M : Type} `{EqDecision K}.

Local Abbreviation node := (@node K M).
Local Abbreviation parentNode := (@parentNode K M).
Local Abbreviation kvp := (K * @listed M)%type.
Local Abbreviation leafEntry := (@BPlusTreeLeafEntry K M).

Lemma leaves_of_node (es : list (K * node)) (gt : option node) :
  leaves_of (BPlusTreeNode es gt)
  = concat ((fun e => leaves_of e.2) <$> es) ++ from_option leaves_of [] gt.
Proof.
  cbn [leaves_of]. f_equal.
  induction es as [|[k c] es IH]; [done|]. cbn. by rewrite IH.
Qed.

(** The leaves under a node in the making. *)
Definition p_leaves (p : parentNode) : list (list leafEntry) := leaves_of (to_node p).

Lemma p_leaves_eq (p : parentNode) :
  p_leaves p = concat ((fun e => leaves_of e.2) <$> p_entries p)
               ++ from_option leaves_of [] (p_gtChild p).
Proof. apply leaves_of_node. Qed.

(** Moving entries from the previous parent to the last one leaves the
    leaves under the two in their order. *)
Lemma move_entries_leaves leafs (child : node) j :
  forall (prevParent : option parentNode) (parent : parentNode) pp' par',
  move_entries leafs child j prevParent parent = Ok (pp', par') ->
  from_option p_leaves [] pp' ++ p_leaves par'
  = from_option p_leaves [] prevParent ++ p_leaves parent /\
  (is_Some pp' <-> is_Some prevParent).
Proof.
  induction j as [|j IH]; intros prevParent parent pp' par' Hm.
  - cbn in Hm. apply Ok_inj in Hm. by injection Hm as <- <-.
  - cbn [move_entries] in Hm. cbv zeta in Hm.
    destruct prevParent as [prev|]; [|discriminate].
    destruct (pop (p_entries prev)) as [[rest [mk mlt]]|] eqn:Hpop; [|discriminate].
    apply pop_Some in Hpop.
    match type of Hm with
    | (?x ≫= _) = _ => destruct x as [k|]; [|discriminate]
    end.
    cbn [mbind result_bind] in Hm.
    destruct (p_gtChild prev) as [g|] eqn:Hg; [|discriminate].
    apply IH in Hm as [Hm Hs]. split; [|split; [by eexists|intros _; apply Hs; by eexists]].
    rewrite Hm. cbn [from_option]. rewrite !p_leaves_eq. cbn [p_entries p_gtChild].
    rewrite Hpop, Hg. rewrite fmap_app, concat_app. cbn [from_option fmap list_fmap concat snd].
    rewrite !app_nil_r. by rewrite <- !app_assoc.
Qed.

(** The leaves under a list of parents the last of which are new. *)
Lemma leaves_insert (ps : list parentNode) cur b b' extra :
  ps !! cur = Some b ->
  (forall p x, cur < p -> ps !! p = Some x -> x = new_node) ->
  p_leaves b' = p_leaves b ++ extra ->
  concat (p_leaves <$> <[cur := b']> ps) = concat (p_leaves <$> ps) ++ extra.
Proof.
  intros Hb Hnew Hb'.
  assert (Hrest : concat (p_leaves <$> drop (S cur) ps) = []).
  { assert (Hall : Forall (fun x => x = new_node) (drop (S cur) ps)).
    { apply Forall_lookup. intros p x Hx. rewrite lookup_drop in Hx.
      apply (Hnew (S cur + p)); [lia|done]. }
    induction Hall as [|x l -> _ IH]; [done|]. cbn. exact IH. }
  rewrite <- (take_drop_middle ps cur b Hb) at 2.
  rewrite (insert_take_drop ps cur b') by (by eapply lookup_lt_Some).
  rewrite !fmap_app, !concat_app, !fmap_cons. cbn [concat].
  rewrite Hrest, Hb', !app_nil_r. by rewrite <- !app_assoc.
Qed.

Lemma leaves_insert2 (ps : list parentNode) q x y x' y' extra :
  ps !! q = Some x -> ps !! S q = Some y ->
  (forall p z, S q < p -> ps !! p = Some z -> z = new_node) ->
  p_leaves x' ++ p_leaves y' = p_leaves x ++ p_leaves y ++ extra ->
  concat (p_leaves <$> <[S q := y']> (<[q := x']> ps)) = concat (p_leaves <$> ps) ++ extra.
Proof.
  intros Hx Hy Hnew Hxy.
  assert (Hrest : concat (p_leaves <$> drop (S (S q)) ps) = []).
  { assert (Hall : Forall (fun x => x = new_node) (drop (S (S q)) ps)).
    { apply Forall_lookup. intros p z Hz. rewrite lookup_drop in Hz.
      apply (Hnew (S (S q) + p)); [lia|done]. }
    induction Hall as [|z l -> _ IH]; [done|]. cbn. exact IH. }
  assert (Hps : ps = take q ps ++ x :: y :: drop (S (S q)) ps).
  { rewrite <- (drop_S _ _ _ Hy). by rewrite take_drop_middle. }
  assert (Hq : length (take q ps) = q).
  { apply length_take_le. apply lookup_lt_Some in Hx. lia. }
  rewrite Hps at 1. rewrite insert_app_r_alt by lia. rewrite Hq, Nat.sub_diag.
  cbn [insert list_insert]. rewrite insert_app_r_alt by lia.
  rewrite Hq. replace (S q - q) with 1 by lia. cbn [insert list_insert].
  rewrite Hps at 3.
  rewrite !fmap_app, !concat_app, !fmap_cons. cbn [concat].
  rewrite Hrest, !app_nil_r.
  rewrite <- !app_assoc. f_equal. rewrite !app_assoc. rewrite Hxy.
  by rewrite <- !app_assoc.
Qed.

Lemma leaves_replicate k : concat (p_leaves <$> replicate k (@new_node K M)) = [].
Proof. induction k as [|k IH]; [done|]. cbn. exact IH. Qed.

Section Levels.
Variable sorted_list : list kvp.
Variable entriesPerNode entriesPerLeaf : nat.
Hypothesis leaf_size : 0 < entriesPerLeaf.

Local Abbreviation pc := (parentConnections entriesPerNode).
Local Abbreviation new_leaf_at := (new_leaf sorted_list entriesPerLeaf).

Section LeafLevel.
Variable leafs : bool.
Variable n : nat.
Variable nodes : list node.
Hypothesis n_pos : 0 < n.

(** The leaves or nodes that are placed before the leaf or node [i]. *)
Definition placed (i : nat) : list node :=
  if leafs then new_leaf_at <$> seq 0 i else take i nodes.

Definition leaves_inv (i : nat) (st : list parentNode * list node) : Prop :=
  length st.1 = ceil_div n pc /\
  (leafs = false -> st.2 = nodes) /\
  (leafs = true -> st.2 = nodes ++ placed i) /\
  (forall b, i < n -> st.1 !! completed entriesPerNode n i = Some b -> p_gtChild b = None) /\
  (forall p b, completed entriesPerNode n i < p -> st.1 !! p = Some b -> b = new_node) /\
  concat (p_leaves <$> st.1) = concat (leaves_of <$> placed i).

(** Placing the leaf or node [i] puts its leaves after those of the leaves
    or nodes before it. *)
Lemma place_leaves i st st' :
  i < n -> leaves_inv i st ->
  place sorted_list entriesPerNode entriesPerLeaf leafs n i st = Ok st' ->
  leaves_inv (S i) st'.
Proof.
  destruct st as [ps nl]. intros Hi (Hlen & Hfix & Hnew_nl & Hopen & Hnew & Hleaves) Hp.
  cbn [fst snd] in *.
  unfold place in Hp. cbv beta iota zeta in Hp.
  match type of Hp with
  | (?x ≫= _) = _ => destruct x as [[c nl']|] eqn:Hchild; [|discriminate]
  end.
  assert (Hc : placed (S i) = placed i ++ [c] /\ (leafs = false -> nl' = nodes) /\
               (leafs = true -> nl' = nodes ++ placed (S i))).
  { unfold placed in *. destruct leafs.
    - apply Ok_inj in Hchild. injection Hchild as <- <-.
      rewrite seq_S, fmap_app. cbn. split; [done|]. split; [done|]. intros _.
      rewrite (Hnew_nl eq_refl). by rewrite <- app_assoc.
    - destruct (nl !! i) as [x|] eqn:Hx; [|discriminate].
      apply Ok_inj in Hchild. injection Hchild as <- <-.
      rewrite <- (Hfix eq_refl). split; [by apply take_S_r|]. by split. }
  destruct Hc as (Hplaced & Hfix' & Hnew_nl').
  assert (Hnext : concat (leaves_of <$> placed (S i))
                  = concat (leaves_of <$> placed i) ++ leaves_of c).
  { rewrite Hplaced, fmap_app, concat_app. cbn. by rewrite app_nil_r. }
  clear Hchild Hplaced.
  cbn [mbind result_bind] in Hp. cbv beta iota in Hp.
  assert (Hcomp : completed entriesPerNode n i = i / pc).
  { unfold completed. by rewrite decide_True. }
  rewrite Hcomp in *.
  destruct (ps !! (i / pc)) as [b|] eqn:Hb; [|discriminate].
  pose proof (Hopen b Hi eq_refl) as Hgt.
  assert (Hcur : i / pc < length ps) by (by eapply lookup_lt_Some).
  change ((i / pc <? (i + 1) / pc) || (i =? n - 1))%nat with (isLast entriesPerNode n i) in Hp.
  unfold leaves_inv. cbn [fst snd]. rewrite Hnext, <- Hleaves.
  destruct (isLast entriesPerNode n i) eqn:Hlast.
  - (* the last leaf or node of its parent *)
    rewrite (completed_last entriesPerNode entriesPerLeaf leaf_size n n_pos i Hi Hlast).
    set (b1 := {| p_entries := p_entries b; p_gtChild := Some c |}) in Hp.
    assert (Hb1 : p_leaves b1 = p_leaves b ++ leaves_of c).
    { rewrite !p_leaves_eq, Hgt. cbn. by rewrite app_nil_r. }
    assert (Hend : forall ps',
      length ps' = length ps -> (forall p, i / pc < p -> ps' !! p = ps !! p) ->
      concat (p_leaves <$> ps') = concat (p_leaves <$> ps) ++ leaves_of c ->
      length ps' = ceil_div n pc /\ (leafs = false -> nl' = nodes) /\
      (leafs = true -> nl' = nodes ++ placed (S i)) /\
      (forall x, S i < n -> ps' !! (i / pc + 1) = Some x -> p_gtChild x = None) /\
      (forall p x, i / pc + 1 < p -> ps' !! p = Some x -> x = new_node) /\
      concat (p_leaves <$> ps') = concat (p_leaves <$> ps) ++ leaves_of c).
    { intros ps' Hl Hsame Hcat. split; [congruence|]. split; [done|]. split; [done|].
      split; [|split; [|done]].
      - intros x _ Hx. rewrite Hsame in Hx by lia. by rewrite (Hnew (i / pc + 1) x ltac:(lia) Hx).
      - intros p x Hlt Hx. rewrite Hsame in Hx by lia. apply (Hnew p); [lia|done]. }
    destruct (_ && _).
    + destruct (move_entries _ _ _ _ _) as [[pp' par']|] eqn:Hmove; [|discriminate].
      cbn [mbind result_bind] in Hp. apply Ok_inj in Hp. subst st'.
      apply move_entries_leaves in Hmove as [Hmove Hsome].
      unfold store. cbn [fst snd]. apply Hend.
      * rewrite length_insert. destruct pp'; [by rewrite length_insert|done].
      * intros p Hlt. rewrite list_lookup_insert_ne by lia.
        destruct pp'; [|done]. by rewrite list_lookup_insert_ne by lia.
      * destruct (i / pc) as [|q] eqn:Hq.
        -- destruct pp' as [prev'|].
           { destruct Hsome as [Hsome _]. by destruct (Hsome ltac:(by eexists)). }
           cbn [from_option app] in Hmove.
           eapply leaves_insert; [exact Hb| |by rewrite Hmove, Hb1].
           intros p x Hlt. by apply Hnew.
        -- destruct (ps !! q) as [prev|] eqn:Hprev.
           2:{ apply lookup_ge_None in Hprev. lia. }
           destruct pp' as [prev'|].
           2:{ destruct Hsome as [_ Hsome]. by destruct (Hsome ltac:(by eexists)). }
           cbn [from_option] in Hmove. replace (S q - 1) with q by lia.
           eapply leaves_insert2; [exact Hprev|exact Hb| |].
           ++ intros p x Hlt. by apply Hnew.
           ++ by rewrite Hmove, Hb1.
    + apply Ok_inj in Hp. subst st'. unfold store. cbn [fst snd]. apply Hend.
      * by rewrite length_insert.
      * intros p Hlt. by rewrite list_lookup_insert_ne by lia.
      * eapply leaves_insert; [exact Hb| |exact Hb1].
        intros p x Hlt. by apply Hnew.
  - (* a leaf or node with a next one under the same parent *)
    match type of Hp with
    | (?x ≫= _) = _ => destruct x as [k|]; [|discriminate]
    end.
    cbn [mbind result_bind] in Hp. apply Ok_inj in Hp. subst st'. unfold store. cbn [fst snd].
    destruct (completed_not_last entriesPerNode entriesPerLeaf leaf_size n n_pos i Hi Hlast)
      as [Hlt Hcomp'].
    rewrite Hcomp'.
    split; [by rewrite length_insert|]. split; [done|]. split; [done|]. split; [|split].
    + intros x _ Hx. rewrite list_lookup_insert_eq in Hx by done.
      apply (inj Some) in Hx. by subst x.
    + intros p x Hp Hx. rewrite list_lookup_insert_ne in Hx by lia. by apply (Hnew p).
    + eapply leaves_insert; [exact Hb| |].
      * intros p x Hp. by apply Hnew.
      * rewrite !p_leaves_eq. cbn [p_entries p_gtChild].
        rewrite Hgt, fmap_app, concat_app. cbn. by rewrite !app_nil_r.
Qed.

(** When the leaves or nodes of a level have been placed, the parents have
    their leaves in the order of the level. *)
Lemma level_leaves (ps : list parentNode) (nl' : list node) :
  level sorted_list entriesPerNode entriesPerLeaf leafs n (ceil_div n pc) nodes
  = Ok (ps, nl') ->
  length ps = ceil_div n pc /\
  (leafs = true -> nl' = nodes ++ placed n) /\
  concat (p_leaves <$> ps) = concat (leaves_of <$> placed n).
Proof.
  intros Hl. unfold level in Hl.
  apply (for_each_inv _ leaves_inv) in Hl.
  - by destruct Hl as (Hlen & _ & Hnl & _ & _ & Hcat).
  - intros i s s' Hi. apply place_leaves. lia.
  - unfold leaves_inv. cbn [fst snd].
    split; [by rewrite length_replicate|]. split; [done|].
    split; [intros _; unfold placed; destruct leafs; cbn; by rewrite ?app_nil_r, ?take_0|].
    split; [|split].
    + intros b _ Hb. by apply lookup_replicate in Hb as [-> _].
    + intros p b _ Hb. by apply lookup_replicate in Hb as [-> _].
    + rewrite leaves_replicate. unfold placed. by destruct leafs; rewrite ?take_0.
Qed.

End LeafLevel.

(** The entries of the leaves that [create] makes, leaf by leaf. *)
Definition leaf_entries : list (list leafEntry) :=
  (fun i => leaf_entry <$> slice sorted_list (i * entriesPerLeaf)
                                 (i * entriesPerLeaf + entriesPerLeaf))
  <$> seq 0 (nrOfLeafs sorted_list entriesPerLeaf).

Lemma new_leaves n : concat (leaves_of <$> (new_leaf_at <$> seq 0 n))
                     = (fun i => leaf_entry <$> slice sorted_list (i * entriesPerLeaf)
                                                     (i * entriesPerLeaf + entriesPerLeaf))
                       <$> seq 0 n.
Proof.
  induction n as [|n IH]; [done|].
  by rewrite seq_S, !fmap_app, concat_app, IH.
Qed.

(** The root that the loop over the levels gives has the leaves in their
    order. *)
Lemma levels_leaves fuel :
  forall currentLevel n (nodes : list node) depth root d,
  0 < n -> 1 <= currentLevel ->
  (currentLevel = 1 -> nodes = [] /\ n = nrOfLeafs sorted_list entriesPerLeaf) ->
  (currentLevel <> 1 -> nrOfLeafs sorted_list entriesPerLeaf <> 1 /\ length nodes = n /\
                        concat (leaves_of <$> nodes) = leaf_entries) ->
  levels sorted_list entriesPerNode entriesPerLeaf fuel currentLevel n (ceil_div n pc)
    nodes depth = Some (Ok (root, d)) ->
  exists r, root = Some r /\ leaves_of r = leaf_entries.
Proof.
  induction fuel as [|fuel IH];
    intros currentLevel n nodes depth root d Hn Hlevel Hfirst Hnext Hl; [discriminate|].
  cbn [levels] in Hl.
  destruct (level _ _ _ _ _ _ _) as [[ps nl']|] eqn:Hlevels; [|discriminate].
  apply level_leaves in Hlevels as (Hlen & Hnl' & Hcat); [|done].
  assert (Hplaced : concat (leaves_of <$> placed (currentLevel =? 1)%nat nodes n)
                    = leaf_entries).
  { unfold placed. destruct (currentLevel =? 1)%nat eqn:Hone.
    - apply Nat.eqb_eq in Hone. destruct (Hfirst Hone) as [_ ->]. apply new_leaves.
    - apply Nat.eqb_neq in Hone. destruct (Hnext Hone) as (_ & Hnodes & Hleaves).
      by rewrite take_ge by lia. }
  rewrite Hplaced in Hcat.
  destruct (nrOfLeafs _ _ =? 1)%nat eqn:Hsingle.
  - apply Nat.eqb_eq in Hsingle.
    destruct (decide (currentLevel = 1)) as [Hone|Hone]; [|by destruct (Hnext Hone)].
    destruct (Hfirst Hone) as [-> ->]. rewrite Hone in Hnl'.
    rewrite (Hnl' eq_refl) in Hl. unfold placed in Hl. rewrite Hsingle in Hl.
    cbn in Hl. injection Hl as <- _. eexists. split; [done|].
    unfold leaf_entries. by rewrite Hsingle.
  - apply Nat.eqb_neq in Hsingle.
    destruct (ceil_div _ _ =? 1)%nat eqn:Hparents.
    + apply Nat.eqb_eq in Hparents. rewrite Hparents in Hlen.
      destruct ps as [|b [|]]; try discriminate.
      injection Hl as <- _. exists (to_node b). split; [done|].
      cbn in Hcat. by rewrite app_nil_r in Hcat.
    + apply IH in Hl; [done| | | |].
      * rewrite length_fmap, Hlen, (ceil_div_pred entriesPerNode entriesPerLeaf) by done. lia.
      * lia.
      * lia.
      * intros _. split; [done|]. split; [done|].
        rewrite <- list_fmap_compose. exact Hcat.
Qed.




(** *** The shape of the tree *)

Section Balance.

Hypothesis node_size : 2 <= entriesPerNode.

Local Abbreviation minP := (minParentEntries entriesPerNode).
Local Abbreviation bal := (@balanced K M minP entriesPerNode).

Lemma minP_bounds : 1 <= minP /\ minP + minP <= entriesPerNode.
Proof.
  unfold minParentEntries.
  pose proof (Nat.Div0.mul_div_le entriesPerNode 2). lia.
Qed.

Section BalanceLevel.

Variable leafs : bool.
Variable n h : nat.
Variable nodes : list node.
Hypothesis n_ge_2 : 2 <= n.
Hypothesis children_balanced :
  forall i c, child_at sorted_list entriesPerLeaf leafs nodes i = Some c -> bal h c.

Definition kids_ok (b : parentNode) : Prop :=
  Forall (fun e => bal h e.2) (p_entries b).

(** A parent with its last child and between [least] and [entriesPerNode]
    entries. *)
Definition closed (least : nat) (b : parentNode) : Prop :=
  least <= length (p_entries b) <= entriesPerNode /\
  (exists g, p_gtChild b = Some g /\ bal h g) /\ kids_ok b.

Definition balance_inv (i : nat) (st : list parentNode * list node) : Prop :=
  length st.1 = ceil_div n pc /\
  (leafs = false -> st.2 = nodes) /\
  if decide (i < n) then
    (forall p b, p < i / pc -> st.1 !! p = Some b -> closed entriesPerNode b) /\
    (forall b, st.1 !! (i / pc) = Some b ->
       length (p_entries b) + i / pc * pc = i /\ p_gtChild b = None /\ kids_ok b) /\
    (forall p b, i / pc < p -> st.1 !! p = Some b -> b = new_node)
  else Forall (closed (if decide (1 < length st.1) then minP else 1)) st.1.

Lemma closed_least least least' b : least' <= least -> closed least b -> closed least' b.
Proof. intros Hle (Hlen & Hgt & Hkids). split; [lia|done]. Qed.

(** The entries that are moved keep the children balanced. *)
Lemma move_entries_balanced (child : node) j :
  forall (prev parent : parentNode) pp' par',
  kids_ok parent -> kids_ok prev -> (exists g, p_gtChild prev = Some g /\ bal h g) ->
  move_entries leafs child j (Some prev) parent = Ok (pp', par') ->
  exists prev', pp' = Some prev' /\
    length (p_entries prev') + j = length (p_entries prev) /\
    length (p_entries par') = length (p_entries parent) + j /\
    kids_ok prev' /\ kids_ok par' /\
    (exists g, p_gtChild prev' = Some g /\ bal h g) /\
    p_gtChild par' = p_gtChild parent.
Proof.
  induction j as [|j IH]; intros prev parent pp' par' Hpar Hprev Hg Hm.
  - cbn in Hm. apply Ok_inj in Hm. injection Hm as <- <-.
    exists prev. split; [done|]. split; [lia|]. split; [lia|]. by split; [|split; [|split]].
  - cbn [move_entries] in Hm. cbv zeta in Hm.
    destruct (pop (p_entries prev)) as [[rest [mk mlt]]|] eqn:Hpop; [|discriminate].
    apply pop_Some in Hpop.
    match type of Hm with
    | (?x ≫= _) = _ => destruct x as [k|]; [|discriminate]
    end.
    cbn [mbind result_bind] in Hm.
    destruct Hg as (g & Hg & Hgb). rewrite Hg in Hm.
    unfold kids_ok in Hprev. rewrite Hpop in Hprev.
    apply Forall_app in Hprev as [Hrest Hlast]. rewrite Forall_singleton in Hlast.
    apply IH in Hm as (prev' & -> & Hl1 & Hl2 & Hk1 & Hk2 & Hg' & Hgt').
    + exists prev'. cbn [p_entries p_gtChild length] in *.
      rewrite Hpop, length_app. cbn [length].
      split; [done|]. split; [lia|]. split; [lia|]. by split; [|split; [|split]].
    + by constructor.
    + done.
    + by exists mlt.
Qed.

(** Placing the leaf or node [i] keeps the parents balanced. *)
Lemma place_balanced i st st' :
  i < n -> balance_inv i st ->
  place sorted_list entriesPerNode entriesPerLeaf leafs n i st = Ok st' ->
  balance_inv (S i) st'.
Proof.
  destruct st as [ps nl]. intros Hi (Hlen & Hfix & Hinv) Hp. cbn [fst snd] in *.
  rewrite decide_True in Hinv by done. destruct Hinv as (Hfull & Hopen & Hnew).
  pose proof minP_bounds as Hmin.
  pose proof (Nat.Div0.mul_div_le i pc) as Hcur1.
  pose proof (Nat.mul_succ_div_gt i pc) as Hcur2.
  pose proof (Nat.Div0.mul_div_le (i + 1) pc) as Hnext1.
  pose proof (Nat.mul_succ_div_gt (i + 1) pc) as Hnext2.
  pose proof (div_next_le entriesPerNode entriesPerLeaf leaf_size i) as Hle.
  pose proof (div_next_ge entriesPerNode entriesPerLeaf leaf_size i) as Hge.
  pose proof (ceil_div_pred entriesPerNode entriesPerLeaf leaf_size n) as HP.
  pose proof (Nat.Div0.div_le_mono i (n - 1) pc) as Hmono.
  assert (Hpc : pc = entriesPerNode + 1) by reflexivity.
  unfold place in Hp. cbv beta iota zeta in Hp.
  match type of Hp with
  | (?x ≫= _) = _ => destruct x as [[c nl']|] eqn:Hchild; [|discriminate]
  end.
  assert (Hc : bal h c /\ (leafs = false -> nl' = nodes)).
  { pose proof (children_balanced i) as Hbal. unfold child_at in Hbal. destruct leafs.
    - apply Ok_inj in Hchild. injection Hchild as <- <-. split; [by apply Hbal|done].
    - destruct (nl !! i) as [x|] eqn:Hx; [|discriminate].
      apply Ok_inj in Hchild. injection Hchild as <- <-.
      rewrite (Hfix eq_refl) in Hx. split; [by apply Hbal|done]. }
  destruct Hc as [Hcb Hfix']. clear Hchild.
  cbn [mbind result_bind] in Hp. cbv beta iota in Hp.
  destruct (ps !! (i / pc)) as [b|] eqn:Hb; [|discriminate].
  destruct (Hopen b eq_refl) as (Hcount & Hgt & Hkids).
  assert (Hcur : i / pc < length ps) by (by eapply lookup_lt_Some).
  change ((i / pc <? (i + 1) / pc) || (i =? n - 1))%nat with (isLast entriesPerNode n i) in Hp.
  assert (Hstep : (i + 1) / pc = i / pc \/
                  ((i + 1) / pc = i / pc + 1 /\ i + 1 = (i / pc + 1) * pc)).
  { destruct (decide ((i + 1) / pc = i / pc)) as [|Hne]; [by left|right].
    assert (E : (i + 1) / pc = i / pc + 1) by lia.
    split; [done|]. rewrite E in Hnext1. lia. }
  clear Hnext1 Hnext2 Hle Hge.
  assert (Hlast' : isLast entriesPerNode n i = true ->
            ((i + 1) / pc = i / pc + 1 /\ i + 1 = (i / pc + 1) * pc) \/ i = n - 1).
  { unfold isLast. intros [Hl|Hl]%orb_true_iff.
    - left. apply Nat.ltb_lt in Hl. lia.
    - right. by apply Nat.eqb_eq. }
  assert (Hnot : isLast entriesPerNode n i = false -> (i + 1) / pc = i / pc /\ i <> n - 1).
  { unfold isLast. intros [Hl Hr]%orb_false_iff.
    apply Nat.ltb_ge in Hl. apply Nat.eqb_neq in Hr. lia. }
  assert (Hfix0 : forall x, balance_inv (S i) (x, nl') <->
            length x = ceil_div n pc /\
            if decide (S i < n) then
              (forall p b, p < (i + 1) / pc -> x !! p = Some b -> closed entriesPerNode b) /\
              (forall b, x !! ((i + 1) / pc) = Some b ->
                 length (p_entries b) + (i + 1) / pc * pc = i + 1 /\ p_gtChild b = None /\
                 kids_ok b) /\
              (forall p b, (i + 1) / pc < p -> x !! p = Some b -> b = new_node)
            else Forall (closed (if decide (1 < length x) then minP else 1)) x).
  { intros x. unfold balance_inv. cbn [fst snd]. replace (S i) with (i + 1) by lia. tauto. }
  destruct (isLast entriesPerNode n i) eqn:Hlast.
  - (* the last leaf or node of its parent *)
    specialize (Hlast' eq_refl). clear Hnot.
    set (b1 := {| p_entries := p_entries b; p_gtChild := Some c |}) in Hp.
    assert (Hb1 : length (p_entries b1) = length (p_entries b)) by reflexivity.
    destruct (_ && _) eqn:Hcond.
    + (* entries are moved from the previous parent *)
      apply andb_true_iff in Hcond as [HlenP Hfew].
      apply Nat.ltb_lt in HlenP, Hfew. rewrite Hb1 in *.
      assert (Hend : i = n - 1) by lia.
      assert (Hq0 : i / pc = (n - 1) / pc) by (by rewrite <- Hend).
      destruct (i / pc) as [|q] eqn:Hq; [lia|].
      destruct (ps !! q) as [prev|] eqn:Hprev; [|apply lookup_ge_None in Hprev; lia].
      destruct (Hfull q prev) as (Hplen & Hpgt & Hpch); [lia|done|].
      destruct (move_entries _ _ _ _ _) as [[pp' par']|] eqn:Hmove; [|discriminate].
      cbn [mbind result_bind] in Hp. apply Ok_inj in Hp. subst st'.
      apply move_entries_balanced in Hmove
        as (prev' & -> & Hl1 & Hl2 & Hk1 & Hk2 & Hg' & Hgt'); [|done|done|done].
      cbn [p_gtChild] in Hgt'.
      apply Hfix0. unfold store. rewrite !length_insert. split; [done|].
      rewrite decide_False by lia. rewrite decide_True by lia.
      apply Forall_lookup. intros p x Hx.
      apply list_lookup_insert_Some in Hx as [(_ & <- & _)|[Hne Hx]].
      { split; [rewrite Hl2, Hb1; lia|]. split; [|done]. exists c. by rewrite Hgt'. }
      apply list_lookup_insert_Some in Hx as [(_ & <- & _)|[Hne' Hx]].
      { split; [lia|]. by split. }
      apply (closed_least entriesPerNode); [lia|]. apply (Hfull p); [|done].
      apply lookup_lt_Some in Hx. lia.
    + (* the parent has its entries *)
      apply andb_false_iff in Hcond.
      apply Ok_inj in Hp. subst st'.
      apply Hfix0. unfold store. rewrite length_insert. split; [done|].
      destruct (decide (S i < n)) as [Hlt|Hge'].
      * assert (Hdiv : (i + 1) / pc = i / pc + 1) by lia.
        rewrite Hdiv. split; [|split].
        -- intros p x Hp Hx.
           apply list_lookup_insert_Some in Hx as [(_ & <- & _)|[Hne Hx]].
           ++ split; [rewrite Hb1; lia|]. split; [by exists c|done].
           ++ apply (Hfull p); [lia|done].
        -- intros x Hx. rewrite list_lookup_insert_ne in Hx by lia.
           apply Hnew in Hx; [|lia]. subst x. cbn. split; [lia|]. split; [done|constructor].
        -- intros p x Hp Hx. rewrite list_lookup_insert_ne in Hx by lia.
           apply (Hnew p); [lia|done].
      * assert (Hq0 : i / pc = (n - 1) / pc) by (f_equal; lia).
        apply Forall_lookup. intros p x Hx.
        apply list_lookup_insert_Some in Hx as [(_ & <- & _)|[Hne Hx]].
        -- split; [|split; [by exists c|done]]. rewrite Hb1.
           destruct Hcond as [Hc1|Hc2].
           ++ apply Nat.ltb_ge in Hc1.
              assert (Hq : i / pc = 0) by lia.
              rewrite Hq in Hcount. rewrite decide_False by lia. lia.
           ++ apply Nat.ltb_ge in Hc2. rewrite Hb1 in Hc2.
              destruct (decide (1 < length ps)); lia.
        -- apply (closed_least entriesPerNode); [destruct (decide (1 < length ps)); lia|].
           apply (Hfull p); [|done].
           apply lookup_lt_Some in Hx. lia.
  - (* a leaf or node with a next one under the same parent *)
    specialize (Hnot eq_refl). clear Hlast'. destruct Hnot as [Hsame Hne].
    assert (Hlt : S i < n) by lia. clear Hstep.
    match type of Hp with
    | (?x ≫= _) = _ => destruct x as [k|]; [|discriminate]
    end.
    cbn [mbind result_bind] in Hp. apply Ok_inj in Hp. subst st'.
    apply Hfix0. unfold store. rewrite length_insert. split; [done|].
    rewrite decide_True by done.
    rewrite Hsame. split; [|split].
    + intros p x Hp Hx. rewrite list_lookup_insert_ne in Hx by lia. by apply (Hfull p).
    + intros x Hx. rewrite list_lookup_insert_eq in Hx by done.
      apply (inj Some) in Hx. subst x. cbn [p_entries p_gtChild].
      rewrite length_app. cbn [length]. split; [lia|]. split; [done|].
      apply Forall_app. split; [done|]. by apply Forall_singleton.
    + intros p x Hp Hx. rewrite list_lookup_insert_ne in Hx by lia. by apply (Hnew p).
Qed.

(** When the leaves or nodes of a level have been placed, every parent has
    its last child and its share of the entries. *)
Lemma level_balanced (ps : list parentNode) (nl' : list node) :
  level sorted_list entriesPerNode entriesPerLeaf leafs n (ceil_div n pc) nodes
  = Ok (ps, nl') ->
  length ps = ceil_div n pc /\
  Forall (closed (if decide (1 < length ps) then minP else 1)) ps.
Proof.
  intros Hl. unfold level in Hl.
  apply (for_each_inv _ balance_inv) in Hl.
  - destruct Hl as (Hlen & _ & Hinv). cbn [fst snd] in *.
    by rewrite decide_False in Hinv by lia.
  - intros i s s' Hi. apply place_balanced. lia.
  - unfold balance_inv. cbn [fst snd]. split; [by rewrite length_replicate|].
    split; [done|]. rewrite decide_True by lia. rewrite Nat.Div0.div_0_l.
    split; [|split].
    + intros p b Hp. lia.
    + intros b Hb. apply lookup_replicate in Hb as [-> _]. cbn.
      split; [lia|]. split; [done|constructor].
    + intros p b _ Hb. by apply lookup_replicate in Hb as [-> _].
Qed.

Lemma closed_balanced b : closed minP b -> bal (S h) (to_node b).
Proof.
  intros (Hlen & (g & Hg & Hgb) & Hkids). unfold to_node. rewrite Hg.
  by constructor.
Qed.

Lemma closed_root least b :
  1 <= least -> closed least b -> balanced_root minP entriesPerNode (S h) (to_node b).
Proof using Type.
  intros Hleast ([Hlo Hhi] & (g & Hg & Hgb) & Hkids). unfold to_node. cbn.
  split; [split; [by etrans|done]|]. by exists h, g.
Qed.

End BalanceLevel.

(** The root that the loop over the levels gives is balanced, and the depth
    goes up by one with each level of nodes after the first. *)
Lemma levels_balanced fuel :
  forall currentLevel n (nodes : list node) depth root d,
  2 <= n -> 1 <= currentLevel ->
  nrOfLeafs sorted_list entriesPerLeaf <> 1 ->
  (currentLevel <> 1 -> Forall (bal currentLevel) nodes) ->
  levels sorted_list entriesPerNode entriesPerLeaf fuel currentLevel n (ceil_div n pc)
    nodes depth = Some (Ok (root, d)) ->
  exists r hgt, root = Some r /\ balanced_root minP entriesPerNode (S hgt) r /\
                currentLevel <= hgt /\ d + currentLevel = depth + hgt.
Proof.
  induction fuel as [|fuel IH];
    intros currentLevel n nodes depth root d Hn Hlevel Hmany Hnodes Hl; [discriminate|].
  cbn [levels] in Hl.
  destruct (level _ _ _ _ _ _ _) as [[ps nl']|] eqn:Hlevels; [|discriminate].
  apply (level_balanced _ _ currentLevel) in Hlevels as (Hlen & Hclosed); [|done|].
  2:{ intros i c. unfold child_at. destruct (currentLevel =? 1)%nat eqn:Hone.
      - apply Nat.eqb_eq in Hone. subst currentLevel. intros Hc. apply (inj Some) in Hc.
        subst c. constructor.
      - apply Nat.eqb_neq in Hone. intros Hc.
        pose proof (Hnodes Hone) as Hall. rewrite Forall_lookup in Hall. by eapply Hall. }
  apply Nat.eqb_neq in Hmany. rewrite Hmany in Hl.
  pose proof (ceil_div_pred entriesPerNode entriesPerLeaf leaf_size n ltac:(lia)) as HP.
  destruct (ceil_div _ _ =? 1)%nat eqn:Hparents.
  - apply Nat.eqb_eq in Hparents. rewrite Hparents in Hlen.
    destruct ps as [|b [|]]; try discriminate.
    injection Hl as <- <-. exists (to_node b), currentLevel. split; [done|].
    rewrite Forall_singleton in Hclosed. split; [|lia].
    apply (closed_root currentLevel _ b) in Hclosed; [done|]. by cbn.
  - apply Nat.eqb_neq in Hparents.
    rewrite decide_True in Hclosed by lia.
    apply IH in Hl.
    + destruct Hl as (r & hgt & Hr & Hbal & Hle & Hd). exists r, hgt. split; [done|].
      split; [done|]. lia.
    + rewrite length_fmap. lia.
    + lia.
    + by apply Nat.eqb_neq.
    + intros _. apply Forall_fmap. eapply Forall_impl; [exact Hclosed|].
      intros b Hb. replace (currentLevel + 1) with (S currentLevel) by lia.
      by apply closed_balanced.
Qed.

End Balance.

End Levels.

Variable _sortCompare : K -> K -> Z.
Variable floor_percent : nat -> Z -> Z.

(** The number of entries of a leaf of a tree: [entriesPerLeaf] of the
    [create] that made it. *)
Definition leaf_capacity (t : @BPlusTree K M) : nat :=
  Z.to_nat (Z.max 3 (floor_percent (maxEntriesPerNode t) (tree_fillFactor t))).

(** The tree that [create] returns has a root, and the leaves under it are
    the pieces of the sorted list. *)
Lemma create_leaves (b : @BPlusTreeBuilder K M) (maxEntries : option nat) (t : BPlusTree) :
  create _sortCompare floor_percent b maxEntries = Some (Ok t) ->
  exists r, root t = Some r /\
            leaves_of r = leaf_entries (sort _sortCompare (list_ b)) (leaf_capacity t).
Proof.
  unfold create. intros Hc.
  destruct (levels _ _ _ _ _ _ _ _ _) as [[[root d]|]|] eqn:Hl; try discriminate.
  injection Hc as <-. unfold leaf_capacity. cbn [TreeBuilder.root maxEntriesPerNode tree_fillFactor].
  change (Z.of_nat 3) with 3%Z in Hl.
  eapply levels_leaves in Hl; [exact Hl| | | | |].
  - lia.
  - unfold nrOfLeafs. lia.
  - lia.
  - done.
  - done.
Qed.


(** In the tree that [create] returns, every leaf but the last holds
    [entriesPerLeaf] entries, the last leaf holds no more than that, and no
    leaf is empty unless the builder was. *)
Lemma created_leaves_filled (b : @BPlusTreeBuilder K M) (maxEntries : option nat)
    (t : BPlusTree) :
  create _sortCompare floor_percent b maxEntries = Some (Ok t) ->
  exists r, root t = Some r /\
    forall i es, leaves_of r !! i = Some es ->
      length es <= leaf_capacity t /\
      (S i < length (leaves_of r) -> length es = leaf_capacity t) /\
      (list_ b <> [] -> es <> []).
Proof.
  intros Hc. destruct (create_leaves b maxEntries t Hc) as (r & Hr & Hleaves).
  exists r. split; [done|]. rewrite Hleaves. clear Hleaves Hr Hc.
  assert (Hcap : 0 < leaf_capacity t) by (unfold leaf_capacity; lia).
  set (epl := leaf_capacity t) in *. clearbody epl.
  set (sl := sort _sortCompare (list_ b)).
  assert (Hlen : length sl = length (list_ b)).
  { apply Permutation_length. apply sort_Permutation. }
  intros i es Hes. unfold leaf_entries in *.
  rewrite length_fmap, length_seq.
  rewrite list_lookup_fmap in Hes.
  destruct (seq 0 _ !! i) as [j|] eqn:Hj; [|discriminate].
  apply lookup_seq in Hj as [-> Hi]. cbn in Hes. apply (inj Some) in Hes. subst es.
  unfold slice. rewrite length_fmap, length_take, length_drop.
  replace (i * epl + epl - i * epl) with epl by lia.
  split; [lia|]. split.
  - intros Hnext.
    pose proof (leaves_cover sl epl Hcap (S i) ltac:(lia) Hnext) as Hcover. cbn in Hcover. lia.
  - intros Hb Hnil. apply (f_equal length) in Hnil.
    rewrite length_fmap, length_take, length_drop in Hnil. cbn [length] in Hnil.
    assert (Hpos : 0 < length sl).
    { rewrite Hlen. destruct (list_ b); [done|cbn; lia]. }
    destruct (decide (2 <= nrOfLeafs sl epl)) as [Hmany|Hone].
    + pose proof (leaves_cover sl epl Hcap i Hmany Hi). lia.
    + assert (i = 0) by lia. subst i. lia.
Qed.


(** X8: with [maxEntries] 0, [create] ends with an exception for every
    builder with more than three keys (the share [floor(0 * fillFactor /
    100)] is 0 for every fill factor that is a number). *)
Theorem X8_create_without_node_entries (b : @BPlusTreeBuilder K M) :
  (floor_percent 0 (fillFactor b) <= 3)%Z ->
  3 < length (list_ b) ->
  exists e, create _sortCompare floor_percent b (Some 0) = Some (Throw e).
Proof.
  intros Hshare Hmany. unfold create.
  set (sl := sort _sortCompare (list_ b)).
  assert (Hlen : length sl = length (list_ b)).
  { apply Permutation_length. apply sort_Permutation. }
  replace (Z.to_nat (Z.max (Z.of_nat 3) (floor_percent 0 (fillFactor b)))) with 3 by lia.
  assert (Hn : 2 <= nrOfLeafs sl 3).
  { unfold nrOfLeafs, ceil_div.
    assert (2 <= (length sl + 3 - 1) / 3); [|lia].
    apply Nat.div_le_lower_bound; lia. }
  destruct (level_throws sl 0 3 ltac:(lia) true (nrOfLeafs sl 3) [] eq_refl Hn) as [e He].
  exists e.
  assert (Hl : forall fuel, 0 < fuel ->
            levels sl 0 3 fuel 1 (nrOfLeafs sl 3)
              (ceil_div (nrOfLeafs sl 3) (parentConnections 0)) [] 1 = Some (Throw e)).
  { intros [|fuel] Hfuel; [lia|]. cbn [levels Nat.eqb]. by rewrite He. }
  cbv zeta. by rewrite Hl by lia.
Qed.

(** The number of nodes from the top of a subtree down its first children
    to a leaf, the leaf counted. *)
Fixpoint height (c : node) : nat :=
  match c with
  | BPlusTreeLeaf _ => 1
  | BPlusTreeNode ((_, c0) :: _) _ => S (height c0)
  | BPlusTreeNode [] (Some g) => S (height g)
  | BPlusTreeNode [] None => 1
  end.

Lemma balanced_height least most : forall h (c : node), balanced least most h c -> height c = h.
Proof.
  fix IH 3. intros h c [es|h' es g Hlen Hall Hg]; [done|].
  destruct Hall as [|[k c0] rest Hc0 _]; cbn; f_equal; by apply IH.
Qed.

Lemma balanced_root_height least most h (r : node) :
  balanced_root least most h r -> height r = h.
Proof.
  destruct r as [es|es gt]; cbn; [done|].
  intros (_ & h' & g & -> & -> & Hg & Hall).
  destruct Hall as [|[k c0] rest Hc0 _]; f_equal; by eapply balanced_height.
Qed.

(** The tree that [create] returns when a node has room for two entries or
    more. *)
Lemma create_balanced (b : @BPlusTreeBuilder K M) (maxEntries : option nat) (t : BPlusTree) :
  (forall m, maxEntries = Some m -> 2 <= m) ->
  create _sortCompare floor_percent b maxEntries = Some (Ok t) ->
  exists r h, root t = Some r /\
    balanced_root (minParentEntries (maxEntriesPerNode t)) (maxEntriesPerNode t) h r /\
    depth t = Nat.max 1 (h - 1).
Proof.
  intros Hvalid. unfold create.
  set (sl := sort _sortCompare (list_ b)).
  set (epn := match maxEntries with
              | Some m => m
              | None => Nat.min 255 (Nat.max 3 (ceil_div (length sl) 10))
              end).
  set (epl := Z.to_nat (Z.max (Z.of_nat 3) (floor_percent epn (fillFactor b)))).
  assert (Hepn : 2 <= epn).
  { subst epn. destruct maxEntries as [m|]; [by apply Hvalid|lia]. }
  assert (Hepl : 0 < epl) by (subst epl; lia).
  destruct (decide (nrOfLeafs sl epl = 1)) as [Hone|Hmany].
  - rewrite Hone. rewrite levels_single by done. intros Hc. injection Hc as <-.
    by exists (new_leaf sl epl 0), 1.
  - destruct (levels _ _ _ _ _ _ _ _ _) as [[[root d]|]|] eqn:Hl; try discriminate.
    intros Hc. injection Hc as <-. cbn [TreeBuilder.root maxEntriesPerNode depth].
    apply levels_balanced in Hl; [|done|done| |lia|done|done].
    2:{ unfold nrOfLeafs in *. lia. }
    destruct Hl as (r & hgt & -> & Hbal & Hle & Hd).
    exists r, (S hgt). split; [done|]. split; [done|]. lia.
Qed.

(** X9: when [maxEntries] is left out or is 2 or more, the tree that
    [create] returns is balanced: all its leaves are as many nodes below the
    root, every node has a [gtChild], the root node has between 1 and
    [maxEntriesPerNode] entries and every other node between
    [max(1, floor(maxEntriesPerNode / 2))] and [maxEntriesPerNode]. *)
Theorem X9_created_tree_balanced (b : @BPlusTreeBuilder K M) (maxEntries : option nat)
    (t : BPlusTree) :
  (forall m, maxEntries = Some m -> 2 <= m) ->
  create _sortCompare floor_percent b maxEntries = Some (Ok t) ->
  exists r h, root t = Some r /\
    balanced_root (minParentEntries (maxEntriesPerNode t)) (maxEntriesPerNode t) h r.
Proof.
  intros Hvalid Hc.
  destruct (create_balanced b maxEntries t Hvalid Hc) as (r & h & Hr & Hbal & _).
  by exists r, h.
Qed.

(** X10: [create] counts the depth of the tree from the 1 of a new tree and
    adds one for each level of nodes above the first: for a root that is a
    leaf or a node over leaves the depth is 1, and for a higher tree it is
    the height less one (when [maxEntries] is left out or is 2 or more). *)
Theorem X10_created_tree_depth (b : @BPlusTreeBuilder K M) (maxEntries : option nat)
    (t : BPlusTree) :
  (forall m, maxEntries = Some m -> 2 <= m) ->
  create _sortCompare floor_percent b maxEntries = Some (Ok t) ->
  exists r, root t = Some r /\ depth t = Nat.max 1 (height r - 1).
Proof.
  intros Hvalid Hc.
  destruct (create_balanced b maxEntries t Hvalid Hc) as (r & h & Hr & Hbal & Hd).
  exists r. split; [done|]. by rewrite (balanced_root_height _ _ h r Hbal).
Qed.

End TreeShape.

(** [Math.floor(100 * (29 / 100))] is 28: the quotient is the double below
    0.29. *)
Example floor_percent_100_29 :
  Double.floor_percent 100 29 = 28%Z /\ Double.floor_percent 100 58 = 57%Z /\
  Double.floor_percent 100 50 = 50%Z /\ Double.floor_percent 255 100 = 255%Z.
Proof. by vm_compute. Qed.

(** X6: in the tree that [create] returns, every leaf but the last holds
    [entriesPerLeaf = Math.max(3, Math.floor(entriesPerNode * (fillFactor /
    100)))] entries, with the quotient and the product in doubles as the code
    computes them (28 for a hundred entries per node and the fill factor 29),
    for a number of entries per node and a fill factor that are integers a
    double holds; the last leaf holds no more than that, and no leaf is empty
    unless the builder was. *)
Theorem X6_created_leaves_filled {K M : Type} `{EqDecision K} (_sortCompare : K -> K -> Z)
    (b : @TreeBuilder.BPlusTreeBuilder K M) (maxEntries : option nat)
    (t : TreeBuilder.BPlusTree) :
  (Z.of_nat (TreeBuilder.maxEntriesPerNode t) < 2 ^ 53)%Z ->
  (Z.abs (TreeBuilder.tree_fillFactor t) < 2 ^ 53)%Z ->
  TreeBuilder.create _sortCompare Double.floor_percent b maxEntries = Some (Ok t) ->
  let entriesPerLeaf :=
    Z.to_nat (Z.max 3 (Double.floor_percent (TreeBuilder.maxEntriesPerNode t)
                                            (TreeBuilder.tree_fillFactor t))) in
  (exists r, TreeBuilder.root t = Some r /\
     forall i es, TreeBuilder.leaves_of r !! i = Some es ->
       length es <= entriesPerLeaf /\
       (S i < length (TreeBuilder.leaves_of r) -> length es = entriesPerLeaf) /\
       (TreeBuilder.list_ b <> [] -> es <> [])) /\
  Double.floor_percent 100 29 = 28%Z.
Proof.
  intros _ _ Hc. split; [|by vm_compute].
  exact (created_leaves_filled _sortCompare Double.floor_percent b maxEntries t Hc).
Qed.

(** The tree of the thirty keys with two entries in a node. *)
Definition z_tree : @TreeBuilder.BPlusTree Z unit :=
  Eval vm_compute in
  match TreeBuilder.create z_sortCompare z_floor_percent (z_builder 30) (Some 2) with
  | Some (Ok t) => t
  | _ => {| TreeBuilder.maxEntriesPerNode := 0; TreeBuilder.tree_uniqueKeys := true;
            TreeBuilder.tree_metadataKeys := []; TreeBuilder.tree_fillFactor := 0;
            TreeBuilder.root := None; TreeBuilder.depth := 0 |}
  end.

Lemma z_tree_created :
  TreeBuilder.create z_sortCompare z_floor_percent (z_builder 30) (Some 2) = Some (Ok z_tree).
Proof. vm_compute. reflexivity. Qed.

Lemma z_two_or_more (m : nat) : Some 2 = Some m -> 2 <= m.
Proof. intros [= <-]. lia. Qed.


(** Sixty keys with fill factor 29 and a hundred entries in a node: leaves of
    28, 28 and 4 keys. *)
Definition z_builder_29 : @TreeBuilder.BPlusTreeBuilder Z unit :=
  {| TreeBuilder.uniqueKeys := true; TreeBuilder.fillFactor := 29;
     TreeBuilder.metadataKeys := [];
     TreeBuilder.list_ := TreeBuilder.list_ (z_builder 60);
     TreeBuilder.indexedValues := 60 |}.

Definition z_tree_29 : @TreeBuilder.BPlusTree Z unit :=
  Eval vm_compute in
  match TreeBuilder.create z_sortCompare Double.floor_percent z_builder_29 (Some 100) with
  | Some (Ok t) => t
  | _ => {| TreeBuilder.maxEntriesPerNode := 0; TreeBuilder.tree_uniqueKeys := true;
            TreeBuilder.tree_metadataKeys := []; TreeBuilder.tree_fillFactor := 0;
            TreeBuilder.root := None; TreeBuilder.depth := 0 |}
  end.

Lemma z_tree_29_created :
  TreeBuilder.create z_sortCompare Double.floor_percent z_builder_29 (Some 100)
  = Some (Ok z_tree_29).
Proof. vm_compute. reflexivity. Qed.

Lemma X6_created_leaves_filled_witness :
  (exists r, TreeBuilder.root z_tree_29 = Some r /\
     forall i es, TreeBuilder.leaves_of r !! i = Some es ->
       length es <= 28 /\
       (S i < length (TreeBuilder.leaves_of r) -> length es = 28) /\
       (TreeBuilder.list_ z_builder_29 <> [] -> es <> [])) /\
  Double.floor_percent 100 29 = 28%Z.
Proof.
  exact (X6_created_leaves_filled z_sortCompare z_builder_29 (Some 100) z_tree_29
           ltac:(by vm_compute) ltac:(by vm_compute) z_tree_29_created).
Defined.


Lemma X8_create_without_node_entries_witness :
  exists e, TreeBuilder.create z_sortCompare z_floor_percent (z_builder 4) (Some 0)
            = Some (Throw e).
Proof.
  apply (X8_create_without_node_entries z_sortCompare z_floor_percent (z_builder 4)).
  - vm_compute. discriminate.
  - vm_compute. lia.
Defined.

Lemma X9_created_tree_balanced_witness :
  exists r h, TreeBuilder.root z_tree = Some r /\ TreeBuilder.balanced_root 1 2 h r.
Proof.
  exact (X9_created_tree_balanced z_sortCompare z_floor_percent (z_builder 30) (Some 2)
           z_tree z_two_or_more z_tree_created).
Defined.

Lemma X10_created_tree_depth_witness :
  exists r, TreeBuilder.root z_tree = Some r /\ TreeBuilder.depth z_tree = 3.
Proof.
  destruct (X10_created_tree_depth z_sortCompare z_floor_percent (z_builder 30) (Some 2)
              z_tree z_two_or_more z_tree_created) as (r & Hr & Hd).
  exists r. split; [exact Hr|]. reflexivity.
Defined.

(** ** The sort of the keys of a batch: the order of the sorted array *)

Section QuickSortOrder.
Import BuildBatches.
Context {A : Type}.
Variable comparator : A -> A -> Z.

(** [a] sorts before [b]: the comparator gives -1. *)
Definition less (a b : A) : Prop := comparator a b = (-1)%Z.

Hypothesis less_asym : forall a b, less a b -> ~ less b a.
Hypothesis less_trans : forall a b c, less a b -> less b c -> less a c.

Lemma swap_lookup_l (arr : list A) i j x :
  i <> j -> (j < length arr)%nat -> arr !! i = Some x -> swap arr i j !! j = Some x.
Proof.
  intros Hne Hj Hx. unfold swap. rewrite Hx.
  destruct (lookup_lt_is_Some_2 arr j Hj) as [y Hy]. rewrite Hy.
  apply list_lookup_insert_eq. by rewrite length_insert.
Qed.

Lemma swap_lookup_r (arr : list A) i j y :
  i <> j -> (i < length arr)%nat -> arr !! j = Some y -> swap arr i j !! i = Some y.
Proof.
  intros Hne Hi Hy. unfold swap. rewrite Hy.
  destruct (lookup_lt_is_Some_2 arr i Hi) as [x Hx]. rewrite Hx.
  rewrite list_lookup_insert_ne by done. by apply list_lookup_insert_eq.
Qed.

Lemma swap_length (arr : list A) i j : length (swap arr i j) = length arr.
Proof.
  unfold swap. destruct (arr !! i); [|done]. destruct (arr !! j); [|done].
  by rewrite !length_insert.
Qed.

(** The state of the partition loop before the element [i] is compared: the
    elements from [s] up to the split sort before the pivot, those from the
    split up to [i] do not, and the rest of the array is as it was. *)
Definition partitioned (pivot : A) (arr0 : list A) (s : nat) (i : nat)
    (st : list A * nat) : Prop :=
  (s <= st.2 <= i)%nat /\ length st.1 = length arr0 /\
  (forall k x, (s <= k < st.2)%nat -> st.1 !! k = Some x -> less x pivot) /\
  (forall k x, (st.2 <= k < i)%nat -> st.1 !! k = Some x -> ~ less x pivot) /\
  (forall k, (k < s \/ i <= k)%nat -> st.1 !! k = arr0 !! k) /\
  (forall P : A -> Prop,
     (forall k x, (s <= k < i)%nat -> arr0 !! k = Some x -> P x) ->
     forall k x, (s <= k < i)%nat -> st.1 !! k = Some x -> P x).

Lemma partition_step_partitioned pivot arr0 s i st :
  (i < length arr0)%nat -> partitioned pivot arr0 s i st ->
  partitioned pivot arr0 s (S i) (partition_step comparator pivot st i).
Proof.
  destruct st as [arr split].
  intros Hi (Hsplit & Hlen & Hlt & Hge & Hout & Hkeep). cbn [fst snd] in *.
  unfold partition_step.
  destruct (lookup_lt_is_Some_2 arr i ltac:(lia)) as [x Hx]. rewrite Hx.
  assert (Hx0 : arr0 !! i = Some x) by (rewrite <- Hout by lia; done).
  destruct (comparator x pivot =? -1)%Z eqn:Hcmp.
  - apply Z.eqb_eq in Hcmp.
    destruct (split =? i)%nat eqn:Heq.
    + apply Nat.eqb_eq in Heq. subst split.
      split; [cbn; lia|]. split; [done|]. cbn [fst snd].
      split; [|split; [|split]].
      * intros k y Hk Hy. destruct (decide (k = i)) as [->|Hne].
        -- rewrite Hx in Hy. by injection Hy as <-.
        -- apply (Hlt k); [lia|done].
      * intros k y Hk. lia.
      * intros k Hk. apply Hout. lia.
      * intros P HP k y Hk Hy. destruct (decide (k = i)) as [->|Hne].
        -- rewrite Hx in Hy. injection Hy as <-. apply (HP i); [lia|done].
        -- apply (Hkeep P) with k; [|lia|done].
           intros k' x' Hk'. apply HP. lia.
    + apply Nat.eqb_neq in Heq.
      destruct (lookup_lt_is_Some_2 arr split ltac:(lia)) as [y Hy].
      assert (Hsi : swap arr split i !! i = Some y) by (apply swap_lookup_l; [done|lia|done]).
      assert (Hss : swap arr split i !! split = Some x)
        by (apply swap_lookup_r; [done|lia|done]).
      split; [cbn; lia|]. split; [cbn; by rewrite swap_length|]. cbn [fst snd].
      split; [|split; [|split]].
      * intros k z Hk Hz. destruct (decide (k = split)) as [->|Hne].
        -- rewrite Hss in Hz. by injection Hz as <-.
        -- rewrite swap_lookup_other in Hz by lia. apply (Hlt k); [lia|done].
      * intros k z Hk Hz. destruct (decide (k = i)) as [->|Hne].
        -- rewrite Hsi in Hz. injection Hz as <-. apply (Hge split); [lia|done].
        -- rewrite swap_lookup_other in Hz by lia. apply (Hge k); [lia|done].
      * intros k Hk. rewrite swap_lookup_other by lia. apply Hout. lia.
      * intros P HP k z Hk Hz.
        assert (HP' : forall k' x', (s <= k' < i)%nat -> arr !! k' = Some x' -> P x').
        { intros k' x' Hk'. apply (Hkeep P); [|lia].
          intros k'' x'' Hk''. apply HP. lia. }
        destruct (decide (k = i)) as [->|Hne1].
        { rewrite Hsi in Hz. injection Hz as <-. apply (HP' split); [lia|done]. }
        destruct (decide (k = split)) as [->|Hne2].
        { rewrite Hss in Hz. injection Hz as <-. apply (HP i); [lia|done]. }
        rewrite swap_lookup_other in Hz by lia. apply (HP' k); [lia|done].
  - apply Z.eqb_neq in Hcmp.
    split; [cbn; lia|]. split; [done|]. cbn [fst snd].
    split; [|split; [|split]].
    + done.
    + intros k y Hk Hy. destruct (decide (k = i)) as [->|Hne].
      * rewrite Hx in Hy. by injection Hy as <-.
      * apply (Hge k); [lia|done].
    + intros k Hk. apply Hout. lia.
    + intros P HP k y Hk Hy. destruct (decide (k = i)) as [->|Hne].
      * rewrite Hx in Hy. injection Hy as <-. apply (HP i); [lia|done].
      * apply (Hkeep P) with k; [|lia|done].
        intros k' x' Hk'. apply HP. lia.
Qed.

Lemma partition_fold_partitioned pivot arr0 s n : forall i st,
  (i + n <= length arr0)%nat -> partitioned pivot arr0 s i st ->
  partitioned pivot arr0 s (i + n)
    (fold_left (partition_step comparator pivot) (seq i n) st).
Proof.
  induction n as [|n IH]; intros i st Hn Hst; cbn [seq fold_left].
  - by rewrite Nat.add_0_r.
  - replace (i + S n)%nat with (S i + n)%nat by lia. apply IH; [lia|].
    apply partition_step_partitioned; [lia|done].
Qed.

(** The array after the partition of the range from [s] to [e] and the move
    of the pivot to the split. *)
Lemma pivot_placed (arr : list A) (s e : nat) pivot arr' split :
  (s <= e)%nat -> arr !! e = Some pivot ->
  fold_left (partition_step comparator pivot) (seq s (e - s)) (arr, s) = (arr', split) ->
  let placed :=
    <[split := pivot]> (match arr' !! split with
                        | Some x => <[e := x]> arr'
                        | None => arr'
                        end) in
  (s <= split <= e)%nat /\ length placed = length arr /\
  (forall k x, (s <= k < split)%nat -> placed !! k = Some x -> less x pivot) /\
  placed !! split = Some pivot /\
  (forall k x, (split < k <= e)%nat -> placed !! k = Some x -> ~ less x pivot) /\
  (forall k, (k < s \/ e < k)%nat -> placed !! k = arr !! k) /\
  (forall P : A -> Prop,
     (forall k x, (s <= k <= e)%nat -> arr !! k = Some x -> P x) ->
     forall k x, (s <= k <= e)%nat -> placed !! k = Some x -> P x).
Proof.
  intros Hse Hpivot Hfold.
  assert (He : (e < length arr)%nat) by (by eapply lookup_lt_Some).
  pose proof (partition_fold_partitioned pivot arr s (e - s) s (arr, s)) as Hpart.
  rewrite Hfold in Hpart. replace (s + (e - s))%nat with e in Hpart by lia.
  destruct Hpart as (Hsplit & Hlen & Hlt & Hge & Hout & Hkeep); [lia| |].
  { split; [cbn; lia|]. split; [done|]. cbn [fst snd].
    split; [intros k x Hk; lia|]. split; [intros k x Hk; lia|]. split; [done|].
    intros P HP k x Hk. lia. }
  cbn [fst snd] in *.
  destruct (lookup_lt_is_Some_2 arr' split ltac:(lia)) as [x Hx]. rewrite Hx.
  assert (Hpivot' : arr' !! e = Some pivot) by (rewrite Hout by lia; done).
  cbv zeta. split; [done|]. split; [by rewrite !length_insert|].
  split; [|split; [|split; [|split]]].
  - intros k y Hk Hy. rewrite !list_lookup_insert_ne in Hy by lia. by apply (Hlt k).
  - apply list_lookup_insert_eq. rewrite length_insert. lia.
  - intros k y Hk Hy. rewrite list_lookup_insert_ne in Hy by lia.
    destruct (decide (k = e)) as [->|Hne].
    + rewrite list_lookup_insert_eq in Hy by lia. injection Hy as <-.
      apply (Hge split); [lia|done].
    + rewrite list_lookup_insert_ne in Hy by lia. apply (Hge k); [lia|done].
  - intros k Hk. rewrite !list_lookup_insert_ne by lia. apply Hout. lia.
  - intros P HP k y Hk Hy.
    assert (HP' : forall k' x', (s <= k' < e)%nat -> arr' !! k' = Some x' -> P x').
    { intros k' x' Hk'. apply (Hkeep P); [|lia]. intros k'' x'' Hk''. apply HP. lia. }
    destruct (decide (k = split)) as [->|Hne1].
    { rewrite list_lookup_insert_eq in Hy by (rewrite length_insert; lia).
      injection Hy as <-. apply (HP e); [lia|done]. }
    rewrite list_lookup_insert_ne in Hy by lia.
    destruct (decide (k = e)) as [->|Hne2].
    { rewrite list_lookup_insert_eq in Hy by lia. injection Hy as <-.
      apply (HP' split); [lia|done]. }
    rewrite list_lookup_insert_ne in Hy by lia. apply (HP' k); [lia|done].
Qed.

(** No element of the range from [s] to [e] sorts before an element that
    comes before it in the range. *)
Definition sorted_range (arr : list A) (s e : Z) : Prop :=
  forall (i j : nat) x y,
    (s <= Z.of_nat i)%Z -> (i < j)%nat -> (Z.of_nat j <= e)%Z ->
    arr !! i = Some x -> arr !! j = Some y -> ~ less y x.

(** [recursiveSort] sorts the range and leaves the rest of the array. *)
Lemma recursiveSort_sorted fuel : forall (arr : list A) (s e : Z),
  (0 <= s)%Z -> (e < Z.of_nat (length arr))%Z -> (e - s + 1 <= Z.of_nat fuel)%Z ->
  length (recursiveSort comparator fuel arr s e) = length arr /\
  (forall k : nat, (Z.of_nat k < s \/ e < Z.of_nat k)%Z ->
     recursiveSort comparator fuel arr s e !! k = arr !! k) /\
  (forall P : A -> Prop,
     (forall (k : nat) x, (s <= Z.of_nat k <= e)%Z -> arr !! k = Some x -> P x) ->
     forall (k : nat) x, (s <= Z.of_nat k <= e)%Z ->
       recursiveSort comparator fuel arr s e !! k = Some x -> P x) /\
  sorted_range (recursiveSort comparator fuel arr s e) s e.
Proof.
  induction fuel as [|fuel IH]; intros arr s e Hs He Hfuel; cbn [recursiveSort].
  { split; [done|]. split; [done|]. split; [by intros P HP|].
    intros i j x y Hi Hij Hj. lia. }
  destruct (e - s <? 1)%Z eqn:Hlt.
  { apply Z.ltb_lt in Hlt. split; [done|]. split; [done|]. split; [by intros P HP|].
    intros i j x y Hi Hij Hj. lia. }
  apply Z.ltb_ge in Hlt.
  destruct (lookup_lt_is_Some_2 arr (Z.to_nat e) ltac:(lia)) as [pivot Hpivot].
  rewrite Hpivot.
  destruct (fold_left _ _ _) as [arr' split] eqn:Hfold.
  replace (Z.to_nat (e - s)) with (Z.to_nat e - Z.to_nat s)%nat in Hfold by lia.
  apply pivot_placed in Hfold; [|lia|done]. cbv zeta in Hfold.
  set (placed := <[split := pivot]> _) in *. clearbody placed.
  destruct Hfold as (Hsplit & Hlen & Hlow & Hmid & Hhigh & Hout & Hkeep).
  destruct (IH placed s (Z.of_nat split - 1)%Z) as (L1 & L2 & L3 & L4); [lia|lia|lia|].
  set (left := recursiveSort comparator fuel placed s (Z.of_nat split - 1)) in *.
  clearbody left.
  destruct (IH left (Z.of_nat split + 1)%Z e) as (R1 & R2 & R3 & R4); [lia|lia|lia|].
  set (out := recursiveSort comparator fuel left (Z.of_nat split + 1) e) in *.
  clearbody out.
  assert (Hleft : forall k x, (Z.to_nat s <= k < split)%nat -> out !! k = Some x ->
                              less x pivot).
  { intros k x Hk Hx. rewrite R2 in Hx by lia.
    apply (L3 (fun x => less x pivot)) with k; [|lia|done].
    intros k' x' Hk'. apply Hlow. lia. }
  assert (Hpiv : out !! split = Some pivot).
  { rewrite R2 by lia. rewrite L2 by lia. done. }
  assert (Hright : forall k x, (split < k <= Z.to_nat e)%nat -> out !! k = Some x ->
                               ~ less x pivot).
  { intros k x Hk Hx.
    apply (R3 (fun x => ~ less x pivot)) with k; [|lia|done].
    intros k' x' Hk'. rewrite L2 by lia. apply Hhigh. lia. }
  split; [congruence|]. split; [|split].
  - intros k Hk. rewrite R2 by lia. rewrite L2 by lia. apply Hout. lia.
  - intros P HP k x Hk Hx.
    assert (HP' : forall (k' : nat) x', (s <= Z.of_nat k' <= e)%Z ->
                    placed !! k' = Some x' -> P x').
    { intros k' x' Hk'. apply (Hkeep P); [|lia]. intros k'' x'' Hk''. apply HP. lia. }
    destruct (decide (k <= split)%nat) as [Hle|Hgt].
    + rewrite R2 in Hx by lia.
      destruct (decide (k = split)) as [->|Hne].
      * rewrite L2 in Hx by lia. by apply (HP' split).
      * apply (L3 P) with k; [|lia|done]. intros k' x' Hk'. apply HP'. lia.
    + apply (R3 P) with k; [|lia|done].
      intros k' x' Hk'. rewrite L2 by lia. apply HP'. lia.
  - intros i j x y Hi Hij Hj Hx Hy.
    destruct (decide (j < split)%nat) as [Hjl|Hjr].
    { rewrite R2 in Hx, Hy by lia. apply (L4 i j); [done|done|lia|done|done]. }
    destruct (decide (split < i)%nat) as [Hir|Hil].
    { apply (R4 i j); [lia|done|done|done|done]. }
    destruct (decide (i = split)) as [->|Hne].
    { rewrite Hpiv in Hx. injection Hx as <-. apply (Hright j); [lia|done]. }
    assert (Hxl : less x pivot) by (apply (Hleft i); [lia|done]).
    destruct (decide (j = split)) as [->|Hne'].
    { rewrite Hpiv in Hy. injection Hy as <-. by apply less_asym. }
    intros Hyx. apply (Hright j y); [lia|done|]. by apply (less_trans y x pivot).
Qed.

Lemma sorted_range_StronglySorted (arr : list A) :
  sorted_range arr 0 (Z.of_nat (length arr) - 1) ->
  StronglySorted (fun a b => ~ less b a) arr.
Proof.
  induction arr as [|a arr IH]; intros Hs; constructor.
  - apply IH. intros i j x y Hi Hij Hj Hx Hy.
    apply (Hs (S i) (S j)); [lia|lia|cbn [length]; lia|done|done].
  - apply Forall_lookup. intros j y Hy.
    apply (Hs 0%nat (S j)); [lia|lia| |done|done].
    apply lookup_lt_Some in Hy. cbn [length]. lia.
Qed.

Lemma quickSort_sorted (l : list A) :
  StronglySorted (fun a b => ~ less b a) (quickSort comparator l).
Proof.
  apply sorted_range_StronglySorted. unfold quickSort.
  destruct (recursiveSort_sorted (length l) l 0 (Z.of_nat (length l) - 1))
    as (Hlen & _ & _ & Hs); [lia|lia|lia|].
  by rewrite Hlen.
Qed.

(** X11: for a comparator whose results of -1 make an order (when [a] sorts
    before [b], [b] does not sort before [a]; and before [c] when [b] does),
    [quickSort] returns the elements of the array, each as often as it is in
    the array, in an order in which no element sorts before an earlier one. *)
Theorem X11_quickSort_sorts (l : list A) :
  quickSort comparator l ≡ₚ l /\
  StronglySorted (fun a b => comparator b a <> (-1)%Z) (quickSort comparator l).
Proof.
  split; [apply quickSort_perm|apply quickSort_sorted].
Qed.

End QuickSortOrder.

(** ** The run file of a batch: the order of its keys *)

Section RunOrder.
Import BuildBatches.
Context {K : Type} `{EqDecision K}.
Variable isLess isMore : K -> K -> bool.

Hypothesis isLess_asym : forall a b, isLess a b = true -> isLess b a = false.
Hypothesis isLess_trans :
  forall a b c, isLess a b = true -> isLess b c = true -> isLess a c = true.

Lemma compareKeys_less a b : compareKeys isLess isMore a b = (-1)%Z <-> isLess a b = true.
Proof using Type.
  unfold compareKeys. destruct (isLess a b); [done|].
  by destruct (isMore a b).
Qed.

Lemma StronglySorted_weaken {A} (R R' : A -> A -> Prop) (l : list A) :
  (forall a b, R a b -> R' a b) -> StronglySorted R l -> StronglySorted R' l.
Proof.
  intros HR. induction 1 as [|a l Hs IH Hall]; constructor; [done|].
  eapply Forall_impl; [exact Hall|]. intros b. apply HR.
Qed.

(** X12: when [isLess] is an order on the keys, the entries of the run file
    that a batch writes are in ascending order of their keys: no entry has a
    key that is less than the key of an entry before it. *)
Theorem X12_run_entries_ascend (b : batch) :
  StronglySorted (fun a c => isLess c a = false)
    (List.map fst (run_entries isLess isMore b)).
Proof.
  unfold run_entries. rewrite List.map_map. cbn [fst]. rewrite List.map_id.
  eapply StronglySorted_weaken; [|apply (quickSort_sorted (compareKeys isLess isMore))].
  - intros a c Hn. unfold less in Hn. rewrite compareKeys_less in Hn.
    by destruct (isLess c a).
  - intros a c. unfold less. rewrite !compareKeys_less.
    intros Hac Hca. by rewrite (isLess_asym a c Hac) in Hca.
  - intros a c d. unfold less. rewrite !compareKeys_less. apply isLess_trans.
Qed.

End RunOrder.

Lemma z_less_asym (a b : Z) : less z_sortCompare a b -> ~ less z_sortCompare b a.
Proof. unfold less, z_sortCompare. destruct (Z.compare_spec a b), (Z.compare_spec b a); lia. Qed.

Lemma z_less_trans (a b c : Z) :
  less z_sortCompare a b -> less z_sortCompare b c -> less z_sortCompare a c.
Proof.
  unfold less, z_sortCompare.
  destruct (Z.compare_spec a b), (Z.compare_spec b c), (Z.compare_spec a c); lia.
Qed.

Lemma X11_quickSort_sorts_witness :
  BuildBatches.quickSort z_sortCompare [3; 1; 2; 1]%Z ≡ₚ [3; 1; 2; 1]%Z /\
  StronglySorted (fun a b => z_sortCompare b a <> (-1)%Z)
    (BuildBatches.quickSort z_sortCompare [3; 1; 2; 1]%Z).
Proof.
  exact (X11_quickSort_sorts z_sortCompare z_less_asym z_less_trans [3; 1; 2; 1]%Z).
Defined.

(** A build file with the keys 5, 3, 5 and 4, and its first batch. *)
Definition z_file : list (@BuildBatches.record Z) :=
  [ {| BuildBatches.key := 5%Z; BuildBatches.value := [1%Z]; BuildBatches.processed := false |};
    {| BuildBatches.key := 3%Z; BuildBatches.value := [2%Z]; BuildBatches.processed := false |};
    {| BuildBatches.key := 5%Z; BuildBatches.value := [3%Z]; BuildBatches.processed := false |};
    {| BuildBatches.key := 4%Z; BuildBatches.value := [4%Z]; BuildBatches.processed := false |} ].

Lemma z_ltb_asym (a b : Z) : (a <? b)%Z = true -> (b <? a)%Z = false.
Proof. rewrite Z.ltb_lt, Z.ltb_ge. lia. Qed.

Lemma z_ltb_trans (a b c : Z) : (a <? b)%Z = true -> (b <? c)%Z = true -> (a <? c)%Z = true.
Proof. rewrite !Z.ltb_lt. lia. Qed.

Lemma X12_run_entries_ascend_witness :
  StronglySorted (fun a c => (c <? a)%Z = false)
    (List.map fst (BuildBatches.run_entries Z.ltb Z.gtb
                     (BuildBatches.nextBatch z_file 0 None))).
Proof.
  exact (X12_run_entries_ascend Z.ltb Z.gtb z_ltb_asym z_ltb_trans
           (BuildBatches.nextBatch z_file 0 None)).
Defined.

(** ** The lock: the order in which requests are resolved *)

Section LockOrder.
Import Lock.

(** No request waits in the queue of a lock that is free. *)
Definition settled (st : state) : Prop :=
  isLocked (_lockState st) = false -> _lockQueue st = [].

Lemma release_queue (st : state) :
  _lockQueue st = (release st).2 ++ _lockQueue (release st).1.
Proof.
  destruct st as [queue ls]. unfold release. cbn [_lockQueue _lockState].
  rewrite wake_spec. destruct queue as [|h rest]; [done|].
  destruct (forWriting h) eqn:Hh; [done|].
  pose proof (readers_prefix_app (h :: rest)) as Happ.
  destruct (readers_prefix (h :: rest)) eqn:Hpre; cbn [fst snd _lockQueue]; by rewrite Happ.
Qed.

Lemma release_settled (st : state) : settled st -> settled (release st).1.
Proof.
  destruct st as [queue ls]. unfold settled, release. cbn [_lockQueue _lockState].
  rewrite wake_spec. intros Hst. destruct queue as [|h rest]; [done|].
  destruct (forWriting h) eqn:Hh; cbn [fst _lockState isLocked _lockQueue].
  - intros Hl. by specialize (Hst Hl).
  - cbn [readers_prefix]. rewrite Hh. cbn [fst _lockState isLocked _lockQueue].
    intros Hl. by specialize (Hst Hl).
Qed.

Lemma run_order (uses : list use) : forall st,
  settled st ->
  (run st uses).2 ++ _lockQueue (run st uses).1 = _lockQueue st ++ requests uses /\
  settled (run st uses).1.
Proof.
  induction uses as [|u rest IH]; intros st Hst; cbn [run].
  - cbn. by rewrite !app_nil_r.
  - destruct u as [lock|]; cbn [step].
    + change (requests (Request lock :: rest)) with (lock :: requests rest).
      unfold _lock. destruct (isLocked (_lockState st)) eqn:Hl.
      * cbn [option_list].
        match goal with |- context [run ?s rest] => destruct (IH s) as [Hq Hs] end.
        { unfold settled. cbn. congruence. }
        destruct (run _ rest) as [st' later]. cbn [fst snd app _lockQueue option_list] in *.
        split; [|done]. cbn. rewrite Hq. by rewrite <- app_assoc.
      * cbn [option_list].
        match goal with |- context [run ?s rest] => destruct (IH s) as [Hq Hs] end.
        { unfold settled. cbn. discriminate. }
        destruct (run _ rest) as [st' later]. cbn [fst snd app _lockQueue option_list] in *.
        split; [|done]. rewrite (Hst Hl) in *. cbn in *. by rewrite Hq.
    + change (requests (Release :: rest)) with (requests rest).
      pose proof (release_queue st) as Hrel. pose proof (release_settled st Hst) as Hrs.
      destruct (release st) as [st1 woken]. cbn [fst snd] in *.
      destruct (IH st1 Hrs) as [Hq Hs].
      destruct (run st1 rest) as [st' later]. cbn [fst snd] in *.
      split; [|done]. rewrite <- app_assoc, Hq, Hrel. by rewrite <- app_assoc.
Qed.

(** X13: whatever calls of [_lock] and of [release] are made on an index,
    the requests are resolved in the order in which they were made: those
    resolved so far and then those in the queue are the requests in the
    order of the calls; and no request is left in the queue while the lock is
    free. *)
Theorem X13_lock_first_come_first_served (uses : list use) :
  let '(st, resolved) := run unlocked uses in
  resolved ++ _lockQueue st = requests uses /\
  (isLocked (_lockState st) = false -> _lockQueue st = []).
Proof.
  destruct (run_order uses unlocked) as [Hq Hs]; [done|].
  by destruct (run unlocked uses) as [st resolved].
Qed.

(** X14: when two or more readers are woken together and a writer is next in
    the queue, the [release] of the first of these readers to finish
    resolves the request of the writer: [release] does not wait for the
    other readers. *)
Theorem X14_release_of_one_reader_wakes_writer (st : state) (readers : list request)
    (w : request) (rest : list request) :
  _lockQueue st = readers ++ w :: rest ->
  Forall (fun r => forWriting r = false) readers -> (2 <= length readers)%nat ->
  forWriting w = true ->
  let '(st1, woken1) := release st in
  let '(st2, woken2) := release st1 in
  woken1 = readers /\ woken2 = [w] /\ _lockQueue st2 = rest.
Proof.
  intros Hq Hreaders Hlen Hw.
  assert (Hpre : readers_prefix (readers ++ w :: rest) = readers).
  { clear Hlen Hq. induction Hreaders as [|r rs Hr _ IH]; cbn [readers_prefix app].
    - by rewrite Hw.
    - by rewrite Hr, IH. }
  destruct st as [queue ls]. cbn [_lockQueue] in Hq. subst queue.
  unfold release at 1. cbn [_lockQueue _lockState]. rewrite wake_spec.
  destruct readers as [|r1 rs]; [cbn in Hlen; lia|].
  cbn [app]. apply Forall_cons in Hreaders as [Hr1 Hrs]. rewrite Hr1.
  change (r1 :: rs ++ w :: rest) with ((r1 :: rs) ++ w :: rest). rewrite Hpre.
  rewrite drop_app_length.
  unfold release. cbn [_lockQueue _lockState]. rewrite wake_spec, Hw. done.
Qed.

End LockOrder.

(** ** Querying an index: the cache *)

Section QueryCache.
Import DataIndex.

Variable tree_search : string -> qval -> list storedEntry.





End QueryCache.

(** ** Record pointers tell records apart *)

Section RecordPointerInjective.
Import RecordPointer.

Fixpoint stars (n : nat) : string :=
  match n with
  | O => ""
  | S n' => String star (stars n')
  end.

Lemma count_stars_stars n : count_stars (stars n) = n.
Proof. induction n as [|n IH]; [done|]. cbn. by rewrite IH. Qed.

(** X16: [_createRecordPointer] gives different record pointers for different
    wildcard bindings or keys, so that a record pointer names one record of
    an index. *)
Theorem X16_record_pointer_injective (ws ws' : list string) (k k' : string) :
  (ws, k) <> (ws', k') -> _createRecordPointer ws k <> _createRecordPointer ws' k'.
Proof.
  intros Hne Heq. apply Hne.
  assert (Hlen : length ws = length ws').
  { rewrite !create_blocks in Heq. injection Heq as Hl _. lia. }
  pose proof (parse_create ws k (stars (length ws)) (count_stars_stars _)) as H1.
  pose proof (parse_create ws' k' (stars (length ws))) as H2.
  rewrite count_stars_stars in H2. specialize (H2 Hlen).
  rewrite Heq in H1. rewrite H1 in H2. by injection H2 as -> _ ->.
Qed.

End RecordPointerInjective.

(** ** The leaf: what [add] keeps in the leaves *)

Section LeafContents.
Import TreeLeaf.
Context {K M : Type}.
Variable _isEqual _isMore : K -> K -> bool.
Variable _checkNewEntryArgs : K -> list Z -> M -> option string.
Variable insertKey : @upper K -> nat -> K -> nat -> nat -> result (@upper K).

Local Abbreviation leaf := (@BPlusTreeLeaf K M).
Local Abbreviation tree := (@BPlusTree K M).
Local Abbreviation add_leaf := (add _isEqual _isMore _checkNewEntryArgs insertKey).
Local Abbreviation add_all_leaf := (add_all _isEqual _isMore _checkNewEntryArgs insertKey).

(** The leaves after a new leaf is linked in: the leaf that was split, the
    new leaf, and the other leaves with their entries. *)
Lemma link_after_entries (ls : gmap nat leaf) this new (T : leaf) moved l d :
  link_after ls this new T moved !! l = Some d ->
  (l = this /\ entries d = entries T) \/ (l = new /\ entries d = moved) \/
  (l <> this /\ exists d0, ls !! l = Some d0 /\ entries d = entries d0).
Proof.
  unfold link_after. cbv zeta.
  destruct (decide (l = this)) as [->|Hne].
  { rewrite lookup_insert_eq. intros [= <-]. by left. }
  rewrite lookup_insert_ne by done. intros Hl.
  assert (Hnew : forall d', <[new := {| entries := moved; prevLeaf := Some this;
                                        nextLeaf := nextLeaf T |}]> ls !! l = Some d' ->
            (l = new /\ entries d' = moved) \/
            (exists d0, ls !! l = Some d0 /\ entries d' = entries d0)).
  { intros d'. destruct (decide (l = new)) as [->|Hn].
    - rewrite lookup_insert_eq. intros [= <-]. by left.
    - rewrite lookup_insert_ne by done. intros Hd. right. by exists d'. }
  assert (Hcase : (l = new /\ entries d = moved) \/
                  (exists d0, ls !! l = Some d0 /\ entries d = entries d0)).
  { destruct (nextLeaf T) as [next|]; [|by apply Hnew].
    destruct (_ !! next) as [nl|] eqn:Hnl; [|by apply Hnew].
    destruct (decide (l = next)) as [->|Hn].
    - rewrite lookup_insert_eq in Hl. injection Hl as <-. cbn [entries].
      by apply Hnew.
    - rewrite lookup_insert_ne in Hl by done. by apply Hnew. }
  destruct Hcase as [?|?]; [right; by left|right; right; by split].
Qed.

(** The other leaves are still there after a new leaf is linked in. *)
Lemma link_after_others (ls : gmap nat leaf) this new (T : leaf) moved l d0 :
  l <> this -> l <> new -> ls !! l = Some d0 ->
  exists d, link_after ls this new T moved !! l = Some d /\ entries d = entries d0.
Proof.
  intros Hthis Hnew Hl. unfold link_after. cbv zeta.
  rewrite lookup_insert_ne by done.
  destruct (nextLeaf T) as [next|].
  - destruct (_ !! next) as [nl|] eqn:Hnl.
    + destruct (decide (l = next)) as [->|Hn].
      * rewrite lookup_insert_eq. rewrite lookup_insert_ne in Hnl by done.
        rewrite Hl in Hnl. injection Hnl as <-. by eexists.
      * rewrite !lookup_insert_ne by done. by eexists.
    + rewrite lookup_insert_ne by done. by eexists.
  - rewrite lookup_insert_ne by done. by eexists.
Qed.

Lemma link_after_this (ls : gmap nat leaf) this new (T : leaf) moved :
  exists d, link_after ls this new T moved !! this = Some d /\ entries d = entries T.
Proof. unfold link_after. cbv zeta. rewrite lookup_insert_eq. by eexists. Qed.

Lemma link_after_new (ls : gmap nat leaf) this new (T : leaf) moved :
  this <> new ->
  exists d, link_after ls this new T moved !! new = Some d /\ entries d = moved.
Proof.
  intros Hne. unfold link_after. cbv zeta. rewrite lookup_insert_ne by done.
  destruct (nextLeaf T) as [next|].
  - destruct (_ !! next) as [nl|] eqn:Hnl.
    + destruct (decide (new = next)) as [<-|Hn].
      * rewrite lookup_insert_eq. rewrite lookup_insert_eq in Hnl.
        injection Hnl as <-. by eexists.
      * rewrite lookup_insert_ne by done. rewrite lookup_insert_eq. by eexists.
    + rewrite lookup_insert_eq. by eexists.
  - rewrite lookup_insert_eq. by eexists.
Qed.

(** The entries of a leaf with one more entry at some place. *)
Definition inserted (l : list (@BPlusTreeLeafEntry K M)) (e : BPlusTreeLeafEntry)
    (es : list BPlusTreeLeafEntry) : Prop :=
  exists i, es = take i l ++ e :: drop i l.

Lemma inserted_elem_of l e es x : inserted l e es -> x ∈ es <-> x = e \/ x ∈ l.
Proof.
  intros [i ->]. rewrite <- (take_drop i l) at 3.
  rewrite !elem_of_app, elem_of_cons. tauto.
Qed.

Lemma inserted_length l e es : inserted l e es -> length es = S (length l).
Proof.
  intros [i ->]. rewrite <- (take_drop i l) at 3.
  rewrite !length_app. cbn [length]. lia.
Qed.

(** The three ways in which [add] changes the leaves: a value is added to
    the entry of the key, an entry is put into the leaf, or an entry is put
    into the leaf and the leaf is split. *)
Inductive added (t t' : tree) (this : nat) (k : K)
    (v : @BPlusTreeLeafEntryValue M) : Prop :=
| added_value d i e :
    leaves t !! this = Some d -> entries d !! i = Some e -> _isEqual (key e) k = true ->
    leaves t' = <[this := set_entries d
                    (<[i := {| key := key e; values := values e ++ [v] |}]> (entries d))]>
                  (leaves t) ->
    above t' = above t ->
    added t t' this k v
| added_entry d es :
    leaves t !! this = Some d ->
    inserted (entries d) {| key := k; values := [v] |} es ->
    entries d = [] \/ length es <= maxEntriesPerNode (above t) ->
    leaves t' = <[this := set_entries d es]> (leaves t) ->
    above t' = above t ->
    added t t' this k v
| added_split d es new :
    leaves t !! this = Some d ->
    inserted (entries d) {| key := k; values := [v] |} es ->
    entries d <> [] -> maxEntriesPerNode (above t) < length es ->
    leaves t !! new = None ->
    leaves t' = link_after (leaves t) this new
                  (set_entries d (take ((maxEntriesPerNode (above t) + 1) / 2) es))
                  (drop ((maxEntriesPerNode (above t) + 1) / 2) es) ->
    (maxEntriesPerNode (above t') = maxEntriesPerNode (above t) \/
     exists u p ck, insertKey u p ck this new = Ok (above t') /\
                    maxEntriesPerNode u = maxEntriesPerNode (above t)) ->
    added t t' this k v.

Lemma add_added (t t' : tree) this k rp md :
  add_leaf t this k rp md = Ok t' ->
  added t t' this k {| recordPointer := pointer_bytes rp; metadata := md |}.
Proof.
  unfold add. cbv zeta.
  destruct (_checkNewEntryArgs _ _ _); [discriminate|].
  destruct (leaves t !! this) as [d|] eqn:Hd; [|discriminate].
  destruct (leaf_parent (above t) !! this) as [parent|]; [|discriminate].
  destruct (findIndex (fun entry => _isEqual (key entry) k) (entries d)) as [i|] eqn:Hfind.
  - destruct (uniqueKeys (above t)); [discriminate|].
    apply findIndex_Some in Hfind as (_ & e & He & Heq).
    rewrite He. intros [= <-]. by eapply added_value.
  - destruct (length (entries d) =? 0)%nat eqn:Hempty.
    + apply Nat.eqb_eq in Hempty. apply nil_length_inv in Hempty.
      intros [= <-]. eapply added_entry; [done| |by left|done|done].
      exists 0%nat. by rewrite Hempty.
    + apply Nat.eqb_neq in Hempty.
      assert (Hne : entries d <> []) by (intros Hnil; by rewrite Hnil in Hempty).
      set (entry := {| key := k; values := [_] |}).
      set (es := match findIndex _ (entries d) with
                 | Some insertIndex => _
                 | None => _
                 end).
      assert (Hins : inserted (entries d) entry es).
      { subst es.
        destruct (findIndex (fun otherEntry => _isMore (key otherEntry) k) (entries d))
          as [j|].
        - by exists j.
        - exists (length (entries d)). by rewrite take_ge, drop_ge by lia. }
      clearbody es.
      destruct (maxEntriesPerNode (above t) <? length es)%nat eqn:Hfull.
      * apply Nat.ltb_lt in Hfull.
        destruct (drop _ es) as [|first moved] eqn:Hmoved; [discriminate|].
        rewrite <- Hmoved.
        assert (Hfresh : leaves t !! fresh (dom (leaves t)) = None).
        { apply not_elem_of_dom. apply is_fresh. }
        destruct parent as [|p].
        -- intros [= <-]. eapply added_split; try done. by left.
        -- destruct (insertKey _ _ _ _ _) as [u|] eqn:Hu; [|discriminate].
           intros [= <-]. eapply added_split; try done.
           right. by eexists _, _, _.
      * apply Nat.ltb_ge in Hfull. intros [= <-].
        eapply added_entry; [done|done|by right|done|done].
Qed.

(** *** The sizes of the leaves *)

Section Occupancy.

Hypothesis insertKey_size : forall u p k this new u',
  insertKey u p k this new = Ok u' -> maxEntriesPerNode u' = maxEntriesPerNode u.

(** Every leaf has room for its entries, and when the tree has more than the
    leaf it began with, every leaf is at least half full. *)
Definition leaves_filled (t : tree) : Prop :=
  (forall l d, leaves t !! l = Some d ->
     length (entries d) <= maxEntriesPerNode (above t)) /\
  ((exists d, leaves t = {[ 0%nat := d ]}) \/
   forall l d, leaves t !! l = Some d ->
     (maxEntriesPerNode (above t) + 1) / 2 <= length (entries d)).

Lemma add_filled (t t' : tree) this k rp md :
  1 <= maxEntriesPerNode (above t) ->
  leaves_filled t -> add_leaf t this k rp md = Ok t' ->
  maxEntriesPerNode (above t') = maxEntriesPerNode (above t) /\ leaves_filled t'.
Proof.
  intros Hmax [Hroom Hhalf] Hadd. apply add_added in Hadd.
  destruct Hadd as [d i e Hd He Heq Hl Ha|d es Hd Hins Hlen Hl Ha
                   |d es new Hd Hins Hne Hfull Hnew Hl Ha].
  all: remember (maxEntriesPerNode (above t)) as mx eqn:Hmx0.
  - rewrite Ha. split; [done|]. unfold leaves_filled. rewrite Hl, Ha, <- Hmx0. split.
    + intros l x Hx. apply lookup_insert_Some in Hx as [[<- <-]|[_ Hx]].
      * cbn [set_entries entries]. rewrite length_insert. by apply (Hroom this).
      * by apply (Hroom l).
    + destruct Hhalf as [[d0 Hone]|Hhalf].
      * left. rewrite Hone in Hd |- *. apply lookup_singleton_Some in Hd as [<- _].
        eexists. by rewrite insert_singleton.
      * right. intros l x Hx. apply lookup_insert_Some in Hx as [[<- <-]|[_ Hx]].
        -- cbn [set_entries entries]. rewrite length_insert. by apply (Hhalf this).
        -- by apply (Hhalf l).
  - rewrite Ha. split; [done|]. unfold leaves_filled. rewrite Hl, Ha, <- Hmx0.
    pose proof (inserted_length _ _ _ Hins) as Hes.
    assert (Hroom' : length es <= mx).
    { destruct Hlen as [Hnil|Hle]; [|done]. rewrite Hnil in Hes. cbn in Hes. lia. }
    split.
    + intros l x Hx. apply lookup_insert_Some in Hx as [[<- <-]|[_ Hx]]; [done|].
      by apply (Hroom l).
    + destruct Hhalf as [[d0 Hone]|Hhalf].
      * left. rewrite Hone in Hd |- *. apply lookup_singleton_Some in Hd as [<- _].
        eexists. by rewrite insert_singleton.
      * right. intros l x Hx. apply lookup_insert_Some in Hx as [[<- <-]|[_ Hx]].
        -- cbn [set_entries entries]. specialize (Hhalf this d Hd). lia.
        -- by apply (Hhalf l).
  - assert (Hmx : maxEntriesPerNode (above t') = mx).
    { destruct Ha as [Ha|(u & p & ck & Hu & Hsame)]; [done|].
      apply insertKey_size in Hu. by rewrite Hu, Hsame. }
    split; [done|]. unfold leaves_filled. rewrite Hl, Hmx.
    pose proof (inserted_length _ _ _ Hins) as Hes.
    pose proof (Hroom this d Hd) as Hd_room.
    assert (Hlen : length es = mx + 1) by lia.
    pose proof (Nat.Div0.mul_div_le (mx + 1) 2) as Hdiv.
    pose proof (Nat.mul_succ_div_gt (mx + 1) 2) as Hdiv'.
    assert (Htake : length (take ((mx + 1) / 2) es) = (mx + 1) / 2)
      by (rewrite length_take; lia).
    assert (Hdrop : length (drop ((mx + 1) / 2) es) = mx + 1 - (mx + 1) / 2)
      by (rewrite length_drop; lia).
    split.
    + intros l x Hx.
      apply link_after_entries in Hx as [[_ ->]|[[_ ->]|[_ (d0 & Hd0 & ->)]]].
      * cbn [set_entries entries]. lia.
      * lia.
      * by apply (Hroom l).
    + right. intros l x Hx.
      apply link_after_entries in Hx as [[_ ->]|[[_ ->]|[Hother (d0 & Hd0 & ->)]]].
      * cbn [set_entries entries]. lia.
      * lia.
      * destruct Hhalf as [[d1 Hone]|Hhalf]; [|by apply (Hhalf l)].
        rewrite Hone in Hd, Hd0.
        apply lookup_singleton_Some in Hd as [<- _].
        by apply lookup_singleton_Some in Hd0 as [<- _].
Qed.

Lemma add_all_filled calls : forall (t t' : tree),
  1 <= maxEntriesPerNode (above t) ->
  leaves_filled t -> add_all_leaf t calls = Ok t' ->
  maxEntriesPerNode (above t') = maxEntriesPerNode (above t) /\ leaves_filled t'.
Proof.
  induction calls as [|c rest IH]; intros t t' Hmax Hf Hadd; cbn [add_all] in Hadd.
  - by injection Hadd as <-.
  - destruct (add _ _ _ _ _ _ _ _ _) as [t1|] eqn:H1; [|discriminate].
    cbn [mbind result_bind] in Hadd.
    destruct (add_filled _ _ _ _ _ _ Hmax Hf H1) as [Hm1 Hf1].
    destruct (IH t1 t') as [Hm' Hf']; [lia|done|done|].
    split; [congruence|done].
Qed.

(** X17: when a node has room for an entry or more and [insertKey] leaves
    [maxEntriesPerNode] as it is, then after any sequence of [add] calls on
    a new tree no leaf has more than [maxEntriesPerNode] entries, and once a
    leaf has been split every leaf has at least
    [floor((maxEntriesPerNode + 1) / 2)] entries. *)
Theorem X17_leaves_keep_their_size (maxEntries : nat) (unique : bool)
    (calls : list call) (t' : tree) :
  1 <= maxEntries ->
  add_all_leaf (empty_tree maxEntries unique) calls = Ok t' ->
  (forall l d, leaves t' !! l = Some d -> length (entries d) <= maxEntries) /\
  ((exists d, leaves t' = {[ 0%nat := d ]}) \/
   forall l d, leaves t' !! l = Some d -> (maxEntries + 1) / 2 <= length (entries d)).
Proof.
  intros Hmax Hadd.
  apply add_all_filled in Hadd as [Hm [Hroom Hhalf]]; [|done|].
  - cbn in Hm. rewrite Hm in Hroom, Hhalf. by split.
  - split.
    + intros l d Hd. cbn [empty_tree leaves] in Hd.
      apply lookup_singleton_Some in Hd as [_ <-]. cbn. lia.
    + left. by eexists.
Qed.

End Occupancy.

(** *** The values in the leaves *)

(** The value [v] is among the values of an entry with the key [k] in a
    leaf. *)
Definition stored (ls : gmap nat leaf) (k : K) (v : @BPlusTreeLeafEntryValue M) : Prop :=
  exists l d e, ls !! l = Some d /\ e ∈ entries d /\ key e = k /\ v ∈ values e.

Lemma stored_insert (ls : gmap nat leaf) this d es k v :
  ls !! this = Some d ->
  stored (<[this := set_entries d es]> ls) k v <->
  (exists e, e ∈ es /\ key e = k /\ v ∈ values e) \/
  (exists l d0 e, l <> this /\ ls !! l = Some d0 /\ e ∈ entries d0 /\ key e = k /\
                  v ∈ values e).
Proof.
  intros Hd. split.
  - intros (l & d0 & e & Hl & He & Hk & Hv).
    apply lookup_insert_Some in Hl as [[<- <-]|[Hne Hl]].
    + left. by exists e.
    + right. by exists l, d0, e.
  - intros [(e & He & Hk & Hv)|(l & d0 & e & Hne & Hl & He & Hk & Hv)].
    + exists this, (set_entries d es), e. by rewrite lookup_insert_eq.
    + exists l, d0, e. by rewrite lookup_insert_ne.
Qed.

Lemma stored_split (ls : gmap nat leaf) this d k v :
  ls !! this = Some d ->
  stored ls k v <->
  (exists e, e ∈ entries d /\ key e = k /\ v ∈ values e) \/
  (exists l d0 e, l <> this /\ ls !! l = Some d0 /\ e ∈ entries d0 /\ key e = k /\
                  v ∈ values e).
Proof.
  intros Hd. split.
  - intros (l & d0 & e & Hl & He & Hk & Hv).
    destruct (decide (l = this)) as [->|Hne].
    + left. rewrite Hd in Hl. injection Hl as <-. by exists e.
    + right. by exists l, d0, e.
  - intros [(e & He & Hk & Hv)|(l & d0 & e & Hne & Hl & He & Hk & Hv)].
    + by exists this, d, e.
    + by exists l, d0, e.
Qed.

Lemma stored_link_after (ls : gmap nat leaf) this new d es s k v :
  ls !! this = Some d -> ls !! new = None ->
  stored (link_after ls this new (set_entries d (take s es)) (drop s es)) k v <->
  (exists e, e ∈ es /\ key e = k /\ v ∈ values e) \/
  (exists l d0 e, l <> this /\ ls !! l = Some d0 /\ e ∈ entries d0 /\ key e = k /\
                  v ∈ values e).
Proof.
  intros Hd Hnew.
  assert (Hne : this <> new) by (intros ->; congruence).
  split.
  - intros (l & d0 & e & Hl & He & Hk & Hv).
    apply link_after_entries in Hl as [[_ Hes]|[[_ Hes]|[Hother (d1 & Hd1 & Hes)]]].
    + left. exists e. rewrite Hes in He. cbn [set_entries entries] in He.
      split; [|done]. rewrite <- (take_drop s es). apply elem_of_app. by left.
    + left. exists e. rewrite Hes in He.
      split; [|done]. rewrite <- (take_drop s es). apply elem_of_app. by right.
    + right. exists l, d1, e. by rewrite <- Hes.
  - intros [(e & He & Hk & Hv)|(l & d0 & e & Hother & Hl & He & Hk & Hv)].
    + rewrite <- (take_drop s es) in He. apply elem_of_app in He as [He|He].
      * destruct (link_after_this ls this new (set_entries d (take s es)) (drop s es))
          as (x & Hx & Hes).
        exists this, x, e. by rewrite Hes.
      * destruct (link_after_new ls this new (set_entries d (take s es)) (drop s es) Hne)
          as (x & Hx & Hes).
        exists new, x, e. by rewrite Hes.
    + assert (l <> new) by (intros ->; congruence).
      destruct (link_after_others ls this new (set_entries d (take s es)) (drop s es)
                  l d0) as (x & Hx & Hes); [done|done|done|].
      exists l, x, e. by rewrite Hes.
Qed.

(** X18: a successful [add] puts the value into the leaves, with the key it
    is added with or with the equal key of the entry that the leaf has, and
    neither loses nor makes up a value: the values of the leaves afterwards
    are those from before and the new one, also when the leaf is split. *)
Theorem X18_add_stores_the_value (t t' : tree) (this : nat) (k : K) (rp : pointerArg)
    (md : M) :
  add_leaf t this k rp md = Ok t' ->
  let v := {| recordPointer := pointer_bytes rp; metadata := md |} in
  (exists k1, (k1 = k \/ _isEqual k1 k = true) /\ stored (leaves t') k1 v) /\
  (forall k0 v0, stored (leaves t) k0 v0 -> stored (leaves t') k0 v0) /\
  (forall k0 v0, stored (leaves t') k0 v0 ->
     stored (leaves t) k0 v0 \/ ((k0 = k \/ _isEqual k0 k = true) /\ v0 = v)).
Proof.
  intros Hadd v. apply add_added in Hadd. fold v in Hadd.
  assert (Hnew : forall d es,
    leaves t !! this = Some d -> inserted (entries d) {| key := k; values := [v] |} es ->
    forall k0 v0,
      (exists e, e ∈ es /\ key e = k0 /\ v0 ∈ values e) <->
      (exists e, e ∈ entries d /\ key e = k0 /\ v0 ∈ values e) \/ (k0 = k /\ v0 = v)).
  { intros d es Hd Hins k0 v0. split.
    - intros (e & He & Hk & Hv). apply (inserted_elem_of _ _ _ _ Hins) in He as [->|He].
      + right. cbn in Hk, Hv. apply list_elem_of_singleton in Hv. by split.
      + left. by exists e.
    - intros [(e & He & Hk & Hv)|[-> ->]].
      + exists e. split; [|done]. apply (inserted_elem_of _ _ _ _ Hins). by right.
      + eexists. split; [apply (inserted_elem_of _ _ _ _ Hins); by left|].
        cbn. split; [done|]. by apply list_elem_of_singleton. }
  destruct Hadd as [d i e Hd He Heq Hl Ha|d es Hd Hins Hlen Hl Ha
                   |d es new Hd Hins Hne Hfull Hfresh Hl Ha]; rewrite Hl.
  - assert (Hupd : forall k0 v0,
      (exists x, x ∈ <[i := {| key := key e; values := values e ++ [v] |}]> (entries d) /\
                 key x = k0 /\ v0 ∈ values x) <->
      (exists x, x ∈ entries d /\ key x = k0 /\ v0 ∈ values x) \/ (k0 = key e /\ v0 = v)).
    { intros k0 v0. split.
      - intros (x & Hx & Hk & Hv). apply list_elem_of_lookup in Hx as [j Hj].
        apply list_lookup_insert_Some in Hj as [(-> & <- & _)|[Hne Hj]].
        + cbn in Hk, Hv. apply elem_of_app in Hv as [Hv|Hv].
          * left. exists e. split; [by eapply list_elem_of_lookup_2|done].
          * right. apply list_elem_of_singleton in Hv. by split.
        + left. exists x. split; [by eapply list_elem_of_lookup_2|done].
      - intros [(x & Hx & Hk & Hv)|[-> ->]].
        + apply list_elem_of_lookup in Hx as [j Hj].
          destruct (decide (j = i)) as [->|Hne].
          * rewrite He in Hj. injection Hj as <-.
            exists {| key := key e; values := values e ++ [v] |}. split.
            -- eapply list_elem_of_lookup_2. apply list_lookup_insert_eq.
               by eapply lookup_lt_Some.
            -- cbn. split; [done|]. apply elem_of_app. by left.
          * exists x. split; [|done]. eapply list_elem_of_lookup_2.
            by rewrite list_lookup_insert_ne.
        + exists {| key := key e; values := values e ++ [v] |}. split.
          * eapply list_elem_of_lookup_2. apply list_lookup_insert_eq.
            by eapply lookup_lt_Some.
          * cbn. split; [done|]. apply elem_of_app. right. by apply list_elem_of_singleton. }
    split; [|split].
    + exists (key e). split; [by right|]. apply (stored_insert _ _ _ _ _ _ Hd).
      left. apply Hupd. by right.
    + intros k0 v0 Hs. apply (stored_insert _ _ _ _ _ _ Hd).
      apply (stored_split _ _ _ _ _ Hd) in Hs as [Hs|Hs]; [|by right].
      left. apply Hupd. by left.
    + intros k0 v0 Hs. apply (stored_insert _ _ _ _ _ _ Hd) in Hs as [Hs|Hs].
      * apply Hupd in Hs as [Hs|[-> ->]].
        -- left. apply (stored_split _ _ _ _ _ Hd). by left.
        -- right. split; [by right|done].
      * left. apply (stored_split _ _ _ _ _ Hd). by right.
  - split; [|split].
    + exists k. split; [by left|]. apply (stored_insert _ _ _ _ _ _ Hd).
      left. apply (Hnew d es Hd Hins). by right.
    + intros k0 v0 Hs. apply (stored_insert _ _ _ _ _ _ Hd).
      apply (stored_split _ _ _ _ _ Hd) in Hs as [Hs|Hs]; [|by right].
      left. apply (Hnew d es Hd Hins). by left.
    + intros k0 v0 Hs. apply (stored_insert _ _ _ _ _ _ Hd) in Hs as [Hs|Hs].
      * apply (Hnew d es Hd Hins) in Hs as [Hs|[-> ->]].
        -- left. apply (stored_split _ _ _ _ _ Hd). by left.
        -- right. split; [by left|done].
      * left. apply (stored_split _ _ _ _ _ Hd). by right.
  - split; [|split].
    + exists k. split; [by left|]. apply (stored_link_after _ _ _ _ _ _ _ _ Hd Hfresh).
      left. apply (Hnew d es Hd Hins). by right.
    + intros k0 v0 Hs. apply (stored_link_after _ _ _ _ _ _ _ _ Hd Hfresh).
      apply (stored_split _ _ _ _ _ Hd) in Hs as [Hs|Hs]; [|by right].
      left. apply (Hnew d es Hd Hins). by left.
    + intros k0 v0 Hs. apply (stored_link_after _ _ _ _ _ _ _ _ Hd Hfresh) in Hs as [Hs|Hs].
      * apply (Hnew d es Hd Hins) in Hs as [Hs|[-> ->]].
        -- left. apply (stored_split _ _ _ _ _ Hd). by left.
        -- right. split; [by left|done].
      * left. apply (stored_split _ _ _ _ _ Hd). by right.
Qed.

(** X19: on a tree with unique keys, [add] of a key that the leaf has an
    entry for throws [duplicate-node-key] (after the arguments have passed
    their check), whatever the record pointer and the metadata are. *)
Theorem X19_add_duplicate_key (t : tree) (this : nat) (d : leaf) (k : K) (rp : pointerArg)
    (md : M) :
  _checkNewEntryArgs k (pointer_bytes rp) md = None ->
  leaves t !! this = Some d -> is_Some (leaf_parent (above t) !! this) ->
  uniqueKeys (above t) = true ->
  (exists e, e ∈ entries d /\ _isEqual (key e) k = true) ->
  add_leaf t this k rp md = Throw "duplicate-node-key".
Proof.
  intros Hcheck Hd [parent Hparent] Hunique (e & He & Heq).
  unfold add. cbv zeta. rewrite Hcheck, Hd, Hparent.
  destruct (findIndex (fun entry => _isEqual (key entry) k) (entries d)) as [i|] eqn:Hfind.
  - by rewrite Hunique.
  - apply findIndex_None in Hfind. rewrite Forall_forall in Hfind.
    apply Hfind in He. congruence.
Qed.

End LeafContents.

(** ** Fulltext indexes: the words of a text *)

Section TextWords.
Import FullTextIndex.

Variable locale_lower : string -> string.






End TextWords.

Section TextInfoFacts.
Import FullTextIndex.


End TextInfoFacts.

(** ** Fulltext indexes: the check of a phrase *)

Section PhraseCheck.
Import FullTextIndex.

Lemma includes_elem_of (sourceIndexes : list (option Z)) (n : Z) :
  includes sourceIndexes (Some n) = true <-> Some n ∈ sourceIndexes.
Proof.
  cbn [includes]. rewrite existsb_exists. split.
  - intros ([m|] & Hin & Heq); [|done]. apply Z.eqb_eq in Heq. subst m.
    by apply list_elem_of_In.
  - intros Hin. exists (Some n). split; [by apply list_elem_of_In|]. apply Z.eqb_refl.
Qed.

Lemma check_after_NaN (later : list (list (option Z))) : check_after later None = false.
Proof. by destruct later. Qed.

Lemma check_after_follows (later : list (list (option Z))) : forall p : Z,
  check_after later (Some p) = true <->
  later <> [] /\
  forall i sourceIndexes, later !! i = Some sourceIndexes ->
                          Some (p + 1 + Z.of_nat i)%Z ∈ sourceIndexes.
Proof.
  induction later as [|o rest IH]; intros p; cbn [check_after].
  - split; [done|]. by intros [? _].
  - cbn [fmap option_fmap option_map].
    destruct (includes o (Some (p + 1)%Z)) eqn:Hinc.
    + apply includes_elem_of in Hinc.
      destruct rest as [|o' rest'].
      * split; [|done]. intros _. split; [done|].
        intros [|i] x Hx; [|done]. injection Hx as <-. by rewrite Z.add_0_r.
      * rewrite IH. split.
        -- intros [_ Hall]. split; [done|]. intros [|i] x Hx.
           ++ injection Hx as <-. by rewrite Z.add_0_r.
           ++ replace (p + 1 + Z.of_nat (S i))%Z with (p + 1 + 1 + Z.of_nat i)%Z by lia.
              by apply Hall.
        -- intros [_ Hall]. split; [done|]. intros i x Hx.
           replace (p + 1 + 1 + Z.of_nat i)%Z with (p + 1 + Z.of_nat (S i))%Z by lia.
           by apply Hall.
    + split; [done|]. intros [_ Hall].
      specialize (Hall 0%nat o eq_refl). rewrite Z.add_0_r in Hall.
      apply includes_elem_of in Hall. congruence.
Qed.

(** X21: the check of a phrase of two or more words holds exactly when some
    occurrence of the first word is followed by the other words at the next
    positions, one after the other; an occurrence that was read as [NaN]
    never counts. *)
Theorem X21_phrase_check (first : list (option Z)) (later : list (list (option Z))) :
  check (first :: later) = true <->
  later <> [] /\
  exists p : Z, Some p ∈ first /\
    forall i sourceIndexes, later !! i = Some sourceIndexes ->
                            Some (p + 1 + Z.of_nat i)%Z ∈ sourceIndexes.
Proof.
  cbn [check]. rewrite existsb_exists. split.
  - intros ([p|] & Hin & Hc); [|by rewrite check_after_NaN in Hc].
    apply check_after_follows in Hc as [Hne Hall].
    split; [done|]. exists p. split; [by apply list_elem_of_In|done].
  - intros (Hne & p & Hin & Hall). exists (Some p).
    split; [by apply list_elem_of_In|]. by apply check_after_follows.
Qed.

End PhraseCheck.

(** Two readers and a writer in the queue of a lock that is held. *)
Definition z_lock_request (n : nat) (w : bool) : Lock.request :=
  {| Lock.ticket := n; Lock.forWriting := w; Lock.comment := "" |}.

Definition z_locked : Lock.state :=
  {| Lock._lockQueue := [z_lock_request 1 false; z_lock_request 2 false;
                         z_lock_request 3 true; z_lock_request 4 false];
     Lock._lockState := {| Lock.isLocked := true; Lock.stateForWriting := Some true;
                           Lock.stateComment := Some "" |} |}.

Lemma X14_release_of_one_reader_wakes_writer_witness :
  let '(st1, woken1) := Lock.release z_locked in
  let '(st2, woken2) := Lock.release st1 in
  woken1 = [z_lock_request 1 false; z_lock_request 2 false] /\
  woken2 = [z_lock_request 3 true] /\
  Lock._lockQueue st2 = [z_lock_request 4 false].
Proof.
  apply (X14_release_of_one_reader_wakes_writer z_locked
           [z_lock_request 1 false; z_lock_request 2 false] (z_lock_request 3 true)
           [z_lock_request 4 false]).
  - reflexivity.
  - repeat constructor.
  - simpl. lia.
  - reflexivity.
Defined.

(** An index on the names of users that does not tell upper from lower case,
    over a tree with one name. *)
Definition z_names : DataIndex.index :=
  {| DataIndex.index_path := "users"; DataIndex.index_key := "name";
     DataIndex.caseSensitive := false |}.

Definition z_names_search (op : string) (val : DataIndex.qval) : list DataIndex.storedEntry :=
  [ {| DataIndex.stored_key := DataIndex.SString "abc";
       DataIndex.stored_values :=
         [ {| DataIndex.stored_pointer := [0; 2; 117; 49]%Z;
              DataIndex.stored_metadata := [] |} ] |} ].

Definition z_no_query : DataIndex.state :=
  {| DataIndex._cache := []; DataIndex.searches := []; DataIndex.objects := [] |}.


(** An array value is a key of the cache by the object it is: on a
    case-sensitive index the query that is repeated with the same array makes
    no second search; on an index that is not case-sensitive every query
    makes its own copy of the array and searches again.  A filter whose
    [values] were deleted leaves no result. *)
Example array_values_and_filters :
  let names_cs := {| DataIndex.index_path := "users"; DataIndex.index_key := "name";
                     DataIndex.caseSensitive := true |} in
  let val := DataIndex.QArray (Some 7) [DataIndex.SString "abc"; DataIndex.SString "x"] in
  let twice idx :=
    DataIndex.searches
      (DataIndex.query z_names_search idx "in" val None
         (DataIndex.query z_names_search idx "in" val None z_no_query).1).1 in
  twice names_cs = [("in", val)] /\
  twice z_names
  = [("in", DataIndex.QArray None [DataIndex.SString "abc"; DataIndex.SString "x"]);
     ("in", DataIndex.QArray None [DataIndex.SString "abc"; DataIndex.SString "x"])] /\
  (r ← (DataIndex.query z_names_search z_names "==" (DataIndex.QScalar (DataIndex.SString "abc"))
          (Some {| DataIndex.filter :=
                     Some {| DataIndex.items := []; DataIndex.filterKey := "name";
                             DataIndex.result_values := None |} |})
          z_no_query).2;
   Ok (DataIndex.items r))
  = Ok [].
Proof. by vm_compute. Qed.

Lemma X16_record_pointer_injective_witness :
  RecordPointer._createRecordPointer ["u1"] "p1"
  <> RecordPointer._createRecordPointer ["u1"] "p2".
Proof.
  apply (X16_record_pointer_injective ["u1"] ["u1"] "p1" "p2"). discriminate.
Defined.

Lemma z_insertKey_size (u : @TreeLeaf.upper Z) (p : nat) (k : Z) (this new : nat)
    (u' : @TreeLeaf.upper Z) :
  z_insertKey u p k this new = Ok u' ->
  TreeLeaf.maxEntriesPerNode u' = TreeLeaf.maxEntriesPerNode u.
Proof. by intros [= <-]. Qed.

Lemma X17_leaves_keep_their_size_witness :
  exists t',
    z_add_all (TreeLeaf.empty_tree 2 false) z_routed_sample = Ok t' /\
    (forall l d, TreeLeaf.leaves t' !! l = Some d ->
                 (length (TreeLeaf.entries d) <= 2)%nat) /\
    ((exists d, TreeLeaf.leaves t' = {[ 0%nat := d ]}) \/
     forall l d, TreeLeaf.leaves t' !! l = Some d ->
                 (1 <= length (TreeLeaf.entries d))%nat).
Proof.
  eexists. split; [vm_compute; reflexivity|].
  apply (X17_leaves_keep_their_size z_isEqual z_isMore z_check z_insertKey
           z_insertKey_size 2%nat false z_routed_sample).
  - lia.
  - vm_compute; reflexivity.
Defined.

Lemma X18_add_stores_the_value_witness :
  exists t',
    TreeLeaf.add z_isEqual z_isMore z_check z_insertKey (TreeLeaf.empty_tree 2 false)
      0 5%Z (TreeLeaf.PointerBytes [7%Z]) tt = Ok t' /\
    exists k1, (k1 = 5%Z \/ z_isEqual k1 5%Z = true) /\
      stored (TreeLeaf.leaves t') k1
        {| TreeLeaf.recordPointer := [7%Z]; TreeLeaf.metadata := tt |}.
Proof.
  eexists. split; [vm_compute; reflexivity|].
  apply (X18_add_stores_the_value z_isEqual z_isMore z_check z_insertKey
           (TreeLeaf.empty_tree 2 false) _ 0 5%Z (TreeLeaf.PointerBytes [7%Z]) tt).
  vm_compute; reflexivity.
Defined.

(** A tree with unique keys whose leaf has the key 5. *)
Definition z_unique_tree : @TreeLeaf.BPlusTree Z unit :=
  {| TreeLeaf.above := TreeLeaf.above (@TreeLeaf.empty_tree Z unit 2 true);
     TreeLeaf.leaves :=
       {[ 0%nat := {| TreeLeaf.entries :=
                        [ {| TreeLeaf.key := 5%Z;
                             TreeLeaf.values :=
                               [ {| TreeLeaf.recordPointer := [7%Z];
                                    TreeLeaf.metadata := tt |} ] |} ];
                      TreeLeaf.prevLeaf := None; TreeLeaf.nextLeaf := None |} ]} |}.

Lemma X19_add_duplicate_key_witness :
  TreeLeaf.add z_isEqual z_isMore z_check z_insertKey z_unique_tree 0 5%Z
    (TreeLeaf.PointerBytes [8%Z]) tt = Throw "duplicate-node-key".
Proof.
  eapply (X19_add_duplicate_key z_isEqual z_isMore z_check z_insertKey z_unique_tree 0).
  - reflexivity.
  - vm_compute; reflexivity.
  - eexists. vm_compute; reflexivity.
  - reflexivity.
  - eexists. split; [apply list_elem_of_here|reflexivity].
Defined.

(** ** Reading back the header of an index file *)

Section WordFacts.

Lemma lor_disjoint (hi lo k : Z) :
  (0 <= k)%Z -> (0 <= lo < 2 ^ k)%Z -> Z.lor (hi * 2 ^ k) lo = (hi * 2 ^ k + lo)%Z.
Proof.
  intros Hk Hlo.
  assert (Hland : Z.land (hi * 2 ^ k) lo = 0%Z).
  { apply Z.bits_inj'. intros n Hn. rewrite Z.land_spec, Z.bits_0.
    destruct (Z_lt_le_dec n k) as [Hlt|Hge].
    - by rewrite Z.mul_pow2_bits_low by lia.
    - destruct (Z.eq_dec lo 0%Z) as [->|Hne]; [by rewrite Z.bits_0, andb_false_r|].
      rewrite (Z.bits_above_log2 lo n); [by rewrite andb_false_r|lia|].
      apply Z.log2_lt_pow2; [lia|]. apply Z.lt_le_trans with (2 ^ k)%Z; [lia|].
      apply Z.pow_le_mono_r; lia. }
  pose proof (Z.add_lor_land (hi * 2 ^ k) lo) as H. lia.
Qed.

(** [(hi << 8) | lo] of two bytes. *)
Lemma js_or_shl_8 (hi lo : Z) :
  (0 <= hi < 256)%Z -> (0 <= lo < 256)%Z -> js_or (js_shl hi 8) lo = (hi * 256 + lo)%Z.
Proof.
  intros Hhi Hlo. unfold js_or, js_shl.
  rewrite (to_int32_small hi) by lia. rewrite Z.shiftl_mul_pow2 by lia.
  rewrite (to_int32_small (hi * 2 ^ 8)) by lia.
  rewrite (to_int32_small (hi * 2 ^ 8)) by lia.
  rewrite (to_int32_small lo) by lia.
  rewrite lor_disjoint by lia. apply to_int32_small. lia.
Qed.

(** The two bytes of a length give the length back. *)
Lemma length_bytes_value (n : nat) :
  (Z.of_nat n <= 65535)%Z ->
  exists hi lo, IndexHeader.length_bytes n = [hi; lo] /\
                (0 <= hi < 256)%Z /\ (0 <= lo < 256)%Z /\
                js_or (js_shl hi 8) lo = Z.of_nat n.
Proof.
  intros Hn. unfold IndexHeader.length_bytes. do 2 eexists. split; [reflexivity|].
  rewrite !low_byte, to_int32_shr by lia.
  unfold js_shr. rewrite (to_int32_small (Z.of_nat n)) by lia.
  rewrite Z.shiftr_div_pow2 by lia. change (2 ^ 8)%Z with 256%Z.
  assert (H1 : (0 <= Z.of_nat n / 256 < 256)%Z).
  { split; [apply Z.div_pos; lia|apply Z.div_lt_upper_bound; lia]. }
  rewrite (Z.mod_small (Z.of_nat n / 256)) by lia.
  pose proof (Z.mod_pos_bound (Z.of_nat n) 256 ltac:(lia)) as H2.
  split; [lia|]. split; [lia|].
  rewrite js_or_shl_8 by lia.
  pose proof (Z.div_mod (Z.of_nat n) 256 ltac:(lia)). lia.
Qed.

(** The four bytes of a length below [2^31] give the length back. *)
Lemma int32_at_uint32_bytes (header : list Z) (a : nat) (n : Z) :
  (0 <= n < 2 ^ 31)%Z ->
  (forall i x, IndexHeader.uint32_bytes n !! i = Some x -> header !! (a + i)%nat = Some x) ->
  IndexFile.int32_at header (Some a) = n.
Proof.
  intros Hn Hseg.
  destruct (uint32_bytes_value (fun _ => []) n) as (b0 & b1 & b2 & b3 & Hb & (H0 & H1 & H2 & H3) & Hv);
    [lia|].
  rewrite Hb in Hseg.
  assert (E0 : IndexFile.at_ header (Some a) = Some b0).
  { cbn. rewrite <- (Nat.add_0_r a). by apply Hseg. }
  assert (E1 : IndexFile.at_ header (IndexFile.plus (Some a) (Some 1%Z)) = Some b1).
  { cbn. by apply Hseg. }
  assert (E2 : IndexFile.at_ header (IndexFile.plus (Some a) (Some 2%Z)) = Some b2).
  { cbn. by apply Hseg. }
  assert (E3 : IndexFile.at_ header (IndexFile.plus (Some a) (Some 3%Z)) = Some b3).
  { cbn. by apply Hseg. }
  unfold IndexFile.int32_at. rewrite E0, E1, E2, E3.
  cbn [IndexFile.int_of default from_option id].
  assert (Hb0 : (b0 < 128)%Z) by lia.
  unfold js_or, js_shl.
  rewrite !(to_int32_small b0), !(to_int32_small b1), !(to_int32_small b2),
    !(to_int32_small b3) by lia.
  rewrite !Z.shiftl_mul_pow2 by lia.
  rewrite !(to_int32_small (b0 * 2 ^ 24)), !(to_int32_small (b1 * 2 ^ 16)),
    !(to_int32_small (b2 * 2 ^ 8)) by lia.
  rewrite (lor_disjoint b0 (b1 * 2 ^ 16) 24) by lia.
  rewrite (to_int32_small (b0 * 2 ^ 24 + b1 * 2 ^ 16)) by lia.
  rewrite (to_int32_small (b0 * 2 ^ 24 + b1 * 2 ^ 16)) by lia.
  replace (b0 * 2 ^ 24 + b1 * 2 ^ 16)%Z with ((b0 * 2 ^ 8 + b1) * 2 ^ 16)%Z by lia.
  rewrite (lor_disjoint (b0 * 2 ^ 8 + b1) (b2 * 2 ^ 8) 16) by lia.
  rewrite (to_int32_small ((b0 * 2 ^ 8 + b1) * 2 ^ 16 + b2 * 2 ^ 8)) by lia.
  rewrite (to_int32_small ((b0 * 2 ^ 8 + b1) * 2 ^ 16 + b2 * 2 ^ 8)) by lia.
  replace ((b0 * 2 ^ 8 + b1) * 2 ^ 16 + b2 * 2 ^ 8)%Z
    with (((b0 * 2 ^ 8 + b1) * 2 ^ 8 + b2) * 2 ^ 8)%Z by lia.
  rewrite (lor_disjoint ((b0 * 2 ^ 8 + b1) * 2 ^ 8 + b2) b3 8) by lia.
  rewrite to_int32_small by lia. lia.
Qed.

End WordFacts.

Section HeaderCodec.
Import IndexHeader.

Variable numberToBytes : Z -> list Z.
Variable decode : list Z -> string.
Variable bytesToNumber : list Z -> Z.

Definition is_bytes (l : list Z) : Prop := Forall (fun b => (0 <= b < 256)%Z) l.

(** What [addNameBytes], [addValueBytes] and [addInfoBytes] add to the
    header. *)
Definition enc_name (name : string) : list Z :=
  RecordPointer.strlen name :: map RecordPointer.charCodeAt (list_ascii_of_string name).

Fixpoint enc_value (v : jsvalue) : list Z :=
  match v with
  | JUndefined => [0%Z]
  | JString s => 1%Z :: length_bytes (length (encode s)) ++ encode s
  | JNumber n => 2%Z :: length_bytes (length (numberToBytes n)) ++ numberToBytes n
  | JBoolean b => [3%Z; if b then 1%Z else 0%Z]
  | JArray items => 4%Z :: length_bytes (length items) ++ concat (map enc_value items)
  | JObject => []
  end.

Definition enc_entry (kv : string * jsvalue) : list Z := enc_name kv.1 ++ enc_value kv.2.

Definition enc_info (obj : list (string * jsvalue)) : list Z :=
  Z.of_nat (length obj) :: concat (map enc_entry obj).

(** A value that the header can hold and that the decoders give back: its
    length fits the two bytes of [value_length], its bytes are bytes, and
    [textDecoder.decode] and [bytesToNumber] undo the encoders on it. *)
Fixpoint reads_back (v : jsvalue) : Prop :=
  match v with
  | JUndefined | JBoolean _ => True
  | JString s =>
      (Z.of_nat (length (encode s)) <= 65535)%Z /\ decode (encode s) = s
  | JNumber n =>
      (Z.of_nat (length (numberToBytes n)) <= 65535)%Z /\ is_bytes (numberToBytes n) /\
      bytesToNumber (numberToBytes n) = n
  | JArray items =>
      (Z.of_nat (length items) <= 65535)%Z /\
      (fix all (items : list jsvalue) : Prop :=
         match items with
         | [] => True
         | v :: rest => reads_back v /\ all rest
         end) items
  | JObject => False
  end.

Lemma reads_back_array items :
  reads_back (JArray items) <->
  (Z.of_nat (length items) <= 65535)%Z /\ Forall reads_back items.
Proof.
  cbn [reads_back]. apply and_iff_compat_l.
  induction items as [|v rest IH]; [by split|].
  rewrite Forall_cons, IH. tauto.
Qed.

(** The depth of the arrays of a value. *)
Fixpoint depth (v : jsvalue) : nat :=
  match v with
  | JArray items => S (fold_right (fun v d => Nat.max (depth v) d) 0%nat items)
  | _ => 1%nat
  end.

Lemma addNameBytes_enc bs name : addNameBytes bs name = bs ++ enc_name name.
Proof.
  unfold addNameBytes, enc_name. rewrite push_chars_app, <- app_assoc. done.
Qed.

Fixpoint addValueBytes_enc (v : jsvalue) :
  forall bs bs', addValueBytes numberToBytes bs v = Ok bs' -> bs' = bs ++ enc_value v.
Proof.
  destruct v as [|s|n|b|items|]; intros bs bs' H; cbn [addValueBytes] in H.
  - by injection H as <-.
  - injection H as <-. cbn [enc_value]. by rewrite <- !app_assoc.
  - injection H as <-. cbn [enc_value]. by rewrite <- !app_assoc.
  - injection H as <-. cbn [enc_value]. by rewrite <- !app_assoc.
  - destruct (65535 <? Z.of_nat (length items))%Z; [discriminate|].
    cbn [enc_value]. revert H. generalize (length_bytes (length items)). intros lb.
    rewrite <- app_assoc. change (4%Z :: lb ++ ?x) with (([4%Z] ++ lb) ++ x).
    generalize ([4%Z] ++ lb). clear lb. intros pre.
    revert pre. induction items as [|val rest IH]; intros pre H.
    + injection H as <-. cbn. by rewrite app_nil_r.
    + destruct (addValueBytes numberToBytes (bs ++ pre) val) as [bs1|] eqn:E;
        [|discriminate].
      rewrite (addValueBytes_enc val _ _ E) in H.
      rewrite <- app_assoc in H. rewrite (IH _ H).
      cbn [map concat]. by rewrite <- !app_assoc.
  - discriminate.
Qed.

Lemma addInfo_each_enc obj :
  forall bs bs', addInfo_each numberToBytes bs obj = Ok bs' ->
                 bs' = bs ++ concat (map enc_entry obj).
Proof.
  induction obj as [|[k v] rest IH]; intros bs bs' H; cbn [addInfo_each] in H.
  - injection H as <-. cbn. by rewrite app_nil_r.
  - rewrite addNameBytes_enc in H.
    destruct (addValueBytes numberToBytes (bs ++ enc_name k) v) as [bs1|] eqn:E;
      [|discriminate].
    rewrite (addValueBytes_enc v _ _ E) in H. cbn [mbind result_bind] in H.
    rewrite (IH _ _ H). cbn [map concat]. unfold enc_entry at 2. cbn [fst snd].
    by rewrite <- !app_assoc.
Qed.

Lemma addInfoBytes_enc obj bs bs' :
  addInfoBytes numberToBytes bs obj = Ok bs' -> bs' = bs ++ enc_info obj.
Proof.
  unfold addInfoBytes. intros H. rewrite (addInfo_each_enc _ _ _ H).
  unfold enc_info. by rewrite <- app_assoc.
Qed.

(** The bytes [seg] stand in the header from the position [a] on. *)
Definition holds (header : list Z) (a : nat) (seg : list Z) : Prop :=
  forall i x, seg !! i = Some x -> header !! (a + i)%nat = Some x.

Lemma holds_cons header a x seg :
  holds header a (x :: seg) <-> header !! a = Some x /\ holds header (S a) seg.
Proof.
  unfold holds. split.
  - intros H. split.
    + rewrite <- (Nat.add_0_r a). by apply H.
    + intros i y Hy. replace (S a + i)%nat with (a + S i)%nat by lia. by apply H.
  - intros [H0 H] [|i] y Hy.
    + rewrite Nat.add_0_r. by injection Hy as <-.
    + replace (a + S i)%nat with (S a + i)%nat by lia. by apply H.
Qed.

Lemma holds_app header a s1 s2 :
  holds header a (s1 ++ s2) <-> holds header a s1 /\ holds header (a + length s1) s2.
Proof.
  unfold holds. split.
  - intros H. split.
    + intros i x Hx. apply H. by apply lookup_app_l_Some.
    + intros i x Hx. rewrite <- Nat.add_assoc. apply H.
      rewrite lookup_app_r by lia. by replace (length s1 + i - length s1)%nat with i by lia.
  - intros [H1 H2] i x Hx. apply lookup_app_Some in Hx as [Hx|[Hi Hx]]; [by apply H1|].
    replace (a + i)%nat with (a + length s1 + (i - length s1))%nat by lia. by apply H2.
Qed.

Lemma holds_slice header a seg :
  holds header a seg -> take (length seg) (drop a header) = seg.
Proof.
  intros H. apply list_eq. intros i.
  destruct (decide (i < length seg)%nat) as [Hi|Hi].
  - rewrite lookup_take_lt by done. rewrite lookup_drop.
    destruct (lookup_lt_is_Some_2 seg i Hi) as [x Hx]. rewrite Hx. by apply H.
  - rewrite lookup_take_ge by lia. symmetry. apply lookup_ge_None. lia.
Qed.

Lemma holds_end header a seg : holds header a seg -> seg <> [] -> (a + length seg <= length header)%nat.
Proof.
  intros H Hne.
  destruct (lookup_lt_is_Some_2 seg (length seg - 1)) as [x Hx].
  { destruct seg; [done|cbn; lia]. }
  apply H in Hx. apply lookup_lt_Some in Hx. destruct seg; [done|cbn in *; lia].
Qed.

Lemma read_name_holds header a cs : forall j,
  holds header (a + j) (map RecordPointer.charCodeAt cs) ->
  IndexFile.read_name header (Some a) j (length cs) = string_of_list_ascii cs.
Proof.
  induction cs as [|c cs IH]; intros j H; cbn [IndexFile.read_name length
    string_of_list_ascii]; [done|].
  cbn [map] in H. apply holds_cons in H as [H0 H].
  unfold IndexFile.at_, IndexFile.plus. cbn [mbind option_bind].
  rewrite Nat2Z.id, H0, fromCharCode_charCodeAt. f_equal.
  apply IH. by replace (a + S j)%nat with (S (a + j)) by lia.
Qed.

Lemma readKey_enc header a name :
  holds header a (enc_name name) ->
  IndexFile.readKey header (Some a) = (name, Some (a + length (enc_name name))%nat).
Proof.
  unfold enc_name. intros H. apply holds_cons in H as [H0 H].
  unfold IndexFile.readKey. cbn [IndexFile.at_ IndexFile.plus mbind option_bind].
  rewrite H0. cbn [IndexFile.int_of default from_option id mbind option_bind].
  unfold RecordPointer.strlen. rewrite Nat2Z.id.
  rewrite <- (length_list_ascii name), <- (length_map RecordPointer.charCodeAt).
  rewrite length_map. change (Z.to_nat 1) with 1%nat.
  rewrite (read_name_holds header (a + 1) (list_ascii_of_string name) 0).
  - rewrite string_of_list_ascii_of_string. f_equal. f_equal. cbn [length].
    rewrite length_map. lia.
  - by replace (a + 1 + 0)%nat with (S a) by lia.
Qed.

Lemma depth_pos v : (1 <= depth v)%nat.
Proof. destruct v; cbn; lia. Qed.

(** The loop of [readValue] over the items of an array. *)
Lemma read_items_enc (fuel : nat) (header : list Z) (items : list jsvalue) :
  Forall (fun v => forall a, holds header a (enc_value v) ->
            IndexFile.readValue decode bytesToNumber fuel header (Some a)
            = Some (IndexFile.of_written v, Some (a + length (enc_value v))%nat)) items ->
  forall i0 arr,
  holds header i0 (concat (map enc_value items)) ->
  (fix each (n : nat) (index : option nat) (arr : list IndexFile.value)
     : option (IndexFile.value * option nat) :=
     match n with
     | O => Some (IndexFile.VArray arr, index)
     | S n' =>
         match IndexFile.readValue decode bytesToNumber fuel header index with
         | Some (v, index) => each n' index (arr ++ [v])
         | None => None
         end
     end) (length items) (Some i0) arr
  = Some (IndexFile.VArray (arr ++ List.map IndexFile.of_written items),
          Some (i0 + length (concat (map enc_value items)))%nat).
Proof.
  induction 1 as [|val rest Hval _ IH]; intros i0 arr H.
  - cbn. by rewrite app_nil_r, Nat.add_0_r.
  - cbn [length map concat List.map] in *. apply holds_app in H as [Hv H].
    rewrite (Hval i0 Hv). rewrite (IH _ _ H).
    rewrite length_app, <- app_assoc. cbn [app]. do 3 f_equal. lia.
Qed.

(** [readValue] gives back a value that was written. *)
Fixpoint readValue_enc (v : jsvalue) :
  forall fuel header a,
  (depth v <= fuel)%nat -> reads_back v -> holds header a (enc_value v) ->
  IndexFile.readValue decode bytesToNumber fuel header (Some a)
  = Some (IndexFile.of_written v, Some (a + length (enc_value v))%nat).
Proof.
  destruct v as [|s|n|b|items|]; intros fuel header a Hfuel Hback H;
    (destruct fuel as [|fuel]; [cbn in Hfuel; lia|]); cbn [enc_value] in H |- *.
  - apply holds_cons in H as [H0 _]. cbn [IndexFile.readValue].
    cbn [IndexFile.at_ mbind option_bind]. rewrite H0. cbn. do 3 f_equal. lia.
  - destruct Hback as (Hlen & Hdec).
    destruct (length_bytes_value _ Hlen) as (hi & lo & Hlb & Hhi & Hlo & Hval).
    rewrite Hlb in H |- *. cbn [app] in H.
    apply holds_cons in H as [H0 H]. apply holds_cons in H as [H1 H].
    apply holds_cons in H as [H2 H]. apply holds_slice in H.
    cbn [IndexFile.readValue]. cbn [IndexFile.at_ IndexFile.plus mbind option_bind].
    rewrite H0. cbn [IndexFile.is_type Z.eqb Pos.eqb].
    change (Z.to_nat 1) with 1%nat. change (Z.to_nat 2) with 2%nat.
    replace (a + 1)%nat with (S a) by lia. rewrite H1.
    replace (S a + 1)%nat with (S (S a)) by lia. rewrite H2.
    cbn [IndexFile.int_of default from_option id]. rewrite Hval.
    cbn [IndexFile.slice_at]. rewrite Nat2Z.id.
    replace (S a + 2)%nat with (S (S (S a))) by lia. rewrite H, Hdec.
    cbn [IndexFile.of_written IndexFile.plus mbind option_bind app length].
    rewrite Nat2Z.id. do 3 f_equal. lia.
  - destruct Hback as (Hlen & _ & Hnum).
    destruct (length_bytes_value _ Hlen) as (hi & lo & Hlb & Hhi & Hlo & Hval).
    rewrite Hlb in H |- *. cbn [app] in H.
    apply holds_cons in H as [H0 H]. apply holds_cons in H as [H1 H].
    apply holds_cons in H as [H2 H]. apply holds_slice in H.
    cbn [IndexFile.readValue]. cbn [IndexFile.at_ IndexFile.plus mbind option_bind].
    rewrite H0. cbn [IndexFile.is_type Z.eqb Pos.eqb].
    change (Z.to_nat 1) with 1%nat. change (Z.to_nat 2) with 2%nat.
    replace (a + 1)%nat with (S a) by lia. rewrite H1.
    replace (S a + 1)%nat with (S (S a)) by lia. rewrite H2.
    cbn [IndexFile.int_of default from_option id]. rewrite Hval.
    cbn [IndexFile.slice_at]. rewrite Nat2Z.id.
    replace (S a + 2)%nat with (S (S (S a))) by lia. rewrite H, Hnum.
    cbn [IndexFile.of_written IndexFile.plus mbind option_bind app length].
    rewrite Nat2Z.id. do 3 f_equal. lia.
  - apply holds_cons in H as [H0 H]. apply holds_cons in H as [H1 _].
    cbn [IndexFile.readValue]. cbn [IndexFile.at_ IndexFile.plus mbind option_bind].
    rewrite H0. cbn [IndexFile.is_type Z.eqb Pos.eqb].
    change (Z.to_nat 1) with 1%nat.
    replace (a + 1)%nat with (S a) by lia.
    cbn [IndexFile.at_ IndexFile.plus mbind option_bind]. rewrite H1.
    cbn [IndexFile.of_written length]. change (Z.to_nat 1) with 1%nat. f_equal. f_equal.
    + f_equal. by destruct b.
    + f_equal. lia.
  - apply reads_back_array in Hback as [Hlen Hall].
    destruct (length_bytes_value _ Hlen) as (hi & lo & Hlb & Hhi & Hlo & Hval).
    rewrite Hlb in H |- *. cbn [app] in H.
    apply holds_cons in H as [H0 H]. apply holds_cons in H as [H1 H].
    apply holds_cons in H as [H2 H].
    cbn [IndexFile.readValue]. cbn [IndexFile.at_ IndexFile.plus mbind option_bind].
    rewrite H0. cbn [IndexFile.is_type Z.eqb Pos.eqb].
    change (Z.to_nat 1) with 1%nat. change (Z.to_nat 2) with 2%nat.
    replace (a + 1)%nat with (S a) by lia. rewrite H1.
    replace (S a + 1)%nat with (S (S a)) by lia. rewrite H2.
    cbn [IndexFile.int_of default from_option id]. rewrite Hval, Nat2Z.id.
    replace (S a + 2)%nat with (S (S (S a))) by lia.
    cbn [IndexFile.of_written app length].
    replace (a + S (S (S (length (concat (map enc_value items))))))%nat
      with (S (S (S a)) + length (concat (map enc_value items)))%nat by lia.
    cbn [depth] in Hfuel. apply le_S_n in Hfuel.
    assert (Hitems : Forall (fun v => forall a, holds header a (enc_value v) ->
              IndexFile.readValue decode bytesToNumber fuel header (Some a)
              = Some (IndexFile.of_written v, Some (a + length (enc_value v))%nat)) items).
    { clear H Hlen Hlb Hval H0 H1 H2.
      induction items as [|val rest IH]; [constructor|].
      cbn [fold_right] in Hfuel. apply Forall_cons in Hall as [Hval Hrest].
      constructor.
      - intros a0 Ha0. apply (readValue_enc val fuel header a0); [lia|done|done].
      - apply IH; [lia|done]. }
    by rewrite (read_items_enc fuel header items Hitems _ [] H).
  - done.
Qed.

Lemma depth_enc (v : jsvalue) : reads_back v -> (depth v <= length (enc_value v))%nat.
Proof.
  revert v. fix IH 1. intros [|s|n|b|items|] Hback; cbn [depth enc_value length];
    try lia; [|done].
  apply reads_back_array in Hback as [_ Hall].
  rewrite length_app. cbn [length_bytes length].
  enough (fold_right (fun v d => Nat.max (depth v) d) 0 items
          <= length (concat (map enc_value items)))%nat by lia.
  induction items as [|val rest IHrest]; [cbn; lia|].
  apply Forall_cons in Hall as [Hval Hrest].
  cbn [fold_right map concat]. rewrite length_app.
  specialize (IH val Hval). specialize (IHrest Hrest). lia.
Qed.

Lemma enc_value_nonempty (v : jsvalue) : reads_back v -> enc_value v <> [].
Proof. by destruct v. Qed.

(** [readValue] in a header, with the fuel of [readFromFile]. *)
Lemma readValue_header (v : jsvalue) header a fuel :
  (length header <= fuel)%nat -> reads_back v -> holds header a (enc_value v) ->
  IndexFile.readValue decode bytesToNumber fuel header (Some a)
  = Some (IndexFile.of_written v, Some (a + length (enc_value v))%nat).
Proof.
  intros Hfuel Hback H. apply readValue_enc; [|done|done].
  pose proof (depth_enc v Hback). pose proof (holds_end _ _ _ H (enc_value_nonempty v Hback)).
  lia.
Qed.

(** The object that [readInfo] fills: the properties in the order in which
    they were written. *)
Definition info_of (obj : list (string * jsvalue)) (info : gmap string IndexFile.value)
    : gmap string IndexFile.value :=
  fold_left (fun info kv => <[kv.1 := IndexFile.of_written kv.2]> info) obj info.

Lemma read_entries_enc header fuel (obj : list (string * jsvalue)) :
  (length header <= fuel)%nat ->
  Forall (fun kv => reads_back kv.2) obj ->
  forall a info,
  holds header a (concat (map enc_entry obj)) ->
  IndexFile.read_entries decode bytesToNumber fuel header (length obj) (Some a) info
  = Some (info_of obj info, Some (a + length (concat (map enc_entry obj)))%nat).
Proof.
  intros Hfuel Hall. induction Hall as [|[k v] rest Hv _ IH]; intros a info H.
  - cbn. by rewrite Nat.add_0_r.
  - cbn [map concat length IndexFile.read_entries info_of fold_left] in *.
    apply holds_app in H as [Hkv H]. unfold enc_entry in Hkv at 1. cbn [fst snd] in *.
    apply holds_app in Hkv as [Hk Hval].
    rewrite (readKey_enc header a k Hk).
    rewrite (readValue_header v header _ fuel Hfuel Hv Hval).
    unfold enc_entry in H at 1. cbn [fst snd] in H. rewrite length_app in H.
    rewrite Nat.add_assoc in H. rewrite (IH _ _ H). unfold info_of.
    unfold enc_entry at 2. cbn [fst snd]. rewrite !length_app. do 3 f_equal. lia.
Qed.

Lemma readInfo_enc header fuel (obj : list (string * jsvalue)) a :
  (length header <= fuel)%nat ->
  Forall (fun kv => reads_back kv.2) obj ->
  holds header a (enc_info obj) ->
  IndexFile.readInfo decode bytesToNumber fuel header (Some a)
  = Some (info_of obj ∅, Some (a + length (enc_info obj))%nat).
Proof.
  intros Hfuel Hall H. unfold enc_info in H. apply holds_cons in H as [H0 H].
  unfold IndexFile.readInfo. cbn [IndexFile.at_ IndexFile.plus mbind option_bind].
  rewrite H0. cbn [IndexFile.int_of default from_option id]. rewrite Nat2Z.id.
  change (Z.to_nat 1) with 1%nat. replace (a + 1)%nat with (S a) by lia.
  rewrite (read_entries_enc header fuel obj Hfuel Hall _ _ H).
  unfold enc_info. cbn [length]. do 3 f_equal. lia.
Qed.

(** *** The bytes of the header are bytes *)

Lemma is_bytes_id (l : list Z) : is_bytes l -> Buffer_from l = l.
Proof.
  unfold is_bytes, Buffer_from. induction 1 as [|b l Hb _ IH]; [done|].
  cbn [map]. rewrite IH. by rewrite Z.mod_small by lia.
Qed.

Lemma is_bytes_app (l1 l2 : list Z) : is_bytes (l1 ++ l2) <-> is_bytes l1 /\ is_bytes l2.
Proof. apply Forall_app. Qed.

Lemma charCodeAt_byte (c : ascii) : (0 <= RecordPointer.charCodeAt c < 256)%Z.
Proof.
  unfold RecordPointer.charCodeAt. pose proof (N_ascii_bounded c). lia.
Qed.

Lemma is_bytes_encode (s : string) : is_bytes (encode s).
Proof.
  induction s as [|c s IH]; cbn [encode]; [constructor|].
  apply is_bytes_app. split; [|done].
  pose proof (charCodeAt_byte c) as Hc.
  destruct (RecordPointer.charCodeAt c <? 128)%Z eqn:E.
  { apply Z.ltb_lt in E. constructor; [lia|constructor]. }
  assert (H6 : (0 <= Z.shiftr (RecordPointer.charCodeAt c) 6 < 4)%Z).
  { rewrite Z.shiftr_div_pow2 by lia. change (2 ^ 6)%Z with 64%Z.
    split; [apply Z.div_pos; lia|apply Z.div_lt_upper_bound; lia]. }
  assert (Hl : (0 <= Z.land (RecordPointer.charCodeAt c) 63 < 64)%Z).
  { change 63%Z with (Z.ones 6). rewrite Z.land_ones by lia. apply Z.mod_pos_bound. lia. }
  change 192%Z with (3 * 2 ^ 6)%Z. change 128%Z with (2 * 2 ^ 6)%Z.
  rewrite !lor_disjoint by lia.
  constructor; [lia|]. constructor; [lia|constructor].
Qed.

Lemma is_bytes_length_bytes (n : nat) :
  (Z.of_nat n <= 65535)%Z -> is_bytes (length_bytes n).
Proof.
  intros Hn. destruct (length_bytes_value n Hn) as (hi & lo & -> & Hhi & Hlo & _).
  constructor; [lia|]. constructor; [lia|constructor].
Qed.

Lemma is_bytes_enc_value (v : jsvalue) : reads_back v -> is_bytes (enc_value v).
Proof.
  revert v. fix IH 1. intros [|s|n|b|items|] Hback; cbn [enc_value].
  - constructor; [lia|constructor].
  - destruct Hback as (Hlen & _). constructor; [lia|].
    apply is_bytes_app. split; [by apply is_bytes_length_bytes|apply is_bytes_encode].
  - destruct Hback as (Hlen & Hb & _). constructor; [lia|].
    apply is_bytes_app. split; [by apply is_bytes_length_bytes|done].
  - constructor; [lia|]. constructor; [destruct b; lia|constructor].
  - apply reads_back_array in Hback as [Hlen Hall]. constructor; [lia|].
    apply is_bytes_app. split; [by apply is_bytes_length_bytes|].
    clear Hlen. induction items as [|val rest IHrest]; [constructor|].
    apply Forall_cons in Hall as [Hval Hrest]. cbn [map concat].
    apply is_bytes_app. split; [by apply IH|by apply IHrest].
  - done.
Qed.

Lemma is_bytes_enc_name (name : string) :
  (String.length name < 256)%nat -> is_bytes (enc_name name).
Proof.
  intros Hn. unfold enc_name, RecordPointer.strlen. constructor; [lia|].
  apply Forall_map, Forall_forall. intros c _. apply charCodeAt_byte.
Qed.

Lemma is_bytes_enc_info (obj : list (string * jsvalue)) :
  (length obj < 256)%nat ->
  Forall (fun kv => (String.length kv.1 < 256)%nat /\ reads_back kv.2) obj ->
  is_bytes (enc_info obj).
Proof.
  intros Hn Hall. unfold enc_info. constructor; [lia|]. clear Hn.
  induction Hall as [|[k v] rest [Hk Hv] _ IH]; [constructor|].
  cbn [map concat]. apply is_bytes_app. split; [|done].
  unfold enc_entry. cbn [fst snd] in *. apply is_bytes_app.
  split; [by apply is_bytes_enc_name|by apply is_bytes_enc_value].
Qed.

(** *** The layout of the file *)

Lemma set_uint32_app (pre x post : list Z) (n : Z) :
  length x = 4%nat ->
  set_uint32 (pre ++ x ++ post) (length pre) n = pre ++ uint32_bytes n ++ post.
Proof.
  intros Hx. destruct x as [|x0 [|x1 [|x2 [|x3 [|]]]]]; try discriminate.
  unfold set_uint32, uint32_bytes.
  rewrite !insert_app_r_alt by lia.
  replace (length pre + 3 - length pre)%nat with 3%nat by lia.
  replace (length pre + 2 - length pre)%nat with 2%nat by lia.
  replace (length pre + 1 - length pre)%nat with 1%nat by lia.
  replace (length pre - length pre)%nat with 0%nat by lia.
  reflexivity.
Qed.

Lemma write_at_app (pre x post buffer : list Z) :
  length x = length buffer ->
  write_at (pre ++ x ++ post) (length pre) buffer = pre ++ buffer ++ post.
Proof.
  intros Hx. unfold write_at.
  replace (length pre - length (pre ++ x ++ post))%nat with 0%nat
    by (rewrite length_app; lia).
  cbn [replicate]. rewrite app_nil_r, take_app_length. f_equal. f_equal.
  rewrite <- Hx, drop_app_add', drop_app_length; [done|done].
Qed.

Lemma is_bytes_uint32_bytes (n : Z) : (0 <= n < 2 ^ 32)%Z -> is_bytes (uint32_bytes n).
Proof.
  intros Hn.
  destruct (uint32_bytes_value (fun _ => []) n Hn) as (b0 & b1 & b2 & b3 & -> & Hr & _).
  repeat (constructor; [lia|]). constructor.
Qed.

Lemma length_uint32_bytes (n : Z) : length (uint32_bytes n) = 4%nat.
Proof. done. Qed.

(** The two objects of the header. *)
Definition indexInfo (this : index) : list (string * jsvalue) :=
  [("type", type this); ("version", JNumber 1); ("path", path this); ("key", key this);
   ("include", includeKeys this); ("cs", caseSensitive this);
   ("locale", textLocale this)].

Definition extraTreeInfo (this : index) (stats : treeStatistics) : list (string * jsvalue) :=
  [("class", tree_class this); ("version", tree_version this);
   ("entries", totalEntries stats); ("values", totalValues stats)].

(** All that the header stores can be read back. *)
Definition header_reads_back (this : index) (stats : treeStatistics) : Prop :=
  Forall (fun kv => reads_back kv.2) (indexInfo this ++ extraTreeInfo this stats).

Lemma bind_Ok_inv {A B} (r : result A) (f : A -> result B) (b : B) :
  r ≫= f = Ok b -> exists a, r = Ok a /\ f a = Ok b.
Proof. destruct r as [a|m]; [by exists a|discriminate]. Qed.

(** The header as it leaves [_writeIndexHeader]. *)
Lemma written_layout (this : index) (stats : treeStatistics) (w : written) :
  _writeIndexHeader numberToBytes this stats = Ok w ->
  exists k,
    bytes w
    = Buffer_from
        ((signature ++ [1%Z]) ++ uint32_bytes (headerLength w)
         ++ (enc_info (indexInfo this) ++ [1%Z] ++ enc_name "default")
         ++ uint32_bytes (headerLength w) ++ [0; 0; 0; 0]%Z
         ++ enc_info (extraTreeInfo this stats) ++ repeat 0%Z k) /\
    treeRefIndex w = (24 + length (enc_info (indexInfo this)))%nat /\
    headerLength w = Z.of_nat (length (bytes w)) /\
    (headerLength w <= MAX_ARRAY_LENGTH)%Z.
Proof.
  unfold _writeIndexHeader. intros H.
  apply bind_Ok_inv in H as (h1 & E1 & H).
  apply addInfoBytes_enc in E1. subst h1.
  rewrite addNameBytes_enc in H.
  apply bind_Ok_inv in H as (h4 & E4 & H).
  apply addInfoBytes_enc in E4.
  apply bind_Ok_inv in H as (h4' & Emax & H).
  destruct (Z.of_nat (length h4) <=? MAX_ARRAY_LENGTH)%Z eqn:Emax' in Emax; [|discriminate].
  apply Ok_inj in Emax. subst h4'. apply Z.leb_le in Emax'. rename Emax' into Emax.
  apply bind_Ok_inv in H as (h5 & E5 & H).
  destruct (align_spec numberToBytes _ _ _ E5) as ([k ->] & Hmod & Hmax). clear E5.
  specialize (Hmax Emax).
  apply Ok_inj in H. subst w. cbn [bytes headerLength treeRefIndex fileIndex].
  fold (indexInfo this) in E4 |- *. fold (extraTreeInfo this stats) in E4 |- *.
  exists k. set (L := Z.of_nat (length (h4 ++ repeat 0%Z k))) in *.
  set (e1 := enc_info (indexInfo this)) in *.
  set (e2 := enc_info (extraTreeInfo this stats)) in *.
  set (nm := enc_name "default") in *.
  split; [|split; [|split]].
  - f_equal.
    assert (E : h4 ++ repeat 0%Z k
                = (signature ++ [1%Z]) ++ [0; 0; 0; 0]%Z
                  ++ ((e1 ++ [1%Z] ++ nm) ++ [0; 0; 0; 0]%Z ++ [0; 0; 0; 0]%Z ++ e2
                      ++ repeat 0%Z k)).
    { rewrite E4. unfold e1, e2, nm. by rewrite <- !app_assoc. }
    rewrite E.
    change 11%nat with (length (signature ++ [1%Z])).
    rewrite set_uint32_app by done.
    assert (E' : (signature ++ [1%Z]) ++ uint32_bytes L
                  ++ ((e1 ++ [1%Z] ++ nm) ++ [0; 0; 0; 0]%Z ++ [0; 0; 0; 0]%Z ++ e2
                      ++ repeat 0%Z k)
                 = ((signature ++ [1%Z]) ++ uint32_bytes L ++ e1 ++ [1%Z] ++ nm)
                   ++ [0; 0; 0; 0]%Z ++ ([0; 0; 0; 0]%Z ++ e2 ++ repeat 0%Z k)).
    { by rewrite <- !app_assoc. }
    rewrite E'.
    replace (length ((((signature ++ [1%Z] ++ [0; 0; 0; 0]%Z) ++ e1) ++ [1%Z]) ++ nm))
      with (length ((signature ++ [1%Z]) ++ uint32_bytes L ++ e1 ++ [1%Z] ++ nm))
      by (rewrite !length_app; cbn [length signature uint32_bytes]; lia).
    rewrite set_uint32_app by done. by rewrite <- !app_assoc.
  - rewrite !length_app. unfold nm. cbn [length signature enc_name map list_ascii_of_string app].
    lia.
  - unfold Buffer_from. by rewrite length_map, !length_set_uint32.
  - exact Hmax.
Qed.

(** *** Reading from the file *)

Lemma holds_read (pre seg rest : list Z) (n : nat) :
  (length seg <= n)%nat -> holds (IndexFile.read (pre ++ seg ++ rest) (length pre) n) 0 seg.
Proof.
  intros Hn i x Hx. unfold IndexFile.read. rewrite drop_app_length. cbn [Nat.add].
  pose proof (lookup_lt_Some _ _ _ Hx) as Hi.
  apply lookup_app_l_Some. rewrite lookup_take_lt by lia. by apply lookup_app_l_Some.
Qed.

Lemma length_read (file : list Z) (pos n : nat) : length (IndexFile.read file pos n) = n.
Proof.
  unfold IndexFile.read. rewrite length_app, length_replicate.
  pose proof (length_take_le (drop pos file) n). rewrite length_take. lia.
Qed.

Lemma read_exact (pre seg rest : list Z) :
  IndexFile.read (pre ++ seg ++ rest) (length pre) (length seg) = seg.
Proof.
  unfold IndexFile.read. rewrite drop_app_length, take_app_length.
  by rewrite Nat.sub_diag, app_nil_r.
Qed.

Lemma is_bytes_repeat (k : nat) : is_bytes (repeat 0%Z k).
Proof. induction k; cbn; constructor; [lia|done]. Qed.

(** X22: an index file is read back as it was written.  [_writeIndexHeader]
    writes the header of an index, the tree follows it in the file and
    [treeLengthCallback] fills in the length of the tree; for an index as
    the constructor leaves it, whose values the decoders give back and whose
    header and tree are shorter than [2^31] bytes, [readFromFile] then makes
    an index of the same class with the same path (without a trailing
    [/*]), key, case sensitivity, locale and included keys, and a default
    tree with the length of the header as its [fileIndex], the length of
    the tree as its [byteLength], and the class, version, entries and
    values that were written. *)
Theorem X22_index_file_read_back (this : index) (stats : treeStatistics) (w : written)
    (tree : list Z) (treeByteLength : Z) (ty p : string) (keys : list jsvalue) (cs : bool) :
  _writeIndexHeader numberToBytes this stats = Ok w ->
  (headerLength w < 2 ^ 31)%Z ->
  (0 <= treeByteLength < 2 ^ 31)%Z ->
  header_reads_back this stats ->
  type this = JString ty -> In ty ["normal"; "array"; "fulltext"; "geo"] ->
  path this = JString p ->
  (ty = "normal" \/ key this <> JString "{key}") ->
  includeKeys this = JArray keys ->
  caseSensitive this = JBoolean cs ->
  IndexFile.truthy (IndexFile.of_written (textLocale this)) = true ->
  IndexFile.readFromFile decode bytesToNumber
    (treeLengthCallback w (bytes w ++ tree) treeByteLength)
  = Some (Ok {| IndexFile.class := ty;
                IndexFile.path := IndexFile.strip_wildcard p;
                IndexFile.key := IndexFile.of_written (key this);
                IndexFile.caseSensitive := cs;
                IndexFile.textLocale := IndexFile.of_written (textLocale this);
                IndexFile.includeKeys := IndexFile.of_written (includeKeys this);
                IndexFile.trees :=
                  {[ "default" :=
                       <["values" := IndexFile.of_written (totalValues stats)]>
                         (<["entries" := IndexFile.of_written (totalEntries stats)]>
                            (<["version" := IndexFile.of_written (tree_version this)]>
                               (<["class" := IndexFile.of_written (tree_class this)]>
                                  (<["byteLength" := IndexFile.VNumber treeByteLength]>
                                     (<["fileIndex" := IndexFile.VNumber (headerLength w)]>
                                        ∅))))) ]} |}).
Proof.
  intros Hw HL31 Hlen Hback Hty Hin Hpath Hkey Hinc Hcs Hloc.
  destruct (written_layout this stats w Hw) as (k & Hbytes & Href & HL & Hmax).
  set (L := headerLength w) in *.
  assert (HL0 : (0 <= L)%Z) by lia.
  apply Forall_app in Hback as [Hback1 Hback2].
  set (e1 := enc_info (indexInfo this)) in *.
  set (e2 := enc_info (extraTreeInfo this stats)) in *.
  set (nm := enc_name "default") in *.
  assert (He1 : is_bytes e1).
  { apply is_bytes_enc_info; [cbn; lia|]. apply Forall_and. split; [|done].
    unfold indexInfo. repeat (constructor; [cbn; lia|]). constructor. }
  assert (He2 : is_bytes e2).
  { apply is_bytes_enc_info; [cbn; lia|]. apply Forall_and. split; [|done].
    unfold extraTreeInfo. repeat (constructor; [cbn; lia|]). constructor. }
  assert (Hnm : is_bytes nm) by (apply is_bytes_enc_name; cbn; lia).
  pose proof (is_bytes_uint32_bytes L ltac:(lia)) as HuL.
  pose proof (is_bytes_uint32_bytes treeByteLength ltac:(lia)) as Hut.
  set (T := e1 ++ [1%Z] ++ nm ++ uint32_bytes L ++ uint32_bytes treeByteLength
            ++ e2 ++ repeat 0%Z k).
  assert (Hfile : treeLengthCallback w (bytes w ++ tree) treeByteLength
                  = ((signature ++ [1%Z]) ++ uint32_bytes L) ++ T ++ tree).
  { unfold treeLengthCallback. rewrite Hbytes, Href.
    rewrite !is_bytes_id.
    - assert (E : ((signature ++ [1%Z]) ++ uint32_bytes L ++ (e1 ++ [1%Z] ++ nm)
                   ++ uint32_bytes L ++ [0; 0; 0; 0]%Z ++ e2 ++ repeat 0%Z k) ++ tree
                  = ((signature ++ [1%Z]) ++ uint32_bytes L ++ (e1 ++ [1%Z] ++ nm)
                     ++ uint32_bytes L)
                    ++ [0; 0; 0; 0]%Z ++ (e2 ++ repeat 0%Z k ++ tree)).
      { by rewrite <- !app_assoc. }
      rewrite E.
      replace (24 + length e1 + 4)%nat
        with (length ((signature ++ [1%Z]) ++ uint32_bytes L ++ (e1 ++ [1%Z] ++ nm)
                      ++ uint32_bytes L)).
      + rewrite write_at_app by done. unfold T. by rewrite <- !app_assoc.
      + rewrite !length_app. unfold nm.
        cbn [length signature enc_name map list_ascii_of_string app uint32_bytes]. lia.
    - done.
    - repeat (apply is_bytes_app; split); try done.
      + unfold signature. repeat (constructor; [lia|]). constructor.
      + repeat (constructor; [lia|]). constructor.
      + repeat (constructor; [lia|]). constructor.
      + repeat (constructor; [lia|]). constructor.
      + apply is_bytes_repeat. }
  assert (HlenT : (15 + length T = Z.to_nat L)%nat).
  { rewrite Hbytes in HL. unfold Buffer_from in HL. rewrite length_map in HL.
    unfold T.
    repeat first [rewrite length_app in HL | rewrite length_uint32_bytes in HL].
    repeat first [rewrite length_app | rewrite length_uint32_bytes].
    cbn [length signature] in HL |- *. lia. }
  rewrite Hfile. clear Hfile Hbytes.
  set (pre := (signature ++ [1%Z]) ++ uint32_bytes L).
  assert (R1 : IndexFile.read (pre ++ T ++ tree) 0 10 = signature).
  { exact (read_exact [] signature (([1%Z] ++ uint32_bytes L) ++ T ++ tree)). }
  assert (R2 : IndexFile.read (pre ++ T ++ tree) 10 1 = [1%Z]).
  { exact (read_exact signature [1%Z] (uint32_bytes L ++ T ++ tree)). }
  assert (R3 : IndexFile.read (pre ++ T ++ tree) 11 4 = uint32_bytes L).
  { exact (read_exact (signature ++ [1%Z]) (uint32_bytes L) (T ++ tree)). }
  assert (R4 : holds (IndexFile.read (pre ++ T ++ tree) 15 (Z.to_nat (L - 11))) 0 T).
  { apply (holds_read pre T tree). lia. }
  unfold IndexFile.readFromFile. rewrite R1, R2, R3.
  rewrite !bool_decide_eq_true_2 by done. cbn [negb].
  rewrite (int32_at_uint32_bytes (uint32_bytes L) 0 L); [|lia|done].
  rewrite (proj2 (Z.ltb_ge _ _)) by lia.
  set (header := IndexFile.read (pre ++ T ++ tree) 15 (Z.to_nat (L - 11))) in *.
  assert (Hfuel : (length header <= S (length header))%nat) by lia.
  revert Hfuel. generalize (S (length header)). intros fuel Hfuel.
  clearbody header. clear R1 R2 R3.
  unfold T in R4.
  apply holds_app in R4 as [G1 R4]. apply holds_app in R4 as [G2 R4].
  apply holds_app in R4 as [G3 R4]. apply holds_app in R4 as [G4 R4].
  apply holds_app in R4 as [G5 R4]. apply holds_app in R4 as [G6 _].
  rewrite (readInfo_enc header fuel (indexInfo this) 0 Hfuel Hback1 G1).
  assert (Hfield : forall name v,
            (info_of (indexInfo this) ∅ : gmap string IndexFile.value) !! name
            = Some (IndexFile.of_written v) ->
            IndexFile.field (info_of (indexInfo this) ∅) name = IndexFile.of_written v).
  { intros name v Hv. unfold IndexFile.field. by rewrite Hv. }
  rewrite (Hfield "type" (type this)), (Hfield "path" (path this)),
    (Hfield "key" (key this)), (Hfield "cs" (caseSensitive this)),
    (Hfield "locale" (textLocale this)), (Hfield "include" (includeKeys this)).
  2-7: unfold info_of, indexInfo; cbn [fold_left fst snd];
       repeat (rewrite lookup_insert_ne by done); by rewrite lookup_insert_eq.
  clear Hfield.
  rewrite Hty, Hpath, Hcs. cbn [IndexFile.of_written].
  assert (Hclass : existsb (String.eqb ty) ["normal"; "array"; "fulltext"; "geo"] = true).
  { apply existsb_exists. exists ty. split; [done|apply String.eqb_refl]. }
  rewrite Hclass. clear Hclass.
  assert (Hk : negb (String.eqb ty "normal")
               && match IndexFile.of_written (key this) with
                  | IndexFile.VString k0 => String.eqb k0 "{key}"
                  | _ => false
                  end = false).
  { destruct Hkey as [->|Hne]; [done|]. apply andb_false_iff. right.
    destruct (key this) as [|k0| | | |]; try done. cbn [IndexFile.of_written].
    apply String.eqb_neq. by intros ->. }
  unfold IndexFile.new_index. rewrite Hk. clear Hk.
  rewrite Hinc. cbn [IndexFile.of_written mbind result_bind IndexFile.truthy].
  rewrite Hloc.
  replace (match IndexFile.VBoolean cs with
           | IndexFile.VBoolean true => true | _ => false end) with cs by (by destruct cs).
  cbn [IndexFile.trees IndexFile.path IndexFile.key IndexFile.caseSensitive
       IndexFile.textLocale IndexFile.includeKeys].
  fold e1. cbn [Nat.add] in *.
  apply holds_cons in G2 as [G2 _].
  cbn [IndexFile.at_ IndexFile.plus mbind option_bind]. rewrite G2.
  cbn [IndexFile.int_of default from_option id]. change (Z.to_nat 1) with 1%nat.
  cbn [IndexFile.read_trees]. cbn [length] in G3.
  rewrite (readKey_enc header _ "default" G3). fold nm.
  rewrite (int32_at_uint32_bytes header _ L); [|lia|exact G4].
  cbn [IndexFile.plus mbind option_bind]. change (Z.to_nat 4) with 4%nat.
  rewrite length_uint32_bytes in G5.
  rewrite (int32_at_uint32_bytes header _ treeByteLength); [|lia|exact G5].
  rewrite !length_uint32_bytes in G6. cbn [length] in G6.
  rewrite (readInfo_enc header fuel (extraTreeInfo this stats) _ Hfuel Hback2 G6).
  rewrite insert_singleton, decide_True by done.
  unfold IndexFile.assign, info_of, extraTreeInfo. cbn [fold_left fst snd].
  rewrite <- !insert_union_l. by rewrite map_empty_union.
Qed.

(** X23: a value of the header is read back where it was written.  When
    [addValueBytes] has added a value to the bytes of a header, a value whose
    length fits its two bytes and which the decoders give back (arrays at
    any depth), [readValue] at the position where the value starts gives the
    value and leaves the index right after it, whatever follows in the
    header. *)
Theorem X23_value_read_back (bs : list Z) (v : jsvalue) (bs' rest : list Z) :
  addValueBytes numberToBytes bs v = Ok bs' ->
  reads_back v ->
  IndexFile.readValue decode bytesToNumber (S (length (Buffer_from bs' ++ rest)))
    (Buffer_from bs' ++ rest) (Some (length bs))
  = Some (IndexFile.of_written v, Some (length bs')).
Proof.
  intros Hadd Hback. apply addValueBytes_enc in Hadd. subst bs'.
  unfold Buffer_from. rewrite map_app. fold (Buffer_from (enc_value v)).
  rewrite (is_bytes_id (enc_value v)) by (by apply is_bytes_enc_value).
  rewrite (length_app bs). apply readValue_header; [lia|done|].
  intros i x Hx. rewrite <- app_assoc. rewrite lookup_app_r by (rewrite length_map; lia).
  rewrite length_map. replace (length bs + i - length bs)%nat with i by lia.
  by apply lookup_app_l_Some.
Qed.

(** A value that [addValueBytes] stores: not an object, and no array of more
    than 65535 items. *)
Fixpoint storable (v : jsvalue) : Prop :=
  match v with
  | JObject => False
  | JArray items =>
      (Z.of_nat (length items) <= 65535)%Z /\
      (fix all (items : list jsvalue) : Prop :=
         match items with
         | [] => True
         | v :: rest => storable v /\ all rest
         end) items
  | _ => True
  end.

Lemma addValueBytes_storable (v : jsvalue) :
  forall bs bs', addValueBytes numberToBytes bs v = Ok bs' -> storable v.
Proof.
  revert v. fix IH 1. intros [|s|n|b|items|] bs bs' H; cbn [addValueBytes storable] in *;
    try done.
  destruct (65535 <? Z.of_nat (length items))%Z eqn:E; [discriminate|].
  apply Z.ltb_ge in E. split; [done|]. clear E.
  revert H. generalize ((bs ++ [4%Z]) ++ length_bytes (length items)). 
  induction items as [|val rest IHrest]; intros pre H; [done|].
  destruct (addValueBytes numberToBytes pre val) as [bs1|] eqn:E; [|discriminate].
  split; [by apply (IH val pre bs1)|by apply (IHrest bs1)].
Qed.

Lemma addInfo_each_storable (obj : list (string * jsvalue)) :
  forall bs bs', addInfo_each numberToBytes bs obj = Ok bs' ->
                 Forall (fun kv => storable kv.2) obj.
Proof.
  induction obj as [|[k v] rest IH]; intros bs bs' H; cbn [addInfo_each] in H;
    [constructor|].
  apply bind_Ok_inv in H as (bs1 & E & H). constructor.
  - by apply (addValueBytes_storable v _ _ E).
  - by apply (IH _ _ H).
Qed.

(** X24: a header is only written for values that it can store.  When
    [_writeIndexHeader] does not throw, the type, path, key, included keys,
    case sensitivity and locale of the index and the class, version, entries
    and values of its tree are each undefined, a string, a number, a boolean
    or an array of at most 65535 such values. *)
Theorem X24_header_values_storable (this : index) (stats : treeStatistics) (w : written) :
  _writeIndexHeader numberToBytes this stats = Ok w ->
  Forall storable
    [type this; path this; key this; includeKeys this; caseSensitive this;
     textLocale this; tree_class this; tree_version this;
     totalEntries stats; totalValues stats].
Proof.
  unfold _writeIndexHeader. intros H.
  apply bind_Ok_inv in H as (h1 & E1 & H).
  apply bind_Ok_inv in H as (h4 & E4 & _).
  apply addInfo_each_storable in E1. apply addInfo_each_storable in E4.
  repeat match goal with
         | H : Forall _ (_ :: _) |- _ => apply Forall_cons in H as [? H]
         end.
  cbn [snd] in *. by repeat constructor.
Qed.

End HeaderCodec.

(** A decoder for the UTF-8 of 8-bit characters, and the number that eight
    big-endian bytes stand for; they undo [encode] and
    [sample_numberToBytes]. *)
Fixpoint sample_decode (l : list Z) : string :=
  match l with
  | [] => ""
  | b :: rest =>
      if (b <? 128)%Z
      then String (RecordPointer.fromCharCode (Some b)) (sample_decode rest)
      else match rest with
           | [] => ""
           | b2 :: rest' =>
               String (RecordPointer.fromCharCode
                         (Some (Z.lor (Z.shiftl (Z.land b 31) 6) (Z.land b2 63))))
                      (sample_decode rest')
           end
  end.

Definition sample_bytesToNumber (l : list Z) : Z :=
  fold_left (fun n b => n * 256 + b)%Z l 0%Z.

Definition written_of (r : result IndexHeader.written) : IndexHeader.written :=
  match r with
  | Ok w => w
  | Throw _ => {| IndexHeader.bytes := []; IndexHeader.headerLength := 0;
                  IndexHeader.treeRefIndex := 0; IndexHeader.fileIndex := 0 |}
  end.

Definition sample_written : IndexHeader.written :=
  Eval vm_compute in
    written_of (IndexHeader._writeIndexHeader sample_numberToBytes sample_index
                  sample_statistics).

Lemma sample_written_ok :
  IndexHeader._writeIndexHeader sample_numberToBytes sample_index sample_statistics
  = Ok sample_written.
Proof. vm_compute. reflexivity. Qed.

Lemma sample_reads_back :
  header_reads_back sample_numberToBytes sample_decode sample_bytesToNumber
    sample_index sample_statistics.
Proof.
  unfold header_reads_back, indexInfo, extraTreeInfo, sample_index, sample_statistics.
  cbn [app IndexHeader.type IndexHeader.path IndexHeader.key IndexHeader.includeKeys
       IndexHeader.caseSensitive IndexHeader.textLocale IndexHeader.tree_class
       IndexHeader.tree_version IndexHeader.totalEntries IndexHeader.totalValues].
  repeat (constructor; [cbn [snd reads_back]|]); [..|constructor].
  all: repeat match goal with |- _ /\ _ => split end.
  all: try exact I.
  all: try (vm_compute; congruence).
  all: constructor.
Qed.

Lemma X22_index_file_read_back_witness :
  IndexFile.readFromFile sample_decode sample_bytesToNumber
    (IndexHeader.treeLengthCallback sample_written
       (IndexHeader.bytes sample_written ++ [5; 6; 7]%Z) 3)
  = Some (Ok {| IndexFile.class := "fulltext";
                IndexFile.path := "messages";
                IndexFile.key := IndexFile.VString "text";
                IndexFile.caseSensitive := false;
                IndexFile.textLocale := IndexFile.VString "en";
                IndexFile.includeKeys := IndexFile.VArray [IndexFile.VString "title"];
                IndexFile.trees :=
                  {[ "default" :=
                       <["values" := IndexFile.VNumber 7]>
                         (<["entries" := IndexFile.VNumber 3]>
                            (<["version" := IndexFile.VNumber 1]>
                               (<["class" := IndexFile.VString "BPlusTree"]>
                                  (<["byteLength" := IndexFile.VNumber 3]>
                                     (<["fileIndex" := IndexFile.VNumber 4096]> ∅))))) ]} |}).
Proof.
  refine (eq_trans
    (X22_index_file_read_back sample_numberToBytes sample_decode sample_bytesToNumber
       sample_index sample_statistics sample_written [5; 6; 7]%Z 3 "fulltext" "messages"
       [IndexHeader.JString "title"] false
       sample_written_ok _ _ sample_reads_back eq_refl _ eq_refl _ eq_refl eq_refl eq_refl) _).
  - reflexivity.
  - lia.
  - cbn; tauto.
  - right; discriminate.
  - reflexivity.
Defined.

Lemma X23_value_read_back_witness :
  IndexFile.readValue sample_decode sample_bytesToNumber 24
    [9; 4; 0; 2; 1; 0; 3; 97; 47; 98; 2; 0; 8; 0; 0; 0; 0; 0; 0; 0; 7; 255; 255]%Z
    (Some 1%nat)
  = Some (IndexFile.VArray [IndexFile.VString "a/b"; IndexFile.VNumber 7], Some 21%nat).
Proof.
  exact (X23_value_read_back sample_numberToBytes sample_decode sample_bytesToNumber
           [9%Z] (IndexHeader.JArray [IndexHeader.JString "a/b"; IndexHeader.JNumber 7])
           [9; 4; 0; 2; 1; 0; 3; 97; 47; 98; 2; 0; 8; 0; 0; 0; 0; 0; 0; 0; 7]%Z
           [255; 255]%Z eq_refl
           ltac:(cbn; repeat split; try (vm_compute; congruence);
                 repeat (constructor; [split; vm_compute; congruence|]); constructor)).
Defined.

Lemma X24_header_values_storable_witness :
  Forall storable
    [IndexHeader.JString "fulltext"; IndexHeader.JString "messages";
     IndexHeader.JString "text"; IndexHeader.JArray [IndexHeader.JString "title"];
     IndexHeader.JBoolean false; IndexHeader.JString "en";
     IndexHeader.JString "BPlusTree"; IndexHeader.JNumber 1;
     IndexHeader.JNumber 3; IndexHeader.JNumber 7].
Proof.
  exact (X24_header_values_storable sample_numberToBytes sample_index sample_statistics
           sample_written sample_written_ok).
Defined.
